(** * Darktide Scoreboard Tracker: parser, ingestion and query layer

    A shallow embedding of [parser.js] (parsing of one scoreboard file and
    the batch loader), of the repository part of [db.js] ([insertGame],
    [getGames]) and of the helpers of [utils.js] they call, followed by
    the properties checked against the written specification.  The
    settings, the filter, player and property queries of [db.js], the
    general statistics of [stats.js] and the display helpers of
    [utils.js] are embedded as well, with the properties the code shows
    of them.

    Conventions of the embedding.
    - A JavaScript string is a sequence of UTF-16 code units.  A Rocq
      [string] stands for the JavaScript string whose code units are the
      numbers of its characters, so the model covers the texts whose code
      units are below 256 (Latin-1); the grammar of the log files is ASCII.
    - A JavaScript number produced by [parseInt] is represented by the
      integer it denotes and [NaN] by [None]; the run-time value is the
      double nearest to that integer, which is the integer itself up to
      2^53.  A number produced by [parseFloat] is kept as the decimal it
      was read from.
    - A JavaScript object used as a dictionary is an association list
      kept in the order in which [Object.entries] enumerates it, or a
      finite map where the order plays no part; it holds the keys of the
      object itself.  The names every object inherits from
      [Object.prototype] are listed in [Js.inheritedNames]; a property
      that depends on the ids being none of them says so.
    - The SQLite engine behind [runStatement] is represented by the
      tables of [SCHEMA_SQL] with their constraints; a statement either
      applies completely or fails and leaves the tables as they were. *)

From Stdlib Require Import ZArith Ascii String List Lia Bool.
From Stdlib Require Import Permutation Sorted DecimalString.
From stdpp Require Import base option list sorting strings gmap.
Import ListNotations.

Open Scope string_scope.
Open Scope list_scope.
Open Scope Z_scope.

(** ** JavaScript string primitives *)

Module Js.

Definition code (c : ascii) : N := N_of_ascii c.

(** [WhiteSpace] and [LineTerminator] code units below 256: TAB, LF, VT,
    FF, CR, SP and NBSP. *)
Definition isWhiteSpace (c : ascii) : bool :=
  let n := code c in
  (((9 <=? n) && (n <=? 13)) || (n =? 32) || (n =? 160))%N.

Definition isDigit (c : ascii) : bool :=
  let n := code c in ((48 <=? n) && (n <=? 57))%N.

Definition isLowerHex (c : ascii) : bool :=
  let n := code c in (isDigit c || ((97 <=? n) && (n <=? 102)))%N.

(** The class [\w] of regular expressions: [A-Za-z0-9_]. *)
Definition isWordChar (c : ascii) : bool :=
  let n := code c in
  (isDigit c || ((65 <=? n) && (n <=? 90)) || ((97 <=? n) && (n <=? 122))
   || (n =? 95))%N.

Definition lowerChar (c : ascii) : ascii :=
  let n := code c in
  if (((65 <=? n) && (n <=? 90))
      || ((192 <=? n) && (n <=? 222) && negb (n =? 215)))%N
  then ascii_of_N (n + 32) else c.

Definition upperChar (c : ascii) : ascii :=
  let n := code c in
  if (((97 <=? n) && (n <=? 122))
      || ((224 <=? n) && (n <=? 254) && negb (n =? 247)))%N
  then ascii_of_N (n - 32) else c.

Fixpoint mapChars (f : ascii -> ascii) (s : string) : string :=
  match s with
  | EmptyString => EmptyString
  | String c r => String (f c) (mapChars f r)
  end.

Definition toLowerCase : string -> string := mapChars lowerChar.

(** Dropping the characters of a class at either end of a string. *)
Fixpoint dropStart (p : ascii -> bool) (s : string) : string :=
  match s with
  | EmptyString => EmptyString
  | String c r => if p c then dropStart p r else s
  end.

Fixpoint dropEnd (p : ascii -> bool) (s : string) : string :=
  match s with
  | EmptyString => EmptyString
  | String c r =>
      match dropEnd p r with
      | EmptyString => if p c then EmptyString else String c EmptyString
      | t => String c t
      end
  end.

Definition trimStart : string -> string := dropStart isWhiteSpace.
Definition trimEnd : string -> string := dropEnd isWhiteSpace.
Definition trim (s : string) : string := trimEnd (trimStart s).

Fixpoint startsWith (p s : string) : bool :=
  match p, s with
  | EmptyString, _ => true
  | String a p', String b s' => Ascii.eqb a b && startsWith p' s'
  | String _ _, EmptyString => false
  end.

Fixpoint endsWith (p s : string) : bool :=
  String.eqb p s
  || match s with
     | EmptyString => false
     | String _ r => endsWith p r
     end.

Fixpoint includesChar (x : ascii) (s : string) : bool :=
  match s with
  | EmptyString => false
  | String c r => Ascii.eqb c x || includesChar x r
  end.

(** [s.split(sep)] for a one-character separator; never the empty list. *)
Fixpoint split (sep : ascii) (s : string) : list string :=
  match s with
  | EmptyString => [EmptyString]
  | String c r =>
      if Ascii.eqb c sep then EmptyString :: split sep r
      else match split sep r with
           | f :: fs => String c f :: fs
           | [] => [String c EmptyString]
           end
  end.

(** [s.replace(/pat/g, rep)] for a literal, non-empty pattern: the
    occurrences are found from left to right and do not overlap.  [skip]
    counts the characters of a match still to be dropped. *)
Fixpoint replaceAllFrom (pat rep : string) (skip : nat) (s : string) : string :=
  match s with
  | EmptyString => EmptyString
  | String c r =>
      match skip with
      | S k => replaceAllFrom pat rep k r
      | O =>
          if startsWith pat s
          then rep +:+ replaceAllFrom pat rep (String.length pat - 1) r
          else String c (replaceAllFrom pat rep O r)
      end
  end.

Definition replaceAll (pat rep s : string) : string := replaceAllFrom pat rep O s.

(** The value of the longest run of decimal digits [s] starts with, given
    the value [acc] of the digits already read ([None]: none yet). *)
Fixpoint digitsPrefix (acc : option Z) (s : string) : option Z :=
  match s with
  | EmptyString => acc
  | String c r =>
      if isDigit c
      then digitsPrefix (Some (10 * default 0 acc + (Z.of_N (code c) - 48))) r
      else acc
  end.

(** [parseInt(s, 10)]: leading white space is skipped, one sign is
    accepted, then the longest run of digits is read and whatever follows
    is ignored; no digit gives [NaN]. *)
Definition isNegative (s : string) : bool :=
  match s with
  | String c _ => Ascii.eqb c "-"
  | EmptyString => false
  end.

Definition afterSign (s : string) : string :=
  match s with
  | String c r => if Ascii.eqb c "-" || Ascii.eqb c "+" then r else s
  | EmptyString => s
  end.

Definition parseInt (s : string) : option Z :=
  let t := trimStart s in
  let digits := digitsPrefix None (afterSign t) in
  if isNegative t then Z.opp <$> digits else digits.

(** Numbers read by [parseFloat]: an infinity, or the finite decimal
    [(-1)^neg * mant * 10^exp10] whose nearest double is the value. *)
Inductive number :=
  | Infinite (neg : bool)
  | Decimal (neg : bool) (mant : N) (exp10 : Z).

(** Reading a run of digits into a mantissa, counting the digits read. *)
Fixpoint readDigits (mant : N) (count : Z) (s : string) : N * Z * string :=
  match s with
  | String c r =>
      if isDigit c
      then readDigits (10 * mant + (code c - 48))%N (count + 1) r
      else (mant, count, s)
  | EmptyString => (mant, count, s)
  end.

(** The [ExponentPart] of a decimal literal, when it is complete. *)
Definition readExponent (s : string) : Z :=
  match s with
  | String e r =>
      if Ascii.eqb e "e" || Ascii.eqb e "E" then
        match r with
        | String "-" d =>
            let '(m, n, _) := readDigits 0%N 0 d in
            if 0 <? n then - Z.of_N m else 0
        | String "+" d =>
            let '(m, _, _) := readDigits 0%N 0 d in Z.of_N m
        | d => let '(m, _, _) := readDigits 0%N 0 d in Z.of_N m
        end
      else 0
  | EmptyString => 0
  end.

(** The longest prefix of [s] that is a [StrUnsignedDecimalLiteral]. *)
Definition readUnsigned (neg : bool) (s : string) : option number :=
  if startsWith "Infinity" s then Some (Infinite neg)
  else
    let '(m1, n1, r1) := readDigits 0%N 0 s in
    match r1 with
    | String "." r2 =>
        let '(m2, n2, r3) := readDigits m1 0 r2 in
        if (0 <? n1) || (0 <? n2)
        then Some (Decimal neg m2 (readExponent r3 - n2))
        else None
    | _ => if 0 <? n1 then Some (Decimal neg m1 (readExponent r1)) else None
    end.

(** [parseFloat(s)]; [None] is [NaN]. *)
Definition parseFloat (s : string) : option number :=
  match trimStart s with
  | String "-" r => readUnsigned true r
  | String "+" r => readUnsigned false r
  | r => readUnsigned false r
  end.

(** The names every plain object inherits from [Object.prototype].  On
    an object literal [{}] a read of one of them, or a test with [in]
    or for truth, finds the inherited value although the object has no
    such key of its own, and an assignment to [__proto__] replaces the
    prototype instead of adding a key. *)
Definition inheritedNames : list string :=
  ["__proto__"; "constructor"; "hasOwnProperty"; "isPrototypeOf";
   "propertyIsEnumerable"; "toLocaleString"; "toString"; "valueOf";
   "__defineGetter__"; "__defineSetter__"; "__lookupGetter__"; "__lookupSetter__"].

Definition inherited (k : string) : bool := existsb (String.eqb k) inheritedNames.

End Js.

(** ** Ordered dictionaries

    [Object.entries] enumerates the keys that are array indices first, in
    increasing numeric order, and then the other keys in the order in
    which they were created.  A dictionary is the list of its entries in
    that order, and a lookup in it is a lookup among the keys of the
    object itself.  The names that every object inherits ([constructor],
    [toString], [__proto__] and the like) are the matter of
    [Js.inherited]. *)

Module Obj.

Section Dict.
Context {V : Type}.

Definition t := list (string * V).

Fixpoint get (k : string) (o : list (string * V)) : option V :=
  match o with
  | [] => None
  | (k', v) :: r => if String.eqb k k' then Some v else get k r
  end.

Definition has (k : string) (o : list (string * V)) : bool :=
  match get k o with Some _ => true | None => false end.

Definition keys (o : list (string * V)) : list string := map fst o.

(** In-place update of the entries stored under [k]. *)
Fixpoint update (k : string) (f : V -> V) (o : list (string * V)) : list (string * V) :=
  match o with
  | [] => []
  | (k', v) :: r =>
      if String.eqb k k' then (k', f v) :: update k f r
      else (k', v) :: update k f r
  end.

(** A canonical numeric string denoting an array index: [0], or digits
    without a leading zero, below 2^32 - 1. *)
Definition arrayIndex (k : string) : option Z :=
  match k with
  | EmptyString => None
  | String c r =>
      if Js.isDigit c && negb (Ascii.eqb c "0" && negb (String.eqb r EmptyString))
      then
        match Js.readDigits 0%N 0 k with
        | (m, _, EmptyString) =>
            if (String.length k <=? 10)%nat && (Z.of_N m <? 4294967295)
            then Some (Z.of_N m) else None
        | _ => None
        end
      else None
  end.

(** Where a new key goes: an array index before the first entry that is
    not one or has a larger index, any other key at the end. *)
Fixpoint place (k : string) (ix : option Z) (v : V) (o : list (string * V)) : list (string * V) :=
  match o with
  | [] => [(k, v)]
  | (k', v') :: r =>
      match ix, arrayIndex k' with
      | Some i, Some j => if i <? j then (k, v) :: o else (k', v') :: place k ix v r
      | Some _, None => (k, v) :: o
      | None, _ => (k', v') :: place k ix v r
      end
  end.

(** [o[k] = v]. *)
Definition set (k : string) (v : V) (o : list (string * V)) : list (string * V) :=
  if has k o then update k (fun _ => v) o else place k (arrayIndex k) v o.

End Dict.

End Obj.

(** ** Helpers of [utils.js] *)

Module Utils.

(** Exactly [n] lower-case hexadecimal digits; what follows them. *)
Fixpoint hexRun (n : nat) (s : string) : option string :=
  match n with
  | O => Some s
  | S k =>
      match s with
      | String c r => if Js.isLowerHex c then hexRun k r else None
      | EmptyString => None
      end
  end.

(** Runs of lower-case hexadecimal digits of the given lengths, separated
    by dashes, and nothing else. *)
Fixpoint hexGroups (groups : list nat) (s : string) : bool :=
  match groups with
  | [] => false
  | [n] =>
      match hexRun n s with
      | Some EmptyString => true
      | _ => false
      end
  | n :: gs =>
      match hexRun n s with
      | Some (String "-" r) => hexGroups gs r
      | _ => false
      end
  end.

(** [UUID_PATTERN.test(text)]. *)
Definition isUuid (text : string) : bool := hexGroups [8; 4; 4; 4; 12]%nat text.

(** After [{#color(]: any characters other than a closing parenthesis,
    then the two characters closing the code. *)
Fixpoint colorArgument (s : string) : option string :=
  match s with
  | EmptyString => None
  | String ")" r =>
      match r with
      | String "}" r' => Some r'
      | _ => None
      end
  | String _ r => colorArgument r
  end.

Fixpoint dropPrefix (p s : string) : option string :=
  match p, s with
  | EmptyString, _ => Some s
  | String a p', String b s' => if Ascii.eqb a b then dropPrefix p' s' else None
  | String _ _, EmptyString => None
  end.

(** The length of the match of [COLOR_CODE_PATTERN] at the start of [s]. *)
Definition colorCodeLength (s : string) : option nat :=
  match dropPrefix "{#color(" s with
  | Some r =>
      match colorArgument r with
      | Some rest => Some (String.length s - String.length rest)%nat
      | None => None
      end
  | None => if Js.startsWith "{#reset()}" s then Some 10%nat else None
  end.

Fixpoint removeColorCodes (skip : nat) (s : string) : string :=
  match s with
  | EmptyString => EmptyString
  | String c r =>
      match skip with
      | S k => removeColorCodes k r
      | O =>
          match colorCodeLength s with
          | Some n => removeColorCodes (n - 1) r
          | None => String c (removeColorCodes O r)
          end
      end
  end.

Definition stripColorCodes (text : string) : string :=
  Js.trim (removeColorCodes O text).

Definition isUnderscore (c : ascii) : bool := Ascii.eqb c "_".

Definition generateBotIdentifier (rawBotName : string) : string :=
  let stripped := stripColorCodes rawBotName in
  let sanitized :=
    Js.dropEnd isUnderscore
      (Js.dropStart isUnderscore
         (Js.replaceAll " " "_"
            (Js.replaceAll "[bot]" EmptyString (Js.toLowerCase stripped)))) in
  "bot_" +:+ sanitized.

(** [s.replace(/\b\w/g, c => c.toUpperCase())]: [prevWord] tells whether
    the character before [s] is a word character. *)
Fixpoint capitalizeWords (prevWord : bool) (s : string) : string :=
  match s with
  | EmptyString => EmptyString
  | String c r =>
      String (if Js.isWordChar c && negb prevWord then Js.upperChar c else c)
             (capitalizeWords (Js.isWordChar c) r)
  end.

Fixpoint removeLast (s : string) : string :=
  match s with
  | EmptyString => EmptyString
  | String c EmptyString => EmptyString
  | String c r => String c (removeLast r)
  end.

Definition cleanDisplayName (name : string) : string :=
  if Js.startsWith "<" name && Js.endsWith ">" name then
    let inner := removeLast (match name with String _ r => r | EmptyString => EmptyString end) in
    if Js.includesChar "_" inner && String.eqb inner (Js.toLowerCase inner)
    then capitalizeWords false (Js.replaceAll "_" " " inner)
    else inner
  else name.

(** The assertion [\b] between a character that is or is not a word
    character and the string [s] that follows it. *)
Definition wordBoundary (prevWord : bool) (s : string) : bool :=
  xorb prevWord
       (match s with
        | String c _ => Js.isWordChar c
        | EmptyString => false
        end).

Fixpoint lastIsWord (prevWord : bool) (lit : string) : bool :=
  match lit with
  | EmptyString => prevWord
  | String c r => lastIsWord (Js.isWordChar c) r
  end.

(** A match of [\b lit \b] at the start of [s]: what follows it. *)
Definition matchWordAt (prevWord : bool) (lit s : string) : option string :=
  if wordBoundary prevWord s then
    match dropPrefix lit s with
    | Some rest => if wordBoundary (lastIsWord prevWord lit) rest then Some rest else None
    | None => None
    end
  else None.

(** [new RegExp('\\b' + lit + '\\b').test(s)], the literal being escaped. *)
Fixpoint testWord (prevWord : bool) (lit s : string) : bool :=
  match matchWordAt prevWord lit s with
  | Some _ => true
  | None =>
      match s with
      | EmptyString => false
      | String c r => testWord (Js.isWordChar c) lit r
      end
  end.

(** [s.replace(new RegExp('\\b' + lit + '\\b'), '')]: the first match goes. *)
Fixpoint removeFirstWord (prevWord : bool) (lit s : string) : string :=
  match matchWordAt prevWord lit s with
  | Some rest => rest
  | None =>
      match s with
      | EmptyString => EmptyString
      | String c r => String c (removeFirstWord (Js.isWordChar c) lit r)
      end
  end.

(** [s.replace(/\s+/g, ' ')]. *)
Fixpoint collapseSpaces (inRun : bool) (s : string) : string :=
  match s with
  | EmptyString => EmptyString
  | String c r =>
      if Js.isWhiteSpace c
      then if inRun then collapseSpaces true r else String " " (collapseSpaces true r)
      else String c (collapseSpaces false r)
  end.

Definition expandChildDisplayName (childDisplay parentDisplay : string)
    (siblingDisplays : list string) : string :=
  if (1 <? length (Js.split " " childDisplay))%nat then childDisplay
  else if negb (testWord false childDisplay parentDisplay) then childDisplay
  else
    let result := Js.replaceAll " / " " " parentDisplay in
    let result := fold_left (fun acc sibling => removeFirstWord false sibling acc)
                            siblingDisplays result in
    let result := Js.trim (collapseSpaces false result) in
    if String.eqb result EmptyString then childDisplay else result.

End Utils.

(** ** The parser of [parser.js] *)

Module Parser.

Definition DEFAULT_GROUP_ID : string := "row_resource_score".
Definition DEFAULT_GROUP_NAME : string := "Resource & Teamwork".
Definition INGEST_BATCH_SIZE : nat := 200.

(** The metadata of one [#row].  [groupId] and [groupName] are [None]
    when a [#group] line without fields left them [undefined]; [parentId]
    and [childIds] are [None] for [null]; [rowOrder] is [None] for [NaN]. *)
Record metadata := Metadata {
  displayName : string;
  groupId : option string;
  groupName : option string;
  sortDirection : string;
  isSummary : bool;
  parentId : option string;
  childIds : option string;
  rowOrder : option Z;
  visible : bool;
  pluginId : string
}.

(** The draft match record.  [players] holds [slot, playerId, playerName]
    triples, [scores] holds [rowId, playerId, value] triples,
    [discoveredExtraPlayers] is a [Set], enumerated in insertion order. *)
Record game := Game {
  filename : string;
  timestamp : Z;
  missionId : string;
  difficulty : option Z;
  modifier : string;
  result : string;
  durationSeconds : option Z;
  players : list (option Z * string * string);
  propertyMetadata : list (string * metadata);
  scores : list (string * string * Js.number);
  discoveredBots : list (string * string);
  discoveredExtraPlayers : list string
}.

Definition setMission (g : game) (mid : string) (diff : option Z) (modif res : string)
    (dur : option Z) : game :=
  Game (filename g) (timestamp g) mid diff modif res dur (players g)
       (propertyMetadata g) (scores g) (discoveredBots g) (discoveredExtraPlayers g).

Definition setPlayers (g : game) (ps : list (option Z * string * string)) : game :=
  Game (filename g) (timestamp g) (missionId g) (difficulty g) (modifier g) (result g)
       (durationSeconds g) ps (propertyMetadata g) (scores g) (discoveredBots g)
       (discoveredExtraPlayers g).

Definition setPropertyMetadata (g : game) (pm : list (string * metadata)) : game :=
  Game (filename g) (timestamp g) (missionId g) (difficulty g) (modifier g) (result g)
       (durationSeconds g) (players g) pm (scores g) (discoveredBots g)
       (discoveredExtraPlayers g).

Definition setScores (g : game) (sc : list (string * string * Js.number)) : game :=
  Game (filename g) (timestamp g) (missionId g) (difficulty g) (modifier g) (result g)
       (durationSeconds g) (players g) (propertyMetadata g) sc (discoveredBots g)
       (discoveredExtraPlayers g).

Definition setDiscoveredBots (g : game) (bots : list (string * string)) : game :=
  Game (filename g) (timestamp g) (missionId g) (difficulty g) (modifier g) (result g)
       (durationSeconds g) (players g) (propertyMetadata g) (scores g) bots
       (discoveredExtraPlayers g).

Definition setDiscoveredExtraPlayers (g : game) (extra : list string) : game :=
  Game (filename g) (timestamp g) (missionId g) (difficulty g) (modifier g) (result g)
       (durationSeconds g) (players g) (propertyMetadata g) (scores g) (discoveredBots g)
       extra.

Definition setParentId (p : option string) (m : metadata) : metadata :=
  Metadata (displayName m) (groupId m) (groupName m) (sortDirection m) (isSummary m)
           p (childIds m) (rowOrder m) (visible m) (pluginId m).

Definition setDisplayName (d : string) (m : metadata) : metadata :=
  Metadata d (groupId m) (groupName m) (sortDirection m) (isSummary m)
           (parentId m) (childIds m) (rowOrder m) (visible m) (pluginId m).

(** [parts.length > i ? parts[i] : dflt]. *)
Definition field (parts : list string) (i : nat) (dflt : string) : string :=
  default dflt (parts !! i).

(** The iterations of [for (let i = 0; i < count; i++)]. *)
Definition iterations (count : option Z) : nat :=
  match count with
  | Some n => Z.to_nat n
  | None => O
  end.

Definition parseMissionLine (line : string) (g : game) : game :=
  let parts := Js.split ";" line in
  if (length parts <? 3)%nat then g
  else
    let rawModifier := field parts 3 EmptyString in
    setMission g
      (Js.trim (field parts 1 EmptyString))
      (Js.parseInt (field parts 2 EmptyString))
      (if String.eqb rawModifier "nil" || String.eqb rawModifier "default"
          || String.eqb rawModifier EmptyString
       then EmptyString else rawModifier)
      (field parts 4 "unknown")
      (match parts !! 5%nat with
       | Some d => Js.parseInt d
       | None => Some 0
       end).

(** The loop of [parsePlayersSection]; [n] iterations are left. *)
Fixpoint playerLines (n : nat) (lines : list string) (lineIndex : nat)
    (g : game) (knownPlayerIds : gset string) : nat * game * gset string :=
  match n with
  | O => (lineIndex, g, knownPlayerIds)
  | S n' =>
      let lineIndex := S lineIndex in
      match lines !! lineIndex with
      | None => (lineIndex, g, knownPlayerIds)
      | Some l =>
          let playerParts := Js.split ";" (Js.trim l) in
          if (length playerParts <? 2)%nat
          then playerLines n' lines lineIndex g knownPlayerIds
          else
            let slot := Js.parseInt (field playerParts 0 EmptyString) in
            let playerId := field playerParts 1 EmptyString in
            let playerName := field playerParts 2 "Unknown" in
            playerLines n' lines lineIndex
              (setPlayers g (players g ++ [(slot, playerId, playerName)]))
              ({[playerId]} ∪ knownPlayerIds)
      end
  end.

Definition parsePlayersSection (lines : list string) (lineIndex : nat)
    (g : game) (knownPlayerIds : gset string) : nat * game * gset string :=
  let parts := Js.split ";" (Js.trim (default EmptyString (lines !! lineIndex))) in
  if (length parts <? 2)%nat then (lineIndex, g, knownPlayerIds)
  else playerLines (iterations (Js.parseInt (field parts 1 EmptyString)))
                   lines lineIndex g knownPlayerIds.

(** [set.add(x)] on a [Set] kept as the list of its elements. *)
Definition setAdd (x : string) (l : list string) : list string :=
  if bool_decide (x ∈ l) then l else l ++ [x].

(** What one value line [participantToken;numericValue] records: nothing
    when the value is not a number, else the participant (a genuine id,
    noted as an extra player when the roster does not have it, or a bot
    under its synthetic id) and the score. *)
Definition scoreLine (rowId : string) (knownPlayerIds : gset string)
    (dataLine : string) (g : game) : game :=
  let dataParts := Js.split ";" dataLine in
  let rawPlayerIdentifier := field dataParts 0 EmptyString in
  match dataParts !! 1%nat ≫= Js.parseFloat with
  | None => g
  | Some value =>
      if Utils.isUuid rawPlayerIdentifier then
        let playerId := rawPlayerIdentifier in
        let g := if bool_decide (playerId ∈ knownPlayerIds) then g
                 else setDiscoveredExtraPlayers g (setAdd playerId (discoveredExtraPlayers g)) in
        setScores g (scores g ++ [(rowId, playerId, value)])
      else
        let botId := Utils.generateBotIdentifier rawPlayerIdentifier in
        let g := setDiscoveredBots g
                   (Obj.set botId (Utils.stripColorCodes rawPlayerIdentifier) (discoveredBots g)) in
        setScores g (scores g ++ [(rowId, botId, value)])
  end.

(** How one iteration of the value-line loop of [parseRowSection] ends:
    with the next iteration, or with the loop left by [break]. *)
Inductive outcome :=
  | Continue (lineIndex : nat) (g : game)
  | Break (lineIndex : nat) (g : game).

(** The body of the loop, entered with the index of the line before. *)
Definition dataLineStep (rowId : string) (knownPlayerIds : gset string)
    (lines : list string) (lineIndex : nat) (g : game) : outcome :=
  let lineIndex := S lineIndex in
  match lines !! lineIndex with
  | None => Break lineIndex g
  | Some l =>
      let dataLine := Js.trim l in
      if String.eqb dataLine EmptyString || Js.startsWith "#" dataLine
      then Break (lineIndex - 1) g
      else Continue lineIndex (scoreLine rowId knownPlayerIds dataLine g)
  end.

Fixpoint dataLines (n : nat) (rowId : string) (knownPlayerIds : gset string)
    (lines : list string) (lineIndex : nat) (g : game) : nat * game :=
  match n with
  | O => (lineIndex, g)
  | S n' =>
      match dataLineStep rowId knownPlayerIds lines lineIndex g with
      | Continue lineIndex g => dataLines n' rowId knownPlayerIds lines lineIndex g
      | Break lineIndex g => (lineIndex, g)
      end
  end.

Definition nilToNull (raw : string) : option string :=
  if String.eqb raw "nil" then None else Some raw.

(** [parseRowSection].  The metadata of the row is stored under the row
    id in [game.propertyMetadata], an object literal: the model gives
    what the code does for a row id other than [__proto__], an
    assignment to which replaces the prototype of the object and adds
    no key. *)
Definition parseRowSection (lines : list string) (lineIndex : nat) (line : string)
    (g : game) (knownPlayerIds : gset string)
    (currentGroupId currentGroupName : option string) : nat * game :=
  let parts := Js.split ";" line in
  if (length parts <? 2)%nat then (lineIndex, g)
  else
    let rowId := field parts 1 EmptyString in
    let rowOrder := match parts !! 2%nat with Some f => Js.parseInt f | None => Some 0 end in
    let dataLineCount := match parts !! 3%nat with Some f => Js.parseInt f | None => Some 0 end in
    let displayName := match parts !! 4%nat with
                       | Some f => Utils.cleanDisplayName f
                       | None => rowId
                       end in
    let sortDirection := field parts 5 "ASC" in
    let flagField := field parts 7 "nil" in
    let pluginId := field parts 9 EmptyString in
    let parentId := nilToNull (field parts 10 "nil") in
    let childIds := nilToNull (field parts 12 "nil") in
    let isSummary := match childIds with
                     | Some c => Js.includesChar ":" c
                     | None => false
                     end in
    let visible := negb (String.eqb flagField "false") in
    let g := setPropertyMetadata g
               (Obj.set rowId
                  (Metadata displayName currentGroupId currentGroupName sortDirection
                            isSummary parentId childIds rowOrder visible pluginId)
                  (propertyMetadata g)) in
    dataLines (iterations dataLineCount) rowId knownPlayerIds lines lineIndex g.

(** *** The hierarchy post-pass *)

(** One parenting candidate [[rowId, childCount]] for [childId], when
    that property exists and has no parent.  The table [candidates] is
    an object literal tested by truth: the model gives what the code
    does for a child id that is no name every object inherits; for such
    a name the test finds the inherited value and [push] throws. *)
Definition addCandidate (pm : list (string * metadata)) (rowId : string) (childCount : nat)
    (candidates : list (string * list (string * nat))) (childId : string)
    : list (string * list (string * nat)) :=
  match Obj.get childId pm with
  | Some child =>
      match parentId child with
      | None =>
          Obj.set childId (default [] (Obj.get childId candidates) ++ [(rowId, childCount)])
                  candidates
      | Some _ => candidates
      end
  | None => candidates
  end.

(** The candidates a property contributes through its [childIds]. *)
Definition candidatesOf (pm : list (string * metadata))
    (candidates : list (string * list (string * nat))) (entry : string * metadata)
    : list (string * list (string * nat)) :=
  match childIds (snd entry) with
  | None => candidates
  | Some c =>
      if String.eqb c EmptyString then candidates
      else
        let childList := Js.split ":" c in
        fold_left (addCandidate pm (fst entry) (length childList)) childList candidates
  end.

Definition collectCandidates (pm : list (string * metadata))
    : list (string * list (string * nat)) :=
  fold_left (candidatesOf pm) pm [].

(** [parentOptions.sort((a, b) => a[1] - b[1])]; the sort of an array is
    stable, as is this insertion sort. *)
Fixpoint insertByCount (x : string * nat) (l : list (string * nat)) : list (string * nat) :=
  match l with
  | [] => [x]
  | y :: r => if (snd x <=? snd y)%nat then x :: l else y :: insertByCount x r
  end.

Definition sortByCount (l : list (string * nat)) : list (string * nat) :=
  fold_right insertByCount [] l.

Definition assignParent (pm : list (string * metadata))
    (candidate : string * list (string * nat)) : list (string * metadata) :=
  match sortByCount (snd candidate) with
  | (parent, _) :: _ => Obj.update (fst candidate) (setParentId (Some parent)) pm
  | [] => pm
  end.

(** The first half of [linkOrphanedChildren]: orphan linking. *)
Definition linkOrphans (pm : list (string * metadata)) : list (string * metadata) :=
  fold_left assignParent (collectCandidates pm) pm.

(** [pluginParents]: for each plugin id, the visible parentless property
    enumerated last.  The table is an object literal, written by
    assignment and read with [in]: the model gives what the code does
    for plugin ids that are no names every object inherits; for such a
    name the assignment to [__proto__] adds no key, and [in] finds the
    inherited value of the others. *)
Definition notePluginParent (acc : gmap string string) (entry : string * metadata)
    : gmap string string :=
  let m := snd entry in
  if negb (String.eqb (pluginId m) EmptyString) && visible m
     && bool_decide (parentId m = None)
  then <[pluginId m := fst entry]> acc
  else acc.

Definition pluginParents (pm : list (string * metadata)) : gmap string string :=
  fold_left notePluginParent pm ∅.

(** The plugin parent a property is attached to, under the same
    condition on the plugin ids. *)
Definition attachToPlugin (parents : gmap string string) (entry : string * metadata)
    : string * metadata :=
  let '(rowId, m) := entry in
  if negb (bool_decide (parentId m = None)) || visible m then entry
  else if String.eqb (pluginId m) EmptyString then entry
  else
    match parents !! pluginId m with
    | Some parent =>
        if String.eqb parent rowId then entry else (rowId, setParentId (Some parent) m)
    | None => entry
    end.

(** The second half of [linkOrphanedChildren]: plugin fallback. *)
Definition pluginFallback (pm : list (string * metadata)) : list (string * metadata) :=
  map (attachToPlugin (pluginParents pm)) pm.

Definition linkOrphanedChildren (g : game) : game :=
  setPropertyMetadata g (pluginFallback (linkOrphans (propertyMetadata g))).

(** The names of the other properties under the same parent. *)
Definition siblingDisplays (pm : list (string * metadata)) (rawNames : list (string * string))
    (rowId parent : string) : list string :=
  map (fun sid => default EmptyString (Obj.get sid rawNames))
      (List.filter
         (fun sid =>
            negb (String.eqb sid rowId)
            && match Obj.get sid pm with
               | Some m => bool_decide (parentId m = Some parent)
               | None => false
               end)
         (Obj.keys pm)).

Definition expandOne (rawNames : list (string * string)) (pm : list (string * metadata))
    (rowId : string) : list (string * metadata) :=
  match Obj.get rowId pm with
  | Some m =>
      match parentId m with
      | Some parent =>
          if String.eqb parent EmptyString then pm
          else
            match Obj.get parent pm with
            | Some parentMetadata =>
                Obj.update rowId
                  (setDisplayName
                     (Utils.expandChildDisplayName
                        (default EmptyString (Obj.get rowId rawNames))
                        (displayName parentMetadata)
                        (siblingDisplays pm rawNames rowId parent)))
                  pm
            | None => pm
            end
      | None => pm
      end
  | None => pm
  end.

Definition expandChildDisplayNames (g : game) : game :=
  let pm := propertyMetadata g in
  let rawNames := map (fun e => (fst e, displayName (snd e))) pm in
  setPropertyMetadata g (fold_left (expandOne rawNames) (Obj.keys pm) pm).

(** *** One file *)

(** [filename.replace(/\.lua$/i, '')]. *)
Fixpoint stripLuaExtension (s : string) : string :=
  match s with
  | EmptyString => EmptyString
  | String c r =>
      if String.eqb (Js.toLowerCase s) ".lua" then EmptyString
      else String c (stripLuaExtension r)
  end.

(** [content.trim().replace(/\r\n/g, '\n').split('\n')]. *)
Definition CR : ascii := ascii_of_N 13.
Definition LF : ascii := ascii_of_N 10.

Definition splitLines (content : string) : list string :=
  Js.split LF
    (Js.replaceAll (String CR (String LF EmptyString)) (String LF EmptyString)
                   (Js.trim content)).

(** The directive loop; every round moves [lineIndex] forward, so as
    many rounds as there are lines are enough (see [parseLines_fuel]). *)
Fixpoint parseLines (fuel : nat) (lines : list string) (lineIndex : nat) (g : game)
    (currentGroupId currentGroupName : option string) (knownPlayerIds : gset string)
    : game :=
  match fuel with
  | O => g
  | S fuel' =>
      match lines !! lineIndex with
      | None => g
      | Some raw =>
          let line := Js.trim raw in
          if String.eqb line EmptyString then
            parseLines fuel' lines (S lineIndex) g currentGroupId currentGroupName
                       knownPlayerIds
          else if Js.startsWith "#mission" line then
            parseLines fuel' lines (S lineIndex) (parseMissionLine line g)
                       currentGroupId currentGroupName knownPlayerIds
          else if Js.startsWith "#players" line then
            let '(lineIndex', g', known') :=
              parsePlayersSection lines lineIndex g knownPlayerIds in
            parseLines fuel' lines (S lineIndex') g' currentGroupId currentGroupName known'
          else if Js.startsWith "#group" line then
            let parts := Js.split ";" line in
            parseLines fuel' lines (S lineIndex) g
                       (parts !! 1%nat)
                       (match parts !! 2%nat with
                        | Some n => Some n
                        | None => parts !! 1%nat
                        end)
                       knownPlayerIds
          else if Js.startsWith "#row" line then
            let '(lineIndex', g') :=
              parseRowSection lines lineIndex line g knownPlayerIds
                              currentGroupId currentGroupName in
            parseLines fuel' lines (S lineIndex') g' currentGroupId currentGroupName
                       knownPlayerIds
          else
            parseLines fuel' lines (S lineIndex) g currentGroupId currentGroupName
                       knownPlayerIds
      end
  end.

Definition emptyGame (name : string) (ts : Z) : game :=
  Game name ts EmptyString (Some 0) EmptyString EmptyString (Some 0) [] [] [] [] [].

(** The game as the directive loop leaves it, before the post-pass. *)
Definition parseDirectives (name : string) (ts : Z) (content : string) : game :=
  let lines := splitLines content in
  parseLines (length lines) lines O (emptyGame name ts)
             (Some DEFAULT_GROUP_ID) (Some DEFAULT_GROUP_NAME) ∅.

(** [parseLuaContent(filename, content)]; [None] is the [null] returned
    for a file name that gives no timestamp. *)
Definition parseLuaContent (name content : string) : option game :=
  match Js.parseInt (stripLuaExtension name) with
  | None => None
  | Some ts =>
      Some (expandChildDisplayNames (linkOrphanedChildren (parseDirectives name ts content)))
  end.

End Parser.

(** ** The store and the repository of [db.js] *)

Module Db.

(** [MISSION_NAMES] of [constants.js]. *)
Definition MISSION_NAMES : list (string * string) :=
  [ ("cm_habs", "Hab Dreyko"); ("cm_raid", "Dark Communion");
    ("cm_archives", "Chasm Logistratum"); ("lm_rails", "Enclavum Baross");
    ("lm_scavenge", "Mercantile HL-70-04"); ("lm_cooling", "Silo Cluster 18-66/a");
    ("fm_armoury", "Power Matrix HL-17-36"); ("fm_cargo", "Consignment Yard HL-17-36");
    ("fm_resurgence", "Smelter Complex HL-17-36"); ("dm_stockpile", "Ascension Riser 31");
    ("dm_propaganda", "Comms-Plex 154/2f"); ("dm_rise", "Magistrati Oubliette TM8-707");
    ("dm_forge", "Archivum Sycorax"); ("hm_complex", "Refinery Delta-17");
    ("hm_cartel", "Excise Vault Spireside-13"); ("hm_strain", "Relay Station TRS-150");
    ("km_enforcer", "Warren 6-19"); ("km_station", "Chasm Station HL-16-11");
    ("km_heresy", "Vigil Station Oblivium"); ("km_enforcer_twins", "Orthus Offensive");
    ("core_research", "Clandestium Gloriana"); ("op_train", "Rolling Steel");
    ("op_no_mans_land", "Battle for Tertium"); ("hub_ship", "Mourningstar (Hub)");
    ("psykhanium", "Mortis Trials") ].

Definition LONG_GAME_THRESHOLD_SECONDS : Z := 1200.
Definition SCORE_BATCH : nat := 500.

(** The rows of the tables of [SCHEMA_SQL] that ingestion writes and
    [getGames] reads; a table is the list of its rows in [rowid] order. *)
Record gameRow := GameRow {
  g_id : Z;
  g_filename : string;
  g_timestamp : Z;
  g_mission_id : string;
  g_mission_name : string;
  g_difficulty : Z;
  g_modifier : string;
  g_result : string;
  g_duration_seconds : Z
}.

Record playerRow := PlayerRow {
  p_id : string;
  p_is_bot : bool
}.

Record gamePlayerRow := GamePlayerRow {
  gp_game_id : Z;
  gp_player_id : string;
  gp_slot : Z;
  gp_name : string;
  gp_quitter : bool
}.

Record propertyRow := PropertyRow {
  pr_id : string;
  pr_display_name : string;
  pr_group_id : string;
  pr_group_name : string;
  pr_sort_direction : string;
  pr_is_summary : bool;
  pr_parent_id : option string;
  pr_child_ids : option string;
  pr_row_order : Z;
  pr_visible : bool
}.

Record scoreRow := ScoreRow {
  s_game_id : Z;
  s_player_id : string;
  s_property_id : string;
  s_value : Js.number
}.

(** [games_seq] is the counter [AUTOINCREMENT] keeps for [games]. *)
Record store := Store {
  games : list gameRow;
  games_seq : Z;
  players : list playerRow;
  game_players : list gamePlayerRow;
  properties : list propertyRow;
  scores : list scoreRow
}.

Definition emptyStore : store := Store [] 0 [] [] [] [].

(** *** Statements

    [runStatement] either applies a statement completely or throws, and
    a statement that throws has changed nothing.  A computation returns
    [None] when an exception left it, with the store as it was then. *)
Definition run (A : Type) : Type := store -> option A * store.

Definition ret {A : Type} (a : A) : run A := fun s => (Some a, s).

Definition throw {A : Type} : run A := fun s => (None, s).

Definition bind {A B : Type} (c : run A) (k : A -> run B) : run B :=
  fun s =>
    match c s with
    | (Some a, s') => k a s'
    | (None, s') => (None, s')
    end.

Notation "'let*' x := c 'in' k" := (bind c (fun x => k))
  (at level 10, x name, c at level 100, k at level 200).

Definition when (b : bool) (c : run unit) : run unit :=
  if b then c else ret tt.

(** [MISSION_NAMES[game.missionId] || game.missionId], for a mission id
    that is no name every object inherits; for such a name the lookup
    in the object literal gives the inherited value, which is then bound
    to the statement in place of a text. *)
Definition missionName (missionId : string) : string :=
  match Obj.get missionId MISSION_NAMES with
  | Some n => if String.eqb n EmptyString then missionId else n
  | None => missionId
  end.

(** The id [AUTOINCREMENT] gives the next row: above the counter and
    above every id in use. *)
Definition nextGameId (s : store) : Z :=
  1 + fold_right Z.max (games_seq s) (map g_id (games s)).

(** [INSERT INTO games ...] followed by the [SELECT last_insert_rowid()]
    that reads the id it gave.  The insertion fails on a file name the
    table has ([UNIQUE]) and on a [NaN] difficulty or duration, which is
    bound as [NULL] to a [NOT NULL] column. *)
Definition insertGameRow (g : Parser.game) : run Z :=
  fun s =>
    match Parser.difficulty g, Parser.durationSeconds g with
    | Some diff, Some dur =>
        if bool_decide (Parser.filename g ∈ map g_filename (games s)) then (None, s)
        else
          let gameId := nextGameId s in
          (Some gameId,
           Store (games s ++ [GameRow gameId (Parser.filename g) (Parser.timestamp g)
                                      (Parser.missionId g) (missionName (Parser.missionId g))
                                      diff (Parser.modifier g) (Parser.result g) dur])
                 gameId (players s) (game_players s) (properties s) (scores s))
    | _, _ => (None, s)
    end.

(** [INSERT OR IGNORE INTO players]: a row whose id is there is skipped. *)
Definition addPlayer (rows : list playerRow) (r : playerRow) : list playerRow :=
  if bool_decide (p_id r ∈ map p_id rows) then rows else rows ++ [r].

Definition insertPlayers (rows : list playerRow) : run unit :=
  fun s =>
    (Some tt,
     Store (games s) (games_seq s) (fold_left addPlayer rows (players s))
           (game_players s) (properties s) (scores s)).

(** [INSERT OR IGNORE INTO game_players]: a row with a [NaN] slot or with
    a key that is there is skipped. *)
Definition addGamePlayer (rows : list gamePlayerRow)
    (r : Z * string * option Z * string * bool) : list gamePlayerRow :=
  let '(gameId, playerId, slot, name, quitter) := r in
  match slot with
  | None => rows
  | Some sl =>
      if bool_decide ((gameId, playerId) ∈ map (fun x => (gp_game_id x, gp_player_id x)) rows)
      then rows
      else rows ++ [GamePlayerRow gameId playerId sl name quitter]
  end.

Definition insertGamePlayers (rows : list (Z * string * option Z * string * bool)) : run unit :=
  fun s =>
    (Some tt,
     Store (games s) (games_seq s) (players s)
           (fold_left addGamePlayer rows (game_players s)) (properties s) (scores s)).

(** [INSERT OR REPLACE INTO properties]: binding an [undefined] group id
    or name throws before anything is written; a row with the same id is
    deleted and the new one added; a [NaN] row order becomes the default
    of the column. *)
Definition propertyRowOf (entry : string * Parser.metadata) : option propertyRow :=
  let m := snd entry in
  match Parser.groupId m, Parser.groupName m with
  | Some gid, Some gname =>
      Some (PropertyRow (fst entry) (Parser.displayName m) gid gname (Parser.sortDirection m)
                        (Parser.isSummary m) (Parser.parentId m) (Parser.childIds m)
                        (default 0 (Parser.rowOrder m)) (Parser.visible m))
  | _, _ => None
  end.

Fixpoint propertyRows (entries : list (string * Parser.metadata)) : option (list propertyRow) :=
  match entries with
  | [] => Some []
  | e :: r =>
      match propertyRowOf e, propertyRows r with
      | Some row, Some rows => Some (row :: rows)
      | _, _ => None
      end
  end.

Definition replaceProperty (rows : list propertyRow) (r : propertyRow) : list propertyRow :=
  List.filter (fun x => negb (String.eqb (pr_id x) (pr_id r))) rows ++ [r].

Definition insertProperties (entries : list (string * Parser.metadata)) : run unit :=
  fun s =>
    match propertyRows entries with
    | Some rows =>
        (Some tt,
         Store (games s) (games_seq s) (players s) (game_players s)
               (fold_left replaceProperty rows (properties s)) (scores s))
    | None => (None, s)
    end.

(** [INSERT OR IGNORE INTO scores]: a row whose key is there is skipped. *)
Definition addScore (rows : list scoreRow) (r : scoreRow) : list scoreRow :=
  if bool_decide ((s_game_id r, s_player_id r, s_property_id r)
                  ∈ map (fun x => (s_game_id x, s_player_id x, s_property_id x)) rows)
  then rows else rows ++ [r].

Definition insertScores (rows : list scoreRow) : run unit :=
  fun s =>
    (Some tt,
     Store (games s) (games_seq s) (players s) (game_players s) (properties s)
           (fold_left addScore rows (scores s))).

(** The loop [for (i = 0; i < game.scores.length; i += SCORE_BATCH)] over
    what is left of the scores, one statement for each slice. *)
Fixpoint scoreBatches (fuel : nat) (gameId : Z)
    (rest : list (string * string * Js.number)) : run unit :=
  match fuel, rest with
  | S fuel', _ :: _ =>
      let* _ := insertScores (map (fun '(propertyId, playerId, value) =>
                                     ScoreRow gameId playerId propertyId value)
                                  (take SCORE_BATCH rest)) in
      scoreBatches fuel' gameId (drop SCORE_BATCH rest)
  | _, _ => ret tt
  end.

(** [insertGame(game)]. *)
Definition insertGame (g : Parser.game) : run unit :=
  let* gameId := insertGameRow g in
  let roster := Parser.players g in
  let bots := Parser.discoveredBots g in
  let extra := Parser.discoveredExtraPlayers g in
  let playerRows :=
    map (fun '(slot, playerId, playerName) => PlayerRow playerId false) roster
    ++ map (fun '(botId, cleanName) => PlayerRow botId true) bots
    ++ map (fun extraId => PlayerRow extraId false) extra in
  let gamePlayerRows :=
    map (fun '(slot, playerId, playerName) => (gameId, playerId, slot, playerName, false)) roster
    ++ map (fun '(botId, cleanName) => (gameId, botId, Some (-1), cleanName, false)) bots
    ++ map (fun extraId => (gameId, extraId, Some (-1), "Unknown", true)) extra in
  let* _ := when (0 <? length playerRows)%nat (insertPlayers playerRows) in
  let* _ := when (0 <? length gamePlayerRows)%nat (insertGamePlayers gamePlayerRows) in
  let* _ := when (0 <? length (Parser.propertyMetadata g))%nat
                 (insertProperties (Parser.propertyMetadata g)) in
  scoreBatches (length (Parser.scores g)) gameId (Parser.scores g).

(** *** [getGames] *)

Record params := Params {
  propertyIds : list string;
  resultFilter : string;
  difficulties : list Z;
  missions : list string;
  modifiers : list string;
  startTime : option Z;
  endTime : option Z;
  lastNGames : option Z
}.

(** A returned game; [players] maps player ids to names and [scores]
    player ids to the values of their properties. *)
Record gameResult := GameResult {
  id : Z;
  timestamp : Z;
  missionId : string;
  missionName_ : string;
  difficulty : Z;
  modifier : string;
  result : string;
  durationSeconds : Z;
  players_ : gmap string string;
  scores_ : gmap string (gmap string Js.number);
  quitters : gset string
}.

(** The [WHERE] clause built from the filters that are set. *)
Definition whereClause (p : params) (g : gameRow) : bool :=
  (if String.eqb (resultFilter p) "won" then String.eqb (g_result g) "won"
   else if String.eqb (resultFilter p) "won_and_long_lost" then
     String.eqb (g_result g) "won"
     || (String.eqb (g_result g) "lost"
         && (LONG_GAME_THRESHOLD_SECONDS <? g_duration_seconds g))
   else if String.eqb (resultFilter p) "lost" then String.eqb (g_result g) "lost"
   else true)
  && (match difficulties p with
      | [] => true
      | ds => bool_decide (g_difficulty g ∈ ds)
      end)
  && (match missions p with
      | [] => true
      | ms => bool_decide (g_mission_id g ∈ ms)
      end)
  && (match modifiers p with
      | [] => true
      | ms => bool_decide (g_modifier g ∈ ms)
      end)
  && (match startTime p with
      | Some t => t <=? g_timestamp g
      | None => true
      end)
  && (match endTime p with
      | Some t => g_timestamp g <=? t
      | None => true
      end).

(** [ORDER BY g.timestamp ASC] and [DESC].  SQL leaves open the order of
    rows with the same timestamp; here they stay in the order of the
    table. *)
Fixpoint insertBy (before : gameRow -> gameRow -> bool) (x : gameRow) (l : list gameRow)
    : list gameRow :=
  match l with
  | [] => [x]
  | y :: r => if before x y then x :: l else y :: insertBy before x r
  end.

Definition orderBy (before : gameRow -> gameRow -> bool) (l : list gameRow) : list gameRow :=
  fold_right (insertBy before) [] l.

Definition ascending (x y : gameRow) : bool := g_timestamp x <=? g_timestamp y.
Definition descending (x y : gameRow) : bool := g_timestamp y <=? g_timestamp x.

Definition orderAsc : list gameRow -> list gameRow := orderBy ascending.
Definition orderDesc : list gameRow -> list gameRow := orderBy descending.

(** The games the query selects, in the order in which it returns them. *)
Definition selectGames (p : params) (s : store) : list gameRow :=
  match lastNGames p with
  | Some n =>
      if 0 <? n then
        let gameIds := map g_id (take (Z.to_nat n) (orderDesc (List.filter (whereClause p) (games s)))) in
        orderAsc (List.filter (fun g => bool_decide (g_id g ∈ gameIds)) (games s))
      else orderAsc (List.filter (whereClause p) (games s))
  | None => orderAsc (List.filter (whereClause p) (games s))
  end.

(** [playersByGame], [quittersByGame] and [scoresByGame].  The names
    and the scores of a game are kept in object literals, of which the
    finite maps hold the keys.  The model gives what the code does for
    player and property ids that are no names every object inherits: an
    assignment to [__proto__] adds no key, and under an inherited name
    the test by truth finds the inherited value, to which the score is
    then written. *)
Definition notePlayer (acc : gmap Z (gmap string string)) (row : gamePlayerRow)
    : gmap Z (gmap string string) :=
  <[gp_game_id row := <[gp_player_id row := gp_name row]> (default ∅ (acc !! gp_game_id row))]> acc.

Definition noteQuitter (acc : gmap Z (gset string)) (row : gamePlayerRow)
    : gmap Z (gset string) :=
  if gp_quitter row
  then <[gp_game_id row := {[gp_player_id row]} ∪ default ∅ (acc !! gp_game_id row)]> acc
  else acc.

Definition noteScore (acc : gmap Z (gmap string (gmap string Js.number))) (row : scoreRow)
    : gmap Z (gmap string (gmap string Js.number)) :=
  let ofGame := default ∅ (acc !! s_game_id row) in
  let ofPlayer := default ∅ (ofGame !! s_player_id row) in
  <[s_game_id row := <[s_player_id row := <[s_property_id row := s_value row]> ofPlayer]> ofGame]> acc.

Definition getGames (p : params) (s : store) : list gameResult :=
  match propertyIds p with
  | [] => []
  | _ :: _ =>
      let selected := selectGames p s in
      let gameIds := map g_id selected in
      let gamePlayers :=
        List.filter (fun r => bool_decide (gp_game_id r ∈ gameIds)) (game_players s) in
      let playersByGame := fold_left notePlayer gamePlayers ∅ in
      let quittersByGame := fold_left noteQuitter gamePlayers ∅ in
      let scoresRows :=
        List.filter (fun r => bool_decide (s_game_id r ∈ gameIds)
                              && bool_decide (s_property_id r ∈ propertyIds p))
                    (scores s) in
      let scoresByGame := fold_left noteScore scoresRows ∅ in
      map (fun g =>
             GameResult (g_id g) (g_timestamp g) (g_mission_id g) (g_mission_name g)
                        (g_difficulty g) (g_modifier g) (g_result g) (g_duration_seconds g)
                        (default ∅ (playersByGame !! g_id g))
                        (default ∅ (scoresByGame !! g_id g))
                        (default ∅ (quittersByGame !! g_id g)))
          selected
  end.

End Db.

(** ** The batch loader of [parser.js] *)

Module Ingest.

(** A candidate file of the source; [content] is [None] when reading it
    throws. *)
Record file := File {
  name : string;
  content : option string
}.

Record report := Report {
  ingested : nat;
  errors : nat;
  total : nat
}.

(** [backfillUnknownPlayerNames()]: a roster entry named [Unknown] takes
    the name of an entry of the same player that has one.  SQL leaves
    open which one [LIMIT 1] yields; the first stored is taken. *)
Definition knownName (rows : list Db.gamePlayerRow) (playerId : string) : option string :=
  Db.gp_name <$>
    List.find (fun r => String.eqb (Db.gp_player_id r) playerId
                        && negb (String.eqb (Db.gp_name r) "Unknown")) rows.

Definition backfillRow (rows : list Db.gamePlayerRow) (r : Db.gamePlayerRow)
    : Db.gamePlayerRow :=
  if String.eqb (Db.gp_name r) "Unknown" then
    match knownName rows (Db.gp_player_id r) with
    | Some n => Db.GamePlayerRow (Db.gp_game_id r) (Db.gp_player_id r) (Db.gp_slot r) n
                                 (Db.gp_quitter r)
    | None => r
    end
  else r.

Definition backfillUnknownPlayerNames (s : Db.store) : Db.store :=
  Db.Store (Db.games s) (Db.games_seq s) (Db.players s)
           (map (backfillRow (Db.game_players s)) (Db.game_players s))
           (Db.properties s) (Db.scores s).

(** The counters and the store while the files are processed. *)
Record progress := Progress {
  db : Db.store;
  ingestedSoFar : nat;
  errorsSoFar : nat
}.

(** One round of the loop of [ingestFiles]: a file that cannot be read,
    a file that does not parse and a game whose insertion throws each
    count as an error; [insertGame] runs on the store as it is and
    nothing is undone when it throws.  [BEGIN] and [COMMIT] around the
    batches do not change what the tables hold. *)
Definition ingestOne (st : progress) (f : file) : progress :=
  match content f with
  | None => Progress (db st) (ingestedSoFar st) (S (errorsSoFar st))
  | Some text =>
      match Parser.parseLuaContent (name f) text with
      | None => Progress (db st) (ingestedSoFar st) (S (errorsSoFar st))
      | Some g =>
          match Db.insertGame g (db st) with
          | (Some _, s') => Progress s' (S (ingestedSoFar st)) (errorsSoFar st)
          | (None, s') => Progress s' (ingestedSoFar st) (S (errorsSoFar st))
          end
      end
  end.

(** The same round in the bundled copy [app.js], where [insertGame] runs
    between [SAVEPOINT game_insert] and its release, and an insertion
    that throws is undone by [ROLLBACK TO SAVEPOINT game_insert]. *)
Definition ingestOneSavepoint (st : progress) (f : file) : progress :=
  match content f with
  | None => Progress (db st) (ingestedSoFar st) (S (errorsSoFar st))
  | Some text =>
      match Parser.parseLuaContent (name f) text with
      | None => Progress (db st) (ingestedSoFar st) (S (errorsSoFar st))
      | Some g =>
          match Db.insertGame g (db st) with
          | (Some _, s') => Progress s' (S (ingestedSoFar st)) (errorsSoFar st)
          | (None, _) => Progress (db st) (ingestedSoFar st) (S (errorsSoFar st))
          end
      end
  end.

Section Collation.

(** The sign of [a.name.localeCompare(b.name)]; the collation is the
    host's and is left open. *)
Variable localeCompare : string -> string -> comparison.

(** [luaFiles.sort(...)], a stable sort. *)
Fixpoint insertByName (f : file) (l : list file) : list file :=
  match l with
  | [] => [f]
  | y :: r =>
      match localeCompare (name f) (name y) with
      | Gt => y :: insertByName f r
      | _ => f :: l
      end
  end.

Definition collectLuaFiles (source : list file) : list file :=
  fold_right insertByName [] (List.filter (fun f => Js.endsWith ".lua" (name f)) source).

(** The files still to be processed: those whose name no game has. *)
Definition newFiles (source : list file) (s : Db.store) : list file :=
  let existingFilenames : gset string := list_to_set (map Db.g_filename (Db.games s)) in
  List.filter (fun f => negb (bool_decide (name f ∈ existingFilenames)))
              (collectLuaFiles source).

Definition ingestFiles (source : list file) (s : Db.store) : Db.store * report :=
  let luaFiles := collectLuaFiles source in
  let files := newFiles source s in
  match files with
  | [] => (s, Report 0 0 (length luaFiles))
  | _ :: _ =>
      let st := fold_left ingestOne files (Progress s 0 0) in
      let s' := if (0 <? ingestedSoFar st)%nat then backfillUnknownPlayerNames (db st)
                else db st in
      (s', Report (ingestedSoFar st) (errorsSoFar st) (length luaFiles))
  end.

End Collation.

End Ingest.

(** ** Vocabulary of the specification *)

Module Spec.





(** The participant token and the value of a value line. *)
Definition token (dataLine : string) : string :=
  Parser.field (Js.split ";" dataLine) 0 EmptyString.

Definition value (dataLine : string) : option Js.number :=
  Js.split ";" dataLine !! 1%nat ≫= Js.parseFloat.

(** Following the parent links of a property map: the parent of [id],
    when [id] is a property that has one. *)
Definition parentLink (pm : list (string * Parser.metadata)) (id : string) : option string :=
  Obj.get id pm ≫= Parser.parentId.

(** The walk from [id] along the parent links stops within [n] steps. *)
Fixpoint climbs (n : nat) (pm : list (string * Parser.metadata)) (id : string) : bool :=
  match parentLink pm id with
  | None => true
  | Some p =>
      match n with
      | O => false
      | S n' => climbs n' pm p
      end
  end.

(** The parent links form a forest: every walk along them stops. *)
Definition forest (pm : list (string * Parser.metadata)) : Prop :=
  forall id, exists n, climbs n pm id = true.

(** A visible, parentless property owned by [plugin]. *)
Definition pluginRoot (plugin : string) (m : Parser.metadata) : bool :=
  negb (String.eqb (Parser.pluginId m) EmptyString)
  && String.eqb (Parser.pluginId m) plugin
  && Parser.visible m
  && bool_decide (Parser.parentId m = None).

(** An invisible, parentless property that carries a plugin id. *)
Definition pluginOrphan (m : Parser.metadata) : bool :=
  bool_decide (Parser.parentId m = None)
  && negb (Parser.visible m)
  && negb (String.eqb (Parser.pluginId m) EmptyString).

(** The parenting options of [child]: the properties that list it, in
    the order of the property map, each with the length of its list. *)
Definition listing (child : string) (entry : string * Parser.metadata) : list (string * nat) :=
  match Parser.childIds (snd entry) with
  | None => []
  | Some c =>
      if String.eqb c EmptyString then []
      else
        let childList := Js.split ":" c in
        map (fun _ => (fst entry, length childList))
            (List.filter (String.eqb child) childList)
  end.

Definition parentOptions (pm : list (string * Parser.metadata)) (child : string)
    : list (string * nat) :=
  flat_map (listing child) pm.

(** The parenting candidates collected for [child]. *)
Definition optionsOf (child : string) (candidates : list (string * list (string * nat)))
    : list (string * nat) :=
  default [] (Obj.get child candidates).

(** The games that satisfy the filters of a query other than [lastNGames]. *)
Definition matching (p : Db.params) (s : Db.store) : list Db.gameRow :=
  List.filter (Db.whereClause p) (Db.games s).

(** The order of the timestamps on the rows of [games]. *)
Definition earlier (x y : Db.gameRow) : Prop := Db.g_timestamp x <= Db.g_timestamp y.
Definition later (x y : Db.gameRow) : Prop := Db.g_timestamp y <= Db.g_timestamp x.

(** The file names the table [games] holds. *)
Definition names (s : Db.store) : list string := map Db.g_filename (Db.games s).

(** A file that cannot give a game row: it cannot be read, it does not
    parse, or its difficulty or duration is not a number. *)
Definition hopeless (f : Ingest.file) : bool :=
  match Ingest.content f with
  | None => true
  | Some text =>
      match Parser.parseLuaContent (Ingest.name f) text with
      | None => true
      | Some g =>
          negb (bool_decide (is_Some (Parser.difficulty g))
                && bool_decide (is_Some (Parser.durationSeconds g)))
      end
  end.

(** The insertion of the game row is refused: a difficulty or a duration
    that is not a number, or a file name the table has. *)
Definition refused (g : Parser.game) (s : Db.store) : bool :=
  negb (bool_decide (is_Some (Parser.difficulty g))
        && bool_decide (is_Some (Parser.durationSeconds g)))
  || bool_decide (Parser.filename g ∈ names s).

(** A computation that leaves the table of games as it is. *)
Definition keepsGames (c : Db.run unit) : Prop := forall s, Db.games (c s).2 = Db.games s.

(** Property metadata none of whose row ids, plugin ids and parent ids
    is a name every object inherits.  The parser keeps the metadata, the
    parenting candidates and the plugin parents in object literals and
    looks ids up in them with [in] and by truth; for such metadata these
    lookups find the keys that were stored and no others. *)
Definition ordinary (pm : list (string * Parser.metadata)) : bool :=
  forallb (fun e =>
             negb (Js.inherited (fst e))
             && negb (Js.inherited (Parser.pluginId (snd e)))
             && match Parser.parentId (snd e) with
                | Some parent => negb (Js.inherited parent)
                | None => true
                end)
          pm.

(** A ranking of the ids under which every declared parent ranks below
    its child and, for a parentless property that is listed in
    [childIds], the property the orphan linking makes its parent ranks
    below it: the listing property with the shortest list, the first
    enumerated among equals.  The links the orphan linking leaves do not
    go round in a circle. *)
Definition ranked (rank : string -> nat) (pm : list (string * Parser.metadata)) : bool :=
  forallb (fun e =>
             match Parser.parentId (snd e) with
             | Some parent => (rank parent <? rank (fst e))%nat
             | None =>
                 match Parser.sortByCount (parentOptions pm (fst e)) with
                 | (parent, _) :: _ => (rank parent <? rank (fst e))%nat
                 | [] => true
                 end
             end)
          pm.

(** A file that gives a game: it can be read, it parses, its difficulty
    and duration are numbers and each of its properties has a group id
    and a group name. *)
Definition sound (f : Ingest.file) : bool :=
  match Ingest.content f with
  | None => false
  | Some text =>
      match Parser.parseLuaContent (Ingest.name f) text with
      | None => false
      | Some g =>
          bool_decide (is_Some (Parser.difficulty g))
          && bool_decide (is_Some (Parser.durationSeconds g))
          && bool_decide (is_Some (Db.propertyRows (Parser.propertyMetadata g)))
      end
  end.

(** A file whose game, when it parses, has ordinary metadata and a
    mission id that is no inherited name; [MISSION_NAMES] is an object
    literal too, and [MISSION_NAMES[game.missionId] || game.missionId]
    gives such a mission id an inherited value in place of a text. *)
Definition plain (f : Ingest.file) : bool :=
  match Ingest.content f with
  | None => true
  | Some text =>
      match Parser.parseLuaContent (Ingest.name f) text with
      | None => true
      | Some g =>
          ordinary (Parser.propertyMetadata g) && negb (Js.inherited (Parser.missionId g))
      end
  end.

End Spec.

(** ** Sample data *)

Module Sample.

Definition lines (ls : list string) : string :=
  fold_right (fun l rest => l +:+ String Parser.LF rest) EmptyString ls.

(** The log of the specification: one human player, one score. *)
Definition match1 : string :=
  lines [ "#mission;cm_habs;2;nil;won;1500";
          "#players;1";
          "0;11111111-1111-1111-1111-111111111111;Alice";
          "#row;dmg;1;1;<damage_dealt>;DESC";
          "11111111-1111-1111-1111-111111111111;250" ].

(** A log whose [#group] line has no fields: the group id and name of
    the row that follows are [undefined]. *)
Definition groupWithoutId : string :=
  lines [ "#group"; "#row;dmg" ].

Definition row (i ts : Z) (file res : string) : Db.gameRow :=
  Db.GameRow i file ts "cm_habs" "Hab Dreyko" 2 EmptyString res 1500.

(** Three games and the scores of one player for two properties. *)
Definition store3 : Db.store :=
  Db.Store [ row 1 300 "300.lua" "won"; row 2 100 "100.lua" "lost";
             row 3 200 "200.lua" "won" ] 3
           [ Db.PlayerRow "alice" false ]
           [ Db.GamePlayerRow 1 "alice" 0 "Alice" false;
             Db.GamePlayerRow 3 "alice" 0 "Alice" false ]
           []
           [ Db.ScoreRow 1 "alice" "dmg" (Js.Decimal false 250 0);
             Db.ScoreRow 1 "alice" "kills" (Js.Decimal false 7 0);
             Db.ScoreRow 3 "alice" "dmg" (Js.Decimal false 90 0) ].

Definition lastTwo (ids : list string) : Db.params :=
  Db.Params ids "all" [] [] [] None None (Some 2).

End Sample.

(** ** Settings and player operations of [db.js] *)

Module Settings.

(** The tables [player_settings] and [app_settings] of [SCHEMA_SQL]; a
    [NULL] is [None]. *)
Record playerSettingsRow := PlayerSettingsRow {
  ps_player_id : string;
  ps_custom_name : option string;
  ps_color : option string;
  ps_is_main : bool
}.

Record settings := SettingsOf {
  player_settings : list playerSettingsRow;
  app_settings : list (string * option string)
}.

(** [!v] for a value that is [null] or a string. *)
Definition falsy (v : option string) : bool :=
  match v with
  | None => true
  | Some text => String.eqb text EmptyString
  end.

Definition hasPlayer (playerId : string) (rows : list playerSettingsRow) : bool :=
  existsb (fun r => String.eqb (ps_player_id r) playerId) rows.

(** [savePlayerSettingsDB(playerId, customName, color)]: the row goes when
    neither a name nor a colour is given; otherwise it is written, and a
    row that is there keeps its main flag. *)
Definition savePlayerSettingsDB (playerId : string) (customName color : option string)
    (t : settings) : settings :=
  if falsy customName && falsy color then
    SettingsOf (List.filter (fun r => negb (String.eqb (ps_player_id r) playerId))
                            (player_settings t))
               (app_settings t)
  else if hasPlayer playerId (player_settings t) then
    SettingsOf (map (fun r => if String.eqb (ps_player_id r) playerId
                              then PlayerSettingsRow (ps_player_id r) customName color
                                                     (ps_is_main r)
                              else r)
                    (player_settings t))
               (app_settings t)
  else
    SettingsOf (player_settings t ++ [PlayerSettingsRow playerId customName color false])
               (app_settings t).

(** [saveMainPlayer(playerId)]: every main flag is cleared, then the row
    of the player is flagged, or added with the flag. *)
Definition clearMain (r : playerSettingsRow) : playerSettingsRow :=
  if ps_is_main r
  then PlayerSettingsRow (ps_player_id r) (ps_custom_name r) (ps_color r) false
  else r.

Definition saveMainPlayer (playerId : string) (t : settings) : settings :=
  let cleared := map clearMain (player_settings t) in
  if hasPlayer playerId cleared then
    SettingsOf (map (fun r => if String.eqb (ps_player_id r) playerId
                              then PlayerSettingsRow (ps_player_id r) (ps_custom_name r)
                                                     (ps_color r) true
                              else r)
                    cleared)
               (app_settings t)
  else
    SettingsOf (cleared ++ [PlayerSettingsRow playerId None None true]) (app_settings t).

(** [saveAppSetting(key, value)], [getAppSetting(key)] and
    [clearAppSettings()]. *)
Definition saveAppSetting (key : string) (value : option string) (t : settings) : settings :=
  SettingsOf (player_settings t)
             (if Obj.has key (app_settings t)
              then Obj.update key (fun _ => value) (app_settings t)
              else app_settings t ++ [(key, value)]).

Definition getAppSetting (key : string) (t : settings) : option string :=
  match Obj.get key (app_settings t) with
  | Some value => value
  | None => None
  end.

Definition clearAppSettings (t : settings) : settings :=
  SettingsOf (player_settings t) [].

(** The query of [autoSetupDefaultPlayer]: the roster entries of the
    players that are not bots, counted by player.  SQL leaves open the
    order of players with the same count; the one met first stays first. *)
Definition isHuman (s : Db.store) (playerId : string) : bool :=
  existsb (fun p => String.eqb (Db.p_id p) playerId && negb (Db.p_is_bot p)) (Db.players s).

Definition appearances (s : Db.store) (playerId : string) : nat :=
  length (List.filter (fun r => String.eqb (Db.gp_player_id r) playerId) (Db.game_players s)).

Definition humansOnRoster (s : Db.store) : list string :=
  remove_dups (List.filter (isHuman s) (map Db.gp_player_id (Db.game_players s))).

Fixpoint mostFrequent (s : Db.store) (candidates : list string) : option string :=
  match candidates with
  | [] => None
  | c :: rest =>
      match mostFrequent s rest with
      | Some best => if (appearances s best <=? appearances s c)%nat then Some c else Some best
      | None => Some c
      end
  end.

Definition isTracked (r : playerSettingsRow) : bool :=
  match ps_custom_name r, ps_color r with
  | None, None => false
  | _, _ => true
  end.

(** [autoSetupDefaultPlayer()]. *)
Definition autoSetupDefaultPlayer (s : Db.store) (t : settings) : settings :=
  if existsb isTracked (player_settings t) then t
  else
    match mostFrequent s (humansOnRoster s) with
    | None => t
    | Some top =>
        saveMainPlayer top (savePlayerSettingsDB top (Some "Me") (Some "#e94560") t)
    end.

End Settings.

(** ** The filter query of [db.js] *)

Module Queries.

(** [DEFAULT_DIFFICULTY_NAMES] of [constants.js]. *)
Definition DEFAULT_DIFFICULTY_NAMES : list (Z * string) :=
  [ (0, "Sedition"); (1, "Uprising"); (2, "Malice"); (3, "Heresy");
    (4, "Damnation"); (5, "Auric") ].

Record filters := Filters {
  missions : list (string * string);
  difficulties : list (Z * string);
  modifiers : list string;
  timeRange : Z * Z
}.

(** A stable insertion sort, for [ORDER BY]; SQL leaves open the order
    of rows that compare equal. *)
Fixpoint insertSorted {A : Type} (before : A -> A -> bool) (x : A) (l : list A) : list A :=
  match l with
  | [] => [x]
  | y :: r => if before x y then x :: l else y :: insertSorted before x r
  end.

Definition sortWith {A : Type} (before : A -> A -> bool) (l : list A) : list A :=
  fold_right (insertSorted before) [] l.

(** [String(d)] for an integer. *)
Definition showInteger (d : Z) : string :=
  DecimalString.NilZero.string_of_int (Z.to_int d).

Definition difficultyName (d : Z) : string :=
  match List.find (fun e => fst e =? d) DEFAULT_DIFFICULTY_NAMES with
  | Some e => snd e
  | None => showInteger d
  end.

(** [MIN(timestamp)] and [MAX(timestamp)]; [None] is the [NULL] of the
    empty table. *)
Definition minTimestamp (rows : list Db.gameRow) : option Z :=
  match rows with
  | [] => None
  | g :: r => Some (fold_left Z.min (map Db.g_timestamp r) (Db.g_timestamp g))
  end.

Definition maxTimestamp (rows : list Db.gameRow) : option Z :=
  match rows with
  | [] => None
  | g :: r => Some (fold_left Z.max (map Db.g_timestamp r) (Db.g_timestamp g))
  end.

(** [getFilters()]. *)
Definition getFilters (s : Db.store) : filters :=
  Filters
    (sortWith (fun a b => String.leb (snd a) (snd b))
       (remove_dups
          (map (fun g => (Db.g_mission_id g, Db.g_mission_name g))
               (List.filter (fun g => negb (String.eqb (Db.g_mission_id g) EmptyString))
                            (Db.games s)))))
    (map (fun d => (d, difficultyName d))
         (sortWith Z.leb (remove_dups (map Db.g_difficulty (Db.games s)))))
    (sortWith String.leb
       (remove_dups
          (List.filter (fun m => negb (String.eqb m EmptyString))
                       (map Db.g_modifier (Db.games s)))))
    (default 0 (minTimestamp (Db.games s)), default 0 (maxTimestamp (Db.games s))).

(** [getGameCount()]. *)
Definition getGameCount (s : Db.store) : nat := length (Db.games s).

(** A player as [getPlayers] returns it. *)
Record playerInfo := PlayerInfo {
  id : string;
  isBot : bool;
  names : list string;
  gameCount : nat;
  customName : option string;
  color : option string;
  isMain : bool
}.

(** [DISTINCT]: a name is kept where it comes first. *)
Definition addName (seen : list string) (n : string) : list string :=
  if bool_decide (n ∈ seen) then seen else seen ++ [n].

(** [GROUP_CONCAT(DISTINCT name)] over the roster entries of a player:
    [NULL] without entries.  SQL leaves the order of the names open;
    they are taken as the engine gives them, in the order in which the
    entries are stored. *)
Definition distinctNames (s : Db.store) (playerId : string) : list string :=
  fold_left addName
            (map Db.gp_name
                 (List.filter (fun r => String.eqb (Db.gp_player_id r) playerId)
                              (Db.game_players s)))
            [].

Definition groupConcat (l : list string) : option string :=
  match l with
  | [] => None
  | _ :: _ => Some (String.concat "," l)
  end.

(** [r.names ? r.names.split(',') : []]. *)
Definition splitNames (joined : option string) : list string :=
  match joined with
  | Some text => if String.eqb text EmptyString then [] else Js.split "," text
  | None => []
  end.

(** [v || null] for a text or [NULL]. *)
Definition orNull (v : option string) : option string :=
  match v with
  | Some text => if String.eqb text EmptyString then None else Some text
  | None => None
  end.

(** The row [LEFT JOIN player_settings] adds, of which the key allows
    one at most. *)
Definition settingsOf (t : Settings.settings) (playerId : string)
    : option Settings.playerSettingsRow :=
  List.find (fun r => String.eqb (Settings.ps_player_id r) playerId) (Settings.player_settings t).

(** [ORDER BY p.is_bot, p.id]. *)
Definition playerOrder (a b : Db.playerRow) : bool :=
  if Bool.eqb (Db.p_is_bot a) (Db.p_is_bot b) then String.leb (Db.p_id a) (Db.p_id b)
  else negb (Db.p_is_bot a).

(** [getPlayers()]. *)
Definition getPlayers (s : Db.store) (t : Settings.settings) : list playerInfo :=
  map (fun p =>
         let ps := settingsOf t (Db.p_id p) in
         PlayerInfo (Db.p_id p) (Db.p_is_bot p)
                    (splitNames (groupConcat (distinctNames s (Db.p_id p))))
                    (Settings.appearances s (Db.p_id p))
                    (orNull (ps ≫= Settings.ps_custom_name))
                    (orNull (ps ≫= Settings.ps_color))
                    (match ps with Some r => Settings.ps_is_main r | None => false end))
      (sortWith playerOrder (Db.players s)).

End Queries.

(** ** The general statistics of [stats.js] *)

Module Stats.

(** A player as [getPlayers] returns it. *)
Record player := Player {
  id : string;
  customName : option string;
  names : list string;
  color : option string;
  isMain : bool
}.

Record generalStats := GeneralStats {
  playerId : string;
  name : string;
  statsColor : string;
  statsIsMain : bool;
  totalGames : nat;
  wonGames : nat;
  winRate : Z;
  totalPlaytime : Z;
  winStreak : nat;
  lossStreak : nat
}.

(** The counters of the loop of [computePlayerGeneralStats]. *)
Record counters := Counters {
  c_totalGames : nat;
  c_wonGames : nat;
  c_totalPlaytime : Z;
  c_winStreak : nat;
  c_maxWinStreak : nat;
  c_lossStreak : nat;
  c_maxLossStreak : nat
}.

(** The games the loop counts.  [player.id in game.scores] holds when
    the scores of the game have the id as a key of their own and also
    when the id is a name every object inherits; with a name filter,
    [game.players[player.id]] is to be that text, which an inherited
    value never is. *)
Definition counted (p : player) (nameFilter : option string) (g : Db.gameResult) : bool :=
  (bool_decide (is_Some (Db.scores_ g !! id p)) || Js.inherited (id p))
  && (Settings.falsy nameFilter
      || bool_decide (Db.players_ g !! id p = nameFilter)).

Definition countGame (p : player) (nameFilter : option string) (c : counters)
    (g : Db.gameResult) : counters :=
  if counted p nameFilter g then
    if String.eqb (Db.result g) "won" then
      Counters (S (c_totalGames c)) (S (c_wonGames c))
               (c_totalPlaytime c + Db.durationSeconds g)
               (S (c_winStreak c)) (Nat.max (c_maxWinStreak c) (S (c_winStreak c)))
               O (c_maxLossStreak c)
    else
      Counters (S (c_totalGames c)) (c_wonGames c)
               (c_totalPlaytime c + Db.durationSeconds g)
               O (c_maxWinStreak c)
               (S (c_lossStreak c)) (Nat.max (c_maxLossStreak c) (S (c_lossStreak c)))
  else c.

Definition orElse (v : option string) (dflt : string) : string :=
  match v with
  | Some text => if String.eqb text EmptyString then dflt else text
  | None => dflt
  end.

Section Rounding.

(** [Math.round(wonGames / totalGames * 100)], a rounding of doubles
    that is left open. *)
Variable roundPercent : nat -> nat -> Z.

Definition computePlayerGeneralStats (p : player) (games : list Db.gameResult)
    (nameFilter : option string) : generalStats :=
  let c := fold_left (countGame p nameFilter) games (Counters 0 0 0 0 0 0 0) in
  GeneralStats (id p)
               (orElse (customName p) (orElse (head (names p)) (id p)))
               (orElse (color p) "#888")
               (isMain p)
               (c_totalGames c) (c_wonGames c)
               (if (0 <? c_totalGames c)%nat
                then roundPercent (c_wonGames c) (c_totalGames c) else 0)
               (c_totalPlaytime c)
               (c_maxWinStreak c) (c_maxLossStreak c).

End Rounding.

End Stats.

(** ** Display helpers of [utils.js] *)

Module Display.

Definition QUOTE : string := String (ascii_of_N 34) EmptyString.

(** [escapeHtml(text)]. *)
Definition escapeHtml (text : string) : string :=
  Js.replaceAll QUOTE "&quot;"
    (Js.replaceAll ">" "&gt;"
       (Js.replaceAll "<" "&lt;"
          (Js.replaceAll "&" "&amp;" text))).

(** [Math.round(x / 60)] for a whole number [x] that is not negative. *)
Definition roundMinutes (x : Z) : Z := (x + 30) / 60.

(** [formatDuration(seconds)] for a whole number of seconds, of less than
    2^52, where the quotients of doubles and their roundings are those of
    the integers; [None] is [null] or [undefined]. *)
Definition formatDuration (seconds : option Z) : string :=
  match seconds with
  | None => "0m"
  | Some s =>
      if s <=? 0 then "0m"
      else if s <? 3600 then Queries.showInteger (roundMinutes s) +:+ "m"
      else if s <? 86400 then
        let hours := s / 3600 in
        let minutes := roundMinutes (s mod 3600) in
        if 0 <? minutes
        then Queries.showInteger hours +:+ "h" +:+ Queries.showInteger minutes +:+ "m"
        else Queries.showInteger hours +:+ "h"
      else
        let days := s / 86400 in
        let hours := (s mod 86400) / 3600 in
        let minutes := roundMinutes (s mod 3600) in
        let result := Queries.showInteger days +:+ "d" in
        let result := if 0 <? hours then result +:+ Queries.showInteger hours +:+ "h"
                      else result in
        if 0 <? minutes then result +:+ Queries.showInteger minutes +:+ "m" else result
  end.

End Display.

(** ** The property tree of [db.js] *)

Module Properties.

(** An entry of [allProps]. *)
Record property := Property {
  id : string;
  displayName : string;
  groupId : string;
  groupName : string;
  sortDirection : string;
  isSummary : bool;
  parentId : option string;
  rowOrder : Z
}.

(** A property as a group lists it. *)
Record info := Info {
  i_id : string;
  i_displayName : string;
  i_sortDirection : string;
  i_isSummary : bool;
  i_parentId : option string;
  i_rowOrder : Z
}.

(** An entry of [groups], and a group as it is returned. *)
Record collected := Collected {
  c_groupId : string;
  c_groupName : string;
  minOrder : Z;
  properties : list info
}.

Record group := Group {
  g_groupId : string;
  g_groupName : string;
  g_properties : list info
}.

(** [SELECT ... FROM properties ORDER BY row_order]; rows with the same
    order stay in the order of the table, which SQL leaves open. *)
Definition selectProperties (s : Db.store) : list Db.propertyRow :=
  Queries.sortWith (fun a b => Db.pr_row_order a <=? Db.pr_row_order b) (Db.properties s).

Definition propertyOf (row : Db.propertyRow) : property :=
  Property (Db.pr_id row) (Db.pr_display_name row) (Db.pr_group_id row)
           (Db.pr_group_name row) (Db.pr_sort_direction row) (Db.pr_is_summary row)
           (Db.pr_parent_id row) (Db.pr_row_order row).

(** [allProps], [childrenOf] and [groups] are object literals written by
    assignment and tested by truth.  The model gives what the code does
    for ids, parent ids and group ids that are no names every object
    inherits; under such a name the test finds the inherited value and
    [push] throws, and the assignment to [__proto__] adds no key. *)
Definition collectProps (rows : list Db.propertyRow) : list (string * property) :=
  fold_left (fun acc row => Obj.set (Db.pr_id row) (propertyOf row) acc) rows [].

(** The key under which [childrenOf] files a property:
    [prop.parentId || null], which as a key is the text [null]. *)
Definition parentKey (p : property) : string :=
  match parentId p with
  | Some parent => if String.eqb parent EmptyString then "null" else parent
  | None => "null"
  end.

(** One round of the loop that fills [childrenOf], under the same
    condition. *)
Definition fileChild (acc : list (string * list string)) (entry : string * property)
    : list (string * list string) :=
  let parent := parentKey (snd entry) in
  Obj.set parent (default [] (Obj.get parent acc) ++ [fst entry]) acc.

Definition collectChildren (allProps : list (string * property))
    : list (string * list string) :=
  fold_left fileChild allProps [].

Section Walk.

Variable allProps : list (string * property).
Variable childrenOf : list (string * list string).

(** The loop of [walkTree] over the children, [walk] being the call of
    [walkTree] for one of them; [None] when a call does not return. *)
Fixpoint walkChildren (walk : string -> option (list property)) (ids : list string)
    : option (list property) :=
  match ids with
  | [] => Some []
  | propId :: rest =>
      match Obj.get propId allProps, walk propId, walkChildren walk rest with
      | Some prop, Some below, Some others => Some (prop :: below ++ others)
      | _, _, _ => None
      end
  end.

(** [walkTree(parentId)] with [fuel] calls one inside the other at most;
    [None] when that is not enough. *)
Fixpoint walkTree (fuel : nat) (parent : string) : option (list property) :=
  match fuel with
  | O => None
  | S fuel' => walkChildren (walkTree fuel') (default [] (Obj.get parent childrenOf))
  end.

End Walk.

Definition infoOf (p : property) : info :=
  Info (id p) (displayName p) (sortDirection p) (isSummary p) (parentId p) (rowOrder p).

(** One round of the loop that fills [groups], under the same
    condition. *)
Definition fileProperty (acc : list (string * collected)) (p : property)
    : list (string * collected) :=
  let gid := groupId p in
  let acc := if Obj.has gid acc then acc
             else Obj.set gid (Collected gid (groupName p) (rowOrder p) []) acc in
  Obj.update gid (fun g => Collected (c_groupId g) (c_groupName g) (minOrder g)
                                     (properties g ++ [infoOf p]))
             acc.

Definition collectGroups (ordered : list property) : list (string * collected) :=
  fold_left fileProperty ordered [].

Definition sortGroups (groups : list (string * collected)) : list group :=
  map (fun g => Group (c_groupId g) (c_groupName g) (properties g))
      (Queries.sortWith (fun a b => minOrder a <=? minOrder b) (map snd groups)).

(** [getProperties()], the calls of [walkTree] being [fuel] deep at
    most; [None] when they go deeper. *)
Definition getPropertiesWithin (fuel : nat) (s : Db.store) : option (list group) :=
  let allProps := collectProps (selectProperties s) in
  let childrenOf := collectChildren allProps in
  match walkTree allProps childrenOf fuel "null" with
  | Some ordered => Some (sortGroups (collectGroups ordered))
  | None => None
  end.

(** One call more than there are properties: as deep as the calls get
    unless they go on for ever. *)
Definition getProperties (s : Db.store) : option (list group) :=
  getPropertiesWithin (S (length (Db.properties s))) s.

End Properties.

(** ** Further vocabulary *)

Module Terms.

(** The ids of the roster of a game, and the participants it knows:
    those of the roster, the bots and the extra players. *)
Definition rosterIds (g : Parser.game) : list string :=
  map (fun e => snd (fst e)) (Parser.players g).

Definition participant (g : Parser.game) (p : string) : Prop :=
  p ∈ rosterIds g \/ p ∈ Obj.keys (Parser.discoveredBots g)
  \/ p ∈ Parser.discoveredExtraPlayers g.

(** What the directive loop maintains between the game and the set of
    registered ids. *)
Definition consistent (g : Parser.game) (known : gset string) : Prop :=
  (forall x, x ∈ known -> x ∈ rosterIds g)
  /\ (forall r p v, (r, p, v) ∈ Parser.scores g ->
        r ∈ Obj.keys (Parser.propertyMetadata g)
        /\ participant g p
        /\ (Utils.isUuid p = true \/ Js.startsWith "bot_" p = true))
  /\ (forall b, b ∈ Obj.keys (Parser.discoveredBots g) -> Js.startsWith "bot_" b = true)
  /\ (forall e, e ∈ Parser.discoveredExtraPlayers g -> Utils.isUuid e = true)
  /\ NoDup (Parser.discoveredExtraPlayers g).

(** Some character of a string is in a class. *)
Fixpoint anyChar (P : ascii -> bool) (s : string) : bool :=
  match s with
  | EmptyString => false
  | String c r => P c || anyChar P r
  end.

Definition isUpper (c : ascii) : bool :=
  let n := Js.code c in ((65 <=? n) && (n <=? 90))%N.

Definition isSpace (c : ascii) : bool := Ascii.eqb c " ".

Definition firstChar (s : string) : option ascii :=
  match s with
  | String c _ => Some c
  | EmptyString => None
  end.

Fixpoint lastChar (s : string) : option ascii :=
  match s with
  | EmptyString => None
  | String c EmptyString => Some c
  | String _ r => lastChar r
  end.

(** The keys of the tables, as [SCHEMA_SQL] declares them. *)
Definition gpKey (r : Db.gamePlayerRow) : Z * string := (Db.gp_game_id r, Db.gp_player_id r).

Definition scoreKey (r : Db.scoreRow) : Z * string * string :=
  (Db.s_game_id r, Db.s_player_id r, Db.s_property_id r).

(** Every primary key and the [UNIQUE] file name hold. *)
Definition keyed (s : Db.store) : Prop :=
  NoDup (map Db.g_id (Db.games s))
  /\ NoDup (map Db.g_filename (Db.games s))
  /\ NoDup (map Db.p_id (Db.players s))
  /\ NoDup (map gpKey (Db.game_players s))
  /\ NoDup (map Db.pr_id (Db.properties s))
  /\ NoDup (map scoreKey (Db.scores s)).

(** Roster entries and scores refer to games and players there are. *)
Definition referenced (s : Db.store) : Prop :=
  (forall r, r ∈ Db.game_players s ->
     Db.gp_game_id r ∈ map Db.g_id (Db.games s)
     /\ Db.gp_player_id r ∈ map Db.p_id (Db.players s))
  /\ (forall r, r ∈ Db.scores s ->
        Db.s_game_id r ∈ map Db.g_id (Db.games s)
        /\ Db.s_player_id r ∈ map Db.p_id (Db.players s)).

(** The rows of the append-only tables of [s] are the first rows of the
    same tables of [s']. *)
Definition extends (s s' : Db.store) : Prop :=
  Db.games s `prefix_of` Db.games s'
  /\ Db.players s `prefix_of` Db.players s'
  /\ Db.game_players s `prefix_of` Db.game_players s'
  /\ Db.scores s `prefix_of` Db.scores s'.

(** A computation that keeps a property of the store, whether it ends
    or throws. *)
Definition keeps {A : Type} (K : Db.store -> Prop) (c : Db.run A) : Prop :=
  forall s, K s -> K (c s).2.

(** A computation whose outcome is related to the store it starts from. *)
Definition relates {A : Type} (R : Db.store -> Db.store -> Prop) (c : Db.run A) : Prop :=
  forall s, R s (c s).2.

(** The score rows [insertGame] writes for a game. *)
Definition scoreRowsOf (gameId : Z) (l : list (string * string * Js.number))
    : list Db.scoreRow :=
  map (fun '(propertyId, playerId, value) => Db.ScoreRow gameId playerId propertyId value) l.

(** The player and roster rows [insertGame] writes for a game. *)
Definition playerRowsOf (g : Parser.game) : list Db.playerRow :=
  map (fun '(slot, playerId, playerName) => Db.PlayerRow playerId false) (Parser.players g)
  ++ map (fun '(botId, cleanName) => Db.PlayerRow botId true) (Parser.discoveredBots g)
  ++ map (fun extraId => Db.PlayerRow extraId false) (Parser.discoveredExtraPlayers g).

Definition gamePlayerRowsOf (gameId : Z) (g : Parser.game)
    : list (Z * string * option Z * string * bool) :=
  map (fun '(slot, playerId, playerName) => (gameId, playerId, slot, playerName, false))
      (Parser.players g)
  ++ map (fun '(botId, cleanName) => (gameId, botId, Some (-1), cleanName, false))
         (Parser.discoveredBots g)
  ++ map (fun extraId => (gameId, extraId, Some (-1), "Unknown", true))
         (Parser.discoveredExtraPlayers g).

(** The game a file parses to; a file that does not parse gives the
    empty game. *)
Definition parsed (name content : string) : Parser.game :=
  default (Parser.emptyGame name 0) (Parser.parseLuaContent name content).

(** The value a file gives first for a property and a player. *)
Definition firstScore (propertyId playerId : string)
    (l : list (string * string * Js.number)) : option Js.number :=
  snd <$> List.find (fun e => String.eqb (fst (fst e)) propertyId
                              && String.eqb (snd (fst e)) playerId) l.

(** The game of the sample log. *)
Definition game1 : Parser.game := parsed "100.lua" Sample.match1.

(** The value the grouped scores hold for a game, a player and a
    property, and the name the grouped roster holds for a game and a
    player. *)
Definition scoreAt (acc : gmap Z (gmap string (gmap string Js.number)))
    (gameId : Z) (playerId propertyId : string) : option Js.number :=
  default ∅ (default ∅ (acc !! gameId) !! playerId) !! propertyId.

Definition nameAt (acc : gmap Z (gmap string string)) (gameId : Z) (playerId : string)
    : option string :=
  default ∅ (acc !! gameId) !! playerId.

Definition quitterAt (acc : gmap Z (gset string)) (gameId : Z) (playerId : string) : Prop :=
  playerId ∈ default ∅ (acc !! gameId).

(** The columns of a settings row other than the main flag, and the
    flag with the id. *)
Definition appearance (r : Settings.playerSettingsRow)
    : string * option string * option string :=
  (Settings.ps_player_id r, Settings.ps_custom_name r, Settings.ps_color r).

Definition flag (r : Settings.playerSettingsRow) : string * bool :=
  (Settings.ps_player_id r, Settings.ps_is_main r).

(** The games [computePlayerGeneralStats] counts for a player, and
    whether a game is won. *)
Definition countedGames (p : Stats.player) (nameFilter : option string)
    (games : list Db.gameResult) : list Db.gameResult :=
  List.filter (Stats.counted p nameFilter) games.

Definition won (g : Db.gameResult) : bool := String.eqb (Db.result g) "won".

Definition lost (g : Db.gameResult) : bool := negb (won g).

(** The current and the longest run of elements that satisfy a test, as
    a loop over the list keeps them. *)
Definition runStep {A : Type} (P : A -> bool) (cm : nat * nat) (x : A) : nat * nat :=
  if P x then (S (fst cm), Nat.max (snd cm) (S (fst cm))) else (O, snd cm).

Definition runs {A : Type} (P : A -> bool) (l : list A) : nat * nat :=
  fold_left (runStep P) l (O, O).

(** A run of [n] consecutive elements of [l] that satisfy [P]. *)
Definition hasRun {A : Type} (P : A -> bool) (l : list A) (n : nat) : Prop :=
  exists pre seg post,
    l = pre ++ seg ++ post /\ Forall (fun x => P x = true) seg /\ length seg = n.

(** A player and a game they won. *)
Definition alice : Stats.player := Stats.Player "alice" None ["Alice"] None true.

Definition wonGame : Db.gameResult :=
  Db.GameResult 1 300 "cm_habs" "Hab Dreyko" 2 EmptyString "won" 1500
                {["alice" := "Alice"]}
                {["alice" := {["dmg" := Js.Decimal false 250 0]}]}
                ∅.

(** A rounding of the percentage of wins. *)
Definition percent (wins total : nat) : Z :=
  (200 * Z.of_nat wins + Z.of_nat total) / (2 * Z.of_nat total).

(** What a character becomes in escaped text, and the characters that
    mark up HTML. *)
Definition escapeChar (c : ascii) : string :=
  if Ascii.eqb c "&" then "&amp;"
  else if Ascii.eqb c "<" then "&lt;"
  else if Ascii.eqb c ">" then "&gt;"
  else if Ascii.eqb c (ascii_of_N 34) then "&quot;"
  else String c EmptyString.

Definition isMarkup (c : ascii) : bool :=
  Ascii.eqb c "<" || Ascii.eqb c ">" || Ascii.eqb c (ascii_of_N 34).

(** A part of a duration with its unit, left out when [shown] is not
    set. *)
Definition durationPart (shown : bool) (n : Z) (unit : string) : string :=
  if shown then Queries.showInteger n +:+ unit else EmptyString.

(** White space occurs as single spaces only; [prevSpace] tells whether
    white space may not come first. *)
Fixpoint singleSpaced (prevSpace : bool) (s : string) : bool :=
  match s with
  | EmptyString => true
  | String c r =>
      if Js.isWhiteSpace c
      then Ascii.eqb c " " && negb prevSpace && singleSpaced true r
      else singleSpaced false r
  end.

(** The ids filed under a key of [childrenOf], and the chain of keys
    that leads from a property up to the root, the key [null]. *)
Definition children (allProps : list (string * Properties.property)) (key : string)
    : list string :=
  map fst (List.filter (fun e => String.eqb (Properties.parentKey (snd e)) key) allProps).

Inductive chain (allProps : list (string * Properties.property))
    : list string -> string -> Prop :=
| chain_root : chain allProps [] "null"
| chain_step k p path :
    Obj.get k allProps = Some p ->
    chain allProps path (Properties.parentKey p) ->
    chain allProps (k :: path) k.

(** A property whose parents lead to a property without parent. *)
Inductive rooted (rows : list Db.propertyRow) : string -> Prop :=
| rooted_top row :
    row ∈ rows -> Properties.parentKey (Properties.propertyOf row) = "null" ->
    rooted rows (Db.pr_id row)
| rooted_child row :
    row ∈ rows -> rooted rows (Properties.parentKey (Properties.propertyOf row)) ->
    rooted rows (Db.pr_id row).

(** The ids of the properties of the groups, in their order. *)
Definition listed (groups : list Properties.group) : list string :=
  map Properties.i_id (concat (map Properties.g_properties groups)).

(** The row order of the first property of a group. *)
Definition firstOrder (g : Properties.group) : Z :=
  default 0 (Properties.i_rowOrder <$> head (Properties.g_properties g)).

(** What the loop over the ordered properties keeps of the groups it
    has collected from the properties [done]. *)
Definition collectedFrom (done : list Properties.property)
    (acc : list (string * Properties.collected)) : Prop :=
  NoDup (Obj.keys acc)
  /\ concat (map (fun e => Properties.properties (snd e)) acc) ≡ₚ map Properties.infoOf done
  /\ forall k g, (k, g) ∈ acc ->
       Properties.c_groupId g = k
       /\ Properties.properties g <> []
       /\ (forall i, head (Properties.properties g) = Some i ->
                     Properties.i_rowOrder i = Properties.minOrder g)
       /\ forall i, i ∈ Properties.properties g ->
            exists p, p ∈ done /\ i = Properties.infoOf p /\ Properties.groupId p = k.

(** A store with one property, and one whose only property has the id
    [null]. *)
Definition oneProperty : Db.store := (Db.insertGame game1 Db.emptyStore).2.

Definition nullProperty : Db.store :=
  Db.Store [] 0 [] []
           [Db.PropertyRow "null" "Null" "default" "Default" "ASC" false None None 0 true] [].

(** A player seen as [Zed], as [Amy], as [Zed] again and as [Amy2]. *)
Definition renamed : Db.store :=
  Db.Store [] 0 [Db.PlayerRow "p" false]
           [Db.GamePlayerRow 1 "p" 0 "Zed" false; Db.GamePlayerRow 2 "p" 1 "Amy" false;
            Db.GamePlayerRow 3 "p" 0 "Zed" false; Db.GamePlayerRow 4 "p" 2 "Amy2" false]
           [] [].

(** The ids of the store that [getGames] uses as keys of object
    literals are none of the inherited names: the player ids of the
    roster and the player and property ids of the scores. *)
Definition ordinaryIds (s : Db.store) : bool :=
  forallb (fun r => negb (Js.inherited (Db.gp_player_id r))) (Db.game_players s)
  && forallb (fun r => negb (Js.inherited (Db.s_player_id r))
                       && negb (Js.inherited (Db.s_property_id r)))
             (Db.scores s).

(** The same for the keys [getProperties] uses: the ids, the parent ids
    and the group ids of the stored properties. *)
Definition ordinaryProperties (s : Db.store) : bool :=
  forallb (fun r => negb (Js.inherited (Db.pr_id r))
                    && negb (Js.inherited (Db.pr_group_id r))
                    && match Db.pr_parent_id r with
                       | Some parent => negb (Js.inherited parent)
                       | None => true
                       end)
          (Db.properties s).

End Terms.

(** * Properties *)

(** ** Dictionaries *)

Module ObjFacts.

Section Dict.
Context {V : Type}.
Implicit Types (o : list (string * V)) (k : string) (v : V).

Lemma get_update k k' (f : V -> V) o :
  Obj.get k (Obj.update k' f o)
  = if String.eqb k k' then f <$> Obj.get k o else Obj.get k o.
Proof.
  induction o as [|[k0 v0] o IH]; simpl.
  - destruct (String.eqb k k'); reflexivity.
  - destruct (String.eqb_spec k' k0) as [->|Hne]; simpl.
    + destruct (String.eqb_spec k k0) as [->|Hk]; simpl; [reflexivity|].
      rewrite IH. reflexivity.
    + destruct (String.eqb_spec k k0) as [->|Hk]; simpl.
      * destruct (String.eqb_spec k0 k'); [congruence | reflexivity].
      * apply IH.
Qed.

Lemma keys_update k (f : V -> V) o : Obj.keys (Obj.update k f o) = Obj.keys o.
Proof.
  induction o as [|[k0 v0] o IH]; simpl; [reflexivity|].
  destruct (String.eqb k k0); simpl; f_equal; apply IH.
Qed.

Lemma get_None_keys k o : Obj.get k o = None <-> k ∉ Obj.keys o.
Proof.
  induction o as [|[k0 v0] o IH]; simpl.
  - split; [intros _; apply not_elem_of_nil | reflexivity].
  - destruct (String.eqb_spec k k0) as [->|Hne].
    + split; [discriminate | intros H; exfalso; apply H; left].
    + rewrite IH. rewrite not_elem_of_cons. tauto.
Qed.

Lemma get_Some_elem k v o : Obj.get k o = Some v -> (k, v) ∈ o.
Proof.
  induction o as [|[k0 v0] o IH]; simpl; [discriminate|].
  destruct (String.eqb_spec k k0) as [->|Hne].
  - intros [= ->]. left.
  - intros H. right. auto.
Qed.

Lemma elem_get k v o : NoDup (Obj.keys o) -> (k, v) ∈ o -> Obj.get k o = Some v.
Proof.
  induction o as [|[k0 v0] o IH]; simpl; intros Hnd Hin.
  - inversion Hin.
  - apply NoDup_cons in Hnd as [Hk0 Hnd].
    apply elem_of_cons in Hin as [[= -> ->]|Hin].
    + rewrite String.eqb_refl. reflexivity.
    + destruct (String.eqb_spec k k0) as [->|Hne]; [|auto].
      exfalso. apply Hk0, list_elem_of_In. apply list_elem_of_In in Hin.
      exact (in_map fst _ _ Hin).
Qed.

Lemma get_place_eq k ix v o : Obj.get k o = None -> Obj.get k (Obj.place k ix v o) = Some v.
Proof.
  induction o as [|[k0 v0] o IH]; simpl; intros Hget.
  - rewrite String.eqb_refl. reflexivity.
  - destruct (String.eqb_spec k k0) as [->|Hne]; [discriminate|].
    destruct ix as [i|]; [destruct (Obj.arrayIndex k0) as [j|]; [destruct (i <? j)|]|];
      simpl; rewrite ?String.eqb_refl; try reflexivity;
      (destruct (String.eqb_spec k k0); [congruence | auto]).
Qed.

Lemma get_place_ne k k' ix v o : k' <> k -> Obj.get k' (Obj.place k ix v o) = Obj.get k' o.
Proof.
  intros Hne. induction o as [|[k0 v0] o IH]; simpl.
  - destruct (String.eqb_spec k' k); [congruence | reflexivity].
  - destruct ix as [i|]; [destruct (Obj.arrayIndex k0) as [j|]; [destruct (i <? j)|]|];
      simpl; try (destruct (String.eqb_spec k' k); [congruence|]); try reflexivity;
      (destruct (String.eqb k' k0); [reflexivity | auto]).
Qed.

Lemma keys_place k ix v o : Obj.keys (Obj.place k ix v o) ≡ₚ k :: Obj.keys o.
Proof.
  induction o as [|[k0 v0] o IH]; simpl; [reflexivity|].
  destruct ix as [i|]; [destruct (Obj.arrayIndex k0) as [j|]; [destruct (i <? j)|]|];
    simpl; try reflexivity; rewrite IH; apply Permutation_swap.
Qed.

Lemma get_set_eq k v o : Obj.get k (Obj.set k v o) = Some v.
Proof.
  unfold Obj.set, Obj.has. destruct (Obj.get k o) as [v0|] eqn:Hget.
  - rewrite get_update, String.eqb_refl, Hget. reflexivity.
  - apply get_place_eq, Hget.
Qed.

Lemma get_set_ne k k' v o : k' <> k -> Obj.get k' (Obj.set k v o) = Obj.get k' o.
Proof.
  intros Hne. unfold Obj.set, Obj.has. destruct (Obj.get k o) as [v0|] eqn:Hget.
  - rewrite get_update. destruct (String.eqb_spec k' k); [congruence | reflexivity].
  - apply get_place_ne, Hne.
Qed.

(** A new key that is not an array index goes last. *)
Lemma place_last k v o : Obj.place k None v o = o ++ [(k, v)].
Proof. induction o as [|[k0 v0] o IH]; simpl; [reflexivity | rewrite IH; reflexivity]. Qed.

Lemma set_new_last k v o :
  Obj.arrayIndex k = None -> Obj.has k o = false -> Obj.set k v o = o ++ [(k, v)].
Proof. intros Hix Hnew. unfold Obj.set. rewrite Hnew, Hix. apply place_last. Qed.

Lemma NoDup_keys_set k v o : NoDup (Obj.keys o) -> NoDup (Obj.keys (Obj.set k v o)).
Proof.
  intros Hnd. unfold Obj.set, Obj.has. destruct (Obj.get k o) as [v0|] eqn:Hget.
  - rewrite keys_update. exact Hnd.
  - rewrite keys_place. apply NoDup_cons. split; [|exact Hnd].
    apply get_None_keys, Hget.
Qed.

(** A map over the entries that keeps the keys. *)
Lemma get_map (f : string * V -> string * V) k o :
  (forall e, fst (f e) = fst e) ->
  Obj.get k (map f o) = (fun v => snd (f (k, v))) <$> Obj.get k o.
Proof.
  intros Hf. induction o as [|[k0 v0] o IH]; simpl; [reflexivity|].
  destruct (f (k0, v0)) as [k1 v1] eqn:Hfe.
  assert (k1 = k0) as -> by (specialize (Hf (k0, v0)); rewrite Hfe in Hf; exact Hf).
  destruct (String.eqb_spec k k0) as [->|Hne]; simpl.
  - rewrite Hfe. reflexivity.
  - apply IH.
Qed.

End Dict.

End ObjFacts.

(** ** The parser *)

Module ParserFacts.

Import Parser.

(** *** What the directive loop preserves *)

Section Invariant.

Variable P : game -> Prop.
Hypothesis P_mission : forall g mid diff modif res dur, P g -> P (setMission g mid diff modif res dur).
Hypothesis P_players : forall g ps, P g -> P (setPlayers g ps).
Hypothesis P_property : forall g k m,
    P g -> P (setPropertyMetadata g (Obj.set k m (propertyMetadata g))).
Hypothesis P_scores : forall g sc, P g -> P (setScores g sc).
Hypothesis P_bots : forall g bots, P g -> P (setDiscoveredBots g bots).
Hypothesis P_extra : forall g extra, P g -> P (setDiscoveredExtraPlayers g extra).

Lemma parseMissionLine_inv line g : P g -> P (parseMissionLine line g).
Proof using P_mission.
  intros Hg. unfold parseMissionLine.
  destruct (length (Js.split ";" line) <? 3)%nat; [exact Hg | apply P_mission, Hg].
Qed.

Lemma playerLines_inv n lines lineIndex g known :
  P g -> P (playerLines n lines lineIndex g known).1.2.
Proof using P_players.
  revert lineIndex g known. induction n as [|n IH]; intros lineIndex g known Hg; simpl.
  - exact Hg.
  - destruct (lines !! S lineIndex) as [l|]; [|exact Hg].
    destruct (length (Js.split ";" (Js.trim l)) <? 2)%nat; apply IH; auto.
Qed.

Lemma parsePlayersSection_inv lines lineIndex g known :
  P g -> P (parsePlayersSection lines lineIndex g known).1.2.
Proof using P_players.
  intros Hg. unfold parsePlayersSection.
  destruct (length _ <? 2)%nat; [exact Hg | apply playerLines_inv, Hg].
Qed.

Lemma scoreLine_inv rowId known dataLine g : P g -> P (scoreLine rowId known dataLine g).
Proof using P_scores P_bots P_extra.
  intros Hg. unfold scoreLine.
  destruct (_ ≫= Js.parseFloat) as [v|]; [|exact Hg].
  destruct (Utils.isUuid _).
  - apply P_scores. destruct (bool_decide _); auto.
  - apply P_scores, P_bots, Hg.
Qed.

Lemma dataLines_inv n rowId known lines lineIndex g :
  P g -> P (dataLines n rowId known lines lineIndex g).2.
Proof using P_scores P_bots P_extra.
  revert lineIndex g. induction n as [|n IH]; intros lineIndex g Hg; simpl; [exact Hg|].
  unfold dataLineStep. destruct (lines !! S lineIndex) as [l|]; [|exact Hg].
  destruct (_ || _); [exact Hg|]. apply IH, scoreLine_inv, Hg.
Qed.

Lemma parseRowSection_inv lines lineIndex line g known gid gname :
  P g -> P (parseRowSection lines lineIndex line g known gid gname).2.
Proof using P_property P_scores P_bots P_extra.
  intros Hg. unfold parseRowSection.
  destruct (length _ <? 2)%nat; [exact Hg|]. apply dataLines_inv, P_property, Hg.
Qed.

Lemma parseLines_inv fuel lines lineIndex g gid gname known :
  P g -> P (parseLines fuel lines lineIndex g gid gname known).
Proof using All.
  revert lineIndex g gid gname known.
  induction fuel as [|fuel IH]; intros lineIndex g gid gname known Hg;
    cbn [parseLines]; [exact Hg|].
  destruct (lines !! lineIndex) as [raw|]; [|exact Hg].
  destruct (String.eqb _ _); [apply IH, Hg|].
  destruct (Js.startsWith "#mission" _); [apply IH, parseMissionLine_inv, Hg|].
  destruct (Js.startsWith "#players" _).
  { pose proof (parsePlayersSection_inv lines lineIndex g known Hg) as H.
    destruct (parsePlayersSection lines lineIndex g known) as [[i g'] k']. apply IH, H. }
  destruct (Js.startsWith "#group" _); [apply IH, Hg|].
  destruct (Js.startsWith "#row" _); [|apply IH, Hg].
  pose proof (parseRowSection_inv lines lineIndex (Js.trim raw) g known gid gname Hg) as H.
  destruct (parseRowSection _ _ _ _ _ _ _) as [i g']. apply IH, H.
Qed.

End Invariant.

(** The file name and the timestamp are those the game started with. *)
Lemma parseDirectives_file name ts content :
  filename (parseDirectives name ts content) = name
  /\ timestamp (parseDirectives name ts content) = ts.
Proof.
  unfold parseDirectives.
  apply (parseLines_inv (fun g => filename g = name /\ timestamp g = ts));
    try (intros; simpl; assumption).
  split; reflexivity.
Qed.

(** The keys of the property map are pairwise distinct. *)
Lemma parseDirectives_NoDup name ts content :
  NoDup (Obj.keys (propertyMetadata (parseDirectives name ts content))).
Proof.
  unfold parseDirectives.
  apply (parseLines_inv (fun g => NoDup (Obj.keys (propertyMetadata g))));
    try (intros; simpl; assumption).
  - intros g k m Hg. simpl. apply ObjFacts.NoDup_keys_set, Hg.
  - simpl. apply NoDup_nil_2.
Qed.

(** *** Enough rounds for the directive loop *)

Lemma playerLines_index n lines lineIndex g known :
  (lineIndex <= (playerLines n lines lineIndex g known).1.1)%nat.
Proof.
  revert lineIndex g known. induction n as [|n IH]; intros lineIndex g known; simpl; [lia|].
  destruct (lines !! S lineIndex) as [l|]; simpl; [|lia].
  destruct (length _ <? 2)%nat; (etransitivity; [|apply IH]); lia.
Qed.

Lemma dataLines_index n rowId known lines lineIndex g :
  (lineIndex <= (dataLines n rowId known lines lineIndex g).1)%nat.
Proof.
  revert lineIndex g. induction n as [|n IH]; intros lineIndex g; simpl; [lia|].
  unfold dataLineStep. destruct (lines !! S lineIndex) as [l|]; simpl; [|lia].
  destruct (_ || _); simpl; [lia|]. etransitivity; [|apply IH]. lia.
Qed.

(** Rounds beyond the number of lines left change nothing. *)
Lemma parseLines_enough fuel1 fuel2 lines lineIndex g gid gname known :
  (length lines - lineIndex <= fuel1)%nat ->
  (length lines - lineIndex <= fuel2)%nat ->
  parseLines fuel1 lines lineIndex g gid gname known
  = parseLines fuel2 lines lineIndex g gid gname known.
Proof.
  revert fuel2 lineIndex g gid gname known.
  induction fuel1 as [|fuel1 IH]; intros fuel2 lineIndex g gid gname known H1 H2.
  - destruct fuel2 as [|fuel2]; [reflexivity|]. cbn [parseLines].
    rewrite (proj2 (lookup_ge_None lines lineIndex)) by lia. reflexivity.
  - destruct (lines !! lineIndex) as [raw|] eqn:Hraw.
    2:{ destruct fuel2; cbn [parseLines]; rewrite ?Hraw; reflexivity. }
    pose proof (lookup_lt_Some _ _ _ Hraw) as Hlt.
    destruct fuel2 as [|fuel2]; [lia|].
    cbn [parseLines]. rewrite Hraw.
    assert (Hstep : forall i g' gid' gname' known', (lineIndex <= i)%nat ->
               parseLines fuel1 lines (S i) g' gid' gname' known'
               = parseLines fuel2 lines (S i) g' gid' gname' known').
    { intros i g' gid' gname' known' Hi. apply IH; lia. }
    destruct (String.eqb _ _); [apply Hstep; lia|].
    destruct (Js.startsWith "#mission" _); [apply Hstep; lia|].
    destruct (Js.startsWith "#players" _).
    { unfold parsePlayersSection.
      destruct (length _ <? 2)%nat; [apply Hstep; lia|].
      match goal with |- context [playerLines ?n ?ls ?i ?gg ?kn] =>
        pose proof (playerLines_index n ls i gg kn) as Hidx;
        destruct (playerLines n ls i gg kn) as [[i' g'] k'] end.
      apply Hstep. exact Hidx. }
    destruct (Js.startsWith "#group" _); [apply Hstep; lia|].
    destruct (Js.startsWith "#row" _); [|apply Hstep; lia].
    unfold parseRowSection. destruct (length _ <? 2)%nat; [apply Hstep; lia|].
    match goal with |- context [dataLines ?n ?r ?kn ?ls ?i ?gg] =>
      pose proof (dataLines_index n r kn ls i gg) as Hidx;
      destruct (dataLines n r kn ls i gg) as [i' g'] end.
    apply Hstep. exact Hidx.
Qed.

(** The rounds [parseDirectives] allows are enough: more of them give the
    same game. *)
Lemma parseLines_fuel fuel lines g gid gname known :
  (length lines <= fuel)%nat ->
  parseLines fuel lines O g gid gname known
  = parseLines (length lines) lines O g gid gname known.
Proof. intros H. apply parseLines_enough; lia. Qed.

(** *** Reading the timestamp from the file name *)







(** The post-pass keeps the file name and the timestamp. *)
Lemma parseLuaContent_file name content g :
  parseLuaContent name content = Some g ->
  filename g = name /\ Js.parseInt (stripLuaExtension name) = Some (timestamp g).
Proof.
  unfold parseLuaContent. destruct (Js.parseInt _) as [ts|]; [|discriminate].
  intros [= <-]. destruct (parseDirectives_file name ts content) as [Hn Ht].
  simpl. split; congruence.
Qed.




(** *** Value lines *)

(** C9.  The id under which a bot is recorded is a function of the raw
    token alone: whatever the row, the roster and the game read so far, a
    value line whose token is not a UUID records its score under
    [generateBotIdentifier] of the token; and the token of the example
    gives [bot_grunt]. *)
Theorem generateBotIdentifier_stable :
  (forall rowId knownPlayerIds dataLine g v,
      Utils.isUuid (Spec.token dataLine) = false ->
      Spec.value dataLine = Some v ->
      scores (scoreLine rowId knownPlayerIds dataLine g)
      = scores g ++ [(rowId, Utils.generateBotIdentifier (Spec.token dataLine), v)])
  /\ Utils.generateBotIdentifier "{#color(1)}Grunt{#reset()} [BOT]" = "bot_grunt".
Proof.
  split; [|reflexivity].
  intros rowId known dataLine g v Huuid Hv. unfold scoreLine.
  unfold Spec.value in Hv. rewrite Hv.
  unfold Spec.token in Huuid. rewrite Huuid. reflexivity.
Qed.

Lemma generateBotIdentifier_stable_witness :
  scores (scoreLine "dmg" ∅ "{#color(1)}Grunt{#reset()} [BOT];5" (emptyGame "1.lua" 1))
  = [("dmg", "bot_grunt", Js.Decimal false 5 0)].
Proof.
  exact (proj1 generateBotIdentifier_stable "dmg" ∅ "{#color(1)}Grunt{#reset()} [BOT];5"
               (emptyGame "1.lua" 1) (Js.Decimal false 5 0) eq_refl eq_refl).
Defined.

(** C10.  A value line that is not empty, does not begin with [#] and
    whose value is not a number is skipped: the game is unchanged, the
    line is consumed and counts as one of the declared lines.  The loop is
    left with the index moved back exactly on an empty line or a line that
    begins with [#]. *)
Theorem unparseable_value_consumes_line rowId knownPlayerIds lines lineIndex g :
  (forall l,
      lines !! S lineIndex = Some l ->
      Js.trim l <> EmptyString ->
      Js.startsWith "#" (Js.trim l) = false ->
      Spec.value (Js.trim l) = None ->
      dataLineStep rowId knownPlayerIds lines lineIndex g = Continue (S lineIndex) g
      /\ forall n, dataLines (S n) rowId knownPlayerIds lines lineIndex g
                   = dataLines n rowId knownPlayerIds lines (S lineIndex) g)
  /\ (forall g',
      dataLineStep rowId knownPlayerIds lines lineIndex g = Break lineIndex g'
      <-> g' = g /\ exists l, lines !! S lineIndex = Some l
                              /\ (Js.trim l = EmptyString
                                  \/ Js.startsWith "#" (Js.trim l) = true)).
Proof.
  split.
  - intros l Hl Hne Hhash Hval.
    assert (Hstep : dataLineStep rowId knownPlayerIds lines lineIndex g
                    = Continue (S lineIndex) g).
    { unfold dataLineStep. rewrite Hl.
      destruct (String.eqb_spec (Js.trim l) EmptyString) as [He|_]; [contradiction|].
      rewrite Hhash. cbn [orb]. unfold scoreLine.
      unfold Spec.value in Hval. rewrite Hval. reflexivity. }
    split; [exact Hstep|]. intros n. cbn [dataLines]. rewrite Hstep. reflexivity.
  - intros g'. unfold dataLineStep.
    destruct (lines !! S lineIndex) as [l|].
    + destruct (String.eqb_spec (Js.trim l) EmptyString) as [He|Hne]; cbn [orb].
      * replace (S lineIndex - 1)%nat with lineIndex by lia.
        split; [intros [= <-]; eauto | intros [-> _]; reflexivity].
      * destruct (Js.startsWith "#" (Js.trim l)) eqn:Hhash.
        -- replace (S lineIndex - 1)%nat with lineIndex by lia.
           split; [intros [= <-]; eauto | intros [-> _]; reflexivity].
        -- split; [discriminate|]. intros [_ (l' & [= <-] & [H|H])]; congruence.
    + split; [intros [= H]; lia|]. intros [_ (l' & H & _)]. discriminate H.
Qed.

Lemma unparseable_value_consumes_line_witness :
  dataLineStep "dmg" ∅ ["#row;dmg;1;2"; "Grunt;n/a"; "Grunt;7"] 0 (emptyGame "1.lua" 1)
  = Continue 1 (emptyGame "1.lua" 1).
Proof.
  exact (proj1 (proj1 (unparseable_value_consumes_line
                         "dmg" ∅ ["#row;dmg;1;2"; "Grunt;n/a"; "Grunt;7"] 0%nat
                         (emptyGame "1.lua" 1))
                      "Grunt;n/a" eq_refl ltac:(discriminate) eq_refl eq_refl)).
Defined.

End ParserFacts.

(** ** The hierarchy post-pass *)

Module HierarchyFacts.

Import Parser.

(** *** Orphan linking *)

Section Child.

Variables (pm : list (string * metadata)) (child : string) (mc : metadata).
Hypothesis Hchild : Obj.get child pm = Some mc.
Hypothesis Horphan : parentId mc = None.

Lemma optionsOf_addCandidate rowId n candidates childId :
  Spec.optionsOf child (addCandidate pm rowId n candidates childId)
  = Spec.optionsOf child candidates ++ (if String.eqb child childId then [(rowId, n)] else []).
Proof using Hchild Horphan.
  unfold addCandidate, Spec.optionsOf.
  destruct (String.eqb_spec child childId) as [<-|Hne].
  - rewrite Hchild, Horphan, ObjFacts.get_set_eq. reflexivity.
  - rewrite app_nil_r. destruct (Obj.get childId pm) as [m|]; [|reflexivity].
    destruct (parentId m); [reflexivity|]. rewrite ObjFacts.get_set_ne by exact Hne.
    reflexivity.
Qed.

Lemma optionsOf_children rowId n childList candidates :
  Spec.optionsOf child (fold_left (addCandidate pm rowId n) childList candidates)
  = Spec.optionsOf child candidates
    ++ map (fun _ => (rowId, n)) (List.filter (String.eqb child) childList).
Proof using Hchild Horphan.
  revert candidates. induction childList as [|c cl IH]; intros candidates; simpl.
  - rewrite app_nil_r. reflexivity.
  - rewrite IH, optionsOf_addCandidate, <- app_assoc. f_equal.
    destruct (String.eqb child c); reflexivity.
Qed.

Lemma optionsOf_candidatesOf candidates entry :
  Spec.optionsOf child (candidatesOf pm candidates entry)
  = Spec.optionsOf child candidates ++ Spec.listing child entry.
Proof using Hchild Horphan.
  unfold candidatesOf, Spec.listing.
  destruct (childIds (snd entry)) as [c|]; [|rewrite app_nil_r; reflexivity].
  destruct (String.eqb c EmptyString); [rewrite app_nil_r; reflexivity|].
  apply optionsOf_children.
Qed.

Lemma optionsOf_entries entries candidates :
  Spec.optionsOf child (fold_left (candidatesOf pm) entries candidates)
  = Spec.optionsOf child candidates ++ flat_map (Spec.listing child) entries.
Proof using Hchild Horphan.
  revert candidates. induction entries as [|e es IH]; intros candidates; simpl.
  - rewrite app_nil_r. reflexivity.
  - rewrite IH, optionsOf_candidatesOf, <- app_assoc. reflexivity.
Qed.

Lemma optionsOf_collectCandidates :
  Spec.optionsOf child (collectCandidates pm) = Spec.parentOptions pm child.
Proof using Hchild Horphan. unfold collectCandidates. rewrite optionsOf_entries. reflexivity. Qed.

End Child.

Lemma NoDup_addCandidate pm rowId n candidates childId :
  NoDup (Obj.keys candidates) -> NoDup (Obj.keys (addCandidate pm rowId n candidates childId)).
Proof.
  intros H. unfold addCandidate. destruct (Obj.get childId pm) as [m|]; [|exact H].
  destruct (parentId m); [exact H|]. apply ObjFacts.NoDup_keys_set, H.
Qed.

Lemma NoDup_collectCandidates pm : NoDup (Obj.keys (collectCandidates pm)).
Proof.
  unfold collectCandidates.
  assert (H : forall entries candidates,
             NoDup (Obj.keys candidates) ->
             NoDup (Obj.keys (fold_left (candidatesOf pm) entries candidates))).
  { induction entries as [|e es IH]; intros candidates Hc; simpl; [exact Hc|].
    apply IH. unfold candidatesOf. destruct (childIds (snd e)) as [c|]; [|exact Hc].
    destruct (String.eqb c EmptyString); [exact Hc|].
    generalize (Js.split ":" c) at 2. intros cl. revert candidates Hc.
    induction cl as [|x cl IHcl]; intros candidates Hc; simpl; [exact Hc|].
    apply IHcl, NoDup_addCandidate, Hc. }
  apply H. apply NoDup_nil_2.
Qed.

(** The stable sort puts first the first of the smallest counts. *)
Lemma insertByCount_elem x l y : y ∈ insertByCount x l -> y = x \/ y ∈ l.
Proof.
  induction l as [|z l IH]; simpl.
  - intros H. apply list_elem_of_singleton in H. auto.
  - destruct (snd x <=? snd z)%nat.
    + intros H. apply elem_of_cons in H. tauto.
    + intros H. apply elem_of_cons in H as [->|H]; [right; left|].
      destruct (IH H); [auto | right; right; assumption].
Qed.

Lemma sortByCount_elem l y : y ∈ sortByCount l -> y ∈ l.
Proof.
  induction l as [|x l IH]; simpl; [auto|].
  intros H. apply insertByCount_elem in H as [->|H]; [left | right; auto].
Qed.

Lemma sortByCount_first l1 x l2 :
  (forall y, y ∈ l1 -> (snd x < snd y)%nat) ->
  (forall y, y ∈ l2 -> (snd x <= snd y)%nat) ->
  exists rest, sortByCount (l1 ++ x :: l2) = x :: rest.
Proof.
  intros H1 H2. induction l1 as [|y l1 IH]; simpl.
  - destruct (sortByCount l2) as [|z r] eqn:Hs; simpl; [eauto|].
    assert (Hz : z ∈ l2) by (apply sortByCount_elem; rewrite Hs; left).
    specialize (H2 z Hz). destruct (Nat.leb_spec (snd x) (snd z)); [eauto | lia].
  - destruct IH as [rest Hrest]; [intros z Hz; apply H1; right; exact Hz|].
    rewrite Hrest. simpl. specialize (H1 y ltac:(left)).
    destruct (Nat.leb_spec (snd y) (snd x)); [lia | eauto].
Qed.

Lemma get_assignParents_other candidates pm child :
  child ∉ Obj.keys candidates ->
  Obj.get child (fold_left assignParent candidates pm) = Obj.get child pm.
Proof.
  revert pm. induction candidates as [|[c opts] cs IH]; intros pm Hnot; simpl; [reflexivity|].
  simpl in Hnot. apply not_elem_of_cons in Hnot as [Hne Hnot].
  rewrite IH by exact Hnot. unfold assignParent. simpl.
  destruct (sortByCount opts) as [|[p n] r]; [reflexivity|].
  rewrite ObjFacts.get_update. destruct (String.eqb_spec child c); [congruence | reflexivity].
Qed.

Lemma get_assignParents candidates pm child opts parent n rest :
  NoDup (Obj.keys candidates) ->
  Obj.get child candidates = Some opts ->
  sortByCount opts = (parent, n) :: rest ->
  Obj.get child (fold_left assignParent candidates pm)
  = setParentId (Some parent) <$> Obj.get child pm.
Proof.
  revert pm. induction candidates as [|[c o] cs IH]; intros pm Hnd Hget Hsort; simpl in *.
  - discriminate Hget.
  - apply NoDup_cons in Hnd as [Hc Hnd].
    destruct (String.eqb_spec child c) as [->|Hne].
    + injection Hget as ->. rewrite get_assignParents_other by exact Hc.
      unfold assignParent. simpl. rewrite Hsort.
      rewrite ObjFacts.get_update, String.eqb_refl. reflexivity.
    + rewrite (IH _ Hnd Hget Hsort). unfold assignParent. simpl.
      destruct (sortByCount o) as [|[p k] r]; [reflexivity|].
      rewrite ObjFacts.get_update.
      destruct (String.eqb_spec child c); [congruence | reflexivity].
Qed.

(** *** Plugin fallback *)

Lemma attachToPlugin_key parents e : fst (attachToPlugin parents e) = fst e.
Proof.
  destruct e as [rowId m]. unfold attachToPlugin.
  destruct (_ || _); [reflexivity|]. destruct (String.eqb _ _); [reflexivity|].
  destruct (parents !! pluginId m) as [p|]; [|reflexivity].
  destruct (String.eqb p rowId); reflexivity.
Qed.

Lemma get_pluginFallback pm rowId :
  Obj.get rowId (pluginFallback pm)
  = (fun m => snd (attachToPlugin (pluginParents pm) (rowId, m))) <$> Obj.get rowId pm.
Proof. unfold pluginFallback. apply ObjFacts.get_map, attachToPlugin_key. Qed.

Lemma attachToPlugin_parented parents rowId m :
  parentId m <> None -> attachToPlugin parents (rowId, m) = (rowId, m).
Proof.
  intros H. unfold attachToPlugin. rewrite bool_decide_eq_false_2 by exact H. reflexivity.
Qed.

Lemma notePluginParent_other acc e plugin :
  Spec.pluginRoot plugin (snd e) = false ->
  notePluginParent acc e !! plugin = acc !! plugin.
Proof.
  unfold Spec.pluginRoot, notePluginParent. intros H.
  destruct (negb (String.eqb (pluginId (snd e)) EmptyString)); [|reflexivity].
  destruct (visible (snd e)); [|reflexivity].
  destruct (bool_decide (parentId (snd e) = None)); [|reflexivity].
  simpl in *. rewrite !andb_true_r in H. apply String.eqb_neq in H.
  rewrite lookup_insert_ne by exact H. reflexivity.
Qed.

Lemma pluginParents_others entries acc plugin :
  (forall e, e ∈ entries -> Spec.pluginRoot plugin (snd e) = false) ->
  fold_left notePluginParent entries acc !! plugin = acc !! plugin.
Proof.
  revert acc. induction entries as [|e es IH]; intros acc H; simpl; [reflexivity|].
  rewrite IH by (intros e' He'; apply H; right; exact He').
  apply notePluginParent_other, H. left.
Qed.

Lemma pluginParents_last pre parent mp post plugin :
  Spec.pluginRoot plugin mp = true ->
  (forall e, e ∈ post -> Spec.pluginRoot plugin (snd e) = false) ->
  pluginParents (pre ++ (parent, mp) :: post) !! plugin = Some parent.
Proof.
  intros Hroot Hpost. unfold pluginParents. rewrite fold_left_app. simpl.
  rewrite pluginParents_others by exact Hpost.
  unfold Spec.pluginRoot in Hroot. unfold notePluginParent. simpl.
  apply andb_true_iff in Hroot as [Hroot Hp]. apply andb_true_iff in Hroot as [Hroot Hv].
  apply andb_true_iff in Hroot as [Hne Heq]. apply String.eqb_eq in Heq.
  rewrite Hne, Hv, Hp. simpl. rewrite Heq. apply lookup_insert_eq.
Qed.

(** A plugin parent is a visible, parentless property of the map. *)
Lemma pluginParents_root pm plugin parent :
  pluginParents pm !! plugin = Some parent ->
  exists mp, (parent, mp) ∈ pm /\ Spec.pluginRoot plugin mp = true.
Proof.
  unfold pluginParents. induction pm as [|e es IH] using rev_ind; simpl.
  - rewrite lookup_empty. discriminate.
  - rewrite fold_left_app. simpl. intros H.
    destruct (Spec.pluginRoot plugin (snd e)) eqn:Hroot.
    + pose proof Hroot as Hroot'. unfold Spec.pluginRoot in Hroot'.
      apply andb_true_iff in Hroot' as [Hr Hp]. apply andb_true_iff in Hr as [Hr Hv].
      apply andb_true_iff in Hr as [Hne Heq]. apply String.eqb_eq in Heq.
      unfold notePluginParent in H. rewrite Hne, Hv, Hp in H. simpl in H.
      rewrite Heq, lookup_insert_eq in H. injection H as <-.
      exists (snd e). split; [|exact Hroot]. apply elem_of_app. right.
      destruct e; left.
    + rewrite notePluginParent_other in H by exact Hroot.
      destruct (IH H) as (mp & Hin & Hmp). exists mp. split; [|exact Hmp].
      apply elem_of_app. left. exact Hin.
Qed.

(** *** The claims on the post-pass *)

(** C6 (as amended).  A parentless property listed in the [childIds] of
    one or more properties gets as parent the listing property with the
    shortest list; among equally short lists the one the property map
    enumerates first wins.  That is the order of first declaration for
    ids that are not array indices; ids that are array indices are
    enumerated before all others, in increasing order.  The row ids,
    plugin ids and declared parents are taken not to be names every
    object inherits, such as [constructor] or [__proto__]: the property
    map and the table of candidates are object literals, which answer
    for those names without having them as keys. *)
Theorem orphan_gets_tightest_parent g child mc l1 parent n l2 :
  Spec.ordinary (propertyMetadata g) = true ->
  Obj.get child (propertyMetadata g) = Some mc ->
  parentId mc = None ->
  Spec.parentOptions (propertyMetadata g) child = l1 ++ (parent, n) :: l2 ->
  (forall q, q ∈ l1 -> (n < snd q)%nat) ->
  (forall q, q ∈ l2 -> (n <= snd q)%nat) ->
  Obj.get child (propertyMetadata (linkOrphanedChildren g))
  = Some (setParentId (Some parent) mc).
Proof.
  intros _ Hget Horphan Hopts H1 H2. simpl.
  pose proof (optionsOf_collectCandidates _ _ _ Hget Horphan) as Hc.
  rewrite Hopts in Hc. unfold Spec.optionsOf in Hc.
  destruct (Obj.get child (collectCandidates (propertyMetadata g))) as [opts|] eqn:Hcand;
    simpl in Hc; [subst opts | destruct l1; discriminate Hc].
  destruct (sortByCount_first l1 (parent, n) l2 H1 H2) as [rest Hsort].
  rewrite get_pluginFallback. unfold linkOrphans.
  rewrite (get_assignParents _ _ _ _ _ _ _ (NoDup_collectCandidates _) Hcand Hsort).
  rewrite Hget. cbn [fmap option_fmap option_map].
  rewrite attachToPlugin_parented by discriminate. reflexivity.
Qed.

Lemma orphan_gets_tightest_parent_witness :
  Obj.get "X"
    (propertyMetadata
       (linkOrphanedChildren
          (parseDirectives "1.lua" 1
             ("#row;A;1;0;a;ASC;x;x;x;p;nil;x;X:Y" +:+ String LF
              ("#row;B;2;0;b;ASC;x;x;x;p;nil;x;X" +:+ String LF "#row;X;3;0")))))
  = Some (setParentId (Some "B")
            (Metadata "X" (Some DEFAULT_GROUP_ID) (Some DEFAULT_GROUP_NAME) "ASC" false
                      None None (Some 3) true EmptyString)).
Proof.
  exact (orphan_gets_tightest_parent
           (parseDirectives "1.lua" 1
              ("#row;A;1;0;a;ASC;x;x;x;p;nil;x;X:Y" +:+ String LF
               ("#row;B;2;0;b;ASC;x;x;x;p;nil;x;X" +:+ String LF "#row;X;3;0")))
           "X" _ [("A", 2%nat)] "B" 1%nat [] eq_refl eq_refl eq_refl eq_refl
           ltac:(intros q Hq; apply list_elem_of_singleton in Hq; subst q; simpl; lia)
           ltac:(intros q Hq; inversion Hq)).
Defined.

(** Two properties with ids that are array indices list the same
    orphan with lists of the same length: the one declared second is
    enumerated first and becomes the parent. *)
Lemma tie_not_in_declaration_order :
  exists g,
    parseLuaContent "1.lua"
      ("#row;2;1;0;two;ASC;x;x;x;p;nil;x;X" +:+ String LF
       ("#row;1;2;0;one;ASC;x;x;x;p;nil;x;X" +:+ String LF "#row;X;3;0")) = Some g
    /\ Obj.keys (propertyMetadata g) = ["1"; "2"; "X"]
    /\ Spec.parentLink (propertyMetadata g) "X" = Some "1".
Proof. eexists. split; [reflexivity|]. split; reflexivity. Qed.

(** C4 (as amended).  An invisible, still parentless property that
    carries a plugin id is attached to the visible, still parentless
    property with that plugin id that the property map enumerates last,
    however many there are; it stays parentless when there is none.
    The row ids, plugin ids and declared parents are taken not to be
    names every object inherits, such as [constructor] or [__proto__]:
    the table of plugin parents is an object literal, which answers for
    those names without having them as keys. *)
Theorem plugin_fallback_last_wins pm rowId m :
  Spec.ordinary pm = true ->
  NoDup (Obj.keys pm) ->
  Obj.get rowId pm = Some m ->
  Spec.pluginOrphan m = true ->
  (forall pre parent mp post,
      pm = pre ++ (parent, mp) :: post ->
      Spec.pluginRoot (pluginId m) mp = true ->
      (forall e, e ∈ post -> Spec.pluginRoot (pluginId m) (snd e) = false) ->
      Obj.get rowId (pluginFallback pm) = Some (setParentId (Some parent) m))
  /\ ((forall e, e ∈ pm -> Spec.pluginRoot (pluginId m) (snd e) = false) ->
      Obj.get rowId (pluginFallback pm) = Some m).
Proof.
  intros _ Hnd Hget Horphan. unfold Spec.pluginOrphan in Horphan.
  apply andb_true_iff in Horphan as [Horphan Hplugin].
  apply andb_true_iff in Horphan as [Hparent Hvisible].
  apply negb_true_iff in Hvisible. apply negb_true_iff in Hplugin.
  split.
  - intros pre parent mp post -> Hroot Hpost.
    rewrite get_pluginFallback, Hget. simpl. f_equal.
    rewrite Hparent, Hvisible, Hplugin. simpl.
    rewrite (pluginParents_last _ _ _ _ _ Hroot Hpost).
    destruct (String.eqb_spec parent rowId) as [->|Hne]; [|reflexivity].
    exfalso. assert (Hin : (rowId, mp) ∈ pre ++ (rowId, mp) :: post)
      by (apply elem_of_app; right; left).
    rewrite (ObjFacts.elem_get _ _ _ Hnd Hin) in Hget. injection Hget as ->.
    unfold Spec.pluginRoot in Hroot. rewrite Hvisible in Hroot.
    rewrite andb_false_r in Hroot. discriminate Hroot.
  - intros Hnone. rewrite get_pluginFallback, Hget. simpl. f_equal.
    rewrite Hparent, Hvisible, Hplugin. simpl.
    unfold pluginParents. rewrite pluginParents_others by exact Hnone.
    rewrite lookup_empty. reflexivity.
Qed.

Lemma plugin_fallback_last_wins_witness :
  Obj.get "X"
    (pluginFallback
       (propertyMetadata
          (parseDirectives "1.lua" 1
             ("#row;P1;1;0;one;ASC;x;x;x;p" +:+ String LF
              ("#row;P2;2;0;two;ASC;x;x;x;p" +:+ String LF "#row;X;3;0;x;ASC;x;false;x;p")))))
  = Some (setParentId (Some "P2")
            (Metadata "x" (Some DEFAULT_GROUP_ID) (Some DEFAULT_GROUP_NAME) "ASC" false
                      None None (Some 3) false "p")).
Proof.
  refine (proj1 (plugin_fallback_last_wins
                   (propertyMetadata
                      (parseDirectives "1.lua" 1
                         ("#row;P1;1;0;one;ASC;x;x;x;p" +:+ String LF
                          ("#row;P2;2;0;two;ASC;x;x;x;p" +:+ String LF
                           "#row;X;3;0;x;ASC;x;false;x;p"))))
                   "X" _ eq_refl (ParserFacts.parseDirectives_NoDup _ _ _) eq_refl eq_refl)
                [(_, _)] "P2" _ [(_, _)] eq_refl eq_refl _).
  intros e He. apply list_elem_of_singleton in He. subst e. reflexivity.
Defined.

(** Two visible parentless properties share the plugin id of an invisible
    parentless one, which is attached to the second all the same. *)
Lemma plugin_fallback_with_two_candidates :
  exists g,
    parseLuaContent "1.lua"
      ("#row;P1;1;0;one;ASC;x;x;x;p" +:+ String LF
       ("#row;P2;2;0;two;ASC;x;x;x;p" +:+ String LF "#row;X;3;0;x;ASC;x;false;x;p")) = Some g
    /\ Spec.parentLink (propertyMetadata g) "P1" = None
    /\ Spec.parentLink (propertyMetadata g) "P2" = None
    /\ Spec.parentLink (propertyMetadata g) "X" = Some "P2".
Proof. eexists. split; [reflexivity|]. repeat split; reflexivity. Qed.

(** *** Parent links as a forest *)

Lemma climbs_ext pm pm' :
  (forall id, Spec.parentLink pm id = Spec.parentLink pm' id) ->
  forall n id, Spec.climbs n pm id = Spec.climbs n pm' id.
Proof.
  intros Hext. induction n as [|n IH]; intros id; simpl; rewrite Hext;
    destruct (Spec.parentLink pm' id); auto.
Qed.

Lemma parentLink_update_name pm rowId d id :
  Spec.parentLink (Obj.update rowId (setDisplayName d) pm) id = Spec.parentLink pm id.
Proof.
  unfold Spec.parentLink. rewrite ObjFacts.get_update.
  destruct (String.eqb id rowId); [|reflexivity].
  destruct (Obj.get id pm); reflexivity.
Qed.

(** The display names are expanded without touching the parent links. *)
Lemma parentLink_expandChildDisplayNames g id :
  Spec.parentLink (propertyMetadata (expandChildDisplayNames g)) id
  = Spec.parentLink (propertyMetadata g) id.
Proof.
  unfold expandChildDisplayNames. cbn [propertyMetadata setPropertyMetadata].
  generalize (map (fun e => (fst e, displayName (snd e))) (propertyMetadata g)).
  intros rawNames. generalize (Obj.keys (propertyMetadata g)). intros ks.
  generalize (propertyMetadata g). intros pm. revert pm.
  induction ks as [|k ks IH]; intros pm; simpl; [reflexivity|].
  rewrite IH. unfold expandOne.
  destruct (Obj.get k pm) as [m|]; [|reflexivity].
  destruct (parentId m) as [parent|]; [|reflexivity].
  destruct (String.eqb parent EmptyString); [reflexivity|].
  destruct (Obj.get parent pm); [|reflexivity].
  apply parentLink_update_name.
Qed.

(** Without [childIds] the orphan linking has nothing to do. *)
Lemma linkOrphans_without_children pm :
  (forall e, e ∈ pm -> childIds (snd e) = None) -> linkOrphans pm = pm.
Proof.
  intros H. unfold linkOrphans, collectCandidates.
  assert (Hc : forall entries candidates,
             (forall e, e ∈ entries -> childIds (snd e) = None) ->
             fold_left (candidatesOf pm) entries candidates = candidates).
  { induction entries as [|e es IH]; intros candidates He; simpl; [reflexivity|].
    unfold candidatesOf at 2. rewrite (He e) by left.
    apply IH. intros e' He'. apply He. right. exact He'. }
  rewrite Hc by exact H. reflexivity.
Qed.

Lemma attachToPlugin_cases parents rowId m :
  attachToPlugin parents (rowId, m) = (rowId, m)
  \/ (visible m = false
      /\ exists p, parents !! pluginId m = Some p
                   /\ attachToPlugin parents (rowId, m) = (rowId, setParentId (Some p) m)).
Proof.
  unfold attachToPlugin. destruct (bool_decide (parentId m = None)); simpl; [|auto].
  destruct (visible m); simpl; [auto|]. destruct (String.eqb _ _); [auto|].
  destruct (parents !! pluginId m) as [p|]; [|auto].
  destruct (String.eqb p rowId); [auto|]. right. eauto.
Qed.

(** The plugin fallback attaches properties to roots only, so it closes
    no cycle. *)
Lemma pluginFallback_forest pm :
  NoDup (Obj.keys pm) -> Spec.forest pm -> Spec.forest (pluginFallback pm).
Proof.
  intros Hnd Hforest.
  assert (Hroot : forall plugin p n,
             pluginParents pm !! plugin = Some p ->
             Spec.climbs n (pluginFallback pm) p = true).
  { intros plugin p n Hp. apply pluginParents_root in Hp as (mp & Hin & Hmp).
    assert (Hlink : Spec.parentLink (pluginFallback pm) p = None).
    { unfold Spec.parentLink. rewrite get_pluginFallback.
      rewrite (ObjFacts.elem_get _ _ _ Hnd Hin). cbn [fmap option_fmap option_map mbind option_bind].
      unfold Spec.pluginRoot in Hmp.
      apply andb_true_iff in Hmp as [Hmp Hparent]. apply andb_true_iff in Hmp as [_ Hvis].
      apply bool_decide_eq_true in Hparent.
      unfold attachToPlugin. rewrite Hvis, orb_true_r. exact Hparent. }
    destruct n; simpl; rewrite Hlink; reflexivity. }
  assert (Hstep : forall n id,
             Spec.climbs n pm id = true -> Spec.climbs (S n) (pluginFallback pm) id = true).
  { induction n as [|n IH]; intros id Hn.
    - cbn [Spec.climbs] in *. unfold Spec.parentLink in *. rewrite get_pluginFallback.
      destruct (Obj.get id pm) as [m|]; [|reflexivity].
      cbn [fmap option_fmap option_map mbind option_bind] in *.
      destruct (parentId m) as [q|] eqn:Hq; [discriminate Hn|].
      destruct (attachToPlugin_cases (pluginParents pm) id m) as [->|(_ & p & Hp & ->)];
        cbn [snd]; [rewrite Hq; reflexivity|].
      cbn [parentId setParentId].
      generalize (Hroot _ _ 0%nat Hp). cbn [Spec.climbs]. unfold Spec.parentLink.
      rewrite get_pluginFallback. intros ->. reflexivity.
    - cbn [Spec.climbs] in Hn. change (Spec.climbs (S (S n)) (pluginFallback pm) id)
        with (match Spec.parentLink (pluginFallback pm) id with
              | None => true
              | Some p => Spec.climbs (S n) (pluginFallback pm) p
              end).
      unfold Spec.parentLink in *. rewrite get_pluginFallback.
      destruct (Obj.get id pm) as [m|]; [|reflexivity].
      cbn [fmap option_fmap option_map mbind option_bind] in *.
      destruct (parentId m) as [q|] eqn:Hq.
      + rewrite attachToPlugin_parented by congruence. cbn [snd]. rewrite Hq.
        apply IH, Hn.
      + destruct (attachToPlugin_cases (pluginParents pm) id m) as [->|(_ & p & Hp & ->)];
          cbn [snd]; [rewrite Hq; reflexivity|].
        cbn [parentId setParentId]. apply (Hroot _ _ _ Hp). }
  intros id. destruct (Hforest id) as [n Hn]. exists (S n). apply Hstep, Hn.
Qed.

(** A property whose raw [parentId] is its own id, and a parentless
    property that lists itself in its [childIds]: each ends up as its own
    parent, and the walk from it never stops. *)
Lemma parsed_parent_links_can_cycle :
  (exists g,
      parseLuaContent "1.lua" "#row;a;1;0;n;ASC;x;x;x;x;a" = Some g
      /\ ~ Spec.forest (propertyMetadata g))
  /\ (exists g,
      parseLuaContent "1.lua" "#row;a;1;0;n;ASC;x;x;x;x;nil;x;a" = Some g
      /\ ~ Spec.forest (propertyMetadata g)).
Proof.
  split; (eexists; split; [reflexivity|]);
    intros Hforest; destruct (Hforest "a") as [n Hn]; revert Hn;
    (induction n as [|n IH]; [discriminate | exact IH]).
Qed.

End HierarchyFacts.

(** ** Lists *)

Module ListFacts.

Lemma elem_map {A B} (f : A -> B) l y : y ∈ map f l <-> exists x, y = f x /\ x ∈ l.
Proof. apply (list_elem_of_fmap f). Qed.

Lemma NoDup_map_inv {A B} (f : A -> B) l : NoDup (map f l) -> NoDup l.
Proof. apply (NoDup_fmap_1 f). Qed.

Lemma elem_lfilter {A} (f : A -> bool) l x : x ∈ List.filter f l <-> x ∈ l /\ f x = true.
Proof. rewrite !list_elem_of_In. apply filter_In. Qed.

Lemma NoDup_lfilter {A} (f : A -> bool) l : NoDup l -> NoDup (List.filter f l).
Proof. rewrite !NoDup_ListNoDup. apply List.NoDup_filter. Qed.

(** Two elements of a list with the same key are the same element when
    the keys are pairwise distinct. *)
Lemma NoDup_map_inj {A B} (f : A -> B) l x y :
  NoDup (map f l) -> x ∈ l -> y ∈ l -> f x = f y -> x = y.
Proof.
  induction l as [|z l IH]; simpl; intros Hnd Hx Hy Hf; [inversion Hx|].
  apply NoDup_cons in Hnd as [Hz Hnd].
  apply elem_of_cons in Hx as [->|Hx]; apply elem_of_cons in Hy as [->|Hy]; auto.
  - exfalso. apply Hz. rewrite Hf. apply elem_map. eauto.
  - exfalso. apply Hz. rewrite <- Hf. apply elem_map. eauto.
Qed.

End ListFacts.

(** ** The query layer *)

Module DbFacts.

Import Db ListFacts.

(** *** Ordering *)

Section Order.

Variable before : gameRow -> gameRow -> bool.
Variable R : gameRow -> gameRow -> Prop.
Hypothesis before_R : forall x y, before x y = true -> R x y.
Hypothesis R_total : forall x y, before x y = false -> R y x.
Hypothesis R_trans : forall x y z, R x y -> R y z -> R x z.

Lemma insertBy_perm x l : insertBy before x l ≡ₚ x :: l.
Proof.
  induction l as [|y l IH]; simpl; [reflexivity|].
  destruct (before x y); [reflexivity|]. rewrite IH. apply Permutation_swap.
Qed.

Lemma orderBy_perm l : orderBy before l ≡ₚ l.
Proof.
  induction l as [|x l IH]; simpl; [reflexivity|].
  rewrite insertBy_perm, IH. reflexivity.
Qed.

Lemma insertBy_sorted x l :
  StronglySorted R l -> StronglySorted R (insertBy before x l).
Proof using before_R R_total R_trans.
  induction l as [|y l IH]; simpl; intros Hs.
  - repeat constructor.
  - apply StronglySorted_cons in Hs as [Hy Hs].
    destruct (before x y) eqn:Hxy.
    + apply StronglySorted_cons. split; [|apply StronglySorted_cons; auto].
      apply Forall_cons. split; [auto|].
      eapply Forall_impl; [exact Hy|]. intros z Hz. eauto.
    + apply StronglySorted_cons. split; [|auto].
      rewrite insertBy_perm. apply Forall_cons. auto.
Qed.

Lemma orderBy_sorted l : StronglySorted R (orderBy before l).
Proof using before_R R_total R_trans.
  induction l as [|x l IH]; simpl; [constructor | apply insertBy_sorted, IH].
Qed.

End Order.

Lemma orderAsc_sorted l : StronglySorted Spec.earlier (orderAsc l).
Proof.
  apply orderBy_sorted; unfold ascending, Spec.earlier; intros; lia.
Qed.

Lemma orderDesc_sorted l : StronglySorted Spec.later (orderDesc l).
Proof.
  apply orderBy_sorted; unfold descending, Spec.later; intros; lia.
Qed.

Lemma StronglySorted_map {A B} (R : A -> A -> Prop) (R' : B -> B -> Prop) (f : A -> B) l :
  (forall x y, R x y -> R' (f x) (f y)) ->
  StronglySorted R l -> StronglySorted R' (map f l).
Proof.
  intros Hf. induction 1 as [|x l Hs IH Hall]; simpl; constructor; [exact IH|].
  apply Forall_forall. intros y Hy. apply elem_map in Hy as (z & -> & Hz).
  apply Hf. rewrite Forall_forall in Hall. auto.
Qed.

(** *** The games of a [last N] query *)

(** The second query of the [last N] mode finds again the rows the first
    one selected, since the ids are a key of [games]. *)
Lemma selectGames_last_n p s n :
  NoDup (map g_id (games s)) ->
  lastNGames p = Some n ->
  0 < n ->
  selectGames p s ≡ₚ take (Z.to_nat n) (orderDesc (Spec.matching p s)).
Proof.
  intros Hkey Hn Hpos. unfold selectGames. rewrite Hn.
  destruct (Z.ltb_spec 0 n) as [_|]; [|lia].
  unfold orderAsc. rewrite orderBy_perm.
  set (T := take (Z.to_nat n) (orderDesc (Spec.matching p s))).
  assert (Hsub : forall x, x ∈ T -> x ∈ games s).
  { intros x Hx. apply (subseteq_take (Z.to_nat n)) in Hx.
    unfold orderDesc in Hx. rewrite orderBy_perm in Hx.
    apply elem_lfilter in Hx. tauto. }
  pose proof (NoDup_map_inv _ _ Hkey) as Hnd.
  apply NoDup_Permutation.
  - apply NoDup_lfilter, Hnd.
  - eapply sublist_NoDup; [|apply sublist_take].
    unfold orderDesc. rewrite orderBy_perm. apply NoDup_lfilter, Hnd.
  - intros x. rewrite elem_lfilter, bool_decide_eq_true. split.
    + intros [Hx Hid]. apply elem_map in Hid as (t & Ht & HtT).
      rewrite (NoDup_map_inj g_id (games s) x t Hkey Hx (Hsub t HtT) Ht). exact HtT.
    + intros Hx. split; [auto|]. apply elem_map. eauto.
Qed.

(** C8 (as amended).  With a requested property and [lastNGames = N > 0],
    [getGames] returns as many games as match the other filters, at most
    [N]; they are games that match, in ascending order of time, and no
    matching game left out is more recent than a returned one.  With no
    requested property the result is empty whatever [N] is. *)
Theorem getGames_last_n p s n :
  NoDup (map g_id (games s)) ->
  propertyIds p <> [] ->
  lastNGames p = Some n ->
  0 < n ->
  length (getGames p s) = Nat.min (Z.to_nat n) (length (Spec.matching p s))
  /\ StronglySorted (fun a b => timestamp a <= timestamp b) (getGames p s)
  /\ (forall r, r ∈ getGames p s ->
                exists g, g ∈ Spec.matching p s /\ id r = g_id g
                          /\ timestamp r = g_timestamp g)
  /\ (forall g r, g ∈ Spec.matching p s -> g_id g ∉ map id (getGames p s) ->
                  r ∈ getGames p s -> g_timestamp g <= timestamp r).
Proof.
  intros Hkey Hprops Hn Hpos.
  pose proof (selectGames_last_n p s n Hkey Hn Hpos) as Hsel.
  unfold getGames. destruct (propertyIds p) as [|prop props]; [contradiction|].
  match goal with |- context [map ?f (selectGames p s)] => set (toResult := f) end.
  assert (Hid : forall g, id (toResult g) = g_id g) by reflexivity.
  assert (Hts : forall g, timestamp (toResult g) = g_timestamp g) by reflexivity.
  set (L := orderDesc (Spec.matching p s)) in *.
  assert (HL : L ≡ₚ Spec.matching p s) by apply orderBy_perm.
  repeat split.
  - rewrite length_map, Hsel, length_take, HL. reflexivity.
  - apply (StronglySorted_map Spec.earlier); [intros x y Hxy; exact Hxy|].
    unfold selectGames. rewrite Hn. destruct (Z.ltb_spec 0 n); apply orderAsc_sorted.
  - intros r Hr. apply elem_map in Hr as (g & -> & Hg). exists g.
    repeat split. rewrite Hsel in Hg. apply (subseteq_take (Z.to_nat n)) in Hg.
    rewrite HL in Hg. exact Hg.
  - intros g r Hg Hout Hr. apply elem_map in Hr as (g' & -> & Hg'). rewrite Hts.
    rewrite Hsel in Hg'. rewrite <- HL in Hg.
    rewrite <- (take_drop (Z.to_nat n) L) in Hg. apply elem_of_app in Hg as [Hg|Hg].
    + exfalso. apply Hout. apply elem_map. exists (toResult g). split; [reflexivity|].
      apply elem_map. exists g. split; [reflexivity|]. rewrite Hsel. exact Hg.
    + pose proof (orderDesc_sorted (Spec.matching p s)) as Hsorted. fold L in Hsorted.
      rewrite <- (take_drop (Z.to_nat n) L) in Hsorted.
      exact (StronglySorted_app_1_elem_of _ _ _ _ _ Hsorted Hg' Hg).
Qed.

(** *** Scores of the requested properties *)

Lemma noteScore_requested (ids : list string) rows acc :
  (forall r, r ∈ rows -> s_property_id r ∈ ids) ->
  (forall gid ofGame player ofPlayer prop v,
      acc !! gid = Some ofGame -> ofGame !! player = Some ofPlayer ->
      ofPlayer !! prop = Some v -> prop ∈ ids) ->
  forall gid ofGame player ofPlayer prop v,
    fold_left noteScore rows acc !! gid = Some ofGame ->
    ofGame !! player = Some ofPlayer ->
    ofPlayer !! prop = Some v -> prop ∈ ids.
Proof.
  revert acc. induction rows as [|row rows IH]; intros acc Hrows Hacc; simpl; [exact Hacc|].
  apply IH; [intros r Hr; apply Hrows; right; exact Hr|].
  intros gid ofGame player ofPlayer prop v. unfold noteScore.
  rewrite lookup_insert_Some. intros [[<- <-]|[_ Hg]]; [|eauto].
  rewrite lookup_insert_Some. intros [[<- <-]|[_ Hp]].
  - rewrite lookup_insert_Some. intros [[<- _]|[_ Hv]]; [apply Hrows; left|].
    destruct (acc !! s_game_id row) as [og|] eqn:Hog; simpl in Hv;
      [|rewrite lookup_empty in Hv; discriminate Hv].
    destruct (og !! s_player_id row) as [op|] eqn:Hop; simpl in Hv;
      [|rewrite lookup_empty in Hv; discriminate Hv].
    eauto.
  - destruct (acc !! s_game_id row) as [og|] eqn:Hog; simpl in Hp;
      [|rewrite lookup_empty in Hp; discriminate Hp].
    eauto.
Qed.

(** C7.  Without a requested property [getGames] returns nothing, and
    every score of every returned game belongs to a requested property. *)
Theorem getGames_requested_properties p s :
  (propertyIds p = [] -> getGames p s = [])
  /\ (forall r player ofPlayer prop v,
        r ∈ getGames p s ->
        scores_ r !! player = Some ofPlayer ->
        ofPlayer !! prop = Some v ->
        prop ∈ propertyIds p).
Proof.
  split; [intros Hp; unfold getGames; rewrite Hp; reflexivity|].
  intros r player ofPlayer prop v Hr Hplayer Hprop. unfold getGames in Hr.
  destruct (propertyIds p) as [|i ids] eqn:Hids; [inversion Hr|].
  apply elem_map in Hr as (g & -> & _). cbn [scores_] in Hplayer.
  match type of Hplayer with
  | context [fold_left noteScore ?rows ∅ !! ?k] =>
      destruct (fold_left noteScore rows ∅ !! k) as [ofGame|] eqn:Hgame;
      [pose proof (noteScore_requested (i :: ids) rows ∅) as Hinv|]
  end; simpl in Hplayer; [|rewrite lookup_empty in Hplayer; discriminate Hplayer].
  eapply Hinv; [| |exact Hgame|exact Hplayer|exact Hprop].
  - intros row Hrow. apply elem_lfilter in Hrow as [_ Hrow].
    apply andb_true_iff in Hrow as [_ Hrow]. apply bool_decide_eq_true in Hrow. exact Hrow.
  - intros gid og pl op pr w H. rewrite lookup_empty in H. discriminate H.
Qed.

Lemma getGames_last_n_witness :
  length (getGames (Sample.lastTwo ["dmg"]) Sample.store3) = 2%nat
  /\ StronglySorted (fun a b => timestamp a <= timestamp b)
                    (getGames (Sample.lastTwo ["dmg"]) Sample.store3).
Proof.
  assert (Hkey : NoDup (map g_id (games Sample.store3))).
  { exact (bool_decide_unpack (NoDup (map g_id (games Sample.store3))) I). }
  destruct (getGames_last_n (Sample.lastTwo ["dmg"]) Sample.store3 2 Hkey
              ltac:(discriminate) eq_refl eq_refl) as (Hlen & Hsorted & _).
  split; [exact Hlen | exact Hsorted].
Defined.

(** A [last N] query without requested properties returns nothing,
    although games match its filters. *)
Lemma getGames_last_n_without_properties :
  lastNGames (Sample.lastTwo []) = Some 2
  /\ length (Spec.matching (Sample.lastTwo []) Sample.store3) = 3%nat
  /\ getGames (Sample.lastTwo []) Sample.store3 = [].
Proof. repeat split. Qed.

Lemma getGames_requested_properties_witness :
  "dmg" ∈ propertyIds (Sample.lastTwo ["dmg"]).
Proof.
  refine (proj2 (getGames_requested_properties (Sample.lastTwo ["dmg"]) Sample.store3)
                (GameResult 1 300 "cm_habs" "Hab Dreyko" 2 EmptyString "won" 1500
                            {["alice" := "Alice"]}
                            {["alice" := {["dmg" := Js.Decimal false 250 0]}]} ∅)
                "alice" {["dmg" := Js.Decimal false 250 0]} "dmg" (Js.Decimal false 250 0)
                _ eq_refl eq_refl).
  vm_compute. right. left.
Defined.

End DbFacts.

(** ** The batch loader *)

Module IngestFacts.

Import Db Ingest.

(** *** What [insertGame] does to the table of games *)

Lemma keepsGames_bind c k :
  Spec.keepsGames c -> (forall u, Spec.keepsGames (k u)) -> Spec.keepsGames (bind c k).
Proof.
  intros Hc Hk s. unfold bind. specialize (Hc s).
  destruct (c s) as [[u|] s']; simpl in *; [|exact Hc].
  rewrite Hk. exact Hc.
Qed.

Lemma keepsGames_when b c : Spec.keepsGames c -> Spec.keepsGames (when b c).
Proof. intros Hc. destruct b; [exact Hc | intros s; reflexivity]. Qed.

Lemma keepsGames_scoreBatches fuel gameId rest : Spec.keepsGames (scoreBatches fuel gameId rest).
Proof.
  revert rest. induction fuel as [|fuel IH]; intros rest.
  - intros s. reflexivity.
  - destruct rest as [|x rest]; [intros s; reflexivity|].
    cbn [scoreBatches]. apply keepsGames_bind; [intros s; reflexivity|].
    intros _. apply IH.
Qed.

Lemma insertProperties_games entries : Spec.keepsGames (insertProperties entries).
Proof. intros s. unfold insertProperties. destruct (propertyRows entries); reflexivity. Qed.

Lemma insertGame_refused g s : Spec.refused g s = true -> insertGame g s = (None, s).
Proof.
  unfold Spec.refused, Spec.names, insertGame, bind, insertGameRow. intros H.
  destruct (Parser.difficulty g) as [d|]; [|reflexivity].
  destruct (Parser.durationSeconds g) as [t|]; [|reflexivity].
  rewrite !bool_decide_eq_true_2 in H by eauto. simpl in H. rewrite H. reflexivity.
Qed.

Lemma insertGame_accepted g s :
  Spec.refused g s = false ->
  Spec.names (insertGame g s).2 = Spec.names s ++ [Parser.filename g].
Proof.
  unfold Spec.refused, Spec.names. intros H.
  apply orb_false_iff in H as [Hnum Hname]. apply negb_false_iff in Hnum.
  apply andb_true_iff in Hnum as [Hd Ht].
  apply bool_decide_eq_true in Hd as [d Hd]. apply bool_decide_eq_true in Ht as [t Ht].
  unfold insertGame. unfold bind at 1. unfold insertGameRow. rewrite Hd, Ht, Hname.
  match goal with |- context [games (?c ?s0).2] =>
    assert (Hk : Spec.keepsGames c); [|rewrite (Hk s0)] end.
  { apply keepsGames_bind; [apply keepsGames_when; intros x; reflexivity|]. intros _.
    apply keepsGames_bind; [apply keepsGames_when; intros x; reflexivity|]. intros _.
    apply keepsGames_bind; [apply keepsGames_when, insertProperties_games|]. intros _.
    apply keepsGames_scoreBatches. }
  cbn [games]. rewrite map_app. reflexivity.
Qed.

(** *** One round of the loop *)

Lemma ingestOne_hopeless st f :
  Spec.hopeless f = true ->
  ingestOne st f = Progress (db st) (ingestedSoFar st) (S (errorsSoFar st)).
Proof.
  unfold Spec.hopeless, ingestOne. destruct (content f) as [text|]; [|reflexivity].
  destruct (Parser.parseLuaContent (name f) text) as [g|]; [|reflexivity].
  intros H. rewrite insertGame_refused; [reflexivity|].
  unfold Spec.refused. rewrite H. reflexivity.
Qed.

Lemma ingestOne_names st f x :
  x ∈ Spec.names (db st) -> x ∈ Spec.names (db (ingestOne st f)).
Proof.
  intros Hx. unfold ingestOne. destruct (content f) as [text|]; [|exact Hx].
  destruct (Parser.parseLuaContent (name f) text) as [g|]; [|exact Hx].
  destruct (Spec.refused g (db st)) eqn:Hr.
  - rewrite (insertGame_refused _ _ Hr). exact Hx.
  - pose proof (insertGame_accepted _ _ Hr) as Hn.
    destruct (insertGame g (db st)) as [[u|] s']; simpl in *;
      rewrite Hn; apply elem_of_app; left; exact Hx.
Qed.

Lemma ingestOne_named st f :
  Spec.hopeless f = false -> name f ∈ Spec.names (db (ingestOne st f)).
Proof.
  unfold Spec.hopeless, ingestOne. destruct (content f) as [text|]; [|discriminate].
  destruct (Parser.parseLuaContent (name f) text) as [g|] eqn:Hg; [|discriminate].
  intros Hnum. destruct (ParserFacts.parseLuaContent_file _ _ _ Hg) as [Hname _].
  destruct (Spec.refused g (db st)) eqn:Hr.
  - rewrite (insertGame_refused _ _ Hr). simpl.
    unfold Spec.refused in Hr. rewrite Hnum in Hr. simpl in Hr.
    apply bool_decide_eq_true in Hr. rewrite <- Hname. exact Hr.
  - pose proof (insertGame_accepted _ _ Hr) as Hn.
    destruct (insertGame g (db st)) as [[u|] s']; simpl in *;
      rewrite Hn, Hname; apply elem_of_app; right; left.
Qed.

Lemma ingest_names files st x :
  x ∈ Spec.names (db st) -> x ∈ Spec.names (db (fold_left ingestOne files st)).
Proof.
  revert st. induction files as [|f files IH]; intros st Hx; simpl; [exact Hx|].
  apply IH, ingestOne_names, Hx.
Qed.

Lemma ingest_named files st f :
  f ∈ files -> Spec.hopeless f = false ->
  name f ∈ Spec.names (db (fold_left ingestOne files st)).
Proof.
  revert st. induction files as [|f' files IH]; intros st Hf Hh; simpl; [inversion Hf|].
  apply elem_of_cons in Hf as [<-|Hf]; [|apply IH; assumption].
  apply ingest_names, ingestOne_named, Hh.
Qed.

Lemma ingest_hopeless files st :
  (forall f, f ∈ files -> Spec.hopeless f = true) ->
  db (fold_left ingestOne files st) = db st
  /\ ingestedSoFar (fold_left ingestOne files st) = ingestedSoFar st.
Proof.
  revert st. induction files as [|f files IH]; intros st H; simpl; [auto|].
  destruct (IH (ingestOne st f)) as [Hdb Hing]; [intros f' Hf'; apply H; right; exact Hf'|].
  rewrite Hdb, Hing, ingestOne_hopeless by (apply H; left). auto.
Qed.

(** *** An insertion that throws half-way *)

Lemma bind_done {A B} (c : run A) (k : A -> run B) s a s' :
  c s = (Some a, s') -> bind c k s = k a s'.
Proof. intros H. unfold bind. rewrite H. reflexivity. Qed.

Lemma bind_thrown {A B} (c : run A) (k : A -> run B) s s' :
  c s = (None, s') -> bind c k s = (None, s').
Proof. intros H. unfold bind. rewrite H. reflexivity. Qed.

(** The game row an accepted insertion writes. *)
Lemma insertGameRow_accepted g s :
  Spec.refused g s = false ->
  exists gameId s',
    insertGameRow g s = (Some gameId, s')
    /\ Spec.names s' = Spec.names s ++ [Parser.filename g]
    /\ properties s' = properties s
    /\ scores s' = scores s.
Proof.
  unfold Spec.refused, Spec.names. intros Hr.
  apply orb_false_iff in Hr as [Hnum Hname]. apply negb_false_iff in Hnum.
  apply andb_true_iff in Hnum as [Hd Ht].
  apply bool_decide_eq_true in Hd as [d Hd]. apply bool_decide_eq_true in Ht as [t Ht].
  unfold insertGameRow. rewrite Hd, Ht, Hname.
  eexists _, _. split; [reflexivity|]. cbn. rewrite map_app. auto.
Qed.

(** The roster statements do not throw and write to their tables only. *)
Lemma roster_statement (c : run unit) :
  c = ret tt \/ (exists rows, c = insertPlayers rows)
  \/ (exists rows, c = insertGamePlayers rows) ->
  forall s, exists s',
    c s = (Some tt, s') /\ games s' = games s
    /\ properties s' = properties s /\ scores s' = scores s.
Proof.
  intros [->|[[rows ->]|[rows ->]]] s; eexists; (split; [reflexivity|]); auto.
Qed.

Lemma when_roster b (c : run unit) :
  (exists rows, c = insertPlayers rows) \/ (exists rows, c = insertGamePlayers rows) ->
  forall s, exists s',
    when b c s = (Some tt, s') /\ games s' = games s
    /\ properties s' = properties s /\ scores s' = scores s.
Proof.
  intros Hc. apply roster_statement. destruct b; simpl; auto.
Qed.

(** When the game row is accepted and a property has no group id or
    name, [insertGame] throws on the properties: the game row and the
    roster are written, the properties and the scores are not. *)
Lemma insertGame_throws_on_properties g s :
  Spec.refused g s = false ->
  propertyRows (Parser.propertyMetadata g) = None ->
  exists s',
    insertGame g s = (None, s')
    /\ Spec.names s' = Spec.names s ++ [Parser.filename g]
    /\ properties s' = properties s
    /\ scores s' = scores s.
Proof.
  intros Hr Hprops.
  destruct (insertGameRow_accepted g s Hr) as (gameId & s0 & Hrow & Hn0 & Hp0 & Hs0).
  unfold insertGame. rewrite (bind_done _ _ _ _ _ Hrow). cbv zeta.
  match goal with |- context [bind (when ?b ?c) _ s0] =>
    destruct (when_roster b c ltac:(left; eauto) s0) as (s1 & H1 & Hg1 & Hp1 & Hs1) end.
  rewrite (bind_done _ _ _ _ _ H1).
  match goal with |- context [bind (when ?b ?c) _ s1] =>
    destruct (when_roster b c ltac:(right; eauto) s1) as (s2 & H2 & Hg2 & Hp2 & Hs2) end.
  rewrite (bind_done _ _ _ _ _ H2).
  exists s2. split.
  - apply bind_thrown. destruct (Parser.propertyMetadata g) as [|e es]; [discriminate Hprops|].
    unfold when, insertProperties. cbn [length Nat.ltb Nat.leb]. rewrite Hprops. reflexivity.
  - unfold Spec.names in *. rewrite Hg2, Hg1, Hn0, Hp2, Hp1, Hp0, Hs2, Hs1, Hs0. auto.
Qed.

(** C1, on the code of [parser.js].  A file whose game row is accepted
    and one of whose properties has no group id or name makes
    [insertGame] throw after the game row is written.  The round counts
    the file as an error and goes on, but nothing is undone: the game row
    of the failed file stays in the store. *)
Theorem failed_insert_keeps_game_row st f text g :
  content f = Some text ->
  Parser.parseLuaContent (name f) text = Some g ->
  Spec.refused g (db st) = false ->
  propertyRows (Parser.propertyMetadata g) = None ->
  ingestedSoFar (ingestOne st f) = ingestedSoFar st
  /\ errorsSoFar (ingestOne st f) = S (errorsSoFar st)
  /\ Spec.names (db (ingestOne st f)) = Spec.names (db st) ++ [name f]
  /\ properties (db (ingestOne st f)) = properties (db st)
  /\ scores (db (ingestOne st f)) = scores (db st).
Proof.
  intros Hcontent Hparse Hr Hprops. unfold ingestOne. rewrite Hcontent, Hparse.
  destruct (insertGame_throws_on_properties g (db st) Hr Hprops)
    as (s' & -> & Hnames & Hp & Hs).
  destruct (ParserFacts.parseLuaContent_file _ _ _ Hparse) as [Hname _].
  cbn [db ingestedSoFar errorsSoFar]. rewrite Hnames, Hname. auto.
Qed.

Lemma failed_insert_keeps_game_row_witness :
  Spec.names (db (ingestOne (Progress emptyStore 0 0)
                            (File "1700000001.lua" (Some Sample.groupWithoutId))))
  = ["1700000001.lua"].
Proof.
  exact (proj1 (proj2 (proj2
           (failed_insert_keeps_game_row
              (Progress emptyStore 0 0)
              (File "1700000001.lua" (Some Sample.groupWithoutId))
              Sample.groupWithoutId
              (default (Parser.emptyGame EmptyString 0)
                       (Parser.parseLuaContent "1700000001.lua" Sample.groupWithoutId))
              eq_refl eq_refl eq_refl eq_refl)))).
Defined.

Lemma scoreBatches_done fuel gameId rest s : (scoreBatches fuel gameId rest s).1 = Some tt.
Proof.
  revert rest s. induction fuel as [|fuel IH]; intros rest s; [reflexivity|].
  destruct rest as [|x rest]; [reflexivity|]. cbn [scoreBatches]. unfold bind.
  unfold insertScores at 1. apply IH.
Qed.

(** [insertGame] throws in two places only: on the game row, having
    written nothing, or on the properties, the game row being written. *)
Lemma insertGame_throws_cases g s s' :
  insertGame g s = (None, s') ->
  (Spec.refused g s = true /\ s' = s)
  \/ (Spec.refused g s = false /\ propertyRows (Parser.propertyMetadata g) = None).
Proof.
  destruct (Spec.refused g s) eqn:Hr.
  - rewrite (insertGame_refused _ _ Hr). intros [= <-]. auto.
  - intros Hthrow. right. split; [reflexivity|].
    destruct (propertyRows (Parser.propertyMetadata g)) as [rows|] eqn:Hrows; [|reflexivity].
    exfalso. revert Hthrow.
    destruct (insertGameRow_accepted g s Hr) as (gameId & s0 & Hrow & _).
    unfold insertGame. rewrite (bind_done _ _ _ _ _ Hrow). cbv zeta.
    match goal with |- context [bind (when ?b ?c) _ s0] =>
      destruct (when_roster b c ltac:(left; eauto) s0) as (s1 & H1 & _) end.
    rewrite (bind_done _ _ _ _ _ H1).
    match goal with |- context [bind (when ?b ?c) _ s1] =>
      destruct (when_roster b c ltac:(right; eauto) s1) as (s2 & H2 & _) end.
    rewrite (bind_done _ _ _ _ _ H2).
    match goal with |- context [bind (when ?b ?c) ?k s2] =>
      assert (H3 : exists s3, when b c s2 = (Some tt, s3));
      [|destruct H3 as [s3 H3]; rewrite (bind_done _ _ _ _ _ H3)] end.
    { unfold when, insertProperties. rewrite Hrows.
      destruct (0 <? length (Parser.propertyMetadata g))%nat; eexists; reflexivity. }
    match goal with |- ?c = _ -> _ =>
      pose proof (scoreBatches_done (length (Parser.scores g)) gameId (Parser.scores g) s3) as Hdone;
      destruct c as [[u|] s4] end; [discriminate|].
    discriminate Hdone.
Qed.

(** *** The files a run counts *)

(** A round adds no file name but that of its file. *)
Lemma ingestOne_names_sub st f x :
  x ∈ Spec.names (db (ingestOne st f)) -> x ∈ Spec.names (db st) \/ x = name f.
Proof.
  unfold ingestOne. destruct (content f) as [text|]; [|auto].
  destruct (Parser.parseLuaContent (name f) text) as [g|] eqn:Hg; [|auto].
  destruct (ParserFacts.parseLuaContent_file _ _ _ Hg) as [Hname _].
  destruct (Spec.refused g (db st)) eqn:Hr.
  - rewrite (insertGame_refused _ _ Hr). auto.
  - pose proof (insertGame_accepted _ _ Hr) as Hn.
    destruct (insertGame g (db st)) as [[u|] s']; simpl in *;
      rewrite Hn, Hname, elem_of_app, list_elem_of_singleton; auto.
Qed.

(** A file whose name no game has is counted as ingested when it is
    sound and as an error when it is not. *)
Lemma ingestOne_sound st f :
  name f ∉ Spec.names (db st) ->
  ingestedSoFar (ingestOne st f)
  = (ingestedSoFar st + (if Spec.sound f then 1 else 0))%nat
  /\ errorsSoFar (ingestOne st f)
     = (errorsSoFar st + (if Spec.sound f then 0 else 1))%nat.
Proof.
  intros Hnew. unfold Spec.sound, ingestOne.
  destruct (content f) as [text|]; [|cbn; lia].
  destruct (Parser.parseLuaContent (name f) text) as [g|] eqn:Hg; [|cbn; lia].
  destruct (ParserFacts.parseLuaContent_file _ _ _ Hg) as [Hname _].
  assert (Hr : Spec.refused g (db st)
               = negb (bool_decide (is_Some (Parser.difficulty g))
                       && bool_decide (is_Some (Parser.durationSeconds g)))).
  { unfold Spec.refused. rewrite Hname, (bool_decide_eq_false_2 _ Hnew).
    apply orb_false_r. }
  destruct (bool_decide (is_Some (Parser.difficulty g))
            && bool_decide (is_Some (Parser.durationSeconds g))) eqn:Hnum;
    cbn [negb] in Hr.
  - destruct (propertyRows (Parser.propertyMetadata g)) as [rows|] eqn:Hrows.
    + rewrite bool_decide_eq_true_2 by eauto. cbn [andb].
      destruct (insertGame g (db st)) as [[u|] s'] eqn:Hins; [cbn; lia|].
      apply insertGame_throws_cases in Hins as [[Hrefused _]|[_ Hnone]]; congruence.
    + rewrite bool_decide_eq_false_2 by (intros [rows Hsome]; discriminate Hsome).
      cbn [andb].
      destruct (insertGame_throws_on_properties g (db st) Hr Hrows) as (s' & -> & _).
      cbn; lia.
  - rewrite (insertGame_refused _ _ Hr). cbn; lia.
Qed.

Lemma ingest_sound files st :
  NoDup (map name files) ->
  (forall f, f ∈ files -> name f ∉ Spec.names (db st)) ->
  ingestedSoFar (fold_left ingestOne files st)
  = (ingestedSoFar st + length (List.filter Spec.sound files))%nat
  /\ errorsSoFar (fold_left ingestOne files st)
     = (errorsSoFar st + length (List.filter (fun f => negb (Spec.sound f)) files))%nat.
Proof.
  revert st. induction files as [|f files IH]; intros st Hnd Hnew; simpl; [lia|].
  apply NoDup_cons in Hnd as [Hf Hnd].
  destruct (ingestOne_sound st f) as [Hone Herr]; [apply Hnew; left|].
  destruct (IH (ingestOne st f) Hnd) as [Hall Herrs].
  { intros f' Hf' Hin. apply ingestOne_names_sub in Hin as [Hin|Hsame].
    - exact (Hnew f' ltac:(right; exact Hf') Hin).
    - apply Hf. rewrite <- Hsame. apply ListFacts.elem_map. eauto. }
  rewrite Hall, Herrs, Hone, Herr. destruct (Spec.sound f); simpl; lia.
Qed.

(** *** Two runs over the same source *)

Section Collation.

Variable localeCompare : string -> string -> comparison.

Lemma elem_newFiles source s f :
  f ∈ newFiles localeCompare source s
  <-> f ∈ collectLuaFiles localeCompare source /\ name f ∉ Spec.names s.
Proof.
  unfold newFiles. rewrite ListFacts.elem_lfilter, negb_true_iff, bool_decide_eq_false.
  rewrite elem_of_list_to_set. reflexivity.
Qed.

Lemma ingestFiles_names source s :
  Spec.names (ingestFiles localeCompare source s).1
  = match newFiles localeCompare source s with
    | [] => Spec.names s
    | files => Spec.names (db (fold_left ingestOne files (Progress s 0 0)))
    end.
Proof.
  unfold ingestFiles. cbv zeta.
  destruct (newFiles localeCompare source s) as [|f files]; [reflexivity|].
  cbn [fst]. destruct (0 <? _)%nat; reflexivity.
Qed.

(** C2.  A file whose name the table of games has is not processed, and
    a second run over the same source, right after the first, ingests
    nothing and leaves the store as the first run left it: no game, no
    player, no property and no score row is added or changed.  Of the
    new files that use no inherited name as an id, the first run writes
    a game row for each that parses with a numeric difficulty and
    duration; when all new files are such and their names are distinct,
    it counts as ingested exactly the new files that are sound and as
    errors the others, so over the two runs each file that is ingested
    is counted once. *)
Theorem ingestFiles_idempotent source s :
  (forall f, f ∈ newFiles localeCompare source s -> name f ∉ Spec.names s)
  /\ (ingestFiles localeCompare source (ingestFiles localeCompare source s).1).1
     = (ingestFiles localeCompare source s).1
  /\ ingested (ingestFiles localeCompare source (ingestFiles localeCompare source s).1).2
     = 0%nat
  /\ (forall f, f ∈ newFiles localeCompare source s ->
                Spec.plain f = true -> Spec.hopeless f = false ->
                name f ∈ Spec.names (ingestFiles localeCompare source s).1)
  /\ (NoDup (map name (newFiles localeCompare source s)) ->
      (forall f, f ∈ newFiles localeCompare source s -> Spec.plain f = true) ->
      ingested (ingestFiles localeCompare source s).2
      = length (List.filter Spec.sound (newFiles localeCompare source s))
      /\ errors (ingestFiles localeCompare source s).2
         = length (List.filter (fun f => negb (Spec.sound f))
                               (newFiles localeCompare source s))
      /\ (ingested (ingestFiles localeCompare source s).2
          + ingested (ingestFiles localeCompare source
                                  (ingestFiles localeCompare source s).1).2)%nat
         = length (List.filter Spec.sound (newFiles localeCompare source s))).
Proof.
  split; [intros f Hf; apply elem_newFiles in Hf; tauto|].
  set (s1 := (ingestFiles localeCompare source s).1).
  assert (Hhopeless : forall f, f ∈ newFiles localeCompare source s1 ->
                                Spec.hopeless f = true).
  { intros f Hf. apply elem_newFiles in Hf as [Hlua Hname].
    destruct (Spec.hopeless f) eqn:Hh; [reflexivity|]. exfalso. apply Hname.
    unfold s1. rewrite ingestFiles_names.
    destruct (newFiles localeCompare source s) as [|f0 files] eqn:Hnew.
    - destruct (decide (name f ∈ Spec.names s)) as [Hin|Hout]; [exact Hin|].
      assert (Hf : f ∈ newFiles localeCompare source s) by (apply elem_newFiles; auto).
      rewrite Hnew in Hf. inversion Hf.
    - destruct (decide (name f ∈ Spec.names s)) as [Hin|Hout].
      + apply ingest_names. exact Hin.
      + apply ingest_named; [|exact Hh]. rewrite <- Hnew. apply elem_newFiles. auto. }
  assert (Hsecond : (ingestFiles localeCompare source s1).1 = s1
                    /\ ingested (ingestFiles localeCompare source s1).2 = 0%nat).
  { unfold ingestFiles. cbv zeta.
    destruct (newFiles localeCompare source s1) as [|f files]; [split; reflexivity|].
    destruct (ingest_hopeless (f :: files) (Progress s1 0 0) Hhopeless) as [Hdb Hing].
    cbn [fst snd ingested]. rewrite Hing, Hdb. split; reflexivity. }
  destruct Hsecond as [Hstore Hnone].
  split; [exact Hstore|]. split; [exact Hnone|]. split.
  - intros f Hf _ Hh. unfold s1. rewrite ingestFiles_names.
    destruct (newFiles localeCompare source s) as [|f0 files]; [inversion Hf|].
    apply ingest_named; assumption.
  - intros Hnd _. rewrite Hnone, Nat.add_0_r.
    assert (Hfirst : ingested (ingestFiles localeCompare source s).2
                     = length (List.filter Spec.sound (newFiles localeCompare source s))
                     /\ errors (ingestFiles localeCompare source s).2
                        = length (List.filter (fun f => negb (Spec.sound f))
                                              (newFiles localeCompare source s))).
    { assert (Hnew : forall f, f ∈ newFiles localeCompare source s ->
                               name f ∉ Spec.names (db (Progress s 0 0))).
      { intros f Hf. apply elem_newFiles in Hf. tauto. }
      unfold ingestFiles. cbv zeta.
      destruct (newFiles localeCompare source s) as [|f files]; [split; reflexivity|].
      destruct (ingest_sound (f :: files) (Progress s 0 0) Hnd Hnew) as [Hing Herr].
      cbn [fst snd ingested errors]. rewrite Hing, Herr. split; reflexivity. }
    destruct Hfirst as [Hing Herr]. auto.
Qed.

(** The batch whose only file has a [#group] line without fields: the
    file is counted as an error, not as ingested, and its game row is in
    the store when the run ends. *)
Lemma ingestFiles_keeps_row_of_failed_file :
  let run := ingestFiles localeCompare
               [File "1700000001.lua" (Some Sample.groupWithoutId)] emptyStore in
  ingested run.2 = 0%nat
  /\ errors run.2 = 1%nat
  /\ Spec.names run.1 = ["1700000001.lua"]
  /\ properties run.1 = [].
Proof. repeat split. Qed.

(** With the savepoint of the bundled copy the same file leaves nothing. *)
Lemma failed_insert_undone_by_savepoint st f :
  ingestedSoFar (ingestOneSavepoint st f) = ingestedSoFar st ->
  db (ingestOneSavepoint st f) = db st.
Proof.
  unfold ingestOneSavepoint. destruct (content f) as [text|]; [|reflexivity].
  destruct (Parser.parseLuaContent (name f) text) as [g|]; [|reflexivity].
  destruct (insertGame g (db st)) as [[u|] s']; [|reflexivity].
  cbn [ingestedSoFar]. lia.
Qed.

End Collation.

(** A source with a match file and a file that is no Lua file, on the
    empty store: the first run counts the match file, the second none. *)
Lemma ingestFiles_idempotent_witness :
  (ingested (ingestFiles String.compare
               [File "1700000000.lua" (Some Sample.match1); File "notes.txt" None]
               emptyStore).2
   + ingested (ingestFiles String.compare
                 [File "1700000000.lua" (Some Sample.match1); File "notes.txt" None]
                 (ingestFiles String.compare
                    [File "1700000000.lua" (Some Sample.match1); File "notes.txt" None]
                    emptyStore).1).2)%nat
  = 1%nat.
Proof.
  destruct (ingestFiles_idempotent String.compare
              [File "1700000000.lua" (Some Sample.match1); File "notes.txt" None]
              emptyStore) as (_ & _ & _ & _ & Hcount).
  destruct Hcount as (_ & _ & Hboth).
  - vm_compute. apply NoDup_singleton.
  - intros f Hf. vm_compute in Hf. apply list_elem_of_singleton in Hf. subst f.
    vm_compute. reflexivity.
  - rewrite Hboth. vm_compute. reflexivity.
Defined.

End IngestFacts.

(** ** Further properties of the parser *)

Module ParserExtras.

Import Parser.

(** *** The shape of synthetic ids *)

Lemma anyChar_dropStart P Q s :
  Terms.anyChar P (Js.dropStart Q s) = true -> Terms.anyChar P s = true.
Proof.
  induction s as [|c r IH]; simpl; [auto|].
  destruct (Q c); [|auto]. intros H. rewrite (IH H). apply orb_true_r.
Qed.

Lemma anyChar_dropEnd P Q s :
  Terms.anyChar P (Js.dropEnd Q s) = true -> Terms.anyChar P s = true.
Proof.
  induction s as [|c r IH]; simpl; [auto|].
  destruct (Js.dropEnd Q r) as [|d t] eqn:Hd.
  - destruct (Q c); simpl; [discriminate|]. rewrite orb_false_r. intros ->. reflexivity.
  - cbn [Terms.anyChar]. intros H. apply orb_true_iff in H as [->|H]; [reflexivity|].
    rewrite (IH H). apply orb_true_r.
Qed.

Lemma anyChar_app P s t :
  Terms.anyChar P (s +:+ t) = Terms.anyChar P s || Terms.anyChar P t.
Proof. induction s as [|c r IH]; simpl; [reflexivity|]. rewrite IH, orb_assoc. reflexivity. Qed.

(** A replacement brings in no character of a class that neither the
    text nor the replacement has. *)
Lemma anyChar_replaceAllFrom P pat rep skip s :
  Terms.anyChar P rep = false -> Terms.anyChar P s = false ->
  Terms.anyChar P (Js.replaceAllFrom pat rep skip s) = false.
Proof.
  intros Hrep. revert skip. induction s as [|c r IH]; intros skip Hs; simpl; [reflexivity|].
  simpl in Hs. apply orb_false_iff in Hs as [Hc Hr].
  destruct skip as [|k]; [|auto].
  destruct (Js.startsWith pat (String c r)).
  - rewrite anyChar_app, Hrep. simpl. auto.
  - simpl. rewrite Hc. simpl. auto.
Qed.

(** Replacing a one-character pattern leaves no such character when the
    replacement has none. *)
Lemma replaceAll_char_gone c rep s :
  Terms.anyChar (Ascii.eqb c) rep = false ->
  Terms.anyChar (Ascii.eqb c) (Js.replaceAll (String c EmptyString) rep s) = false.
Proof.
  intros Hrep. unfold Js.replaceAll. induction s as [|d r IH]; [reflexivity|].
  cbn [Js.replaceAllFrom Js.startsWith String.length Nat.sub].
  destruct (Ascii.eqb c d) eqn:Hcd; cbn [andb].
  - rewrite anyChar_app, Hrep. exact IH.
  - cbn [Terms.anyChar]. rewrite Hcd. exact IH.
Qed.

Lemma lowerChar_not_upper c : Terms.isUpper (Js.lowerChar c) = false.
Proof. destruct c as [[] [] [] [] [] [] [] []]; reflexivity. Qed.

Lemma toLowerCase_no_upper s : Terms.anyChar Terms.isUpper (Js.toLowerCase s) = false.
Proof.
  induction s as [|c r IH]; simpl; [reflexivity|].
  rewrite lowerChar_not_upper. exact IH.
Qed.

Lemma firstChar_dropStart Q s c :
  Terms.firstChar (Js.dropStart Q s) = Some c -> Q c = false.
Proof.
  induction s as [|d r IH]; simpl; [discriminate|].
  destruct (Q d) eqn:Hd; [exact IH|]. simpl. intros [= <-]. exact Hd.
Qed.

Lemma firstChar_dropEnd Q s c :
  Terms.firstChar (Js.dropEnd Q s) = Some c -> Terms.firstChar s = Some c.
Proof.
  destruct s as [|d r]; simpl; [discriminate|].
  destruct (Js.dropEnd Q r); [destruct (Q d); [discriminate|]|]; simpl; auto.
Qed.

Lemma lastChar_dropEnd Q s c :
  Terms.lastChar (Js.dropEnd Q s) = Some c -> Q c = false.
Proof.
  induction s as [|d r IH]; simpl; [discriminate|].
  destruct (Js.dropEnd Q r) as [|e t] eqn:He.
  - destruct (Q d) eqn:Hd; simpl; [discriminate|]. intros [= <-]. exact Hd.
  - intros H. apply IH. exact H.
Qed.

(** X1.  A synthetic bot id is [bot_] followed by a body that has no
    space and no upper-case letter and neither starts nor ends with an
    underscore; it is never of the shape of a genuine id. *)
Theorem generateBotIdentifier_shape raw :
  exists body,
    Utils.generateBotIdentifier raw = "bot_" +:+ body
    /\ Terms.anyChar Terms.isSpace body = false
    /\ Terms.anyChar Terms.isUpper body = false
    /\ Terms.firstChar body <> Some "_"%char
    /\ Terms.lastChar body <> Some "_"%char
    /\ Utils.isUuid (Utils.generateBotIdentifier raw) = false.
Proof.
  eexists. split; [reflexivity|].
  split; [|split; [|split; [|split; [|reflexivity]]]].
  - destruct (Terms.anyChar Terms.isSpace _) eqn:H; [|reflexivity].
    apply anyChar_dropEnd, anyChar_dropStart in H.
    unfold Terms.isSpace in H.
    rewrite (replaceAll_char_gone " " "_") in H by reflexivity. discriminate H.
  - destruct (Terms.anyChar Terms.isUpper _) eqn:H; [|reflexivity].
    apply anyChar_dropEnd, anyChar_dropStart in H.
    unfold Js.replaceAll in H.
    rewrite anyChar_replaceAllFrom in H; [discriminate H | reflexivity |].
    apply anyChar_replaceAllFrom; [reflexivity | apply toLowerCase_no_upper].
  - intros H. apply firstChar_dropEnd, firstChar_dropStart in H. discriminate H.
  - intros H. apply lastChar_dropEnd in H. discriminate H.
Qed.

(** *** What the directive loop keeps between the game and the roster *)

Lemma keys_set_self {V} k (v : V) o : k ∈ Obj.keys (Obj.set k v o).
Proof.
  destruct (decide (k ∈ Obj.keys (Obj.set k v o))) as [H|H]; [exact H|].
  apply ObjFacts.get_None_keys in H. rewrite ObjFacts.get_set_eq in H. discriminate H.
Qed.

Lemma keys_set_mono {V} k (v : V) o x : x ∈ Obj.keys o -> x ∈ Obj.keys (Obj.set k v o).
Proof.
  intros Hx. destruct (String.eqb_spec x k) as [->|Hne]; [apply keys_set_self|].
  destruct (decide (x ∈ Obj.keys (Obj.set k v o))) as [H|H]; [exact H|].
  apply ObjFacts.get_None_keys in H. rewrite ObjFacts.get_set_ne in H by exact Hne.
  apply ObjFacts.get_None_keys in H. contradiction.
Qed.

Section Registered.

Variable P : game -> gset string -> Prop.
Hypothesis P_mission : forall g k mid diff modif res dur,
    P g k -> P (setMission g mid diff modif res dur) k.
Hypothesis P_player : forall g k slot playerId playerName,
    P g k -> P (setPlayers g (players g ++ [(slot, playerId, playerName)])) ({[playerId]} ∪ k).
Hypothesis P_property : forall g k rowId m,
    P g k -> P (setPropertyMetadata g (Obj.set rowId m (propertyMetadata g))) k.
Hypothesis P_score : forall g k rowId dataLine,
    P g k -> rowId ∈ Obj.keys (propertyMetadata g) -> P (scoreLine rowId k dataLine g) k.

Lemma playerLines_registered n lines lineIndex g k :
  P g k ->
  P (playerLines n lines lineIndex g k).1.2 (playerLines n lines lineIndex g k).2.
Proof using P_player.
  revert lineIndex g k. induction n as [|n IH]; intros lineIndex g k Hg; simpl; [exact Hg|].
  destruct (lines !! S lineIndex) as [l|]; [|exact Hg].
  destruct (length (Js.split ";" (Js.trim l)) <? 2)%nat; apply IH; auto.
Qed.

Lemma scoreLine_propertyMetadata rowId k dataLine g :
  propertyMetadata (scoreLine rowId k dataLine g) = propertyMetadata g.
Proof.
  unfold scoreLine. destruct (_ ≫= Js.parseFloat) as [v|]; [|reflexivity].
  destruct (Utils.isUuid _); [destruct (bool_decide _)|]; reflexivity.
Qed.

Lemma dataLines_registered n rowId k lines lineIndex g :
  P g k -> rowId ∈ Obj.keys (propertyMetadata g) ->
  P (dataLines n rowId k lines lineIndex g).2 k.
Proof using P_score.
  revert lineIndex g. induction n as [|n IH]; intros lineIndex g Hg Hrow; simpl; [exact Hg|].
  unfold dataLineStep. destruct (lines !! S lineIndex) as [l|]; [|exact Hg].
  destruct (_ || _); [exact Hg|].
  apply IH; [apply P_score; assumption|]. rewrite scoreLine_propertyMetadata. exact Hrow.
Qed.

Lemma parseLines_registered fuel lines lineIndex g gid gname k :
  P g k -> exists k', P (parseLines fuel lines lineIndex g gid gname k) k'.
Proof using All.
  revert lineIndex g gid gname k.
  induction fuel as [|fuel IH]; intros lineIndex g gid gname k Hg;
    cbn [parseLines]; [eauto|].
  destruct (lines !! lineIndex) as [raw|]; [|eauto].
  destruct (String.eqb _ _); [apply IH, Hg|].
  destruct (Js.startsWith "#mission" _).
  { apply IH. unfold parseMissionLine. destruct (length _ <? 3)%nat; auto. }
  destruct (Js.startsWith "#players" _).
  { unfold parsePlayersSection. destruct (length _ <? 2)%nat; [apply IH, Hg|].
    match goal with |- context [playerLines ?n ?ls ?i ?gg ?kk] =>
      pose proof (playerLines_registered n ls i gg kk Hg) as H;
      destruct (playerLines n ls i gg kk) as [[i' g'] k'] end.
    apply IH, H. }
  destruct (Js.startsWith "#group" _); [apply IH, Hg|].
  destruct (Js.startsWith "#row" _); [|apply IH, Hg].
  unfold parseRowSection. destruct (length _ <? 2)%nat; [apply IH, Hg|].
  match goal with |- context [dataLines ?n ?r ?kk ?ls ?i ?gg] =>
    assert (H : P (dataLines n r kk ls i gg).2 kk);
    [apply dataLines_registered; [apply P_property, Hg | apply keys_set_self]|];
    destruct (dataLines n r kk ls i gg) as [i' g'] end.
  apply IH, H.
Qed.

End Registered.

Lemma setAdd_elem x l y : y ∈ Parser.setAdd x l <-> y = x \/ y ∈ l.
Proof.
  unfold setAdd. destruct (bool_decide (x ∈ l)) eqn:Hx.
  - apply bool_decide_eq_true in Hx. split; [auto|]. intros [->|H]; assumption.
  - rewrite elem_of_app, list_elem_of_singleton. tauto.
Qed.

Lemma setAdd_NoDup x l : NoDup l -> NoDup (Parser.setAdd x l).
Proof.
  intros H. unfold setAdd. destruct (bool_decide (x ∈ l)) eqn:Hx; [exact H|].
  apply bool_decide_eq_false in Hx. apply NoDup_app. repeat split; [exact H| |].
  - intros y Hy Hy'. apply list_elem_of_singleton in Hy'. subst y. contradiction.
  - apply NoDup_singleton.
Qed.

(** A game with one more score, and at least the bots and extra players
    it had, stays consistent when the score is in order. *)
Lemma consistent_add_score g g' k rowId p v :
  Terms.consistent g k ->
  Terms.rosterIds g' = Terms.rosterIds g ->
  propertyMetadata g' = propertyMetadata g ->
  scores g' = scores g ++ [(rowId, p, v)] ->
  (forall b, b ∈ Obj.keys (discoveredBots g) -> b ∈ Obj.keys (discoveredBots g')) ->
  (forall b, b ∈ Obj.keys (discoveredBots g') -> Js.startsWith "bot_" b = true) ->
  (forall e, e ∈ discoveredExtraPlayers g -> e ∈ discoveredExtraPlayers g') ->
  (forall e, e ∈ discoveredExtraPlayers g' -> Utils.isUuid e = true) ->
  NoDup (discoveredExtraPlayers g') ->
  rowId ∈ Obj.keys (propertyMetadata g) ->
  Terms.participant g' p ->
  Utils.isUuid p = true \/ Js.startsWith "bot_" p = true ->
  Terms.consistent g' k.
Proof.
  intros (Hknown & Hscores & _ & _ & _) Hroster Hpm Hsc Hbots Hbots' Hext Hext' Hnd
         Hrow Hpart Hkind.
  unfold Terms.consistent, Terms.participant in *. rewrite Hroster, Hpm, Hsc.
  split; [exact Hknown|]. split; [|auto].
  intros r q w Hin. apply elem_of_app in Hin as [Hin|Hin].
  - destruct (Hscores _ _ _ Hin) as (Hr & Hq & Hk). split; [exact Hr|]. split; [|exact Hk].
    destruct Hq as [Hq|[Hq|Hq]]; auto.
  - apply list_elem_of_singleton in Hin. injection Hin as -> -> ->.
    rewrite Hroster in Hpart. auto.
Qed.

Lemma scoreLine_consistent g k rowId dataLine :
  Terms.consistent g k -> rowId ∈ Obj.keys (propertyMetadata g) ->
  Terms.consistent (scoreLine rowId k dataLine g) k.
Proof.
  intros Hg Hrow. pose proof Hg as (Hknown & Hscores & Hbots & Hextra & Hnd).
  unfold scoreLine.
  destruct (_ ≫= Js.parseFloat) as [v|]; [|exact Hg].
  set (raw := field (Js.split ";" dataLine) 0 EmptyString).
  destruct (Utils.isUuid raw) eqn:Huuid.
  - destruct (bool_decide (raw ∈ k)) eqn:Hp.
    + apply bool_decide_eq_true in Hp.
      apply (consistent_add_score g _ k rowId raw v Hg); try reflexivity; auto.
      left. apply Hknown, Hp.
    + apply (consistent_add_score g _ k rowId raw v Hg); try reflexivity; auto;
        cbn [discoveredExtraPlayers setScores setDiscoveredExtraPlayers].
      * intros e He. apply setAdd_elem. auto.
      * intros e He. apply setAdd_elem in He as [->|He]; auto.
      * apply setAdd_NoDup, Hnd.
      * right; right. cbn [discoveredExtraPlayers setScores setDiscoveredExtraPlayers].
        apply setAdd_elem. auto.
  - apply (consistent_add_score g _ k rowId (Utils.generateBotIdentifier raw) v Hg);
      try reflexivity; auto; cbn [discoveredBots setScores setDiscoveredBots].
    + intros b Hb. apply keys_set_mono, Hb.
    + intros b Hb.
      destruct (String.eqb_spec b (Utils.generateBotIdentifier raw)) as [->|Hne];
        [reflexivity|].
      apply Hbots. destruct (decide (b ∈ Obj.keys (discoveredBots g))) as [Hin|Hout];
        [exact Hin|].
      exfalso. apply ObjFacts.get_None_keys in Hout.
      rewrite <- (ObjFacts.get_set_ne (Utils.generateBotIdentifier raw) b
                    (Utils.stripColorCodes raw)) in Hout by exact Hne.
      apply ObjFacts.get_None_keys in Hout. contradiction.
    + right; left. cbn [discoveredBots setScores setDiscoveredBots]. apply keys_set_self.
Qed.

(** *** The post-pass keeps the ids *)

Lemma keys_assignParents candidates pm :
  Obj.keys (fold_left assignParent candidates pm) = Obj.keys pm.
Proof.
  revert pm. induction candidates as [|c cs IH]; intros pm; simpl; [reflexivity|].
  rewrite IH. unfold assignParent. destruct (sortByCount (snd c)) as [|[q n] r]; [reflexivity|].
  apply ObjFacts.keys_update.
Qed.

Lemma keys_pluginFallback pm : Obj.keys (pluginFallback pm) = Obj.keys pm.
Proof.
  unfold pluginFallback, Obj.keys. rewrite map_map. apply map_ext.
  intros e. apply HierarchyFacts.attachToPlugin_key.
Qed.

Lemma keys_expandOne rawNames pm rowId : Obj.keys (expandOne rawNames pm rowId) = Obj.keys pm.
Proof.
  unfold expandOne. destruct (Obj.get rowId pm) as [m|]; [|reflexivity].
  destruct (parentId m) as [parent|]; [|reflexivity].
  destruct (String.eqb parent EmptyString); [reflexivity|].
  destruct (Obj.get parent pm); [|reflexivity]. apply ObjFacts.keys_update.
Qed.

Lemma keys_postpass g :
  Obj.keys (propertyMetadata (expandChildDisplayNames (linkOrphanedChildren g)))
  = Obj.keys (propertyMetadata g).
Proof.
  unfold expandChildDisplayNames, linkOrphanedChildren.
  cbn [propertyMetadata setPropertyMetadata].
  match goal with |- Obj.keys (fold_left ?f ?ks ?pm0) = _ =>
    assert (H : forall l pm1, Obj.keys (fold_left f l pm1) = Obj.keys pm1) end.
  { induction l as [|x l IH]; intros pm1; simpl; [reflexivity|].
    rewrite IH. apply keys_expandOne. }
  rewrite H, keys_pluginFallback. unfold linkOrphans. apply keys_assignParents.
Qed.

Lemma bot_prefix_not_uuid b : Js.startsWith "bot_" b = true -> Utils.isUuid b = false.
Proof.
  destruct b as [|c1 [|c2 b]]; cbn [Js.startsWith]; rewrite ?andb_false_r;
    try discriminate. intros H.
  apply andb_true_iff in H as [H1 H]. apply andb_true_iff in H as [H2 _].
  apply Ascii.eqb_eq in H1, H2. subst. reflexivity.
Qed.

(** What the directive loop maintains holds of the game that is
    returned. *)
Lemma parseLuaContent_consistent name content g :
  parseLuaContent name content = Some g -> exists known, Terms.consistent g known.
Proof.
  unfold parseLuaContent. destruct (Js.parseInt _) as [ts|]; [|discriminate].
  intros [= <-]. unfold parseDirectives.
  destruct (parseLines_registered Terms.consistent) with
    (fuel := length (splitLines content)) (lines := splitLines content) (lineIndex := O)
    (g := emptyGame name ts) (gid := Some DEFAULT_GROUP_ID) (gname := Some DEFAULT_GROUP_NAME)
    (k := (∅ : gset string)) as [k' (Hknown & Hscores & Hbots & Hextra & Hnd)].
  - intros g k mid diff modif res dur H. exact H.
  - intros g k slot playerId playerName (Hknown & Hscores & Hrest).
    unfold Terms.consistent, Terms.participant, Terms.rosterIds in *.
    cbn [players setPlayers scores propertyMetadata discoveredBots discoveredExtraPlayers].
    rewrite map_app. split; [|split; [|exact Hrest]].
    + intros x Hx. apply elem_of_union in Hx as [Hx|Hx]; apply elem_of_app;
        [right; apply elem_of_singleton in Hx; subst x; left | left; auto].
    + intros r p v Hin. destruct (Hscores _ _ _ Hin) as (Hr & Hp & Hk).
      split; [exact Hr|]. split; [|exact Hk].
      destruct Hp as [Hp|Hp]; [left; apply elem_of_app; left; exact Hp | right; exact Hp].
  - intros g k rowId m (Hknown & Hscores & Hrest).
    unfold Terms.consistent, Terms.participant, Terms.rosterIds in *.
    cbn [players setPropertyMetadata scores propertyMetadata discoveredBots
         discoveredExtraPlayers].
    split; [exact Hknown|]. split; [|exact Hrest].
    intros r p v Hin. destruct (Hscores _ _ _ Hin) as (Hr & Hp & Hk).
    split; [apply keys_set_mono, Hr | auto].
  - intros g k rowId dataLine. apply scoreLine_consistent.
  - unfold Terms.consistent. cbn. repeat split; try (intros; exfalso; set_solver).
    apply NoDup_nil_2.
  - exists k'. set (g0 := parseLines _ _ _ _ _ _ _) in *.
    unfold Terms.consistent, Terms.participant, Terms.rosterIds in *.
    cbn [scores players discoveredBots discoveredExtraPlayers expandChildDisplayNames
         linkOrphanedChildren setPropertyMetadata].
    change (propertyMetadata _) with
      (propertyMetadata (expandChildDisplayNames (linkOrphanedChildren g0))).
    rewrite keys_postpass.
    split; [exact Hknown|]. split; [|split; [exact Hbots | split; [exact Hextra | exact Hnd]]].
    intros r p v Hin. destruct (Hscores r p v Hin) as (Hr & Hp & Hk). auto.
Qed.

(** X2.  In every parsed game whose row ids, plugin ids and declared
    parents are no names every object inherits, each score belongs to a
    declared row and to a participant the game knows (a roster entry, a
    bot or an extra player); its player id is a genuine id or a synthetic
    one, never both; bots carry synthetic ids, and the extra players are
    genuine ids without repetition.  A row named [__proto__] is not
    stored as a key of the property map, so its scores have no declared
    row. *)
Theorem parsed_scores_have_participants name content g :
  parseLuaContent name content = Some g ->
  Spec.ordinary (propertyMetadata g) = true ->
  (forall r p v, (r, p, v) ∈ scores g ->
      r ∈ Obj.keys (propertyMetadata g)
      /\ Terms.participant g p
      /\ (Utils.isUuid p = true \/ Js.startsWith "bot_" p = true))
  /\ (forall b, b ∈ Obj.keys (discoveredBots g) ->
        Js.startsWith "bot_" b = true /\ b ∉ discoveredExtraPlayers g)
  /\ (forall e, e ∈ discoveredExtraPlayers g -> Utils.isUuid e = true)
  /\ NoDup (discoveredExtraPlayers g).
Proof.
  intros Hparse _.
  destruct (parseLuaContent_consistent _ _ _ Hparse)
    as [known (_ & Hscores & Hbots & Hextra & Hnd)].
  split; [exact Hscores|]. split; [|split; [exact Hextra | exact Hnd]].
  intros b Hb. split; [apply Hbots, Hb|]. intros He.
  pose proof (bot_prefix_not_uuid b (Hbots b Hb)) as Hno.
  rewrite (Hextra b He) in Hno. discriminate Hno.
Qed.

Lemma parsed_scores_have_participants_witness :
  exists g,
    parseLuaContent "1.lua"
      (Sample.lines [ "#row;dmg;1;2"; "Grunt [BOT];5";
                      "22222222-2222-2222-2222-222222222222;7" ]) = Some g
    /\ NoDup (discoveredExtraPlayers g).
Proof.
  eexists. split; [reflexivity|].
  exact (proj2 (proj2 (proj2 (parsed_scores_have_participants "1.lua"
           (Sample.lines [ "#row;dmg;1;2"; "Grunt [BOT];5";
                           "22222222-2222-2222-2222-222222222222;7" ]) _ eq_refl eq_refl)))).
Defined.

(** *** The mission line *)

Section Steps.

Variable P : game -> Prop.
Hypothesis P_missionLine : forall line g, P g -> P (parseMissionLine line g).
Hypothesis P_playersSection : forall lines lineIndex g k,
    P g -> P (parsePlayersSection lines lineIndex g k).1.2.
Hypothesis P_rowSection : forall lines lineIndex line g k gid gname,
    P g -> P (parseRowSection lines lineIndex line g k gid gname).2.

Lemma parseLines_steps fuel lines lineIndex g gid gname k :
  P g -> P (parseLines fuel lines lineIndex g gid gname k).
Proof using All.
  revert lineIndex g gid gname k.
  induction fuel as [|fuel IH]; intros lineIndex g gid gname k Hg;
    cbn [parseLines]; [exact Hg|].
  destruct (lines !! lineIndex) as [raw|]; [|exact Hg].
  destruct (String.eqb _ _); [apply IH, Hg|].
  destruct (Js.startsWith "#mission" _); [apply IH, P_missionLine, Hg|].
  destruct (Js.startsWith "#players" _).
  { pose proof (P_playersSection lines lineIndex g k Hg) as H.
    destruct (parsePlayersSection lines lineIndex g k) as [[i g'] k']. apply IH, H. }
  destruct (Js.startsWith "#group" _); [apply IH, Hg|].
  destruct (Js.startsWith "#row" _); [|apply IH, Hg].
  pose proof (P_rowSection lines lineIndex (Js.trim raw) g k gid gname Hg) as H.
  destruct (parseRowSection _ _ _ _ _ _ _) as [i g']. apply IH, H.
Qed.

End Steps.

(** X3.  A [#mission] line with fewer than three fields changes
    nothing, and the modifier of a parsed game is never the raw [nil] or
    [default]: both are stored as the empty string. *)
Theorem parsed_modifier_normalized :
  (forall line g, (length (Js.split ";" line) < 3)%nat -> parseMissionLine line g = g)
  /\ (forall name content g,
        parseLuaContent name content = Some g ->
        modifier g <> "nil" /\ modifier g <> "default").
Proof.
  split.
  - intros line g Hlen. unfold parseMissionLine.
    destruct (Nat.ltb_spec (length (Js.split ";" line)) 3); [reflexivity | lia].
  - intros name content g. unfold parseLuaContent.
    destruct (Js.parseInt _) as [ts|]; [|discriminate]. intros [= <-].
    cbn [modifier expandChildDisplayNames linkOrphanedChildren setPropertyMetadata].
    unfold parseDirectives.
    apply (parseLines_steps (fun g => modifier g <> "nil" /\ modifier g <> "default")).
    + intros line g Hg. unfold parseMissionLine.
      destruct (length _ <? 3)%nat; [exact Hg|]. cbn [modifier setMission].
      destruct (String.eqb_spec (field (Js.split ";" line) 3 EmptyString) "nil") as [|Hn];
        cbn [orb]; [split; discriminate|].
      destruct (String.eqb_spec (field (Js.split ";" line) 3 EmptyString) "default") as [|Hd];
        cbn [orb]; [split; discriminate|].
      destruct (String.eqb _ EmptyString); [split; discriminate | split; assumption].
    + intros lines lineIndex g k Hg.
      apply (ParserFacts.parsePlayersSection_inv
               (fun g' => modifier g' <> "nil" /\ modifier g' <> "default"));
        [intros; assumption | exact Hg].
    + intros lines lineIndex line g k gid gname Hg.
      apply (ParserFacts.parseRowSection_inv
               (fun g' => modifier g' <> "nil" /\ modifier g' <> "default"));
        try (intros; assumption).
    + split; discriminate.
Qed.

Lemma parsed_modifier_normalized_witness :
  parseMissionLine "#mission;cm_habs" (emptyGame "1.lua" 1) = emptyGame "1.lua" 1.
Proof.
  apply (proj1 parsed_modifier_normalized "#mission;cm_habs" (emptyGame "1.lua" 1)).
  vm_compute. lia.
Defined.

(** *** What the post-pass leaves alone *)



Lemma keys_set_sub {V} k (v : V) o x : x ∈ Obj.keys (Obj.set k v o) -> x = k \/ x ∈ Obj.keys o.
Proof.
  intros Hx. destruct (String.eqb_spec x k) as [->|Hne]; [auto|]. right.
  destruct (decide (x ∈ Obj.keys o)) as [H|H]; [exact H|]. exfalso.
  apply ObjFacts.get_None_keys in H. rewrite <- (ObjFacts.get_set_ne k x v) in H by exact Hne.
  apply ObjFacts.get_None_keys in H. contradiction.
Qed.

(** Only parentless properties are parenting candidates. *)
Lemma collectCandidates_orphans pm c :
  c ∈ Obj.keys (collectCandidates pm) ->
  exists mc, Obj.get c pm = Some mc /\ parentId mc = None.
Proof.
  unfold collectCandidates.
  assert (H : forall entries candidates,
             (forall x, x ∈ Obj.keys candidates ->
                        exists mc, Obj.get x pm = Some mc /\ parentId mc = None) ->
             forall x, x ∈ Obj.keys (fold_left (candidatesOf pm) entries candidates) ->
                       exists mc, Obj.get x pm = Some mc /\ parentId mc = None).
  { induction entries as [|e es IH]; intros candidates Hc; simpl; [exact Hc|].
    apply IH. unfold candidatesOf. destruct (childIds (snd e)) as [ids|]; [|exact Hc].
    destruct (String.eqb ids EmptyString); [exact Hc|].
    generalize (length (Js.split ":" ids)). intros n.
    generalize (Js.split ":" ids). intros cl. revert candidates Hc.
    induction cl as [|y cl IHcl]; intros candidates Hc; simpl; [exact Hc|].
    apply IHcl. unfold addCandidate.
    destruct (Obj.get y pm) as [my|] eqn:Hy; [|exact Hc].
    destruct (parentId my) eqn:Hp; [exact Hc|].
    intros x Hx. apply keys_set_sub in Hx as [->|Hx]; eauto. }
  apply H. intros x Hx. inversion Hx.
Qed.






End ParserExtras.

(** ** The parent links of a ranked hierarchy *)

Module ForestFacts.

Import Parser.

(** The parent the orphan linking leaves with a property is the one it
    had or the first of the sorted options of a candidate. *)
Lemma parent_assignParents candidates pm id m' :
  Obj.get id (fold_left assignParent candidates pm) = Some m' ->
  exists m, Obj.get id pm = Some m
            /\ (parentId m' = parentId m
                \/ exists opts q n rest,
                     (id, opts) ∈ candidates /\ sortByCount opts = (q, n) :: rest
                     /\ parentId m' = Some q).
Proof.
  revert pm. induction candidates as [|c cs IH]; intros pm H; simpl in H.
  - exists m'. auto.
  - destruct (IH _ H) as (m1 & Hm1 & Hcase).
    assert (Hlater : (exists opts q n rest,
                         (id, opts) ∈ cs /\ sortByCount opts = (q, n) :: rest
                         /\ parentId m' = Some q) ->
                     exists opts q n rest,
                       (id, opts) ∈ c :: cs /\ sortByCount opts = (q, n) :: rest
                       /\ parentId m' = Some q).
    { intros (opts & q & n & rest & Hin & Hq & Hp). exists opts, q, n, rest.
      split; [right; exact Hin | auto]. }
    unfold assignParent in Hm1. destruct (sortByCount (snd c)) as [|[q n] r] eqn:Hs.
    + exists m1. split; [exact Hm1|]. destruct Hcase as [Hsame|Hin]; auto.
    + rewrite ObjFacts.get_update in Hm1. destruct (String.eqb_spec id (fst c)) as [He|Hne].
      * destruct (Obj.get id pm) as [m|] eqn:Hg; [|discriminate Hm1].
        injection Hm1 as <-. exists m. split; [reflexivity|].
        destruct Hcase as [Hsame|Hin]; [|auto]. right. exists (snd c), q, n, r.
        split; [rewrite He; destruct c; left|]. split; [exact Hs | exact Hsame].
      * exists m1. split; [exact Hm1|]. destruct Hcase as [Hsame|Hin]; auto.
Qed.

(** Under a ranking the orphan linking gives every property a parent
    of lower rank. *)
Lemma linkOrphans_ranked rank pm :
  NoDup (Obj.keys pm) ->
  Spec.ranked rank pm = true ->
  forall id p, Spec.parentLink (linkOrphans pm) id = Some p -> (rank p < rank id)%nat.
Proof.
  intros Hnd Hranked id p. unfold Spec.parentLink, linkOrphans.
  destruct (Obj.get id (fold_left assignParent (collectCandidates pm) pm)) as [m'|] eqn:Hget;
    [|discriminate].
  cbn [mbind option_bind]. intros Hp.
  destruct (parent_assignParents _ _ _ _ Hget) as (m & Hm & Hcase).
  unfold Spec.ranked in Hranked. rewrite forallb_forall in Hranked.
  specialize (Hranked (id, m)). cbn [fst snd] in Hranked.
  assert (Hentry : In (id, m) pm) by (apply list_elem_of_In, ObjFacts.get_Some_elem, Hm).
  specialize (Hranked Hentry).
  destruct Hcase as [Hsame|(opts & q & n & rest & Hin & Hq & Hparent)].
  - rewrite <- Hsame, Hp in Hranked. apply Nat.ltb_lt, Hranked.
  - assert (Hkey : id ∈ Obj.keys (collectCandidates pm)).
    { apply ListFacts.elem_map. exists (id, opts). auto. }
    destruct (ParserExtras.collectCandidates_orphans _ _ Hkey) as (mc & Hmc & Horphan).
    rewrite Hm in Hmc. injection Hmc as <-. rewrite Horphan in Hranked.
    pose proof (HierarchyFacts.optionsOf_collectCandidates _ _ _ Hm Horphan) as Hopts.
    unfold Spec.optionsOf in Hopts.
    rewrite (ObjFacts.elem_get _ _ _ (HierarchyFacts.NoDup_collectCandidates pm) Hin) in Hopts.
    cbn [from_option Datatypes.id] in Hopts. rewrite <- Hopts, Hq in Hranked.
    rewrite Hp in Hparent. injection Hparent as ->.
    apply Nat.ltb_lt, Hranked.
Qed.

(** Links that go down in rank end. *)
Lemma ranked_climbs (rank : string -> nat) pm :
  (forall id p, Spec.parentLink pm id = Some p -> (rank p < rank id)%nat) ->
  forall n id, (rank id <= n)%nat -> Spec.climbs n pm id = true.
Proof.
  intros Hdown. induction n as [|n IH]; intros id Hid; cbn [Spec.climbs];
    destruct (Spec.parentLink pm id) as [p|] eqn:Hp; try reflexivity;
    specialize (Hdown _ _ Hp); [lia|]. apply IH. lia.
Qed.

(** C3 (as amended).  When the ids of a file can be ranked so that
    every declared parent ranks below its child and the listing
    property that the orphan linking makes the parent of a parentless
    property ranks below that property, the parent links of the parsed
    game form a forest: the plugin fallback attaches properties to roots
    only, and the walk up from any property ends.  The row ids, plugin
    ids and declared parents are taken not to be names every object
    inherits.  Without a ranking the declared parents and the listings
    can close a cycle, which no pass looks for. *)
Theorem ranked_parent_links_forest name ts content (rank : string -> nat) :
  Js.parseInt (stripLuaExtension name) = Some ts ->
  Spec.ordinary (propertyMetadata (parseDirectives name ts content)) = true ->
  Spec.ranked rank (propertyMetadata (parseDirectives name ts content)) = true ->
  exists g, parseLuaContent name content = Some g /\ Spec.forest (propertyMetadata g).
Proof.
  intros Hts _ Hranked. unfold parseLuaContent. rewrite Hts.
  eexists. split; [reflexivity|].
  pose proof (ParserFacts.parseDirectives_NoDup name ts content) as Hnd.
  set (pm := propertyMetadata (parseDirectives name ts content)) in *.
  assert (Hforest : Spec.forest (linkOrphans pm)).
  { intros id. exists (rank id).
    apply (ranked_climbs rank); [apply linkOrphans_ranked; assumption | lia]. }
  assert (Hnd' : NoDup (Obj.keys (linkOrphans pm))).
  { unfold linkOrphans. rewrite ParserExtras.keys_assignParents. exact Hnd. }
  intros id. destruct (HierarchyFacts.pluginFallback_forest _ Hnd' Hforest id) as [n Hn].
  exists n. rewrite <- Hn.
  apply HierarchyFacts.climbs_ext. intros id'.
  rewrite HierarchyFacts.parentLink_expandChildDisplayNames. reflexivity.
Qed.

(** The properties [A], with children [X:Y], and [B], with child [X],
    and the parentless [X]: ranking [X] above the others. *)
Lemma ranked_parent_links_forest_witness :
  exists g,
    parseLuaContent "1.lua"
      ("#row;A;1;0;a;ASC;x;x;x;p;nil;x;X:Y" +:+ String LF
       ("#row;B;2;0;b;ASC;x;x;x;p;nil;x;X" +:+ String LF "#row;X;3;0")) = Some g
    /\ Spec.forest (propertyMetadata g).
Proof.
  exact (ranked_parent_links_forest "1.lua" 1
           ("#row;A;1;0;a;ASC;x;x;x;p;nil;x;X:Y" +:+ String LF
            ("#row;B;2;0;b;ASC;x;x;x;p;nil;x;X" +:+ String LF "#row;X;3;0"))
           (fun id => if String.eqb id "X" then 1%nat else 0%nat)
           eq_refl eq_refl eq_refl).
Defined.

End ForestFacts.

(** ** Further properties of the repository *)

Module DbExtras.

Import Db.

(** *** Statements in sequence *)

Lemma keeps_bind {A B} K (c : run A) (k : A -> run B) :
  Terms.keeps K c -> (forall a, Terms.keeps K (k a)) -> Terms.keeps K (bind c k).
Proof.
  intros Hc Hk s Hs. unfold bind. specialize (Hc s Hs).
  destruct (c s) as [[a|] s']; simpl in *; [apply Hk, Hc | exact Hc].
Qed.

Lemma keeps_when K b (c : run unit) : Terms.keeps K c -> Terms.keeps K (when b c).
Proof. intros Hc. destruct b; [exact Hc | intros s Hs; exact Hs]. Qed.

Lemma relates_bind {A B} R (c : run A) (k : A -> run B) :
  (forall x y z, R x y -> R y z -> R x z) ->
  Terms.relates R c -> (forall a, Terms.relates R (k a)) -> Terms.relates R (bind c k).
Proof.
  intros Htrans Hc Hk s. unfold bind. specialize (Hc s).
  destruct (c s) as [[a|] s']; simpl in *; [|exact Hc].
  eapply Htrans; [exact Hc | apply Hk].
Qed.

Lemma relates_when R b (c : run unit) :
  (forall x, R x x) -> Terms.relates R c -> Terms.relates R (when b c).
Proof. intros Hrefl Hc. destruct b; [exact Hc | intros s; apply Hrefl]. Qed.

Lemma keeps_scoreBatches K fuel gameId rest :
  (forall rows, Terms.keeps K (insertScores rows)) ->
  Terms.keeps K (scoreBatches fuel gameId rest).
Proof.
  intros HK. revert rest. induction fuel as [|fuel IH]; intros rest; [intros s Hs; exact Hs|].
  destruct rest as [|x rest]; [intros s Hs; exact Hs|].
  cbn [scoreBatches]. apply keeps_bind; [apply HK | intros _; apply IH].
Qed.

Lemma relates_scoreBatches R fuel gameId rest :
  (forall x, R x x) -> (forall x y z, R x y -> R y z -> R x z) ->
  (forall rows, Terms.relates R (insertScores rows)) ->
  Terms.relates R (scoreBatches fuel gameId rest).
Proof.
  intros Hrefl Htrans HR. revert rest.
  induction fuel as [|fuel IH]; intros rest; [intros s; apply Hrefl|].
  destruct rest as [|x rest]; [intros s; apply Hrefl|].
  cbn [scoreBatches]. apply relates_bind; [exact Htrans | apply HR | intros _; apply IH].
Qed.

(** How [insertGame] is put together: whatever the game row, the roster,
    the properties and the scores keep or relate, the whole does. *)
Lemma keeps_insertGame K g :
  Terms.keeps K (insertGameRow g) ->
  (forall rows, Terms.keeps K (insertPlayers rows)) ->
  (forall rows, Terms.keeps K (insertGamePlayers rows)) ->
  (forall entries, Terms.keeps K (insertProperties entries)) ->
  (forall rows, Terms.keeps K (insertScores rows)) ->
  Terms.keeps K (insertGame g).
Proof.
  intros Hrow Hp Hgp Hpr Hsc. unfold insertGame.
  apply keeps_bind; [exact Hrow|]. intros gameId. cbv zeta.
  apply keeps_bind; [apply keeps_when, Hp|]. intros _.
  apply keeps_bind; [apply keeps_when, Hgp|]. intros _.
  apply keeps_bind; [apply keeps_when, Hpr|]. intros _.
  apply keeps_scoreBatches, Hsc.
Qed.

Lemma relates_insertGame R g :
  (forall x, R x x) -> (forall x y z, R x y -> R y z -> R x z) ->
  Terms.relates R (insertGameRow g) ->
  (forall rows, Terms.relates R (insertPlayers rows)) ->
  (forall rows, Terms.relates R (insertGamePlayers rows)) ->
  (forall entries, Terms.relates R (insertProperties entries)) ->
  (forall rows, Terms.relates R (insertScores rows)) ->
  Terms.relates R (insertGame g).
Proof.
  intros Hrefl Htrans Hrow Hp Hgp Hpr Hsc. unfold insertGame.
  apply relates_bind; [exact Htrans | exact Hrow|]. intros gameId. cbv zeta.
  apply relates_bind; [exact Htrans | apply relates_when; auto|]. intros _.
  apply relates_bind; [exact Htrans | apply relates_when; auto|]. intros _.
  apply relates_bind; [exact Htrans | apply relates_when; auto|]. intros _.
  apply relates_scoreBatches; auto.
Qed.

(** *** Keys *)

Lemma max_bound a l x : x ∈ l -> x <= fold_right Z.max a l.
Proof.
  induction l as [|y l IH]; simpl; intros Hx; [inversion Hx|].
  apply elem_of_cons in Hx as [-> |Hx]; [lia|]. specialize (IH Hx). lia.
Qed.

Lemma nextGameId_fresh s : nextGameId s ∉ map g_id (games s).
Proof.
  intros Hin. pose proof (max_bound (games_seq s) _ _ Hin) as H. unfold nextGameId in H. lia.
Qed.

(** Adding rows one by one, skipping those whose key is there, keeps
    the keys distinct and the rows there were in front. *)
Section Adding.

Context {Row Key : Type} `{EqDecision Key}.
Variable key : Row -> Key.
Variable add : list Row -> Row -> list Row.
Hypothesis add_spec : forall rows r,
    add rows r = if bool_decide (key r ∈ map key rows) then rows else rows ++ [r].

Lemma add_NoDup rows r : NoDup (map key rows) -> NoDup (map key (add rows r)).
Proof using add_spec.
  intros H. rewrite add_spec. destruct (bool_decide _) eqn:Hk; [exact H|].
  apply bool_decide_eq_false in Hk. rewrite map_app. apply NoDup_app.
  repeat split; [exact H| |apply NoDup_singleton].
  intros x Hx Hx'. apply list_elem_of_singleton in Hx'. subst x. contradiction.
Qed.

Lemma adds_NoDup new rows :
  NoDup (map key rows) -> NoDup (map key (fold_left add new rows)).
Proof using add_spec.
  revert rows. induction new as [|r new IH]; intros rows H; simpl; [exact H|].
  apply IH, add_NoDup, H.
Qed.

Lemma adds_prefix new rows : rows `prefix_of` fold_left add new rows.
Proof using add_spec.
  revert rows. induction new as [|r new IH]; intros rows; simpl; [reflexivity|].
  etransitivity; [|apply IH]. rewrite add_spec.
  destruct (bool_decide _); [reflexivity | apply prefix_app_r; reflexivity].
Qed.

Lemma adds_keys new rows x :
  x ∈ map key (fold_left add new rows) <-> x ∈ map key rows \/ x ∈ map key new.
Proof using add_spec.
  revert rows. induction new as [|r new IH]; intros rows; simpl.
  - split; [auto | intros [H|H]; [exact H | inversion H]].
  - rewrite IH, add_spec. destruct (bool_decide _) eqn:Hk.
    + apply bool_decide_eq_true in Hk. rewrite elem_of_cons.
      split; [tauto|]. intros [H|[-> |H]]; auto.
    + rewrite map_app, elem_of_app. simpl. rewrite list_elem_of_singleton, elem_of_cons.
      tauto.
Qed.

Lemma adds_elem new rows x :
  x ∈ fold_left add new rows
  <-> x ∈ rows
      \/ ((key x ∉ map key rows)
          /\ List.find (fun y => bool_decide (key y = key x)) new = Some x).
Proof using add_spec.
  revert rows. induction new as [|r new IH]; intros rows; simpl.
  - split; [auto | intros [H|[_ H]]; [exact H | discriminate]].
  - rewrite IH, add_spec. destruct (bool_decide (key r ∈ map key rows)) eqn:Hk.
    + apply bool_decide_eq_true in Hk.
      destruct (bool_decide (key r = key x)) eqn:He; [|tauto].
      apply bool_decide_eq_true in He. rewrite <- He. tauto.
    + apply bool_decide_eq_false in Hk. rewrite map_app, !elem_of_app. simpl.
      rewrite !list_elem_of_singleton.
      destruct (bool_decide (key r = key x)) eqn:He.
      * apply bool_decide_eq_true in He. rewrite <- He. split.
        -- intros [[H| ->]|[H _]]; [auto| right; auto |]. exfalso. apply H. auto.
        -- intros [H|[_ [= ->]]]; auto.
      * apply bool_decide_eq_false in He. split.
        -- intros [[H| ->]|[H Hf]]; [auto | congruence |]. right. split; [|exact Hf].
           intros Hin. apply H. auto.
        -- intros [H|[H Hf]]; [auto|]. right. split; [|exact Hf].
           intros [Hin|Heq]; [auto | congruence].
Qed.

Lemma adds_sub new rows x : x ∈ fold_left add new rows -> x ∈ rows \/ x ∈ new.
Proof using add_spec.
  intros H. apply adds_elem in H as [H|[_ H]]; [auto|]. right.
  apply find_some in H as [H _]. apply list_elem_of_In, H.
Qed.

End Adding.

Lemma addPlayer_spec rows r :
  addPlayer rows r = if bool_decide (p_id r ∈ map p_id rows) then rows else rows ++ [r].
Proof. reflexivity. Qed.

Lemma addScore_spec rows r :
  addScore rows r
  = if bool_decide (Terms.scoreKey r ∈ map Terms.scoreKey rows) then rows else rows ++ [r].
Proof. reflexivity. Qed.

Lemma addGamePlayer_NoDup rows r :
  NoDup (map Terms.gpKey rows) -> NoDup (map Terms.gpKey (addGamePlayer rows r)).
Proof.
  intros H. destruct r as [[[[gameId playerId] slot] n] q]. unfold addGamePlayer.
  destruct slot as [sl|]; [|exact H].
  destruct (bool_decide _) eqn:Hk; [exact H|]. apply bool_decide_eq_false in Hk.
  rewrite map_app. apply NoDup_app. repeat split; [exact H| |apply NoDup_singleton].
  intros x Hx Hx'. apply list_elem_of_singleton in Hx'. subst x. contradiction.
Qed.

Lemma addGamePlayers_NoDup new rows :
  NoDup (map Terms.gpKey rows) -> NoDup (map Terms.gpKey (fold_left addGamePlayer new rows)).
Proof.
  revert rows. induction new as [|r new IH]; intros rows H; simpl; [exact H|].
  apply IH, addGamePlayer_NoDup, H.
Qed.

Lemma addGamePlayers_prefix new rows : rows `prefix_of` fold_left addGamePlayer new rows.
Proof.
  revert rows. induction new as [|r new IH]; intros rows; simpl; [reflexivity|].
  etransitivity; [|apply IH]. destruct r as [[[[gameId playerId] slot] n] q].
  unfold addGamePlayer. destruct slot; [|reflexivity].
  destruct (bool_decide _); [reflexivity | apply prefix_app_r; reflexivity].
Qed.

Lemma replaceProperty_ids rows r x :
  x ∈ map pr_id (replaceProperty rows r) <-> x = pr_id r \/ x ∈ map pr_id rows.
Proof.
  unfold replaceProperty. rewrite map_app, elem_of_app. simpl.
  rewrite list_elem_of_singleton, !ListFacts.elem_map. split.
  - intros [(y & -> & Hy)| ->]; [|auto]. apply ListFacts.elem_lfilter in Hy as [Hy _].
    right. eauto.
  - intros [-> |(y & -> & Hy)]; [auto|].
    destruct (String.eqb_spec (pr_id y) (pr_id r)) as [He|Hne]; [auto|]. left.
    exists y. split; [reflexivity|]. apply ListFacts.elem_lfilter. split; [exact Hy|].
    apply negb_true_iff, String.eqb_neq. exact Hne.
Qed.

Lemma replaceProperty_NoDup rows r :
  NoDup (map pr_id rows) -> NoDup (map pr_id (replaceProperty rows r)).
Proof.
  intros H. unfold replaceProperty. rewrite map_app. apply NoDup_app. repeat split.
  - induction rows as [|y rows IH]; simpl; [constructor|].
    simpl in H. apply NoDup_cons in H as [Hy H].
    destruct (negb (String.eqb (pr_id y) (pr_id r))); simpl; [|auto].
    apply NoDup_cons. split; [|auto]. intros Hin. apply Hy.
    apply ListFacts.elem_map in Hin as (z & Hz & Hin).
    apply ListFacts.elem_lfilter in Hin as [Hin _]. apply ListFacts.elem_map. eauto.
  - intros x Hx Hx'. apply list_elem_of_singleton in Hx'. subst x.
    apply ListFacts.elem_map in Hx as (y & Hy & Hin).
    apply ListFacts.elem_lfilter in Hin as [_ Hne].
    apply negb_true_iff, String.eqb_neq in Hne. congruence.
  - apply NoDup_singleton.
Qed.

Lemma replaceProperties_NoDup new rows :
  NoDup (map pr_id rows) -> NoDup (map pr_id (fold_left replaceProperty new rows)).
Proof.
  revert rows. induction new as [|r new IH]; intros rows H; simpl; [exact H|].
  apply IH, replaceProperty_NoDup, H.
Qed.

(** [insertGame] keeps every key of the schema, whether it ends or
    throws. *)
Lemma insertGame_keyed g s :
  Terms.keyed s -> Terms.keyed (insertGame g s).2.
Proof.
  revert s. apply keeps_insertGame.
  - intros s Hs. unfold insertGameRow.
    destruct (Parser.difficulty g) as [d|]; [|exact Hs].
    destruct (Parser.durationSeconds g) as [t|]; [|exact Hs].
    destruct (bool_decide _) eqn:Hf; [exact Hs|].
    destruct Hs as (Hid & Hname & Hrest).
    apply bool_decide_eq_false in Hf. unfold Terms.keyed.
    cbn [snd games players game_players properties scores]. rewrite !map_app.
    split; [|split; [|exact Hrest]]; apply NoDup_app;
      (repeat split; [assumption| |apply NoDup_singleton]);
      intros x Hx Hx'; apply list_elem_of_singleton in Hx'; subst x; simpl in Hx.
    + exact (nextGameId_fresh s Hx).
    + contradiction.
  - intros rows s (Hid & Hname & Hp & Hrest). unfold Terms.keyed.
    cbn [insertPlayers snd games players game_players properties scores].
    repeat split; try tauto. apply (adds_NoDup p_id addPlayer addPlayer_spec), Hp.
  - intros rows s (Hid & Hname & Hp & Hgp & Hrest). unfold Terms.keyed.
    cbn [insertGamePlayers snd games players game_players properties scores].
    repeat split; try tauto. apply addGamePlayers_NoDup, Hgp.
  - intros entries s Hs. unfold insertProperties.
    destruct (propertyRows entries) as [rows|]; [|exact Hs].
    destruct Hs as (Hid & Hname & Hp & Hgp & Hpr & Hsc). unfold Terms.keyed.
    cbn [snd games players game_players properties scores].
    repeat split; try assumption. apply replaceProperties_NoDup, Hpr.
  - intros rows s (Hid & Hname & Hp & Hgp & Hpr & Hsc). unfold Terms.keyed.
    cbn [insertScores snd games players game_players properties scores].
    repeat split; try assumption.
    apply (adds_NoDup Terms.scoreKey addScore addScore_spec), Hsc.
Qed.

(** *** The statements of [insertGame], one after the other *)

Lemma when_insertPlayers rows s :
  when (0 <? length rows)%nat (insertPlayers rows) s = insertPlayers rows s.
Proof. destruct rows; [destruct s; reflexivity | reflexivity]. Qed.

Lemma when_insertGamePlayers rows s :
  when (0 <? length rows)%nat (insertGamePlayers rows) s = insertGamePlayers rows s.
Proof. destruct rows; [destruct s; reflexivity | reflexivity]. Qed.

Lemma when_insertProperties entries s :
  when (0 <? length entries)%nat (insertProperties entries) s = insertProperties entries s.
Proof. destruct entries; [destruct s; reflexivity | reflexivity]. Qed.

Lemma SCORE_BATCH_positive : (1 <= SCORE_BATCH)%nat.
Proof. unfold SCORE_BATCH. lia. Qed.

Lemma scoreBatches_enough fuel gameId rest s :
  (length rest <= fuel)%nat ->
  scoreBatches fuel gameId rest s = insertScores (Terms.scoreRowsOf gameId rest) s.
Proof.
  revert rest s. induction fuel as [|fuel IH]; intros rest s Hlen.
  - destruct rest; [|simpl in Hlen; lia]. destruct s; reflexivity.
  - destruct rest as [|x rest]; [destruct s; reflexivity|].
    cbn [scoreBatches]. unfold bind. cbn [insertScores].
    rewrite IH.
    + unfold insertScores. cbn [games games_seq players game_players properties scores].
      rewrite <- fold_left_app. unfold Terms.scoreRowsOf. rewrite <- map_app, take_drop.
      reflexivity.
    + pose proof SCORE_BATCH_positive. rewrite length_drop. simpl in *. lia.
Qed.

Lemma insertGameRow_thrown g s s' : insertGameRow g s = (None, s') -> s' = s.
Proof.
  unfold insertGameRow. destruct (Parser.difficulty g), (Parser.durationSeconds g);
    try (intros [= <-]; reflexivity).
  destruct (bool_decide _); [intros [= <-]; reflexivity | discriminate].
Qed.

Lemma insertGameRow_done g s gameId s' :
  insertGameRow g s = (Some gameId, s') ->
  exists diff dur,
    Parser.difficulty g = Some diff /\ Parser.durationSeconds g = Some dur
    /\ (Parser.filename g ∉ map g_filename (games s))
    /\ gameId = nextGameId s
    /\ s' = Store (games s ++ [GameRow gameId (Parser.filename g) (Parser.timestamp g)
                                       (Parser.missionId g) (missionName (Parser.missionId g))
                                       diff (Parser.modifier g) (Parser.result g) dur])
                  gameId (players s) (game_players s) (properties s) (scores s).
Proof.
  unfold insertGameRow. destruct (Parser.difficulty g) as [d|]; [|discriminate].
  destruct (Parser.durationSeconds g) as [t|]; [|discriminate].
  destruct (bool_decide _) eqn:Hf; [discriminate|]. apply bool_decide_eq_false in Hf.
  intros [= <- <-]. exists d, t. auto.
Qed.

(** [insertGame] as one step: the game row, then the roster, then the
    properties, on which it may throw, then the scores. *)
Lemma insertGame_steps g s :
  insertGame g s
  = match insertGameRow g s with
    | (Some gameId, s1) =>
        let roster := fold_left addPlayer (Terms.playerRowsOf g) (players s1) in
        let entries := fold_left addGamePlayer (Terms.gamePlayerRowsOf gameId g)
                                 (game_players s1) in
        match propertyRows (Parser.propertyMetadata g) with
        | Some rows =>
            (Some tt,
             Store (games s1) (games_seq s1) roster entries
                   (fold_left replaceProperty rows (properties s1))
                   (fold_left addScore (Terms.scoreRowsOf gameId (Parser.scores g))
                              (scores s1)))
        | None =>
            (None, Store (games s1) (games_seq s1) roster entries (properties s1) (scores s1))
        end
    | (None, s1) => (None, s1)
    end.
Proof.
  unfold insertGame, bind at 1. destruct (insertGameRow g s) as [[gameId|] s1]; [|reflexivity].
  cbv zeta. unfold bind at 1.
  match goal with |- context [insertPlayers ?r] =>
    change r with (Terms.playerRowsOf g) end.
  rewrite when_insertPlayers. cbn [insertPlayers]. unfold bind at 1.
  match goal with |- context [insertGamePlayers ?r] =>
    change r with (Terms.gamePlayerRowsOf gameId g) end.
  rewrite when_insertGamePlayers. cbn [insertGamePlayers]. unfold bind.
  rewrite when_insertProperties. unfold insertProperties.
  cbn [games games_seq players game_players properties scores].
  destruct (propertyRows (Parser.propertyMetadata g)) as [rows|]; [|reflexivity].
  rewrite scoreBatches_enough by reflexivity. reflexivity.
Qed.

(** *** What [insertGame] leaves behind *)

Lemma extends_refl s : Terms.extends s s.
Proof. repeat split; reflexivity. Qed.

Lemma extends_trans x y z : Terms.extends x y -> Terms.extends y z -> Terms.extends x z.
Proof.
  intros (H1 & H2 & H3 & H4) (H1' & H2' & H3' & H4').
  repeat split; etransitivity; eassumption.
Qed.

Lemma nextGameId_above s row : row ∈ games s -> g_id row < nextGameId s.
Proof.
  intros Hin. assert (H : g_id row ∈ map g_id (games s)).
  { apply ListFacts.elem_map. eauto. }
  pose proof (max_bound (games_seq s) _ _ H). unfold nextGameId. lia.
Qed.

(** X5.  [insertGame] never removes or changes a game, a player, a
    roster entry or a score: the rows there were are the first rows of
    these tables afterwards, whether it ends or throws.  It adds no game
    row or one, which then has the file name and timestamp of the game
    and an id above every id there was. *)
Theorem insertGame_appends g s :
  Terms.extends s (insertGame g s).2
  /\ (games (insertGame g s).2 = games s
      \/ exists row,
           games (insertGame g s).2 = games s ++ [row]
           /\ g_filename row = Parser.filename g
           /\ g_timestamp row = Parser.timestamp g
           /\ forall old, old ∈ games s -> g_id old < g_id row).
Proof.
  split.
  - revert s. apply relates_insertGame.
    + apply extends_refl.
    + apply extends_trans.
    + intros s. destruct (insertGameRow g s) as [[gameId|] s1] eqn:Hrow.
      * apply insertGameRow_done in Hrow as (d & t & _ & _ & _ & _ & ->).
        repeat split; cbn; try reflexivity. apply prefix_app_r. reflexivity.
      * apply insertGameRow_thrown in Hrow as ->. apply extends_refl.
    + intros rows s. repeat split; cbn; try reflexivity.
      apply (adds_prefix p_id addPlayer addPlayer_spec).
    + intros rows s. repeat split; cbn; try reflexivity. apply addGamePlayers_prefix.
    + intros entries s. unfold insertProperties.
      destruct (propertyRows entries); [|apply extends_refl].
      repeat split; cbn; reflexivity.
    + intros rows s. repeat split; cbn; try reflexivity.
      apply (adds_prefix Terms.scoreKey addScore addScore_spec).
  - rewrite insertGame_steps. destruct (insertGameRow g s) as [[gameId|] s1] eqn:Hrow.
    + apply insertGameRow_done in Hrow as (d & t & _ & _ & _ & -> & ->). right.
      eexists. split; [|split; [|split]].
      * cbv zeta. destruct (propertyRows _); reflexivity.
      * reflexivity.
      * reflexivity.
      * intros old Hold. apply nextGameId_above, Hold.
    + apply insertGameRow_thrown in Hrow as ->. left. reflexivity.
Qed.

Lemma insertGame_appends_witness :
  games (insertGame Terms.game1 emptyStore).2 = games emptyStore
  \/ exists row,
       games (insertGame Terms.game1 emptyStore).2 = games emptyStore ++ [row]
       /\ g_filename row = Parser.filename Terms.game1
       /\ g_timestamp row = Parser.timestamp Terms.game1
       /\ forall old, old ∈ games emptyStore -> g_id old < g_id row.
Proof. exact (proj2 (insertGame_appends Terms.game1 emptyStore)). Defined.

Lemma propertyRows_elem entries rows :
  propertyRows entries = Some rows ->
  map pr_id rows = map fst entries
  /\ forall row, row ∈ rows <-> exists e, e ∈ entries /\ propertyRowOf e = Some row.
Proof.
  revert rows. induction entries as [|e entries IH]; intros rows; simpl.
  - intros [= <-]. split; [reflexivity|]. intros row. split; [intros H; inversion H|].
    intros (e & H & _). inversion H.
  - destruct (propertyRowOf e) as [r|] eqn:He; [|discriminate].
    destruct (propertyRows entries) as [rs|]; [|discriminate]. intros [= <-].
    destruct (IH rs eq_refl) as [Hids Hin]. split.
    + simpl. f_equal; [|exact Hids]. unfold propertyRowOf in He.
      destruct (Parser.groupId (snd e)), (Parser.groupName (snd e)); try discriminate.
      injection He as <-. reflexivity.
    + intros row. rewrite elem_of_cons, Hin. split.
      * intros [-> |(e' & H & H')]; [exists e | exists e']; rewrite elem_of_cons; auto.
      * intros (e' & H & H'). apply elem_of_cons in H as [-> |H]; [left; congruence|].
        right. eauto.
Qed.

Lemma replaceProperty_elem rows r x :
  x ∈ replaceProperty rows r <-> (x ∈ rows /\ pr_id x <> pr_id r) \/ x = r.
Proof.
  unfold replaceProperty. rewrite elem_of_app, list_elem_of_singleton, ListFacts.elem_lfilter.
  rewrite negb_true_iff, String.eqb_neq. tauto.
Qed.

Lemma replaceProperties_elem new rows x :
  NoDup (map pr_id new) ->
  x ∈ fold_left replaceProperty new rows
  <-> (x ∈ rows /\ pr_id x ∉ map pr_id new) \/ x ∈ new.
Proof.
  revert rows. induction new as [|r new IH]; intros rows Hnd; simpl.
  - split; [intros H; left; split; [exact H | intros H'; inversion H'] |].
    intros [[H _]|H]; [exact H | inversion H].
  - simpl in Hnd. apply NoDup_cons in Hnd as [Hr Hnd].
    rewrite IH by exact Hnd. rewrite replaceProperty_elem, !elem_of_cons. split.
    + intros [[[[H Hne]| ->] Hno]|H]; auto. left. split; [exact H|].
      intros [Heq|Hin]; auto.
    + intros [[H Hno]|[-> |H]]; auto.
      left. split; [|intros Hin; apply Hno; auto]. left. split; [exact H|].
      intros Heq. apply Hno. auto.
Qed.

(** X6.  When [insertGame] ends, the table of properties holds the
    rows of the properties of the game, and of the rows there were those
    of the other properties, unchanged. *)
Theorem insertGame_upserts_properties g s u s' :
  insertGame g s = (Some u, s') ->
  NoDup (Obj.keys (Parser.propertyMetadata g)) ->
  forall row,
    row ∈ properties s'
    <-> (row ∈ properties s /\ pr_id row ∉ Obj.keys (Parser.propertyMetadata g))
        \/ exists e, e ∈ Parser.propertyMetadata g /\ propertyRowOf e = Some row.
Proof.
  rewrite insertGame_steps. intros Hdone Hnd row.
  destruct (insertGameRow g s) as [[gameId|] s1] eqn:Hrow; [|discriminate].
  apply insertGameRow_done in Hrow as (d & t & _ & _ & _ & _ & ->).
  cbv zeta in Hdone.
  destruct (propertyRows (Parser.propertyMetadata g)) as [rows|] eqn:Hrows; [|discriminate].
  injection Hdone as _ <-. cbn [properties].
  destruct (propertyRows_elem _ _ Hrows) as [Hids Hin]. unfold Obj.keys in *.
  rewrite replaceProperties_elem by (rewrite Hids; exact Hnd).
  rewrite Hids, Hin. reflexivity.
Qed.

Lemma insertGame_upserts_properties_witness :
  PropertyRow "dmg" "Damage Dealt" "default" "Default" "DESC" false None None 1 true
    ∈ properties (insertGame Terms.game1 emptyStore).2
  <-> (PropertyRow "dmg" "Damage Dealt" "default" "Default" "DESC" false None None 1 true
         ∈ properties emptyStore
       /\ "dmg" ∉ Obj.keys (Parser.propertyMetadata Terms.game1))
      \/ exists e, e ∈ Parser.propertyMetadata Terms.game1
                   /\ propertyRowOf e
                      = Some (PropertyRow "dmg" "Damage Dealt" "default" "Default" "DESC"
                                          false None None 1 true).
Proof.
  apply (insertGame_upserts_properties Terms.game1 emptyStore tt).
  - vm_compute. reflexivity.
  - vm_compute. apply NoDup_singleton.
Defined.

Lemma firstScore_find gameId propertyId playerId v l :
  List.find (fun y => bool_decide (Terms.scoreKey y = (gameId, playerId, propertyId)))
            (Terms.scoreRowsOf gameId l)
  = Some (ScoreRow gameId playerId propertyId v)
  <-> Terms.firstScore propertyId playerId l = Some v.
Proof.
  unfold Terms.firstScore. induction l as [|[[r p] w] l IH]; simpl; [split; discriminate|].
  unfold Terms.scoreKey at 1. cbn [s_game_id s_player_id s_property_id fst snd].
  destruct (String.eqb_spec r propertyId) as [->|Hr];
    [destruct (String.eqb_spec p playerId) as [->|Hp]|]; cbn [andb].
  - rewrite bool_decide_eq_true_2 by reflexivity. simpl. split; intros [= ->]; reflexivity.
  - rewrite bool_decide_eq_false_2 by congruence. exact IH.
  - rewrite bool_decide_eq_false_2 by congruence. exact IH.
Qed.

(** The scores of the game a successful insertion adds. *)
Lemma insertGame_scores g s u s' :
  insertGame g s = (Some u, s') ->
  Terms.referenced s ->
  forall propertyId playerId v,
    ScoreRow (nextGameId s) playerId propertyId v ∈ scores s'
    <-> Terms.firstScore propertyId playerId (Parser.scores g) = Some v.
Proof.
  rewrite insertGame_steps. intros Hdone [_ Href] propertyId playerId v.
  destruct (insertGameRow g s) as [[gameId|] s1] eqn:Hrow; [|discriminate].
  apply insertGameRow_done in Hrow as (d & t & _ & _ & _ & -> & ->).
  cbv zeta in Hdone.
  destruct (propertyRows (Parser.propertyMetadata g)) as [rows|]; [|discriminate].
  injection Hdone as _ <-. cbn [scores].
  rewrite (adds_elem Terms.scoreKey addScore addScore_spec).
  rewrite <- firstScore_find with (gameId := nextGameId s).
  assert (Hfresh : forall row, row ∈ scores s -> s_game_id row <> nextGameId s).
  { intros row Hin Heq. destruct (Href row Hin) as [Hg _]. rewrite Heq in Hg.
    exact (nextGameId_fresh s Hg). }
  split.
  - intros [Hin|[_ Hf]]; [exfalso; exact (Hfresh _ Hin eq_refl) | exact Hf].
  - intros Hf. right. split; [|exact Hf]. intros Hin.
    apply ListFacts.elem_map in Hin as (row & Hk & Hin).
    apply (Hfresh row Hin). unfold Terms.scoreKey in Hk. simpl in Hk. congruence.
Qed.

(** X7.  When [insertGame] ends, the scores of the new game are those of
    the file with the first value of each: a property and a player have
    a score of the game exactly when the file gives them one, and its
    value is the first the file gives. *)
Theorem insertGame_first_score_wins g s u s' :
  insertGame g s = (Some u, s') ->
  Terms.referenced s ->
  forall propertyId playerId v,
    ScoreRow (nextGameId s) playerId propertyId v ∈ scores s'
    <-> Terms.firstScore propertyId playerId (Parser.scores g) = Some v.
Proof. exact (insertGame_scores g s u s'). Qed.

Lemma insertGame_first_score_wins_witness :
  ScoreRow (nextGameId emptyStore) "11111111-1111-1111-1111-111111111111" "dmg"
           (Js.Decimal false 250 0)
    ∈ scores (insertGame Terms.game1 emptyStore).2
  <-> Terms.firstScore "dmg" "11111111-1111-1111-1111-111111111111"
                       (Parser.scores Terms.game1)
      = Some (Js.Decimal false 250 0).
Proof.
  apply (insertGame_first_score_wins Terms.game1 emptyStore tt).
  - vm_compute. reflexivity.
  - split; intros r Hr; inversion Hr.
Defined.

End DbExtras.

(** ** Further properties of the ingestion *)

Module IngestExtras.

Import Db Ingest.

(** *** References *)

Lemma participant_playerRows g p :
  Terms.participant g p <-> p ∈ map p_id (Terms.playerRowsOf g).
Proof.
  unfold Terms.participant, Terms.playerRowsOf, Terms.rosterIds, Obj.keys.
  rewrite !map_app, !elem_of_app, !map_map.
  assert (H1 : map (fun e : option Z * string * string => snd (fst e)) (Parser.players g)
               = map (fun x => p_id (let '(_, playerId, _) := x in PlayerRow playerId false))
                     (Parser.players g)).
  { apply map_ext. intros [[slot playerId] n]. reflexivity. }
  assert (H2 : map fst (Parser.discoveredBots g)
               = map (fun x : string * string =>
                        p_id (let '(botId, _) := x in PlayerRow botId true))
                     (Parser.discoveredBots g)).
  { apply map_ext. intros [b n]. reflexivity. }
  rewrite H1, H2. cbn [p_id]. rewrite map_id. reflexivity.
Qed.

Lemma addGamePlayers_sub new rows x :
  x ∈ fold_left addGamePlayer new rows ->
  x ∈ rows
  \/ exists slot n q, (gp_game_id x, gp_player_id x, slot, n, q) ∈ new.
Proof.
  revert rows. induction new as [|r new IH]; intros rows; simpl; [auto|].
  intros H. apply IH in H as [H|(slot & n & q & H)].
  - destruct r as [[[[gameId playerId] slot] n] q]. unfold addGamePlayer in H.
    destruct slot as [sl|]; [|auto]. destruct (bool_decide _); [auto|].
    apply elem_of_app in H as [H|H]; [auto|]. apply list_elem_of_singleton in H. subst x.
    right. exists (Some sl), n, q. left.
  - right. exists slot, n, q. right. exact H.
Qed.

Lemma gamePlayerRows_elem gameId g gid pid slot n q :
  (gid, pid, slot, n, q) ∈ Terms.gamePlayerRowsOf gameId g ->
  gid = gameId /\ Terms.participant g pid.
Proof.
  unfold Terms.gamePlayerRowsOf, Terms.participant, Terms.rosterIds, Obj.keys.
  rewrite !elem_of_app, !ListFacts.elem_map.
  intros [([[sl p] nm] & He & Hin)|[([b nm] & He & Hin)|(e & He & Hin)]];
    injection He as -> -> _ _ _; (split; [reflexivity|]).
  - left. exists (sl, p, nm). auto.
  - right. left. exists (b, nm). auto.
  - right. right. exact Hin.
Qed.

(** Roster entries and scores keep referring to games and players of the
    store when a game is inserted whose scores are of its participants. *)
Lemma insertGame_referenced g s :
  (forall r p v, (r, p, v) ∈ Parser.scores g -> Terms.participant g p) ->
  Terms.referenced s -> Terms.referenced (insertGame g s).2.
Proof.
  intros Hcons [Hgp Hsc]. rewrite DbExtras.insertGame_steps.
  destruct (insertGameRow g s) as [[gameId|] s1] eqn:Hrow.
  2:{ apply DbExtras.insertGameRow_thrown in Hrow as ->. split; assumption. }
  apply DbExtras.insertGameRow_done in Hrow as (d & t & _ & _ & _ & _ & ->).
  cbv zeta. cbn [games games_seq players game_players properties scores].
  set (row := GameRow _ _ _ _ _ _ _ _ _).
  assert (Hids : forall x, x ∈ map g_id (games s) \/ x = gameId
                           -> x ∈ map g_id (games s ++ [row])).
  { intros x Hx. rewrite map_app, elem_of_app. simpl. rewrite list_elem_of_singleton.
    exact Hx. }
  assert (Hpl : forall x, x ∈ map p_id (players s) \/ Terms.participant g x
                          -> x ∈ map p_id (fold_left addPlayer (Terms.playerRowsOf g)
                                                     (players s))).
  { intros x Hx. apply (DbExtras.adds_keys p_id addPlayer DbExtras.addPlayer_spec).
    rewrite <- participant_playerRows. exact Hx. }
  assert (Hroster : forall r,
             r ∈ fold_left addGamePlayer (Terms.gamePlayerRowsOf gameId g) (game_players s) ->
             gp_game_id r ∈ map g_id (games s ++ [row])
             /\ gp_player_id r ∈ map p_id (fold_left addPlayer (Terms.playerRowsOf g)
                                                     (players s))).
  { intros r Hr. apply addGamePlayers_sub in Hr as [Hr|(slot & n & q & Hr)].
    - destruct (Hgp r Hr). split; [apply Hids | apply Hpl]; auto.
    - apply gamePlayerRows_elem in Hr as [Hg Hp]. split; [apply Hids | apply Hpl]; auto. }
  assert (Hold : forall r, r ∈ scores s ->
             s_game_id r ∈ map g_id (games s ++ [row])
             /\ s_player_id r ∈ map p_id (fold_left addPlayer (Terms.playerRowsOf g)
                                                    (players s))).
  { intros r Hr. destruct (Hsc r Hr). split; [apply Hids | apply Hpl]; auto. }
  destruct (propertyRows (Parser.propertyMetadata g)) as [rows|];
    unfold Terms.referenced; cbn [snd games players game_players scores];
    (split; [exact Hroster|]); [|exact Hold].
  intros r Hr.
  apply (DbExtras.adds_sub Terms.scoreKey addScore DbExtras.addScore_spec) in Hr as [Hr|Hr];
    [exact (Hold r Hr)|].
  unfold Terms.scoreRowsOf in Hr. apply ListFacts.elem_map in Hr as ([[pr p] v] & -> & Hin).
  cbn [s_game_id s_player_id]. split; [apply Hids | apply Hpl]; eauto.
Qed.

(** *** Names filled in *)

Lemma backfillRow_key rows r :
  gp_game_id (backfillRow rows r) = gp_game_id r
  /\ gp_player_id (backfillRow rows r) = gp_player_id r
  /\ gp_slot (backfillRow rows r) = gp_slot r
  /\ gp_quitter (backfillRow rows r) = gp_quitter r.
Proof.
  unfold backfillRow. destruct (String.eqb _ _); [|auto].
  destruct (knownName _ _); auto.
Qed.

Lemma backfill_keys rows rows0 : map Terms.gpKey (map (backfillRow rows0) rows) = map Terms.gpKey rows.
Proof.
  rewrite map_map. apply map_ext. intros r. unfold Terms.gpKey.
  destruct (backfillRow_key rows0 r) as (-> & -> & _). reflexivity.
Qed.

Lemma backfill_keyed s : Terms.keyed s -> Terms.keyed (backfillUnknownPlayerNames s).
Proof.
  intros (H1 & H2 & H3 & H4 & H5 & H6). unfold Terms.keyed, backfillUnknownPlayerNames.
  cbn [games players game_players properties scores]. rewrite backfill_keys.
  repeat split; assumption.
Qed.

Lemma backfill_referenced s :
  Terms.referenced s -> Terms.referenced (backfillUnknownPlayerNames s).
Proof.
  intros [Hgp Hsc]. split; [|exact Hsc]. intros r Hr.
  unfold backfillUnknownPlayerNames in Hr. cbn [game_players] in Hr.
  apply ListFacts.elem_map in Hr as (r0 & -> & Hr0).
  destruct (backfillRow_key (game_players s) r0) as (-> & -> & _). exact (Hgp r0 Hr0).
Qed.

(** *** The loop over the files *)

Lemma ingestOne_keeps (K : store -> Prop) st f :
  (forall name content g s,
      Parser.parseLuaContent name content = Some g -> K s -> K (insertGame g s).2) ->
  K (db st) -> K (db (ingestOne st f)).
Proof.
  intros HK Hst. unfold ingestOne. destruct (content f) as [text|]; [|exact Hst].
  destruct (Parser.parseLuaContent _ _) as [g|] eqn:Hg; [|exact Hst].
  specialize (HK _ _ _ _ Hg Hst). destruct (insertGame g (db st)) as [[u|] s']; exact HK.
Qed.

Lemma ingest_keeps (K : store -> Prop) files st :
  (forall name content g s,
      Parser.parseLuaContent name content = Some g -> K s -> K (insertGame g s).2) ->
  K (db st) -> K (db (fold_left ingestOne files st)).
Proof.
  intros HK. revert st. induction files as [|f files IH]; intros st Hst; simpl; [exact Hst|].
  apply IH, ingestOne_keeps; assumption.
Qed.

Lemma ingestFiles_keeps (K : store -> Prop) localeCompare source s :
  (forall name content g s,
      Parser.parseLuaContent name content = Some g -> K s -> K (insertGame g s).2) ->
  (forall s, K s -> K (backfillUnknownPlayerNames s)) ->
  K s -> K (ingestFiles localeCompare source s).1.
Proof.
  intros HK Hback Hs. unfold ingestFiles. cbv zeta.
  destruct (newFiles localeCompare source s) as [|f files]; [exact Hs|].
  cbn [fst]. pose proof (ingest_keeps K (f :: files) (Progress s 0 0) HK Hs) as H.
  destruct (0 <? _)%nat; [apply Hback|]; exact H.
Qed.

(** X8.  The keys of the schema hold after [insertGame], whether it ends
    or throws, and after [ingestFiles], whatever the files hold: game
    ids, file names, player ids, roster keys, property ids and score keys
    stay pairwise distinct. *)
Theorem schema_keys_kept :
  (forall g s, Terms.keyed s -> Terms.keyed (insertGame g s).2)
  /\ (forall localeCompare source s,
        Terms.keyed s -> Terms.keyed (ingestFiles localeCompare source s).1).
Proof.
  split; [apply DbExtras.insertGame_keyed|]. intros localeCompare source s.
  apply ingestFiles_keeps; [|apply backfill_keyed].
  intros _ _ g s0 _. apply DbExtras.insertGame_keyed.
Qed.

Lemma emptyStore_keyed : Terms.keyed emptyStore.
Proof. repeat split; apply NoDup_nil_2. Qed.

Lemma schema_keys_kept_witness :
  Terms.keyed (ingestFiles String.compare
                 [File "1700000000.lua" (Some Sample.match1); File "notes.txt" None]
                 emptyStore).1.
Proof. apply (proj2 schema_keys_kept), emptyStore_keyed. Defined.

(** X9.  Roster entries and scores refer to games and players of the
    store after [insertGame] of a game whose scores are of its
    participants, and after [ingestFiles], whatever the files hold. *)
Theorem references_kept :
  (forall g s,
      (forall r p v, (r, p, v) ∈ Parser.scores g -> Terms.participant g p) ->
      Terms.referenced s -> Terms.referenced (insertGame g s).2)
  /\ (forall localeCompare source s,
        Terms.referenced s -> Terms.referenced (ingestFiles localeCompare source s).1).
Proof.
  split; [apply insertGame_referenced|]. intros localeCompare source s.
  apply ingestFiles_keeps; [|apply backfill_referenced].
  intros name content g s0 Hparse. apply insertGame_referenced.
  destruct (ParserExtras.parseLuaContent_consistent _ _ _ Hparse) as [known (_ & H & _)].
  intros r p v Hin. apply (H r p v Hin).
Qed.

Lemma emptyStore_referenced : Terms.referenced emptyStore.
Proof. split; intros r Hr; inversion Hr. Qed.

Lemma references_kept_witness :
  Terms.referenced (ingestFiles String.compare
                      [File "1700000000.lua" (Some Sample.match1); File "notes.txt" None]
                      emptyStore).1.
Proof. apply (proj2 references_kept), emptyStore_referenced. Defined.

(** *** The report *)

Lemma insertByName_perm localeCompare f l :
  Permutation (insertByName localeCompare f l) (f :: l).
Proof.
  induction l as [|y l IH]; simpl; [reflexivity|].
  destruct (localeCompare _ _); try reflexivity.
  rewrite IH. apply perm_swap.
Qed.

Lemma collectLuaFiles_perm localeCompare source :
  Permutation (collectLuaFiles localeCompare source)
              (List.filter (fun f => Js.endsWith ".lua" (name f)) source).
Proof.
  unfold collectLuaFiles. induction (List.filter _ source) as [|f l IH]; simpl; [reflexivity|].
  rewrite insertByName_perm, IH. reflexivity.
Qed.

Lemma insertGame_game_rows g s :
  match (insertGame g s).1 with
  | Some _ => length (games (insertGame g s).2) = S (length (games s))
  | None => length (games (insertGame g s).2) = length (games s)
            \/ length (games (insertGame g s).2) = S (length (games s))
  end.
Proof.
  rewrite DbExtras.insertGame_steps.
  destruct (insertGameRow g s) as [[gameId|] s1] eqn:Hrow.
  - apply DbExtras.insertGameRow_done in Hrow as (d & t & _ & _ & _ & _ & ->).
    cbv zeta. destruct (propertyRows _); cbn [fst snd games]; [|right];
      rewrite length_app; simpl; lia.
  - apply DbExtras.insertGameRow_thrown in Hrow as ->. left. reflexivity.
Qed.

Lemma ingestOne_counts st f :
  (ingestedSoFar (ingestOne st f) + errorsSoFar (ingestOne st f)
   = S (ingestedSoFar st + errorsSoFar st))%nat
  /\ (ingestedSoFar st <= ingestedSoFar (ingestOne st f))%nat
  /\ (length (games (db st)) + ingestedSoFar (ingestOne st f)
      <= length (games (db (ingestOne st f))) + ingestedSoFar st)%nat
  /\ (length (games (db (ingestOne st f))) <= S (length (games (db st))))%nat.
Proof.
  unfold ingestOne. destruct (content f) as [text|]; [|cbn; lia].
  destruct (Parser.parseLuaContent _ _) as [g|]; [|cbn; lia].
  pose proof (insertGame_game_rows g (db st)) as H.
  destruct (insertGame g (db st)) as [[u|] s']; cbn in *; lia.
Qed.

Lemma ingest_counts files st :
  (ingestedSoFar (fold_left ingestOne files st) + errorsSoFar (fold_left ingestOne files st)
   = ingestedSoFar st + errorsSoFar st + length files)%nat
  /\ (ingestedSoFar st <= ingestedSoFar (fold_left ingestOne files st))%nat
  /\ (length (games (db st)) + ingestedSoFar (fold_left ingestOne files st)
      <= length (games (db (fold_left ingestOne files st))) + ingestedSoFar st)%nat
  /\ (length (games (db (fold_left ingestOne files st)))
      <= length (games (db st)) + length files)%nat.
Proof.
  revert st. induction files as [|f files IH]; intros st; simpl; [lia|].
  specialize (IH (ingestOne st f)). pose proof (ingestOne_counts st f). lia.
Qed.

(** X10.  The report of [ingestFiles] counts every new file once, as
    ingested or as an error, and gives as total the number of files of
    the source whose name ends in [.lua], which are the files collected,
    whatever the collation.  The table of games grows by at least the
    number of files ingested and at most the number of new files. *)
Theorem ingestFiles_report localeCompare source s :
  Permutation (collectLuaFiles localeCompare source)
              (List.filter (fun f => Js.endsWith ".lua" (name f)) source)
  /\ (ingested (ingestFiles localeCompare source s).2
      + errors (ingestFiles localeCompare source s).2
      = length (newFiles localeCompare source s))%nat
  /\ total (ingestFiles localeCompare source s).2
     = length (List.filter (fun f => Js.endsWith ".lua" (name f)) source)
  /\ (length (games s) + ingested (ingestFiles localeCompare source s).2
      <= length (games (ingestFiles localeCompare source s).1))%nat
  /\ (length (games (ingestFiles localeCompare source s).1)
      <= length (games s) + length (newFiles localeCompare source s))%nat.
Proof.
  split; [apply collectLuaFiles_perm|].
  assert (Htotal : length (collectLuaFiles localeCompare source)
                   = length (List.filter (fun f => Js.endsWith ".lua" (name f)) source)).
  { apply Permutation_length, collectLuaFiles_perm. }
  unfold ingestFiles. cbv zeta.
  destruct (newFiles localeCompare source s) as [|f files]; cbn [fst snd ingested errors total].
  - simpl. repeat split; first [lia | exact Htotal].
  - pose proof (ingest_counts (f :: files) (Progress s 0 0)) as H.
    cbn [db ingestedSoFar errorsSoFar] in H.
    assert (Hg : games (if (0 <? ingestedSoFar (fold_left ingestOne (f :: files)
                                                         (Progress s 0 0)))%nat
                        then backfillUnknownPlayerNames
                               (db (fold_left ingestOne (f :: files) (Progress s 0 0)))
                        else db (fold_left ingestOne (f :: files) (Progress s 0 0)))
                 = games (db (fold_left ingestOne (f :: files) (Progress s 0 0)))).
    { destruct (0 <? _)%nat; reflexivity. }
    rewrite Hg. repeat split; first [lia | exact Htotal].
Qed.

(** *** Names filled in, again *)

Lemma knownName_None rows playerId :
  knownName rows playerId = None
  <-> forall x, x ∈ rows -> gp_player_id x = playerId -> gp_name x = "Unknown".
Proof.
  unfold knownName. split.
  - intros H x Hx Hid.
    destruct (List.find _ rows) as [y|] eqn:Hf; [discriminate|].
    pose proof (find_none _ _ Hf x (proj1 (list_elem_of_In _ _) Hx)) as Hn. simpl in Hn.
    apply andb_false_iff in Hn as [Hn|Hn].
    + apply String.eqb_neq in Hn. contradiction.
    + apply negb_false_iff, String.eqb_eq in Hn. exact Hn.
  - intros H. destruct (List.find _ rows) as [y|] eqn:Hf; [|reflexivity].
    apply find_some in Hf as [Hy Hp]. apply andb_true_iff in Hp as [Hid Hn].
    apply String.eqb_eq in Hid. apply negb_true_iff, String.eqb_neq in Hn.
    exfalso. apply Hn, H; [apply list_elem_of_In, Hy | exact Hid].
Qed.

Lemma knownName_Some rows playerId n :
  knownName rows playerId = Some n ->
  n <> "Unknown" /\ exists x, x ∈ rows /\ gp_player_id x = playerId /\ gp_name x = n.
Proof.
  unfold knownName. destruct (List.find _ rows) as [y|] eqn:Hf; [|discriminate].
  intros [= <-]. apply find_some in Hf as [Hy Hp]. apply andb_true_iff in Hp as [Hid Hn].
  apply String.eqb_eq in Hid. apply negb_true_iff, String.eqb_neq in Hn.
  split; [exact Hn|]. exists y. split; [apply list_elem_of_In, Hy | auto].
Qed.

Lemma backfillRow_name rows r :
  backfillRow rows r = r
  \/ (gp_name r = "Unknown" /\ gp_name (backfillRow rows r) <> "Unknown"
      /\ exists x, x ∈ rows /\ gp_player_id x = gp_player_id r
                   /\ gp_name x = gp_name (backfillRow rows r)).
Proof.
  unfold backfillRow. destruct (String.eqb_spec (gp_name r) "Unknown") as [Hu|Hn]; [|auto].
  destruct (knownName rows (gp_player_id r)) as [n|] eqn:Hk; [|auto].
  right. apply knownName_Some in Hk as [Hn Hx]. auto.
Qed.

Lemma backfill_unknown rows r :
  r ∈ rows -> gp_name (backfillRow rows r) = "Unknown" ->
  knownName rows (gp_player_id r) = None.
Proof.
  intros Hr Hname. unfold backfillRow in Hname.
  destruct (String.eqb_spec (gp_name r) "Unknown") as [Hu|Hn]; [|contradiction].
  destruct (knownName rows (gp_player_id r)) as [n|] eqn:Hk; [|reflexivity].
  apply knownName_Some in Hk as [Hn _]. simpl in Hname. contradiction.
Qed.

Lemma backfill_settled rows r' r2 :
  r' ∈ map (backfillRow rows) rows -> gp_name r' = "Unknown" ->
  r2 ∈ map (backfillRow rows) rows -> gp_player_id r2 = gp_player_id r' ->
  gp_name r2 = "Unknown".
Proof.
  intros Hr' Hname Hr2 Hid.
  apply ListFacts.elem_map in Hr' as (r & -> & Hr).
  apply ListFacts.elem_map in Hr2 as (r0 & -> & Hr0).
  pose proof (backfill_unknown rows r Hr Hname) as Hnone.
  destruct (backfillRow_key rows r) as (_ & Hp & _).
  destruct (backfillRow_key rows r0) as (_ & Hp0 & _).
  rewrite Hp, Hp0 in Hid.
  pose proof (proj1 (knownName_None rows _) Hnone r0 Hr0 Hid) as Hu.
  unfold backfillRow. rewrite Hu, Hid, Hnone. exact Hu.
Qed.

(** X11.  [backfillUnknownPlayerNames] changes names of roster entries
    only, and only of entries named [Unknown], which take a name that an
    entry of the same player has; afterwards no player has both an entry
    named [Unknown] and an entry with a name, and a second run changes
    nothing. *)
Theorem backfill_names s :
  Forall2 (fun r r' =>
             gp_game_id r' = gp_game_id r /\ gp_player_id r' = gp_player_id r
             /\ gp_slot r' = gp_slot r /\ gp_quitter r' = gp_quitter r
             /\ (gp_name r' = gp_name r
                 \/ (gp_name r = "Unknown" /\ gp_name r' <> "Unknown"
                     /\ exists x, x ∈ game_players s
                                  /\ gp_player_id x = gp_player_id r
                                  /\ gp_name x = gp_name r')))
          (game_players s) (game_players (backfillUnknownPlayerNames s))
  /\ (forall r r', r ∈ game_players (backfillUnknownPlayerNames s) ->
                   r' ∈ game_players (backfillUnknownPlayerNames s) ->
                   gp_player_id r' = gp_player_id r ->
                   gp_name r = "Unknown" -> gp_name r' = "Unknown")
  /\ backfillUnknownPlayerNames (backfillUnknownPlayerNames s)
     = backfillUnknownPlayerNames s
  /\ games (backfillUnknownPlayerNames s) = games s
  /\ players (backfillUnknownPlayerNames s) = players s
  /\ properties (backfillUnknownPlayerNames s) = properties s
  /\ scores (backfillUnknownPlayerNames s) = scores s.
Proof.
  unfold backfillUnknownPlayerNames. cbn [games games_seq players game_players properties scores].
  set (rows := game_players s).
  assert (Hsettled : forall r r', r ∈ map (backfillRow rows) rows ->
                                  r' ∈ map (backfillRow rows) rows ->
                                  gp_player_id r' = gp_player_id r ->
                                  gp_name r = "Unknown" -> gp_name r' = "Unknown").
  { intros r r' Hr Hr' Hid Hname. exact (backfill_settled rows r r' Hr Hname Hr' Hid). }
  split; [|split; [exact Hsettled | split; [|auto]]].
  - assert (H : forall l, (forall x, x ∈ l -> x ∈ l) ->
                Forall2 (fun r r' =>
                  gp_game_id r' = gp_game_id r /\ gp_player_id r' = gp_player_id r
                  /\ gp_slot r' = gp_slot r /\ gp_quitter r' = gp_quitter r
                  /\ (gp_name r' = gp_name r
                      \/ (gp_name r = "Unknown" /\ gp_name r' <> "Unknown"
                          /\ exists x, x ∈ rows /\ gp_player_id x = gp_player_id r
                                       /\ gp_name x = gp_name r')))
                  l (map (backfillRow rows) l)).
    { induction l as [|r l IH]; intros _; simpl; constructor; [|apply IH; auto].
      destruct (backfillRow_key rows r) as (H1 & H2 & H3 & H4).
      repeat (split; [assumption|]).
      destruct (backfillRow_name rows r) as [->|H]; auto. }
    apply H. auto.
  - f_equal. etransitivity; [|apply map_id].
    apply map_ext_in. intros r Hr. apply list_elem_of_In in Hr.
    destruct (String.eqb_spec (gp_name r) "Unknown") as [Hu|Hn].
    + assert (Hnone : knownName (map (backfillRow rows) rows) (gp_player_id r) = None).
      { apply knownName_None. intros x Hx Hid. exact (Hsettled r x Hr Hx Hid Hu). }
      generalize dependent (map (backfillRow rows) rows). intros l _ _ Hnone.
      unfold backfillRow. rewrite Hnone. destruct (String.eqb _ _); reflexivity.
    + unfold backfillRow. apply String.eqb_neq in Hn. rewrite Hn. reflexivity.
Qed.

Lemma backfill_names_witness :
  gp_name (GamePlayerRow 1 "bot_zola" (-1) "Unknown" false) = "Unknown".
Proof.
  apply (proj1 (proj2 (backfill_names
                         (Store [] 0 [] [GamePlayerRow 1 "bot_zola" (-1) "Unknown" false]
                                [] [])))
         (GamePlayerRow 1 "bot_zola" (-1) "Unknown" false)
         (GamePlayerRow 1 "bot_zola" (-1) "Unknown" false));
    first [left | reflexivity].
Defined.

End IngestExtras.

(** ** Further properties of the queries *)

Module QueryExtras.

Import Db.

(** *** All matching games *)

(** X12.  With a requested property and no positive [lastNGames],
    [getGames] returns each game that matches the filters once, in
    ascending order of time, with the columns of its row. *)
Theorem getGames_without_limit p s :
  propertyIds p <> [] ->
  (forall n, lastNGames p = Some n -> n <= 0) ->
  map id (getGames p s) ≡ₚ map g_id (Spec.matching p s)
  /\ StronglySorted (fun a b => timestamp a <= timestamp b) (getGames p s)
  /\ forall r, r ∈ getGames p s ->
       exists g, g ∈ Spec.matching p s
                 /\ id r = g_id g /\ timestamp r = g_timestamp g
                 /\ missionId r = g_mission_id g /\ missionName_ r = g_mission_name g
                 /\ difficulty r = g_difficulty g /\ modifier r = g_modifier g
                 /\ result r = g_result g /\ durationSeconds r = g_duration_seconds g.
Proof.
  intros Hprops Hn.
  assert (Hsel : selectGames p s = orderAsc (Spec.matching p s)).
  { unfold selectGames. destruct (lastNGames p) as [n|]; [|reflexivity].
    specialize (Hn n eq_refl). destruct (Z.ltb_spec 0 n); [lia | reflexivity]. }
  unfold getGames. destruct (propertyIds p) as [|prop props]; [contradiction|].
  cbv zeta. rewrite Hsel.
  match goal with |- context [map ?f (orderAsc _)] => set (toResult := f) end.
  split; [|split].
  - rewrite map_map. change (fun x => id (toResult x)) with g_id.
    apply Permutation_map. apply (DbFacts.orderBy_perm ascending).
  - apply (DbFacts.StronglySorted_map Spec.earlier); [intros x y Hxy; exact Hxy|].
    apply DbFacts.orderAsc_sorted.
  - intros r Hr. apply ListFacts.elem_map in Hr as (g & -> & Hg). exists g.
    split; [|repeat split].
    unfold orderAsc in Hg. rewrite (DbFacts.orderBy_perm ascending) in Hg. exact Hg.
Qed.

Lemma getGames_without_limit_witness :
  map id (getGames (Params ["dmg"] "won" [] [] [] None None (Some 0)) Sample.store3)
  ≡ₚ map g_id (Spec.matching (Params ["dmg"] "won" [] [] [] None None (Some 0))
                             Sample.store3).
Proof.
  apply (getGames_without_limit (Params ["dmg"] "won" [] [] [] None None (Some 0))
                                Sample.store3).
  - discriminate.
  - intros n [= <-]. lia.
Defined.

(** *** Grouping *)

Lemma noteScore_at acc row gameId playerId propertyId :
  Terms.scoreAt (noteScore acc row) gameId playerId propertyId
  = if bool_decide (Terms.scoreKey row = (gameId, playerId, propertyId))
    then Some (s_value row)
    else Terms.scoreAt acc gameId playerId propertyId.
Proof.
  unfold Terms.scoreAt, noteScore, Terms.scoreKey. cbv zeta.
  rewrite lookup_insert. destruct (decide (s_game_id row = gameId)) as [<-|Hg].
  - cbn [from_option Datatypes.id]. rewrite lookup_insert.
    destruct (decide (s_player_id row = playerId)) as [<-|Hp].
    + cbn [from_option Datatypes.id]. rewrite lookup_insert.
      destruct (decide (s_property_id row = propertyId)) as [<-|Hr].
      * rewrite bool_decide_eq_true_2 by reflexivity. reflexivity.
      * rewrite bool_decide_eq_false_2 by congruence. reflexivity.
    + rewrite bool_decide_eq_false_2 by congruence. reflexivity.
  - rewrite bool_decide_eq_false_2 by congruence. reflexivity.
Qed.

Lemma notePlayer_at acc row gameId playerId :
  Terms.nameAt (notePlayer acc row) gameId playerId
  = if bool_decide (Terms.gpKey row = (gameId, playerId))
    then Some (gp_name row)
    else Terms.nameAt acc gameId playerId.
Proof.
  unfold Terms.nameAt, notePlayer, Terms.gpKey.
  rewrite lookup_insert. destruct (decide (gp_game_id row = gameId)) as [<-|Hg].
  - cbn [from_option Datatypes.id]. rewrite lookup_insert.
    destruct (decide (gp_player_id row = playerId)) as [<-|Hp].
    + rewrite bool_decide_eq_true_2 by reflexivity. reflexivity.
    + rewrite bool_decide_eq_false_2 by congruence. reflexivity.
  - rewrite bool_decide_eq_false_2 by congruence. reflexivity.
Qed.

Lemma noteScore_at_key acc row (k : Z * string * string) :
  Terms.scoreAt (noteScore acc row) k.1.1 k.1.2 k.2
  = if bool_decide (Terms.scoreKey row = k) then Some (s_value row)
    else Terms.scoreAt acc k.1.1 k.1.2 k.2.
Proof. destruct k as [[a b] c]. apply noteScore_at. Qed.

Lemma notePlayer_at_key acc row (k : Z * string) :
  Terms.nameAt (notePlayer acc row) k.1 k.2
  = if bool_decide (Terms.gpKey row = k) then Some (gp_name row)
    else Terms.nameAt acc k.1 k.2.
Proof. destruct k as [a b]. apply notePlayer_at. Qed.

Lemma noteQuitter_at acc row gameId playerId :
  Terms.quitterAt (noteQuitter acc row) gameId playerId
  <-> (gp_quitter row = true /\ Terms.gpKey row = (gameId, playerId))
      \/ Terms.quitterAt acc gameId playerId.
Proof.
  unfold Terms.quitterAt, noteQuitter, Terms.gpKey. destruct (gp_quitter row).
  - rewrite lookup_insert. destruct (decide (gp_game_id row = gameId)) as [<-|Hg].
    + cbn [from_option Datatypes.id]. rewrite elem_of_union, elem_of_singleton. split.
      * intros [->|H]; auto.
      * intros [[_ [= ->]]|H]; auto.
    + split; [auto|]. intros [[_ [= H _]]|H]; [contradiction | exact H].
  - split; [auto|]. intros [[H _]|H]; [discriminate | exact H].
Qed.

(** Grouping rows whose keys are distinct: a key has the value of its
    row. *)
Section Grouping.

Context {Row Key Acc Val : Type} `{EqDecision Key}.
Variable key : Row -> Key.
Variable val : Row -> Val.
Variable note : Acc -> Row -> Acc.
Variable at_ : Acc -> Key -> option Val.
Hypothesis note_at : forall acc row k,
    at_ (note acc row) k = if bool_decide (key row = k) then Some (val row) else at_ acc k.

Lemma grouped rows acc k :
  NoDup (map key rows) ->
  at_ (fold_left note rows acc) k
  = match List.find (fun y => bool_decide (key y = k)) rows with
    | Some row => Some (val row)
    | None => at_ acc k
    end.
Proof using note_at.
  revert acc. induction rows as [|r rows IH]; intros acc Hnd; simpl; [reflexivity|].
  simpl in Hnd. apply NoDup_cons in Hnd as [Hr Hnd]. rewrite IH by exact Hnd.
  rewrite note_at. destruct (bool_decide (key r = k)) eqn:Hk; [|reflexivity].
  apply bool_decide_eq_true in Hk.
  destruct (List.find _ rows) as [row|] eqn:Hf; [|reflexivity].
  apply find_some in Hf as [Hin Hrow]. apply bool_decide_eq_true in Hrow.
  exfalso. apply Hr. rewrite Hk, <- Hrow. apply ListFacts.elem_map.
  exists row. split; [reflexivity | apply list_elem_of_In, Hin].
Qed.

Lemma grouped_elem rows acc k v :
  NoDup (map key rows) ->
  (forall k', at_ acc k' = None) ->
  at_ (fold_left note rows acc) k = Some v
  <-> exists row, row ∈ rows /\ key row = k /\ val row = v.
Proof using note_at.
  intros Hnd Hacc. rewrite grouped by exact Hnd. split.
  - destruct (List.find _ rows) as [row|] eqn:Hf; [|rewrite Hacc; discriminate].
    intros [= <-]. apply find_some in Hf as [Hin Hrow]. apply bool_decide_eq_true in Hrow.
    exists row. split; [apply list_elem_of_In, Hin | auto].
  - intros (row & Hin & Hk & Hv).
    destruct (List.find _ rows) as [row'|] eqn:Hf.
    + apply find_some in Hf as [Hin' Hrow']. apply bool_decide_eq_true in Hrow'.
      apply list_elem_of_In in Hin'.
      assert (row' = row) as ->; [|congruence].
      apply (ListFacts.NoDup_map_inj key rows); auto. congruence.
    + exfalso. pose proof (find_none _ _ Hf row (proj1 (list_elem_of_In _ _) Hin)) as Hn.
      simpl in Hn. apply bool_decide_eq_false in Hn. contradiction.
Qed.

Lemma NoDup_map_lfilter (f : Row -> bool) rows :
  NoDup (map key rows) -> NoDup (map key (List.filter f rows)).
Proof.
  induction rows as [|r rows IH]; simpl; [auto|]. intros Hnd.
  apply NoDup_cons in Hnd as [Hr Hnd]. destruct (f r); simpl; [|auto].
  apply NoDup_cons. split; [|auto]. intros Hin. apply Hr.
  apply ListFacts.elem_map in Hin as (x & Hx & Hin).
  apply ListFacts.elem_lfilter in Hin as [Hin _]. apply ListFacts.elem_map. eauto.
Qed.

End Grouping.

Lemma quitters_grouped rows acc gameId playerId :
  Terms.quitterAt (fold_left noteQuitter rows acc) gameId playerId
  <-> (exists row, row ∈ rows /\ gp_quitter row = true
                   /\ Terms.gpKey row = (gameId, playerId))
      \/ Terms.quitterAt acc gameId playerId.
Proof.
  revert acc. induction rows as [|r rows IH]; intros acc; simpl.
  - split; [auto|]. intros [(row & H & _)|H]; [inversion H | exact H].
  - rewrite IH, noteQuitter_at. split.
    + intros [(row & Hin & Hq & Hk)|[[Hq Hk]|H]]; auto.
      * left. exists row. split; [right; exact Hin | auto].
      * left. exists r. split; [left | auto].
    + intros [(row & Hin & Hq & Hk)|H]; auto.
      apply elem_of_cons in Hin as [->|Hin]; auto. left. eauto.
Qed.

Lemma getGames_elem p s r :
  r ∈ getGames p s ->
  exists g prop props,
    propertyIds p = prop :: props /\ g ∈ selectGames p s /\ id r = g_id g
    /\ players_ r
       = default ∅ (fold_left notePlayer
                      (List.filter (fun x => bool_decide (gp_game_id x
                                                          ∈ map g_id (selectGames p s)))
                                   (game_players s)) ∅ !! g_id g)
    /\ quitters r
       = default ∅ (fold_left noteQuitter
                      (List.filter (fun x => bool_decide (gp_game_id x
                                                          ∈ map g_id (selectGames p s)))
                                   (game_players s)) ∅ !! g_id g)
    /\ scores_ r
       = default ∅ (fold_left noteScore
                      (List.filter (fun x => bool_decide (s_game_id x
                                                          ∈ map g_id (selectGames p s))
                                             && bool_decide (s_property_id x ∈ propertyIds p))
                                   (scores s)) ∅ !! g_id g).
Proof.
  unfold getGames. destruct (propertyIds p) as [|prop props] eqn:Hp; [intros H; inversion H|].
  cbv zeta. intros Hr. apply ListFacts.elem_map in Hr as (g & -> & Hg).
  exists g, prop, props. repeat split; assumption.
Qed.

(** The scores of a returned game are those of the table. *)
Lemma getGames_scores_lookup p s r :
  NoDup (map Terms.scoreKey (scores s)) ->
  r ∈ getGames p s ->
  forall playerId propertyId v,
    (exists ofPlayer, scores_ r !! playerId = Some ofPlayer
                      /\ ofPlayer !! propertyId = Some v)
    <-> ScoreRow (id r) playerId propertyId v ∈ scores s
        /\ propertyId ∈ propertyIds p.
Proof.
  intros Hnd Hr playerId propertyId v.
  destruct (getGames_elem p s r Hr) as (g & prop & props & Hp & Hg & -> & _ & _ & ->).
  set (rows := List.filter _ (scores s)).
  transitivity (Terms.scoreAt (fold_left noteScore rows ∅) (g_id g) playerId propertyId
                = Some v).
  { unfold Terms.scoreAt. split.
    - intros (ofPlayer & -> & Hv). exact Hv.
    - intros Hv. destruct (default ∅ _ !! playerId) as [ofPlayer|]; [eauto|].
      simpl in Hv. rewrite lookup_empty in Hv. discriminate Hv. }
  pose proof (grouped_elem Terms.scoreKey s_value noteScore
                (fun acc k => Terms.scoreAt acc k.1.1 k.1.2 k.2)) as Hgrouped.
  specialize (Hgrouped noteScore_at_key rows ∅
                       (g_id g, playerId, propertyId) v).
  cbn [fst snd] in Hgrouped. rewrite Hgrouped; clear Hgrouped.
  - split.
    + intros (row & Hin & Hk & Hv). apply ListFacts.elem_lfilter in Hin as [Hin Hf].
      apply andb_true_iff in Hf as [_ Hf]. apply bool_decide_eq_true in Hf.
      destruct row as [a b c d]. unfold Terms.scoreKey in Hk. simpl in *.
      injection Hk as -> -> ->. subst d. auto.
    + intros [Hin Hreq]. exists (ScoreRow (g_id g) playerId propertyId v).
      split; [|auto]. apply ListFacts.elem_lfilter. split; [exact Hin|].
      cbn [s_game_id s_property_id]. apply andb_true_iff.
      split; apply bool_decide_eq_true; [|exact Hreq].
      apply ListFacts.elem_map. eauto.
  - apply NoDup_map_lfilter, Hnd.
  - intros k. unfold Terms.scoreAt. rewrite lookup_empty. simpl. rewrite lookup_empty.
    simpl. apply lookup_empty.
Qed.

(** X13.  When the keys of the scores are distinct and no player or
    property id of the store is a name every object inherits, a
    returned game has a score for a player and a property exactly when
    the table has one for the game, the player and the property and the
    property is requested, and the value is that of the table.  The
    scores are grouped in object literals, in which a score under an
    inherited name is not kept as a key. *)
Theorem getGames_scores_exact p s r :
  Terms.ordinaryIds s = true ->
  NoDup (map Terms.scoreKey (scores s)) ->
  r ∈ getGames p s ->
  forall playerId propertyId v,
    (exists ofPlayer, scores_ r !! playerId = Some ofPlayer
                      /\ ofPlayer !! propertyId = Some v)
    <-> ScoreRow (id r) playerId propertyId v ∈ scores s
        /\ propertyId ∈ propertyIds p.
Proof. intros _. exact (getGames_scores_lookup p s r). Qed.

(** X14.  When the keys of the roster are distinct and no player or
    property id of the store is a name every object inherits, a
    returned game names a player exactly as the roster entry of the game
    and the player does, and lists as quitters the players whose entry
    is flagged.  The names are grouped in object literals, in which the
    name of a player with the id [__proto__] is not kept. *)
Theorem getGames_roster_exact p s r :
  Terms.ordinaryIds s = true ->
  NoDup (map Terms.gpKey (game_players s)) ->
  r ∈ getGames p s ->
  (forall playerId n,
      players_ r !! playerId = Some n
      <-> exists slot q, GamePlayerRow (id r) playerId slot n q ∈ game_players s)
  /\ (forall playerId,
        playerId ∈ quitters r
        <-> exists slot n, GamePlayerRow (id r) playerId slot n true ∈ game_players s).
Proof.
  intros _ Hnd Hr.
  destruct (getGames_elem p s r Hr) as (g & prop & props & Hp & Hg & -> & -> & -> & _).
  set (rows := List.filter _ (game_players s)).
  assert (Hrows : forall row, gp_game_id row = g_id g -> row ∈ rows <-> row ∈ game_players s).
  { intros row Hid. unfold rows. rewrite ListFacts.elem_lfilter, bool_decide_eq_true.
    split; [tauto|]. intros Hin. split; [exact Hin|]. rewrite Hid.
    apply ListFacts.elem_map. eauto. }
  split.
  - intros playerId n.
    pose proof (grouped_elem Terms.gpKey gp_name notePlayer
                  (fun acc k => Terms.nameAt acc k.1 k.2)) as Hgrouped.
    specialize (Hgrouped notePlayer_at_key rows ∅
                         (g_id g, playerId) n).
    cbn [fst snd] in Hgrouped. unfold Terms.nameAt in Hgrouped at 1.
    rewrite Hgrouped; clear Hgrouped.
    + split.
      * intros (row & Hin & Hk & Hv). destruct row as [a b c d e].
        unfold Terms.gpKey in Hk. simpl in *. injection Hk as -> ->. subst d.
        exists c, e. apply Hrows in Hin; auto.
      * intros (slot & q & Hin). exists (GamePlayerRow (g_id g) playerId slot n q).
        split; [apply Hrows; auto | auto].
    + apply NoDup_map_lfilter, Hnd.
    + intros k. unfold Terms.nameAt. rewrite lookup_empty. apply lookup_empty.
  - intros playerId.
    pose proof (quitters_grouped rows ∅ (g_id g) playerId) as Hq.
    unfold Terms.quitterAt in Hq at 1. rewrite Hq; clear Hq. split.
    + intros [(row & Hin & Hflag & Hk)|H].
      * destruct row as [a b c d e]. unfold Terms.gpKey in Hk. simpl in *.
        injection Hk as -> ->. subst e. exists c, d. apply Hrows in Hin; auto.
      * unfold Terms.quitterAt in H. rewrite lookup_empty in H. simpl in H.
        apply elem_of_empty in H. contradiction.
    + intros (slot & n & Hin). left. exists (GamePlayerRow (g_id g) playerId slot n true).
      split; [apply Hrows; auto | auto].
Qed.

Lemma getGames_scores_exact_witness :
  exists r, r ∈ getGames (Sample.lastTwo ["dmg"]) Sample.store3
    /\ forall playerId propertyId v,
         (exists ofPlayer, scores_ r !! playerId = Some ofPlayer
                           /\ ofPlayer !! propertyId = Some v)
         <-> ScoreRow (id r) playerId propertyId v ∈ scores Sample.store3
             /\ propertyId ∈ propertyIds (Sample.lastTwo ["dmg"]).
Proof.
  destruct (getGames (Sample.lastTwo ["dmg"]) Sample.store3) as [|r l] eqn:Hres;
    [vm_compute in Hres; discriminate Hres|].
  exists r. split; [left|].
  apply (getGames_scores_exact (Sample.lastTwo ["dmg"]) Sample.store3 r).
  - reflexivity.
  - exact (bool_decide_unpack (NoDup (map Terms.scoreKey (scores Sample.store3))) I).
  - rewrite Hres. left.
Defined.

Lemma getGames_roster_exact_witness :
  exists r, r ∈ getGames (Sample.lastTwo ["dmg"]) Sample.store3
    /\ forall playerId n,
         players_ r !! playerId = Some n
         <-> exists slot q, GamePlayerRow (id r) playerId slot n q
                              ∈ game_players Sample.store3.
Proof.
  destruct (getGames (Sample.lastTwo ["dmg"]) Sample.store3) as [|r l] eqn:Hres;
    [vm_compute in Hres; discriminate Hres|].
  exists r. split; [left|].
  apply (getGames_roster_exact (Sample.lastTwo ["dmg"]) Sample.store3 r).
  - reflexivity.
  - exact (bool_decide_unpack (NoDup (map Terms.gpKey (game_players Sample.store3))) I).
  - rewrite Hres. left.
Defined.

(** *** From the file to the query *)

(** X15.  A game that [insertGame] has stored comes back from
    [getGames] with the scores of its file: when the keys of the store
    hold, its scores refer to games there are and, the game stored, no
    player or property id of the store is a name every object inherits,
    the game returned under the new id has a score for a player and a
    property exactly when the property is requested and the file gives
    the pair a score, and the value is the first the file gives. *)
Theorem stored_scores_come_back g s u s' p r :
  insertGame g s = (Some u, s') ->
  Terms.ordinaryIds s' = true ->
  Terms.keyed s ->
  Terms.referenced s ->
  r ∈ getGames p s' ->
  id r = nextGameId s ->
  forall playerId propertyId v,
    (exists ofPlayer, scores_ r !! playerId = Some ofPlayer
                      /\ ofPlayer !! propertyId = Some v)
    <-> Terms.firstScore propertyId playerId (Parser.scores g) = Some v
        /\ propertyId ∈ propertyIds p.
Proof.
  intros Hdone _ Hkeyed Href Hr Hid playerId propertyId v.
  assert (Hkeyed' : Terms.keyed s').
  { pose proof (DbExtras.insertGame_keyed g s Hkeyed) as H. rewrite Hdone in H. exact H. }
  destruct Hkeyed' as (_ & _ & _ & _ & _ & Hscores).
  rewrite (getGames_scores_lookup p s' r Hscores Hr), Hid.
  rewrite (DbExtras.insertGame_scores g s u s' Hdone Href). reflexivity.
Qed.

Lemma stored_scores_come_back_witness :
  exists r, r ∈ getGames (Params ["dmg"] "all" [] [] [] None None None) Terms.oneProperty
    /\ ((exists ofPlayer,
           scores_ r !! "11111111-1111-1111-1111-111111111111" = Some ofPlayer
           /\ ofPlayer !! "dmg" = Some (Js.Decimal false 250 0))
        <-> Terms.firstScore "dmg" "11111111-1111-1111-1111-111111111111"
                             (Parser.scores Terms.game1)
            = Some (Js.Decimal false 250 0)
            /\ "dmg" ∈ propertyIds (Params ["dmg"] "all" [] [] [] None None None)).
Proof.
  destruct (getGames (Params ["dmg"] "all" [] [] [] None None None) Terms.oneProperty)
    as [|r l] eqn:Hres; [vm_compute in Hres; discriminate Hres|].
  exists r. split; [left|].
  apply (stored_scores_come_back Terms.game1 emptyStore tt Terms.oneProperty
           (Params ["dmg"] "all" [] [] [] None None None) r).
  - vm_compute. reflexivity.
  - vm_compute. reflexivity.
  - repeat split; apply NoDup_nil_2.
  - split; intros x Hx; inversion Hx.
  - rewrite Hres. left.
  - vm_compute in Hres. injection Hres as <- _. reflexivity.
Defined.

End QueryExtras.

(** ** Properties of the settings *)

Module SettingsExtras.

Import Settings.

(** *** Application settings *)

Lemma get_snoc {V} k k' (v : V) o :
  Obj.get k (o ++ [(k', v)])
  = match Obj.get k o with
    | Some x => Some x
    | None => if String.eqb k k' then Some v else None
    end.
Proof.
  induction o as [|[k0 v0] o IH]; simpl; [reflexivity|].
  destruct (String.eqb k k0); [reflexivity | exact IH].
Qed.

(** X16.  [getAppSetting] returns what [saveAppSetting] stored last
    under the key, a setting saved under one key leaves the others as
    they were and each key once, and after [clearAppSettings] every key
    reads as [null]; none of them touches the player settings. *)
Theorem app_settings_round_trip :
  (forall key value t, getAppSetting key (saveAppSetting key value t) = value)
  /\ (forall key key' value t,
        key' <> key ->
        getAppSetting key' (saveAppSetting key value t) = getAppSetting key' t)
  /\ (forall key value t,
        NoDup (Obj.keys (app_settings t)) ->
        NoDup (Obj.keys (app_settings (saveAppSetting key value t))))
  /\ (forall key t, getAppSetting key (clearAppSettings t) = None)
  /\ (forall key value t,
        player_settings (saveAppSetting key value t) = player_settings t
        /\ player_settings (clearAppSettings t) = player_settings t).
Proof.
  repeat split.
  - intros key value t. unfold getAppSetting, saveAppSetting, Obj.has. cbn [app_settings].
    destruct (Obj.get key (app_settings t)) as [v0|] eqn:Hget.
    + rewrite ObjFacts.get_update, String.eqb_refl, Hget. reflexivity.
    + rewrite get_snoc, Hget, String.eqb_refl. reflexivity.
  - intros key key' value t Hne. unfold getAppSetting, saveAppSetting, Obj.has.
    cbn [app_settings]. apply String.eqb_neq in Hne.
    destruct (Obj.get key (app_settings t)) as [v0|] eqn:Hget.
    + rewrite ObjFacts.get_update, Hne. reflexivity.
    + rewrite get_snoc, Hne. destruct (Obj.get key' (app_settings t)); reflexivity.
  - intros key value t Hnd. unfold saveAppSetting, Obj.has. cbn [app_settings].
    destruct (Obj.get key (app_settings t)) as [v0|] eqn:Hget.
    + rewrite ObjFacts.keys_update. exact Hnd.
    + unfold Obj.keys. rewrite map_app. apply NoDup_app. repeat split; [exact Hnd| |].
      * intros x Hx Hx'. apply list_elem_of_singleton in Hx'. simpl in Hx'. subst x.
        apply ObjFacts.get_None_keys in Hget. contradiction.
      * apply NoDup_singleton.
Qed.

Lemma app_settings_round_trip_witness :
  getAppSetting "theme" (saveAppSetting "lang" (Some "en") (SettingsOf [] [("theme", None)]))
  = getAppSetting "theme" (SettingsOf [] [("theme", None)]).
Proof.
  apply (proj1 (proj2 app_settings_round_trip)). discriminate.
Defined.

(** *** The main player *)

Lemma hasPlayer_elem playerId rows :
  hasPlayer playerId rows = true <-> exists r, r ∈ rows /\ ps_player_id r = playerId.
Proof.
  unfold hasPlayer. rewrite existsb_exists. split.
  - intros (r & Hin & Hr). apply String.eqb_eq in Hr. exists r.
    split; [apply list_elem_of_In, Hin | exact Hr].
  - intros (r & Hin & Hr). exists r. split; [apply list_elem_of_In, Hin|].
    apply String.eqb_eq, Hr.
Qed.

Lemma clearMain_columns r :
  Terms.appearance (clearMain r) = Terms.appearance r /\ ps_is_main (clearMain r) = false.
Proof. unfold clearMain. destruct (ps_is_main r) eqn:H; auto. Qed.

Lemma saveMainPlayer_main playerId t r :
  r ∈ player_settings (saveMainPlayer playerId t) ->
  ps_is_main r = true <-> ps_player_id r = playerId.
Proof.
  unfold saveMainPlayer. cbv zeta.
  destruct (hasPlayer playerId (map clearMain (player_settings t))) eqn:Hhas;
    cbn [player_settings].
  - intros Hin. apply ListFacts.elem_map in Hin as (r0 & -> & Hin).
    apply ListFacts.elem_map in Hin as (r1 & -> & _).
    destruct (clearMain_columns r1) as [_ Hflag].
    destruct (String.eqb_spec (ps_player_id (clearMain r1)) playerId) as [He|Hne].
    + cbn. tauto.
    + rewrite Hflag. split; [discriminate | contradiction].
  - intros Hin. apply elem_of_app in Hin as [Hin|Hin].
    + apply ListFacts.elem_map in Hin as (r1 & -> & Hin).
      destruct (clearMain_columns r1) as [Hcol Hflag]. rewrite Hflag.
      split; [discriminate|]. intros He. exfalso.
      assert (Hyes : hasPlayer playerId (map clearMain (player_settings t)) = true).
      { apply hasPlayer_elem. exists (clearMain r1). split; [|exact He].
        apply ListFacts.elem_map. eauto. }
      congruence.
    + apply list_elem_of_singleton in Hin. subst r. cbn. tauto.
Qed.

Lemma hasPlayer_map (f : playerSettingsRow -> playerSettingsRow) playerId rows :
  (forall r, ps_player_id (f r) = ps_player_id r) ->
  hasPlayer playerId (map f rows) = hasPlayer playerId rows.
Proof.
  intros Hf. unfold hasPlayer. induction rows as [|r rows IH]; simpl; [reflexivity|].
  rewrite Hf, IH. reflexivity.
Qed.

Lemma clearMain_id r : ps_player_id (clearMain r) = ps_player_id r.
Proof. unfold clearMain. destruct (ps_is_main r); reflexivity. Qed.

(** X17.  After [saveMainPlayer] the rows of the player, of which there
    is one at least, are the rows that carry the main flag; the names and
    colours that were stored are kept, in their order, and a player
    without a row gets one without name and colour.  The application
    settings are left alone. *)
Theorem saveMainPlayer_single_main playerId t :
  (forall r, r ∈ player_settings (saveMainPlayer playerId t) ->
             ps_is_main r = true <-> ps_player_id r = playerId)
  /\ hasPlayer playerId (player_settings (saveMainPlayer playerId t)) = true
  /\ map Terms.appearance (player_settings (saveMainPlayer playerId t))
     = map Terms.appearance (player_settings t)
       ++ (if hasPlayer playerId (player_settings t) then []
           else [(playerId, None, None)])
  /\ app_settings (saveMainPlayer playerId t) = app_settings t.
Proof.
  split; [intros r; apply saveMainPlayer_main|].
  unfold saveMainPlayer. cbv zeta.
  rewrite (hasPlayer_map clearMain) by apply clearMain_id.
  destruct (hasPlayer playerId (player_settings t)) eqn:Hhas;
    cbn [player_settings app_settings].
  - split; [|split; [|reflexivity]].
    + rewrite hasPlayer_map; [|intros r; destruct (String.eqb _ _); reflexivity].
      rewrite (hasPlayer_map clearMain) by apply clearMain_id. exact Hhas.
    + rewrite app_nil_r, !map_map. apply map_ext. intros r.
      destruct (clearMain_columns r) as [Hcol _]. rewrite <- Hcol.
      destruct (String.eqb _ _); reflexivity.
  - split; [|split; [|reflexivity]].
    + apply hasPlayer_elem. exists (PlayerSettingsRow playerId None None true).
      split; [|reflexivity]. apply elem_of_app. right. left.
    + rewrite map_app, map_map. f_equal. apply map_ext. intros r.
      apply clearMain_columns.
Qed.

(** *** Names and colours *)

Lemma saved_cleared playerId customName color t :
  falsy customName && falsy color = true ->
  player_settings (savePlayerSettingsDB playerId customName color t)
  = List.filter (fun r => negb (String.eqb (ps_player_id r) playerId)) (player_settings t).
Proof. intros H. unfold savePlayerSettingsDB. rewrite H. reflexivity. Qed.

Lemma saved_written playerId customName color t :
  falsy customName && falsy color = false ->
  player_settings (savePlayerSettingsDB playerId customName color t)
  = if hasPlayer playerId (player_settings t)
    then map (fun r => if String.eqb (ps_player_id r) playerId
                       then PlayerSettingsRow (ps_player_id r) customName color (ps_is_main r)
                       else r)
             (player_settings t)
    else player_settings t ++ [PlayerSettingsRow playerId customName color false].
Proof.
  intros H. unfold savePlayerSettingsDB. rewrite H.
  destruct (hasPlayer _ _); reflexivity.
Qed.

Lemma saved_row playerId customName color t r :
  falsy customName && falsy color = false ->
  r ∈ player_settings (savePlayerSettingsDB playerId customName color t) ->
  (ps_player_id r = playerId /\ ps_custom_name r = customName /\ ps_color r = color)
  \/ (ps_player_id r <> playerId /\ r ∈ player_settings t).
Proof.
  intros H. rewrite saved_written by exact H.
  destruct (hasPlayer playerId (player_settings t)) eqn:Hhas.
  - intros Hin. apply ListFacts.elem_map in Hin as (r0 & -> & Hin).
    destruct (String.eqb_spec (ps_player_id r0) playerId) as [He|Hne]; [left|right]; auto.
  - intros Hin. apply elem_of_app in Hin as [Hin|Hin].
    + destruct (String.eqb_spec (ps_player_id r) playerId) as [He|Hne]; [|right; auto].
      assert (Hyes : hasPlayer playerId (player_settings t) = true)
        by (apply hasPlayer_elem; eauto).
      congruence.
    + apply list_elem_of_singleton in Hin. subst r. left. auto.
Qed.

Lemma saved_has playerId customName color t :
  falsy customName && falsy color = false ->
  hasPlayer playerId (player_settings (savePlayerSettingsDB playerId customName color t))
  = true.
Proof.
  intros H. rewrite saved_written by exact H.
  destruct (hasPlayer playerId (player_settings t)) eqn:Hhas.
  - rewrite hasPlayer_map; [exact Hhas|]. intros r. destruct (String.eqb _ _); reflexivity.
  - apply hasPlayer_elem. exists (PlayerSettingsRow playerId customName color false).
    split; [|reflexivity]. apply elem_of_app. right. left.
Qed.

Lemma saveMainPlayer_app playerId t : app_settings (saveMainPlayer playerId t) = app_settings t.
Proof. unfold saveMainPlayer. cbv zeta. destruct (hasPlayer _ _); reflexivity. Qed.

(** X18.  [savePlayerSettingsDB] without name and colour removes the
    rows of the player and no other row; with a name or a colour the
    player has a row afterwards, every row of the player holds the name
    and the colour given, the main flags are as they were (a new row has
    none), and the rows of the other players are untouched. *)
Theorem savePlayerSettings_upsert playerId customName color t :
  (falsy customName && falsy color = true ->
     hasPlayer playerId (player_settings (savePlayerSettingsDB playerId customName color t))
     = false
     /\ forall r, r ∈ player_settings (savePlayerSettingsDB playerId customName color t)
                  <-> r ∈ player_settings t /\ ps_player_id r <> playerId)
  /\ (falsy customName && falsy color = false ->
        hasPlayer playerId (player_settings (savePlayerSettingsDB playerId customName color t))
        = true
        /\ (forall r, r ∈ player_settings (savePlayerSettingsDB playerId customName color t) ->
                      ps_player_id r = playerId ->
                      ps_custom_name r = customName /\ ps_color r = color)
        /\ map Terms.flag (player_settings (savePlayerSettingsDB playerId customName color t))
           = map Terms.flag (player_settings t)
             ++ (if hasPlayer playerId (player_settings t) then [] else [(playerId, false)])
        /\ (forall r, ps_player_id r <> playerId ->
                      r ∈ player_settings (savePlayerSettingsDB playerId customName color t)
                      <-> r ∈ player_settings t))
  /\ app_settings (savePlayerSettingsDB playerId customName color t) = app_settings t.
Proof.
  split; [|split].
  - intros H. rewrite saved_cleared by exact H.
    assert (Hin : forall r,
               r ∈ List.filter (fun r => negb (String.eqb (ps_player_id r) playerId))
                               (player_settings t)
               <-> r ∈ player_settings t /\ ps_player_id r <> playerId).
    { intros r. rewrite ListFacts.elem_lfilter, negb_true_iff, String.eqb_neq. reflexivity. }
    split; [|exact Hin].
    destruct (hasPlayer playerId _) eqn:Hhas; [|reflexivity].
    apply hasPlayer_elem in Hhas as (r & Hr & He). apply Hin in Hr as [_ Hne]. contradiction.
  - intros H. split; [|split; [|split]].
    + apply saved_has, H.
    + intros r Hin He. destruct (saved_row _ _ _ _ _ H Hin) as [(_ & Hn & Hc)|[Hne _]];
        [auto | contradiction].
    + rewrite saved_written by exact H.
      destruct (hasPlayer playerId (player_settings t)).
      * rewrite app_nil_r, map_map. apply map_ext. intros r.
        destruct (String.eqb _ _); reflexivity.
      * rewrite map_app. reflexivity.
    + intros r Hne. split.
      * intros Hin. destruct (saved_row _ _ _ _ _ H Hin) as [(He & _)|[_ Hold]];
          [contradiction | exact Hold].
      * intros Hin. rewrite saved_written by exact H.
        destruct (hasPlayer playerId (player_settings t)).
        -- apply ListFacts.elem_map. exists r. split; [|exact Hin].
           apply String.eqb_neq in Hne. rewrite Hne. reflexivity.
        -- apply elem_of_app. left. exact Hin.
  - unfold savePlayerSettingsDB. destruct (falsy customName && falsy color);
      [reflexivity|]. destruct (hasPlayer _ _); reflexivity.
Qed.

Lemma savePlayerSettings_upsert_witness :
  hasPlayer "alice"
    (player_settings
       (savePlayerSettingsDB "alice" None (Some EmptyString)
          (SettingsOf [PlayerSettingsRow "alice" (Some "Al") None true] [])))
  = false.
Proof.
  apply (proj1 (savePlayerSettings_upsert "alice" None (Some EmptyString)
                  (SettingsOf [PlayerSettingsRow "alice" (Some "Al") None true] []))).
  reflexivity.
Defined.

(** *** The default player *)

Lemma mostFrequent_None s l : mostFrequent s l = None <-> l = [].
Proof.
  destruct l as [|c l]; simpl; [tauto|]. split; [|discriminate].
  destruct (mostFrequent s l) as [best|]; [|discriminate].
  destruct (_ <=? _)%nat; discriminate.
Qed.

Lemma mostFrequent_top s l top :
  mostFrequent s l = Some top ->
  top ∈ l /\ forall c, c ∈ l -> (appearances s c <= appearances s top)%nat.
Proof.
  revert top. induction l as [|c l IH]; simpl; intros top; [discriminate|].
  destruct (mostFrequent s l) as [best|] eqn:Hbest.
  - destruct (IH best eq_refl) as [Hin Hmax].
    destruct (Nat.leb_spec (appearances s best) (appearances s c)) as [Hle|Hlt];
      intros [= <-].
    + split; [left|]. intros x Hx. apply elem_of_cons in Hx as [->|Hx]; [lia|].
      specialize (Hmax x Hx). lia.
    + split; [right; exact Hin|]. intros x Hx. apply elem_of_cons in Hx as [->|Hx]; [lia|].
      exact (Hmax x Hx).
  - intros [= <-]. apply mostFrequent_None in Hbest. subst l.
    split; [left|]. intros x Hx. apply elem_of_cons in Hx as [->|Hx]; [lia | inversion Hx].
Qed.

Lemma humansOnRoster_elem s x :
  x ∈ humansOnRoster s
  <-> isHuman s x = true /\ exists r, r ∈ Db.game_players s /\ Db.gp_player_id r = x.
Proof.
  unfold humansOnRoster. rewrite elem_of_remove_dups, ListFacts.elem_lfilter, ListFacts.elem_map.
  split.
  - intros [(r & -> & Hr) Hh]. eauto.
  - intros [Hh (r & Hr & <-)]. eauto.
Qed.

(** X19.  [autoSetupDefaultPlayer] changes nothing when a stored row has
    a name or a colour, or when no player of the roster is human.
    Otherwise it picks a human player of the roster that no other human
    player of the roster outnumbers in roster entries; that player is
    then stored as [Me] with the default colour and is the one main
    player. *)
Theorem autoSetupDefaultPlayer_choice s t :
  (existsb isTracked (player_settings t) = true -> autoSetupDefaultPlayer s t = t)
  /\ (humansOnRoster s = [] -> autoSetupDefaultPlayer s t = t)
  /\ (existsb isTracked (player_settings t) = false ->
      humansOnRoster s <> [] ->
      exists top,
        isHuman s top = true
        /\ (exists r, r ∈ Db.game_players s /\ Db.gp_player_id r = top)
        /\ (forall other, isHuman s other = true ->
                          (appearances s other <= appearances s top)%nat)
        /\ PlayerSettingsRow top (Some "Me") (Some "#e94560") true
             ∈ player_settings (autoSetupDefaultPlayer s t)
        /\ (forall r, r ∈ player_settings (autoSetupDefaultPlayer s t) ->
                      ps_is_main r = true <-> ps_player_id r = top)
        /\ app_settings (autoSetupDefaultPlayer s t) = app_settings t).
Proof.
  unfold autoSetupDefaultPlayer. split; [|split].
  - intros ->. reflexivity.
  - intros ->. destruct (existsb _ _); reflexivity.
  - intros -> Hsome.
    destruct (mostFrequent s (humansOnRoster s)) as [top|] eqn:Htop;
      [|apply mostFrequent_None in Htop; contradiction].
    apply mostFrequent_top in Htop as [Hin Hmax].
    apply humansOnRoster_elem in Hin as [Hhuman Hroster].
    exists top. split; [exact Hhuman|]. split; [exact Hroster|]. split; [|split; [|split]].
    + intros other Hother.
      destruct (List.filter (fun r => String.eqb (Db.gp_player_id r) other)
                            (Db.game_players s)) as [|r l] eqn:Hrows.
      * unfold appearances at 1. rewrite Hrows. simpl. lia.
      * apply Hmax, humansOnRoster_elem. split; [exact Hother|].
        assert (Hr : r ∈ List.filter (fun r => String.eqb (Db.gp_player_id r) other)
                                     (Db.game_players s)) by (rewrite Hrows; left).
        apply ListFacts.elem_lfilter in Hr as [Hr He]. apply String.eqb_eq in He. eauto.
    + set (t1 := savePlayerSettingsDB top (Some "Me") (Some "#e94560") t).
      pose proof (saved_has top (Some "Me") (Some "#e94560") t eq_refl) as Hhas.
      fold t1 in Hhas. pose proof Hhas as Hrow.
      apply hasPlayer_elem in Hrow as (r & Hr & He).
      destruct (saved_row top (Some "Me") (Some "#e94560") t r eq_refl Hr)
        as [(_ & Hn & Hc)|[Hne _]]; [|contradiction].
      unfold saveMainPlayer. cbv zeta.
      rewrite (hasPlayer_map clearMain) by apply clearMain_id.
      rewrite Hhas. cbn [player_settings]. apply ListFacts.elem_map.
      exists (clearMain r). split; [|apply ListFacts.elem_map; eauto].
      rewrite clearMain_id, He, String.eqb_refl.
      destruct (clearMain_columns r) as [Hcol _]. unfold Terms.appearance in Hcol.
      injection Hcol as _ -> ->. rewrite Hn, Hc. reflexivity.
    + intros r. apply saveMainPlayer_main.
    + rewrite saveMainPlayer_app. unfold savePlayerSettingsDB.
      destruct (falsy _ && falsy _); [reflexivity|]. destruct (hasPlayer _ _); reflexivity.
Qed.

Lemma saveMainPlayer_single_main_witness :
  ps_is_main (PlayerSettingsRow "alice" None None true) = true
  <-> ps_player_id (PlayerSettingsRow "alice" None None true) = "alice".
Proof.
  apply (proj1 (saveMainPlayer_single_main "alice" (SettingsOf [] []))). left.
Defined.

Lemma autoSetupDefaultPlayer_choice_witness :
  exists top,
    isHuman Sample.store3 top = true
    /\ (exists r, r ∈ Db.game_players Sample.store3 /\ Db.gp_player_id r = top)
    /\ (forall other, isHuman Sample.store3 other = true ->
                      (appearances Sample.store3 other <= appearances Sample.store3 top)%nat)
    /\ PlayerSettingsRow top (Some "Me") (Some "#e94560") true
         ∈ player_settings (autoSetupDefaultPlayer Sample.store3 (SettingsOf [] []))
    /\ (forall r, r ∈ player_settings (autoSetupDefaultPlayer Sample.store3 (SettingsOf [] [])) ->
                  ps_is_main r = true <-> ps_player_id r = top)
    /\ app_settings (autoSetupDefaultPlayer Sample.store3 (SettingsOf [] []))
       = app_settings (SettingsOf [] []).
Proof.
  apply (proj2 (proj2 (autoSetupDefaultPlayer_choice Sample.store3 (SettingsOf [] [])))).
  - reflexivity.
  - vm_compute. discriminate.
Defined.

End SettingsExtras.

(** ** Properties of the statistics *)

Module StatsExtras.

Import Stats.

(** *** Runs *)

Lemma snoc_split {A} (l a b : list A) x :
  l ++ [x] = a ++ b ->
  (b = [] /\ a = l ++ [x]) \/ exists b', b = b' ++ [x] /\ l = a ++ b'.
Proof.
  destruct b as [|y b' _] using rev_ind.
  - rewrite app_nil_r. intros <-. left. auto.
  - rewrite app_assoc. intros H. apply app_inj_tail in H as [-> ->]. right. eauto.
Qed.

Section Runs.

Context {A : Type}.
Variable P : A -> bool.

Lemma runs_snoc l x : Terms.runs P (l ++ [x]) = Terms.runStep P (Terms.runs P l) x.
Proof. unfold Terms.runs. rewrite fold_left_app. reflexivity. Qed.

Lemma runs_spec l :
  (exists pre seg, l = pre ++ seg /\ Forall (fun x => P x = true) seg
                   /\ length seg = fst (Terms.runs P l))
  /\ (forall pre seg, l = pre ++ seg -> Forall (fun x => P x = true) seg ->
                      (length seg <= fst (Terms.runs P l))%nat)
  /\ (forall n, Terms.hasRun P l n -> (n <= snd (Terms.runs P l))%nat)
  /\ Terms.hasRun P l (snd (Terms.runs P l)).
Proof.
  induction l as [|x l IH] using rev_ind.
  - cbn. repeat split.
    + exists [], []. repeat split; constructor.
    + intros pre seg H _. symmetry in H. apply app_eq_nil in H as [_ ->]. simpl. lia.
    + intros n (pre & seg & post & H & _ & <-). symmetry in H.
      apply app_eq_nil in H as [_ H]. apply app_eq_nil in H as [-> _]. simpl. lia.
    + exists [], [], []. repeat split; constructor.
  - destruct IH as ((pre0 & seg0 & Hl & Hseg0 & Hcur) & Hsuffix & Hmax & Hrun).
    rewrite runs_snoc. destruct (Terms.runs P l) as [cur mx]. cbn [fst snd] in *.
    unfold Terms.runStep. cbn [fst snd]. destruct (P x) eqn:Hx; cbn [fst snd].
    + assert (Hsuffix' : forall pre seg, l ++ [x] = pre ++ seg ->
                           Forall (fun x => P x = true) seg -> (length seg <= S cur)%nat).
      { intros pre seg H Hall. apply snoc_split in H as [[-> _]|(seg' & -> & H)]; [simpl; lia|].
        apply Forall_app in Hall as [Hall _]. specialize (Hsuffix pre seg' H Hall).
        rewrite length_app. simpl. lia. }
      repeat split.
      * exists pre0, (seg0 ++ [x]). rewrite Hl, <- app_assoc. split; [reflexivity|].
        split; [apply Forall_app; split; [exact Hseg0 | repeat constructor; exact Hx]|].
        rewrite length_app. simpl. lia.
      * exact Hsuffix'.
      * intros n (pre & seg & post & H & Hall & <-). rewrite app_assoc in H.
        apply snoc_split in H as [[-> H]|(post' & -> & H)].
        -- specialize (Hsuffix' pre seg (eq_sym H) Hall). lia.
        -- assert (Hn : (length seg <= mx)%nat).
           { apply Hmax. exists pre, seg, post'. rewrite app_assoc. auto. }
           lia.
      * destruct (Nat.le_gt_cases (S cur) mx) as [Hle|Hgt].
        -- rewrite Nat.max_l by exact Hle.
           destruct Hrun as (pre & seg & post & H & Hall & Hlen).
           exists pre, seg, (post ++ [x]). rewrite H, <- !app_assoc. auto.
        -- rewrite Nat.max_r by lia. exists pre0, (seg0 ++ [x]), [].
           rewrite app_nil_r, Hl, <- app_assoc. split; [reflexivity|].
           split; [apply Forall_app; split; [exact Hseg0 | repeat constructor; exact Hx]|].
           rewrite length_app. simpl. lia.
    + assert (Hsuffix' : forall pre seg, l ++ [x] = pre ++ seg ->
                           Forall (fun x => P x = true) seg -> (length seg <= 0)%nat).
      { intros pre seg H Hall. apply snoc_split in H as [[-> _]|(seg' & -> & H)]; [simpl; lia|].
        apply Forall_app in Hall as [_ Hall]. apply Forall_inv in Hall. congruence. }
      repeat split.
      * exists (l ++ [x]), []. rewrite app_nil_r. repeat split. constructor.
      * exact Hsuffix'.
      * intros n (pre & seg & post & H & Hall & <-). rewrite app_assoc in H.
        apply snoc_split in H as [[-> H]|(post' & -> & H)].
        -- specialize (Hsuffix' pre seg (eq_sym H) Hall). lia.
        -- apply Hmax. exists pre, seg, post'. rewrite app_assoc. auto.
      * destruct Hrun as (pre & seg & post & H & Hall & Hlen).
        exists pre, seg, (post ++ [x]). rewrite H, <- !app_assoc. auto.
Qed.

End Runs.

(** *** The loop of [computePlayerGeneralStats] *)

Lemma count_counted p nameFilter games c :
  fold_left (countGame p nameFilter) games c
  = fold_left (countGame p nameFilter) (Terms.countedGames p nameFilter games) c.
Proof.
  revert c. unfold Terms.countedGames.
  induction games as [|g games IH]; intros c; simpl; [reflexivity|].
  destruct (counted p nameFilter g) eqn:Hg; simpl.
  - apply IH.
  - unfold countGame at 2. rewrite Hg. apply IH.
Qed.

Lemma count_loop p nameFilter l c :
  Forall (fun g => counted p nameFilter g = true) l ->
  let c' := fold_left (countGame p nameFilter) l c in
  c_totalGames c' = (c_totalGames c + length l)%nat
  /\ c_wonGames c' = (c_wonGames c + length (List.filter Terms.won l))%nat
  /\ c_totalPlaytime c' = c_totalPlaytime c + fold_right Z.add 0 (map Db.durationSeconds l)
  /\ (c_winStreak c', c_maxWinStreak c')
     = fold_left (Terms.runStep Terms.won) l (c_winStreak c, c_maxWinStreak c)
  /\ (c_lossStreak c', c_maxLossStreak c')
     = fold_left (Terms.runStep Terms.lost) l (c_lossStreak c, c_maxLossStreak c).
Proof.
  revert c. induction l as [|g l IH]; intros c Hall; simpl.
  - repeat split; lia.
  - apply Forall_cons in Hall as [Hg Hall]. specialize (IH (countGame p nameFilter c g) Hall).
    simpl in IH. destruct IH as (H1 & H2 & H3 & H4 & H5).
    rewrite H1, H2, H3, H4, H5. clear H1 H2 H3 H4 H5.
    unfold countGame, Terms.runStep, Terms.lost, Terms.won. rewrite Hg.
    destruct (String.eqb (Db.result g) "won"); cbn; repeat split; lia.
Qed.

Lemma lfilter_length {A} (f : A -> bool) l : (length (List.filter f l) <= length l)%nat.
Proof. induction l as [|x l IH]; simpl; [lia|]. destruct (f x); simpl; lia. Qed.

Lemma orElse_empty v dflt : orElse v dflt = EmptyString -> dflt = EmptyString.
Proof.
  unfold orElse. destruct v as [text|]; [|auto].
  destruct (String.eqb_spec text EmptyString); [auto | congruence].
Qed.

Lemma counted_spec p nameFilter g :
  counted p nameFilter g = true
  <-> (is_Some (Db.scores_ g !! id p) \/ Js.inherited (id p) = true)
      /\ (Settings.falsy nameFilter = true \/ Db.players_ g !! id p = nameFilter).
Proof.
  unfold counted. rewrite andb_true_iff, !orb_true_iff, !bool_decide_eq_true. reflexivity.
Qed.

Section Rounding.

Variable roundPercent : nat -> nat -> Z.

(** X20.  [computePlayerGeneralStats] counts the games whose scores
    have the id of the player as a key, their own or inherited, and in
    which, with a name filter, the player played under that name:
    [totalGames] is their number, [wonGames] the number of those that
    are won, [totalPlaytime] the sum of their durations; the win rate
    of no game is 0; the name shown is empty only when the id is.  An
    id that is a name every object inherits is found among the scores
    of every game. *)
Theorem general_stats_counts p games nameFilter :
  totalGames (computePlayerGeneralStats roundPercent p games nameFilter)
  = length (Terms.countedGames p nameFilter games)
  /\ wonGames (computePlayerGeneralStats roundPercent p games nameFilter)
     = length (List.filter Terms.won (Terms.countedGames p nameFilter games))
  /\ totalPlaytime (computePlayerGeneralStats roundPercent p games nameFilter)
     = fold_right Z.add 0 (map Db.durationSeconds (Terms.countedGames p nameFilter games))
  /\ (wonGames (computePlayerGeneralStats roundPercent p games nameFilter)
      <= totalGames (computePlayerGeneralStats roundPercent p games nameFilter))%nat
  /\ (Terms.countedGames p nameFilter games = [] ->
      winRate (computePlayerGeneralStats roundPercent p games nameFilter) = 0)
  /\ playerId (computePlayerGeneralStats roundPercent p games nameFilter) = id p
  /\ (name (computePlayerGeneralStats roundPercent p games nameFilter) = EmptyString ->
      id p = EmptyString)
  /\ (forall g, g ∈ Terms.countedGames p nameFilter games
                <-> g ∈ games
                    /\ (is_Some (Db.scores_ g !! id p) \/ Js.inherited (id p) = true)
                    /\ (Settings.falsy nameFilter = true
                        \/ Db.players_ g !! id p = nameFilter)).
Proof using Type.
  unfold computePlayerGeneralStats. cbv zeta.
  cbn [totalGames wonGames totalPlaytime winRate playerId name].
  rewrite count_counted.
  destruct (count_loop p nameFilter (Terms.countedGames p nameFilter games)
              (Counters 0 0 0 0 0 0 0)) as (H1 & H2 & H3 & _).
  { apply Forall_forall. intros g Hg. apply ListFacts.elem_lfilter in Hg as [_ Hg]. exact Hg. }
  cbn [c_totalGames c_wonGames c_totalPlaytime] in H1, H2, H3.
  rewrite H1, H2, H3. repeat split; try reflexivity.
  - simpl. apply lfilter_length.
  - intros ->. reflexivity.
  - intros H. apply orElse_empty in H. apply orElse_empty in H. exact H.
  - apply ListFacts.elem_lfilter in H as [H _]. exact H.
  - apply ListFacts.elem_lfilter in H as [_ H]. apply counted_spec in H. tauto.
  - apply ListFacts.elem_lfilter in H as [_ H]. apply counted_spec in H. tauto.
  - intros (Hin & Hscores & Hname). apply ListFacts.elem_lfilter. split; [exact Hin|].
    apply counted_spec. auto.
Qed.
(** X21.  The win streak of [computePlayerGeneralStats] is the length
    of the longest run of consecutive won games among the games counted,
    and the loss streak that of the longest run of games not won: there
    is a run of that length and none is longer. *)
Theorem general_stats_streaks p games nameFilter :
  Terms.hasRun Terms.won (Terms.countedGames p nameFilter games)
               (winStreak (computePlayerGeneralStats roundPercent p games nameFilter))
  /\ (forall n, Terms.hasRun Terms.won (Terms.countedGames p nameFilter games) n ->
                (n <= winStreak (computePlayerGeneralStats roundPercent p games nameFilter))%nat)
  /\ Terms.hasRun Terms.lost (Terms.countedGames p nameFilter games)
                  (lossStreak (computePlayerGeneralStats roundPercent p games nameFilter))
  /\ (forall n, Terms.hasRun Terms.lost (Terms.countedGames p nameFilter games) n ->
                (n <= lossStreak (computePlayerGeneralStats roundPercent p games nameFilter))%nat).
Proof using Type.
  unfold computePlayerGeneralStats. cbv zeta. cbn [winStreak lossStreak].
  rewrite count_counted.
  destruct (count_loop p nameFilter (Terms.countedGames p nameFilter games)
              (Counters 0 0 0 0 0 0 0)) as (_ & _ & _ & Hw & Hl).
  { apply Forall_forall. intros g Hg. apply ListFacts.elem_lfilter in Hg as [_ Hg]. exact Hg. }
  cbn [c_winStreak c_maxWinStreak c_lossStreak c_maxLossStreak] in Hw, Hl.
  fold (Terms.runs Terms.won (Terms.countedGames p nameFilter games)) in Hw.
  fold (Terms.runs Terms.lost (Terms.countedGames p nameFilter games)) in Hl.
  destruct (runs_spec Terms.won (Terms.countedGames p nameFilter games))
    as (_ & _ & Hwmax & Hwrun).
  destruct (runs_spec Terms.lost (Terms.countedGames p nameFilter games))
    as (_ & _ & Hlmax & Hlrun).
  rewrite <- Hw in Hwmax, Hwrun. rewrite <- Hl in Hlmax, Hlrun.
  cbn [snd] in *. auto.
Qed.

End Rounding.

(** A player whose id is [constructor] has no scores in the game, and
    the game is counted all the same. *)
Lemma general_stats_counts_witness :
  totalGames (computePlayerGeneralStats Terms.percent
                (Player "constructor" None [] None false) [Terms.wonGame] None)
  = 1%nat.
Proof.
  rewrite (proj1 (general_stats_counts Terms.percent
                    (Player "constructor" None [] None false) [Terms.wonGame] None)).
  reflexivity.
Defined.
Lemma general_stats_streaks_witness :
  (1 <= winStreak (computePlayerGeneralStats
                     Terms.percent
                     Terms.alice [Terms.wonGame] None))%nat.
Proof.
  apply (proj1 (proj2 (general_stats_streaks
                         Terms.percent
                         Terms.alice [Terms.wonGame] None))).
  exists [], [Terms.wonGame], []. split; [vm_compute; reflexivity|].
  split; [repeat constructor | reflexivity].
Defined.

End StatsExtras.

(** ** Properties of the filter query *)

Module FilterExtras.

Import Queries.

(** *** Sorting *)

Section Sorting.

Context {A : Type}.
Variable before : A -> A -> bool.

Lemma insertSorted_perm x l : insertSorted before x l ≡ₚ x :: l.
Proof.
  induction l as [|y l IH]; simpl; [reflexivity|].
  destruct (before x y); [reflexivity|]. rewrite IH. apply Permutation_swap.
Qed.

Lemma sortWith_perm l : sortWith before l ≡ₚ l.
Proof.
  induction l as [|x l IH]; simpl; [reflexivity|].
  rewrite insertSorted_perm, IH. reflexivity.
Qed.

Hypothesis before_total : forall x y, before x y = true \/ before y x = true.

Lemma insertSorted_head x l z :
  before z x = true -> HdRel (fun a b => before a b = true) z l ->
  HdRel (fun a b => before a b = true) z (insertSorted before x l).
Proof using Type.
  intros Hzx Hz. destruct l as [|y l]; simpl; [constructor; exact Hzx|].
  destruct (before x y); constructor; [exact Hzx|]. inversion Hz. assumption.
Qed.

Lemma insertSorted_sorted x l :
  Sorted (fun a b => before a b = true) l ->
  Sorted (fun a b => before a b = true) (insertSorted before x l).
Proof using before_total.
  induction 1 as [|y l Hs IH Hhd]; simpl; [repeat constructor|].
  destruct (before x y) eqn:Hxy.
  - constructor; [constructor; assumption|]. constructor. exact Hxy.
  - constructor; [exact IH|]. apply insertSorted_head; [|exact Hhd].
    destruct (before_total x y) as [H|H]; [congruence | exact H].
Qed.

Lemma sortWith_sorted l : Sorted (fun a b => before a b = true) (sortWith before l).
Proof using before_total.
  induction l as [|x l IH]; simpl; [constructor|]. apply insertSorted_sorted, IH.
Qed.

End Sorting.

Lemma sorted_elem {A} (before : A -> A -> bool) (l : list A) x :
  x ∈ sortWith before l <-> x ∈ l.
Proof. rewrite (sortWith_perm before l). reflexivity. Qed.

Lemma sorted_NoDup {A} (before : A -> A -> bool) (l : list A) :
  NoDup l -> NoDup (sortWith before l).
Proof. rewrite (sortWith_perm before l). auto. Qed.

(** *** The range of the timestamps *)

Lemma fold_min l a :
  fold_left Z.min l a <= a
  /\ (forall x, x ∈ l -> fold_left Z.min l a <= x)
  /\ fold_left Z.min l a ∈ a :: l.
Proof.
  revert a. induction l as [|y l IH]; intros a; simpl.
  - repeat split; [lia | intros x Hx; inversion Hx | left].
  - destruct (IH (Z.min a y)) as (H1 & H2 & H3). repeat split; [lia| |].
    + intros x Hx. apply elem_of_cons in Hx as [->|Hx]; [lia | auto].
    + apply elem_of_cons in H3 as [H3|H3]; [|right; right; exact H3].
      rewrite H3. destruct (Z.min_spec a y) as [[_ ->]|[_ ->]]; [left | right; left].
Qed.

Lemma fold_max l a :
  a <= fold_left Z.max l a
  /\ (forall x, x ∈ l -> x <= fold_left Z.max l a)
  /\ fold_left Z.max l a ∈ a :: l.
Proof.
  revert a. induction l as [|y l IH]; intros a; simpl.
  - repeat split; [lia | intros x Hx; inversion Hx | left].
  - destruct (IH (Z.max a y)) as (H1 & H2 & H3). repeat split; [lia| |].
    + intros x Hx. apply elem_of_cons in Hx as [->|Hx]; [lia | auto].
    + apply elem_of_cons in H3 as [H3|H3]; [|right; right; exact H3].
      rewrite H3. destruct (Z.max_spec a y) as [[_ ->]|[_ ->]]; [right; left | left].
Qed.

(** X22.  [getFilters] lists each modifier other than the empty one,
    each difficulty and each mission with an id of the games once, the
    modifiers and the difficulties in ascending order, a difficulty with
    its name; without games the time range is 0 to 0, and otherwise it
    is the range from the earliest to the latest timestamp. *)
Theorem getFilters_lists s :
  (NoDup (modifiers (getFilters s))
   /\ Sorted (fun a b => String.leb a b = true) (modifiers (getFilters s))
   /\ forall m, m ∈ modifiers (getFilters s)
                <-> m <> EmptyString /\ exists g, g ∈ Db.games s /\ Db.g_modifier g = m)
  /\ (NoDup (map fst (difficulties (getFilters s)))
      /\ Sorted Z.le (map fst (difficulties (getFilters s)))
      /\ (forall d, d ∈ map fst (difficulties (getFilters s))
                    <-> exists g, g ∈ Db.games s /\ Db.g_difficulty g = d)
      /\ forall d n, (d, n) ∈ difficulties (getFilters s) -> n = difficultyName d)
  /\ (NoDup (missions (getFilters s))
      /\ forall i n, (i, n) ∈ missions (getFilters s)
                     <-> i <> EmptyString
                         /\ exists g, g ∈ Db.games s /\ Db.g_mission_id g = i
                                      /\ Db.g_mission_name g = n)
  /\ (Db.games s = [] -> timeRange (getFilters s) = (0, 0))
  /\ (Db.games s <> [] ->
      (forall g, g ∈ Db.games s ->
                 fst (timeRange (getFilters s)) <= Db.g_timestamp g
                 <= snd (timeRange (getFilters s)))
      /\ (exists g, g ∈ Db.games s /\ Db.g_timestamp g = fst (timeRange (getFilters s)))
      /\ (exists g, g ∈ Db.games s /\ Db.g_timestamp g = snd (timeRange (getFilters s)))).
Proof.
  unfold getFilters. cbn [modifiers difficulties missions timeRange].
  split; [|split; [|split; [|split]]].
  - split; [|split].
    + apply sorted_NoDup, NoDup_remove_dups.
    + apply sortWith_sorted. apply String.leb_total.
    + intros m. rewrite sorted_elem, elem_of_remove_dups, ListFacts.elem_lfilter,
        ListFacts.elem_map, negb_true_iff, String.eqb_neq.
      split; [intros [(g & -> & Hg) Hne] | intros [Hne (g & Hg & <-)]]; eauto.
  - rewrite map_map. cbn [fst]. rewrite map_id. split; [|split; [|split]].
    + apply sorted_NoDup, NoDup_remove_dups.
    + assert (H : Sorted (fun a b => Z.leb a b = true)
                         (sortWith Z.leb (remove_dups (map Db.g_difficulty (Db.games s))))).
      { apply sortWith_sorted. intros x y. rewrite !Z.leb_le. lia. }
      induction H as [|x l Hs IH Hhd]; constructor; [exact IH|].
      destruct Hhd as [|y l Hxy]; constructor. apply Z.leb_le, Hxy.
    + intros d. rewrite sorted_elem, elem_of_remove_dups, ListFacts.elem_map.
      split; intros (g & H1 & H2); eauto.
    + intros d n Hin. apply ListFacts.elem_map in Hin as (d' & [= -> ->] & _). reflexivity.
  - split; [apply sorted_NoDup, NoDup_remove_dups|].
    intros i n. rewrite sorted_elem, elem_of_remove_dups, ListFacts.elem_map. split.
    + intros (g & [= -> ->] & Hg). apply ListFacts.elem_lfilter in Hg as [Hg Hne].
      apply negb_true_iff, String.eqb_neq in Hne. eauto.
    + intros (Hne & g & Hg & <- & <-). exists g. split; [reflexivity|].
      apply ListFacts.elem_lfilter. split; [exact Hg|].
      apply negb_true_iff, String.eqb_neq, Hne.
  - intros ->. reflexivity.
  - intros Hsome. destruct (Db.games s) as [|g0 rest]; [contradiction|].
    cbn [minTimestamp maxTimestamp default from_option Datatypes.id fst snd].
    destruct (fold_min (map Db.g_timestamp rest) (Db.g_timestamp g0)) as (Hm1 & Hm2 & Hm3).
    destruct (fold_max (map Db.g_timestamp rest) (Db.g_timestamp g0)) as (HM1 & HM2 & HM3).
    assert (Hts : forall x, x ∈ Db.g_timestamp g0 :: map Db.g_timestamp rest ->
                            exists g, g ∈ g0 :: rest /\ Db.g_timestamp g = x).
    { intros x Hx. apply elem_of_cons in Hx as [->|Hx]; [exists g0; split; [left | reflexivity]|].
      apply ListFacts.elem_map in Hx as (g & -> & Hg). exists g. split; [right; exact Hg | reflexivity]. }
    split; [|split].
    + intros g Hg. apply elem_of_cons in Hg as [->|Hg]; [lia|].
      assert (Hin : Db.g_timestamp g ∈ map Db.g_timestamp rest)
        by (apply ListFacts.elem_map; eauto).
      specialize (Hm2 _ Hin). specialize (HM2 _ Hin). lia.
    + apply Hts, Hm3.
    + apply Hts, HM3.
Qed.

Lemma getFilters_lists_witness :
  exists g, g ∈ Db.games Sample.store3
            /\ Db.g_timestamp g = fst (timeRange (getFilters Sample.store3)).
Proof.
  apply (proj2 (proj2 (proj2 (proj2 (getFilters_lists Sample.store3))))). discriminate.
Defined.

End FilterExtras.

(** ** Properties of the display helpers *)

Module DisplayExtras.

Import Display.

Lemma replaceAll_char_cons c rep d r :
  Js.replaceAll (String c EmptyString) rep (String d r)
  = (if Ascii.eqb c d then rep else String d EmptyString)
    +:+ Js.replaceAll (String c EmptyString) rep r.
Proof.
  unfold Js.replaceAll. cbn [Js.replaceAllFrom Js.startsWith String.length Nat.sub].
  destruct (Ascii.eqb c d); reflexivity.
Qed.

Lemma append_assoc (s t u : string) : (s +:+ t) +:+ u = s +:+ (t +:+ u).
Proof.
  induction s as [|c s IH]; [reflexivity|].
  change (String c ((s +:+ t) +:+ u) = String c (s +:+ t +:+ u)). f_equal. exact IH.
Qed.

Lemma replaceAll_char_app c rep s t :
  Js.replaceAll (String c EmptyString) rep (s +:+ t)
  = Js.replaceAll (String c EmptyString) rep s +:+ Js.replaceAll (String c EmptyString) rep t.
Proof.
  induction s as [|d s IH]; [reflexivity|].
  change (String d s +:+ t) with (String d (s +:+ t)).
  rewrite !replaceAll_char_cons, IH. symmetry. apply append_assoc.
Qed.

Lemma escapeHtml_app s t : escapeHtml (s +:+ t) = escapeHtml s +:+ escapeHtml t.
Proof. unfold escapeHtml, QUOTE. rewrite !replaceAll_char_app. reflexivity. Qed.

Lemma escapeHtml_char c : escapeHtml (String c EmptyString) = Terms.escapeChar c.
Proof. destruct c as [[] [] [] [] [] [] [] []]; reflexivity. Qed.

Lemma escapeHtml_cons c r : escapeHtml (String c r) = Terms.escapeChar c +:+ escapeHtml r.
Proof.
  change (String c r) with (String c EmptyString +:+ r).
  rewrite escapeHtml_app, escapeHtml_char. reflexivity.
Qed.

Lemma escapeChar_plain c : Terms.anyChar Terms.isMarkup (Terms.escapeChar c) = false.
Proof. destruct c as [[] [] [] [] [] [] [] []]; reflexivity. Qed.

(** X23.  The four replacements of [escapeHtml] amount to one pass that
    escapes each character on its own, so that the [&] of an entity is
    never escaped again; the escaped text has no [<], no [>] and no
    double quote, and a text without these and without [&] is left as
    it is. *)
Theorem escapeHtml_characterwise :
  escapeHtml EmptyString = EmptyString
  /\ (forall c r, escapeHtml (String c r) = Terms.escapeChar c +:+ escapeHtml r)
  /\ (forall text, Terms.anyChar Terms.isMarkup (escapeHtml text) = false)
  /\ (forall text,
        Terms.anyChar (fun c => Terms.isMarkup c || Ascii.eqb c "&") text = false ->
        escapeHtml text = text).
Proof.
  split; [reflexivity|]. split; [exact escapeHtml_cons|]. split.
  - induction text as [|c r IH]; [reflexivity|].
    rewrite escapeHtml_cons, ParserExtras.anyChar_app, escapeChar_plain, IH. reflexivity.
  - induction text as [|c r IH]; [reflexivity|]. cbn [Terms.anyChar]. intros H.
    apply orb_false_iff in H as [Hc Hr]. rewrite escapeHtml_cons, (IH Hr).
    unfold Terms.isMarkup in Hc. unfold Terms.escapeChar.
    apply orb_false_iff in Hc as [Hc ->]. apply orb_false_iff in Hc as [Hc ->].
    apply orb_false_iff in Hc as [-> ->]. reflexivity.
Qed.

Lemma escapeHtml_characterwise_witness : escapeHtml "Alice 42" = "Alice 42".
Proof.
  apply (proj2 (proj2 (proj2 escapeHtml_characterwise))). reflexivity.
Defined.

(** *** Durations *)

Lemma append_empty (s : string) : s +:+ EmptyString = s.
Proof.
  induction s as [|c s IH]; [reflexivity|].
  change (String c (s +:+ EmptyString) = String c s). f_equal. exact IH.
Qed.

(** X24.  For a positive whole number of seconds [formatDuration] shows
    the days, the hours of the day and the minutes, each when it is not
    zero and the minutes also when the duration is under an hour.  The
    minutes are those of the seconds of the hour rounded to the nearest,
    halves upwards, and are not carried into the hours: they are 60 from
    59 minutes and 30 seconds on.  Without a number, and for one that is
    not positive, the text is [0m]. *)
Theorem formatDuration_parts :
  formatDuration None = "0m"
  /\ (forall s, s <= 0 -> formatDuration (Some s) = "0m")
  /\ forall s, 0 < s ->
       formatDuration (Some s)
       = Terms.durationPart (0 <? s / 86400) (s / 86400) "d"
         +:+ Terms.durationPart (0 <? (s mod 86400) / 3600) ((s mod 86400) / 3600) "h"
         +:+ Terms.durationPart ((0 <? roundMinutes (s mod 3600)) || (s <? 3600))
                                (roundMinutes (s mod 3600)) "m"
       /\ 0 <= roundMinutes (s mod 3600) <= 60
       /\ -30 < 60 * roundMinutes (s mod 3600) - s mod 3600 <= 30
       /\ (roundMinutes (s mod 3600) = 60 <-> 3570 <= s mod 3600).
Proof.
  split; [reflexivity|]. split.
  - intros s Hs. unfold formatDuration. destruct (Z.leb_spec s 0); [reflexivity | lia].
  - intros s Hs. split.
    + unfold formatDuration, Terms.durationPart.
      destruct (Z.leb_spec s 0) as [|_]; [lia|].
      destruct (Z.ltb_spec s 3600) as [Hlt|Hge].
      * replace (s / 86400) with 0 by (symmetry; apply Z.div_small; lia).
        replace (s mod 86400) with s by (symmetry; apply Z.mod_small; lia).
        replace (s mod 3600) with s by (symmetry; apply Z.mod_small; lia).
        replace (s / 3600) with 0 by (symmetry; apply Z.div_small; lia).
        rewrite orb_true_r. reflexivity.
      * rewrite orb_false_r. destruct (Z.ltb_spec s 86400) as [Hday|Hdays].
        -- replace (s / 86400) with 0 by (symmetry; apply Z.div_small; lia).
           replace (s mod 86400) with s by (symmetry; apply Z.mod_small; lia).
           cbv zeta. assert (Hh : 0 < s / 3600) by (apply Z.div_str_pos; lia).
           destruct (Z.ltb_spec 0 (s / 3600)) as [_|]; [|lia]. cbn [Z.ltb Z.compare].
           destruct (0 <? roundMinutes (s mod 3600)).
           ++ rewrite !append_assoc. reflexivity.
           ++ rewrite append_empty. reflexivity.
        -- cbv zeta. assert (Hd : 0 < s / 86400) by (apply Z.div_str_pos; lia).
           destruct (Z.ltb_spec 0 (s / 86400)) as [_|]; [|lia].
           destruct (0 <? s mod 86400 / 3600); destruct (0 <? roundMinutes (s mod 3600));
             rewrite ?append_assoc, ?append_empty; reflexivity.
    + unfold roundMinutes. pose proof (Z.mod_pos_bound s 3600 ltac:(lia)) as Hmod.
      generalize dependent (s mod 3600). intros x Hx.
      pose proof (Z.div_mod (x + 30) 60 ltac:(lia)) as Hdiv.
      pose proof (Z.mod_pos_bound (x + 30) 60 ltac:(lia)) as Hrem.
      repeat split; lia.
Qed.

Lemma formatDuration_parts_witness : formatDuration (Some 7199) = "1h60m".
Proof.
  destruct (proj2 (proj2 formatDuration_parts) 7199) as [H _]; [lia|]. exact H.
Defined.

End DisplayExtras.

(** ** Properties of the text helpers *)

Module TextExtras.

Import Utils.

(** *** Display names of child properties *)

Lemma collapseSpaces_spaced inRun s :
  Terms.singleSpaced inRun (collapseSpaces inRun s) = true.
Proof.
  revert inRun. induction s as [|c r IH]; intros inRun; [reflexivity|].
  cbn [collapseSpaces]. destruct (Js.isWhiteSpace c) eqn:Hc.
  - destruct inRun; [apply IH|]. cbn [Terms.singleSpaced]. rewrite IH. reflexivity.
  - cbn [Terms.singleSpaced]. rewrite Hc. apply IH.
Qed.

Lemma spaced_dropStart b b' s :
  Terms.singleSpaced b s = true ->
  Terms.singleSpaced b' (Js.dropStart Js.isWhiteSpace s) = true.
Proof.
  revert b. induction s as [|c r IH]; intros b; [reflexivity|].
  cbn [Terms.singleSpaced Js.dropStart]. destruct (Js.isWhiteSpace c) eqn:Hc.
  - intros H. apply andb_true_iff in H as [_ H]. exact (IH true H).
  - cbn [Terms.singleSpaced]. rewrite Hc. auto.
Qed.

Lemma spaced_dropEnd b s :
  Terms.singleSpaced b s = true ->
  Terms.singleSpaced b (Js.dropEnd Js.isWhiteSpace s) = true.
Proof.
  revert b. induction s as [|c r IH]; intros b; [reflexivity|].
  cbn [Terms.singleSpaced Js.dropEnd]. destruct (Js.isWhiteSpace c) eqn:Hc.
  - intros H. apply andb_true_iff in H as [H1 H]. specialize (IH true H).
    destruct (Js.dropEnd Js.isWhiteSpace r) as [|d t]; [reflexivity|].
    cbn [Terms.singleSpaced] in *. rewrite Hc, H1. exact IH.
  - intros H. specialize (IH false H).
    destruct (Js.dropEnd Js.isWhiteSpace r) as [|d t]; cbn [Terms.singleSpaced] in *;
      rewrite Hc; [reflexivity | exact IH].
Qed.

Lemma trim_spaced b s :
  Terms.singleSpaced b s = true -> Terms.singleSpaced true (Js.trim s) = true.
Proof.
  intros H. unfold Js.trim, Js.trimEnd, Js.trimStart.
  apply spaced_dropEnd, (spaced_dropStart b), H.
Qed.

Lemma trim_last s c : Terms.lastChar (Js.trim s) = Some c -> Js.isWhiteSpace c = false.
Proof. unfold Js.trim, Js.trimEnd. apply ParserExtras.lastChar_dropEnd. Qed.

(** X25.  [expandChildDisplayName] returns the display name of the
    child, or else a text that is not empty, has its white space as
    single spaces and none at either end; it returns the name of the
    child whenever that name has a space or does not occur as a word in
    the name of the parent. *)
Theorem expandChildDisplayName_shape childDisplay parentDisplay siblingDisplays :
  (expandChildDisplayName childDisplay parentDisplay siblingDisplays = childDisplay
   \/ (expandChildDisplayName childDisplay parentDisplay siblingDisplays <> EmptyString
       /\ Terms.singleSpaced true
            (expandChildDisplayName childDisplay parentDisplay siblingDisplays) = true
       /\ forall c,
            Terms.lastChar (expandChildDisplayName childDisplay parentDisplay siblingDisplays)
            = Some c -> Js.isWhiteSpace c = false))
  /\ ((1 < length (Js.split " " childDisplay))%nat ->
      expandChildDisplayName childDisplay parentDisplay siblingDisplays = childDisplay)
  /\ (testWord false childDisplay parentDisplay = false ->
      expandChildDisplayName childDisplay parentDisplay siblingDisplays = childDisplay).
Proof.
  unfold expandChildDisplayName. split; [|split].
  - destruct (1 <? _)%nat; [left; reflexivity|].
    destruct (testWord false childDisplay parentDisplay); [|left; reflexivity].
    cbn [negb]. cbv zeta.
    match goal with |- context [Js.trim ?x] => set (text := x) end.
    destruct (String.eqb_spec (Js.trim text) EmptyString) as [He|Hne]; [left; reflexivity|].
    right. split; [exact Hne|]. split; [|apply trim_last].
    apply (trim_spaced false). apply collapseSpaces_spaced.
  - intros H. apply Nat.ltb_lt in H. rewrite H. reflexivity.
  - intros ->. destruct (1 <? _)%nat; reflexivity.
Qed.

Lemma expandChildDisplayName_shape_witness :
  expandChildDisplayName "Killed" "Elites Killed / Damage" ["Damage"] = "Killed"
  \/ (expandChildDisplayName "Killed" "Elites Killed / Damage" ["Damage"] <> EmptyString
      /\ Terms.singleSpaced true
           (expandChildDisplayName "Killed" "Elites Killed / Damage" ["Damage"]) = true
      /\ forall c,
           Terms.lastChar (expandChildDisplayName "Killed" "Elites Killed / Damage" ["Damage"])
           = Some c -> Js.isWhiteSpace c = false).
Proof.
  exact (proj1 (expandChildDisplayName_shape "Killed" "Elites Killed / Damage" ["Damage"])).
Defined.

(** *** Names in angle brackets *)

Lemma endsWith_char c s :
  Js.endsWith (String c EmptyString) s = true -> s = removeLast s +:+ String c EmptyString.
Proof.
  induction s as [|d r IH]; [discriminate|].
  cbn [Js.endsWith]. intros H. apply orb_true_iff in H as [H|H].
  - apply String.eqb_eq in H. injection H as <- <-. reflexivity.
  - specialize (IH H). destruct r as [|e r']; [discriminate H|].
    change (removeLast (String d (String e r')))
      with (String d (removeLast (String e r'))).
    change (String d (String e r')
            = String d (removeLast (String e r') +:+ String c EmptyString)).
    f_equal. exact IH.
Qed.

Lemma length_mapChars f s : String.length (Js.mapChars f s) = String.length s.
Proof. induction s as [|c r IH]; simpl; [reflexivity | rewrite IH; reflexivity]. Qed.

Lemma length_capitalizeWords b s : String.length (capitalizeWords b s) = String.length s.
Proof.
  revert b. induction s as [|c r IH]; intros b; simpl; [reflexivity | rewrite IH; reflexivity].
Qed.

Lemma replaceAll_char_map c d s :
  Js.replaceAll (String c EmptyString) (String d EmptyString) s
  = Js.mapChars (fun x => if Ascii.eqb c x then d else x) s.
Proof.
  induction s as [|e r IH]; [reflexivity|].
  rewrite DisplayExtras.replaceAll_char_cons, IH. cbn [Js.mapChars].
  destruct (Ascii.eqb c e); reflexivity.
Qed.

Lemma lower_upper c : Js.lowerChar (Js.upperChar c) = Js.lowerChar c.
Proof. destruct c as [[] [] [] [] [] [] [] []]; reflexivity. Qed.

Lemma lower_capitalizeWords b s : Js.toLowerCase (capitalizeWords b s) = Js.toLowerCase s.
Proof.
  unfold Js.toLowerCase. revert b. induction s as [|c r IH]; intros b; [reflexivity|].
  cbn [capitalizeWords Js.mapChars]. rewrite IH.
  destruct (Js.isWordChar c && negb b); [rewrite lower_upper|]; reflexivity.
Qed.

Lemma length_append (s t : string) :
  String.length (s +:+ t) = (String.length s + String.length t)%nat.
Proof.
  induction s as [|c s IH]; [reflexivity|].
  change (S (String.length (s +:+ t)) = S (String.length s + String.length t)).
  rewrite IH. reflexivity.
Qed.

(** X26.  [cleanDisplayName] returns a name that is not in angle
    brackets as it is.  Of a name in angle brackets it returns the text
    between them, or, when that text is in lower case and has an
    underscore, a text of the same length that differs from it only in
    case and in having spaces for the underscores. *)
Theorem cleanDisplayName_shape name :
  (Js.startsWith "<" name && Js.endsWith ">" name = false -> cleanDisplayName name = name)
  /\ (Js.startsWith "<" name && Js.endsWith ">" name = true ->
      exists inner,
        name = "<" +:+ inner +:+ ">"
        /\ String.length (cleanDisplayName name) = String.length inner
        /\ (cleanDisplayName name = inner
            \/ (Js.includesChar "_" inner = true
                /\ Js.toLowerCase inner = inner
                /\ Js.toLowerCase (cleanDisplayName name) = Js.replaceAll "_" " " inner))).
Proof.
  unfold cleanDisplayName. split; [intros ->; reflexivity|]. intros H. rewrite H.
  apply andb_true_iff in H as [Hstart Hend].
  destruct name as [|c r]; [discriminate Hstart|]. cbn [Js.startsWith] in Hstart.
  apply andb_true_iff in Hstart as [Hc _]. apply Ascii.eqb_eq in Hc. subst c.
  cbn [Js.endsWith] in Hend. apply orb_true_iff in Hend as [Hend|Hend].
  { apply String.eqb_eq in Hend. discriminate Hend. }
  exists (removeLast r). split.
  { change (String "<" r = String "<" (removeLast r +:+ ">")). f_equal.
    apply endsWith_char, Hend. }
  cbv zeta. destruct (Js.includesChar "_" (removeLast r)) eqn:Hu; cbn [andb];
    [|split; [reflexivity | left; reflexivity]].
  destruct (String.eqb_spec (removeLast r) (Js.toLowerCase (removeLast r))) as [Hl|Hl];
    [|split; [reflexivity | left; reflexivity]].
  split.
  - rewrite length_capitalizeWords, replaceAll_char_map. apply length_mapChars.
  - right. split; [reflexivity|]. split; [symmetry; exact Hl|].
    rewrite lower_capitalizeWords, !replaceAll_char_map.
    unfold Js.toLowerCase. rewrite Hl at 2. unfold Js.toLowerCase.
    generalize (removeLast r). intros s. induction s as [|d s IH]; [reflexivity|].
    cbn [Js.mapChars]. rewrite IH. f_equal.
    destruct d as [[] [] [] [] [] [] [] []]; reflexivity.
Qed.

Lemma cleanDisplayName_shape_witness : cleanDisplayName "Damage dealt" = "Damage dealt".
Proof. apply (proj1 (cleanDisplayName_shape "Damage dealt")). reflexivity. Defined.

(** *** Colour codes *)

Lemma length_dropStart P s : (String.length (Js.dropStart P s) <= String.length s)%nat.
Proof. induction s as [|c r IH]; simpl; [lia|]. destruct (P c); simpl; lia. Qed.

Lemma length_dropEnd P s : (String.length (Js.dropEnd P s) <= String.length s)%nat.
Proof.
  induction s as [|c r IH]; simpl; [lia|].
  destruct (Js.dropEnd P r); [destruct (P c)|]; simpl in *; lia.
Qed.

Lemma length_trim s : (String.length (Js.trim s) <= String.length s)%nat.
Proof.
  unfold Js.trim, Js.trimEnd, Js.trimStart.
  pose proof (length_dropEnd Js.isWhiteSpace (Js.dropStart Js.isWhiteSpace s)).
  pose proof (length_dropStart Js.isWhiteSpace s). lia.
Qed.

Lemma length_removeColorCodes skip s :
  (String.length (removeColorCodes skip s) <= String.length s)%nat.
Proof.
  revert skip. induction s as [|c r IH]; intros skip; [simpl; lia|].
  cbn [removeColorCodes]. destruct skip as [|k].
  - destruct (colorCodeLength (String c r)) as [n|].
    + specialize (IH (n - 1)%nat). simpl. lia.
    + specialize (IH O). simpl. lia.
  - specialize (IH k). simpl. lia.
Qed.

Lemma colorCodeLength_plain c r :
  Ascii.eqb "{" c = false -> colorCodeLength (String c r) = None.
Proof.
  intros H. unfold colorCodeLength. cbn [dropPrefix Js.startsWith]. rewrite H. reflexivity.
Qed.

Lemma removeColorCodes_plain s :
  Js.includesChar "{" s = false -> removeColorCodes O s = s.
Proof.
  induction s as [|c r IH]; [reflexivity|]. cbn [Js.includesChar]. intros H.
  apply orb_false_iff in H as [Hc Hr]. cbn [removeColorCodes].
  rewrite colorCodeLength_plain by (rewrite Ascii.eqb_sym; exact Hc).
  rewrite (IH Hr). reflexivity.
Qed.

Lemma removeColorCodes_skip x t :
  removeColorCodes (String.length x) (x +:+ t) = removeColorCodes O t.
Proof.
  induction x as [|c x IH]; [destruct t; reflexivity|].
  change (String c x +:+ t) with (String c (x +:+ t)). cbn [String.length removeColorCodes].
  exact IH.
Qed.

Lemma colorArgument_closed a t :
  Js.includesChar ")" a = false -> colorArgument (a +:+ ")}" +:+ t) = Some t.
Proof.
  induction a as [|c a IH]; [reflexivity|]. cbn [Js.includesChar]. intros H.
  apply orb_false_iff in H as [Hc Ha].
  change (String c a +:+ ")}" +:+ t) with (String c (a +:+ ")}" +:+ t)).
  cbn [colorArgument]. rewrite <- (IH Ha).
  destruct c as [[] [] [] [] [] [] [] []]; try reflexivity. discriminate Hc.
Qed.

(** X27.  [stripColorCodes] returns a text that is no longer than the
    one given and has no white space at either end; a text without an
    opening brace is only trimmed, and a colour code or a reset code in
    front of a text is removed with nothing left of it. *)
Theorem stripColorCodes_shape :
  (forall text,
      (String.length (stripColorCodes text) <= String.length text)%nat
      /\ (forall c, Terms.firstChar (stripColorCodes text) = Some c -> Js.isWhiteSpace c = false)
      /\ (forall c, Terms.lastChar (stripColorCodes text) = Some c -> Js.isWhiteSpace c = false))
  /\ (forall text, Js.includesChar "{" text = false -> stripColorCodes text = Js.trim text)
  /\ (forall text, stripColorCodes ("{#reset()}" +:+ text) = stripColorCodes text)
  /\ (forall argument text,
        Js.includesChar ")" argument = false ->
        stripColorCodes ("{#color(" +:+ argument +:+ ")}" +:+ text) = stripColorCodes text).
Proof.
  split; [|split; [|split]].
  - intros text. unfold stripColorCodes. split; [|split].
    + pose proof (length_trim (removeColorCodes O text)).
      pose proof (length_removeColorCodes O text). lia.
    + intros c H. unfold Js.trim, Js.trimEnd, Js.trimStart in H.
      apply ParserExtras.firstChar_dropEnd in H.
      exact (ParserExtras.firstChar_dropStart _ _ _ H).
    + intros c. apply trim_last.
  - intros text H. unfold stripColorCodes. rewrite removeColorCodes_plain by exact H.
    reflexivity.
  - intros text. reflexivity.
  - intros argument text H. unfold stripColorCodes. f_equal.
    change ("{#color(" +:+ argument +:+ ")}" +:+ text)
      with (String "{" ("#color(" +:+ argument +:+ ")}" +:+ text)).
    cbn [removeColorCodes]. unfold colorCodeLength.
    change (dropPrefix "{#color(" (String "{" ("#color(" +:+ argument +:+ ")}" +:+ text)))
      with (Some (argument +:+ ")}" +:+ text)).
    cbv iota beta. rewrite (colorArgument_closed argument text H).
    assert (Hlen : (String.length (String "{" ("#color(" +:+ argument +:+ ")}" +:+ text))
                    - String.length text - 1)%nat
                   = String.length ("#color(" +:+ argument +:+ ")}")).
    { cbn [String.length]. rewrite !length_append. cbn [String.length]. lia. }
    rewrite Hlen.
    rewrite <- (removeColorCodes_skip ("#color(" +:+ argument +:+ ")}") text).
    rewrite !DisplayExtras.append_assoc. reflexivity.
Qed.

Lemma stripColorCodes_shape_witness :
  stripColorCodes ("{#color(" +:+ "255,0,0" +:+ ")}" +:+ "Zola") = stripColorCodes "Zola".
Proof.
  apply (proj2 (proj2 (proj2 stripColorCodes_shape)) "255,0,0" "Zola"). reflexivity.
Defined.

End TextExtras.

(** ** Properties of the property tree *)

Module TreeExtras.

Import Properties.

(** *** The children of a key *)

Lemma children_filed l acc key :
  default [] (Obj.get key (fold_left fileChild l acc))
  = default [] (Obj.get key acc) ++ Terms.children l key.
Proof.
  revert acc. induction l as [|[k p] l IH]; intros acc; simpl.
  - unfold Terms.children. simpl. rewrite app_nil_r. reflexivity.
  - rewrite IH. unfold fileChild. cbn [fst snd]. unfold Terms.children. cbn [List.filter snd].
    destruct (String.eqb_spec (parentKey p) key) as [->|Hne].
    + rewrite ObjFacts.get_set_eq. cbn [default from_option Datatypes.id map fst].
      rewrite <- app_assoc. reflexivity.
    + rewrite ObjFacts.get_set_ne by congruence. reflexivity.
Qed.

Lemma children_collected allProps key :
  default [] (Obj.get key (collectChildren allProps)) = Terms.children allProps key.
Proof. unfold collectChildren. rewrite children_filed. reflexivity. Qed.

Section Tree.

Variable allProps : list (string * property).
Hypothesis keys_distinct : NoDup (Obj.keys allProps).
Hypothesis no_null : Obj.get "null" allProps = None.

Lemma child_entry key c :
  c ∈ Terms.children allProps key <->
  exists p, Obj.get c allProps = Some p /\ parentKey p = key.
Proof using keys_distinct.
  unfold Terms.children. rewrite ListFacts.elem_map. split.
  - intros ([k p] & -> & Hin). apply ListFacts.elem_lfilter in Hin as [Hin Hk].
    apply String.eqb_eq in Hk. exists p. split; [|exact Hk].
    apply ObjFacts.elem_get; assumption.
  - intros (p & Hget & Hk). exists (c, p). split; [reflexivity|].
    apply ListFacts.elem_lfilter. split; [apply ObjFacts.get_Some_elem, Hget|].
    apply String.eqb_eq, Hk.
Qed.

Lemma children_distinct key : NoDup (Terms.children allProps key).
Proof using keys_distinct.
  unfold Terms.children. unfold Obj.keys in keys_distinct.
  revert keys_distinct. generalize allProps. intros l Hnd.
  induction l as [|e l IH]; simpl; [constructor|].
  simpl in Hnd. apply NoDup_cons in Hnd as [He Hnd].
  destruct (String.eqb _ _); simpl; [|auto]. apply NoDup_cons. split; [|auto].
  intros Hin. apply He. apply ListFacts.elem_map in Hin as (x & Hx & Hin).
  apply ListFacts.elem_lfilter in Hin as [Hin _]. apply ListFacts.elem_map. eauto.
Qed.

(** *** Chains *)

Lemma chain_unique path path' k :
  Terms.chain allProps path k -> Terms.chain allProps path' k -> path = path'.
Proof using no_null.
  intros H. revert path'. induction H as [|k p path Hget Hchain IH]; intros path' H'.
  - inversion H' as [|k' p' path0 Hget' _ Hk]; [reflexivity|]. congruence.
  - inversion H' as [Hp Hk|k' p' path0 Hget' Hchain' Hk]; subst.
    + congruence.
    + rewrite Hget in Hget'. injection Hget' as <-. f_equal. apply IH, Hchain'.
Qed.

Lemma chain_head path k k' :
  Terms.chain allProps path k -> Terms.chain allProps path k' -> k = k'.
Proof. intros H H'. inversion H; subst; inversion H'; subst; congruence. Qed.

Lemma chain_suffix a k' b k :
  Terms.chain allProps (a ++ k' :: b) k -> Terms.chain allProps (k' :: b) k'.
Proof.
  revert k. induction a as [|x a IH]; intros k H; simpl in H.
  - inversion H; subst. exact H.
  - inversion H as [|k0 p path Hget Hchain]; subst. exact (IH _ Hchain).
Qed.

Lemma chain_distinct path k : Terms.chain allProps path k -> NoDup path.
Proof using no_null.
  induction 1 as [|k p path Hget Hchain IH]; [constructor|].
  apply NoDup_cons. split; [|exact IH]. intros Hin.
  apply list_elem_of_split in Hin as (a & b & ->).
  pose proof (chain_suffix _ _ _ _ Hchain) as Hk.
  pose proof (chain_unique _ _ _ Hk (Terms.chain_step allProps k p _ Hget Hchain)) as He.
  apply (f_equal (@length string)) in He. simpl in He. rewrite length_app in He.
  simpl in He. lia.
Qed.

Lemma chain_keys path k x : Terms.chain allProps path k -> x ∈ path -> x ∈ Obj.keys allProps.
Proof.
  induction 1 as [|k p path Hget Hchain IH]; intros Hx; [inversion Hx|].
  apply elem_of_cons in Hx as [->|Hx]; [|auto].
  destruct (decide (k ∈ Obj.keys allProps)) as [Hin|Hout]; [exact Hin|].
  apply ObjFacts.get_None_keys in Hout. congruence.
Qed.

Lemma chain_short path k : Terms.chain allProps path k -> (length path <= length allProps)%nat.
Proof using no_null.
  intros H. pose proof (chain_distinct _ _ H) as Hnd.
  replace (length allProps) with (length (Obj.keys allProps)) by apply length_map.
  apply NoDup_incl_length; [apply NoDup_ListNoDup, Hnd|].
  intros x Hx. apply list_elem_of_In. apply (chain_keys path k); [exact H|].
  apply list_elem_of_In, Hx.
Qed.

Lemma chain_child path key c :
  Terms.chain allProps path key -> c ∈ Terms.children allProps key ->
  Terms.chain allProps (c :: path) c.
Proof using keys_distinct.
  intros H Hc. apply child_entry in Hc as (p & Hget & <-).
  econstructor; eassumption.
Qed.

(** The properties below a key: those whose chain goes through it. *)
Lemma below_split path key x :
  Terms.chain allProps path key ->
  (exists q, q <> [] /\ Terms.chain allProps (q ++ path) x)
  <-> exists c, c ∈ Terms.children allProps key
                /\ (x = c \/ exists q, q <> [] /\ Terms.chain allProps (q ++ c :: path) x).
Proof using keys_distinct no_null.
  intros Hkey. split.
  - intros (q & Hq & Hx).
    destruct q as [|y q0 _] using rev_ind; [contradiction|]. clear Hq.
    rewrite <- app_assoc in Hx. cbn [app] in Hx.
    pose proof (chain_suffix _ _ _ _ Hx) as Hy.
    inversion Hy as [|k p path0 Hget Hchain]; subst.
    pose proof (chain_head _ _ _ Hchain Hkey) as Hparent.
    exists y. split; [apply child_entry; eauto|].
    destruct q0 as [|z q0]; [left|right].
    + simpl in Hx. inversion Hx; subst. reflexivity.
    + exists (z :: q0). split; [discriminate | exact Hx].
  - intros (c & Hc & [->|(q & Hq & Hx)]).
    + exists [c]. split; [discriminate|]. apply (chain_child path key); assumption.
    + exists (q ++ [c]). split; [destruct q; discriminate|]. rewrite <- app_assoc. exact Hx.
Qed.

(** *** The walk *)

Hypothesis ids_are_keys : forall k p, Obj.get k allProps = Some p -> id p = k.

Lemma walkChildren_returns walk ids :
  (forall c, c ∈ ids -> (exists p, Obj.get c allProps = Some p) /\ exists r, walk c = Some r) ->
  exists res, walkChildren allProps walk ids = Some res.
Proof.
  induction ids as [|c ids IH]; intros H; simpl; [eauto|].
  destruct (H c) as [[p ->] [r ->]]; [left|].
  destruct IH as [others ->]; [intros x Hx; apply H; right; exact Hx|]. eauto.
Qed.

Lemma walkChildren_thrown walk ids c :
  c ∈ ids -> walk c = None -> walkChildren allProps walk ids = None.
Proof.
  induction ids as [|d ids IH]; intros Hin Hc; [inversion Hin|]. simpl.
  apply elem_of_cons in Hin as [<-|Hin].
  - rewrite Hc. destruct (Obj.get c allProps); reflexivity.
  - rewrite (IH Hin Hc). destruct (Obj.get d allProps); [destruct (walk d)|]; reflexivity.
Qed.

Lemma walkTree_returns fuel key path :
  Terms.chain allProps path key ->
  (length allProps < length path + fuel)%nat ->
  exists res, walkTree allProps (collectChildren allProps) fuel key = Some res.
Proof using keys_distinct no_null.
  revert key path. induction fuel as [|fuel IH]; intros key path Hchain Hlen.
  - pose proof (chain_short _ _ Hchain). lia.
  - cbn [walkTree]. rewrite children_collected. apply walkChildren_returns.
    intros c Hc. split.
    + apply child_entry in Hc as (p & Hget & _). eauto.
    + apply (IH c (c :: path)); [apply (chain_child path key); assumption|]. simpl. lia.
Qed.

Lemma walkChildren_entries walk ids res :
  (forall c r, walk c = Some r -> forall p, p ∈ r -> Obj.get (id p) allProps = Some p) ->
  walkChildren allProps walk ids = Some res ->
  forall p, p ∈ res -> Obj.get (id p) allProps = Some p.
Proof using ids_are_keys.
  intros Hwalk. revert res. induction ids as [|c ids IH]; intros res; simpl.
  - intros [= <-] p Hp. inversion Hp.
  - destruct (Obj.get c allProps) as [pc|] eqn:Hget; [|discriminate].
    destruct (walk c) as [below|] eqn:Hbelow; [|discriminate].
    destruct (walkChildren allProps walk ids) as [others|]; [|discriminate].
    intros [= <-] p Hp. apply elem_of_cons in Hp as [->|Hp].
    + rewrite (ids_are_keys _ _ Hget). exact Hget.
    + apply elem_of_app in Hp as [Hp|Hp]; [exact (Hwalk _ _ Hbelow p Hp) | exact (IH _ eq_refl p Hp)].
Qed.

Lemma walkTree_entries fuel key res :
  walkTree allProps (collectChildren allProps) fuel key = Some res ->
  forall p, p ∈ res -> Obj.get (id p) allProps = Some p.
Proof using ids_are_keys.
  revert key res. induction fuel as [|fuel IH]; intros key res; [discriminate|].
  cbn [walkTree]. apply walkChildren_entries. intros c r. apply IH.
Qed.

Lemma not_below_sibling path c c' q :
  Terms.chain allProps (c :: path) c -> q <> [] ->
  ~ Terms.chain allProps (q ++ c' :: path) c.
Proof using no_null.
  intros Hc Hq H. pose proof (chain_unique _ _ _ Hc H) as He.
  apply (f_equal (@length string)) in He. rewrite length_app in He. simpl in He.
  destruct q; [contradiction | simpl in He; lia].
Qed.

Lemma below_one_child path c c' q q' x :
  Terms.chain allProps (q ++ c :: path) x -> Terms.chain allProps (q' ++ c' :: path) x ->
  c = c'.
Proof using no_null.
  intros H H'. pose proof (chain_unique _ _ _ H H') as He.
  change (q ++ c :: path) with (q ++ [c] ++ path) in He.
  change (q' ++ c' :: path) with (q' ++ [c'] ++ path) in He.
  rewrite !app_assoc in He. apply app_inv_tail in He. apply app_inj_tail in He as [_ He].
  exact He.
Qed.

Lemma walkChildren_spec walk ids path key res :
  Terms.chain allProps path key ->
  NoDup ids ->
  (forall c, c ∈ ids -> c ∈ Terms.children allProps key) ->
  (forall c r, c ∈ ids -> walk c = Some r ->
     NoDup (map id r)
     /\ forall x, x ∈ map id r
                  <-> exists q, q <> [] /\ Terms.chain allProps (q ++ c :: path) x) ->
  walkChildren allProps walk ids = Some res ->
  NoDup (map id res)
  /\ forall x, x ∈ map id res
               <-> exists c, c ∈ ids
                     /\ (x = c \/ exists q, q <> [] /\ Terms.chain allProps (q ++ c :: path) x).
Proof using keys_distinct no_null ids_are_keys.
  intros Hkey. revert res. induction ids as [|c ids IH]; intros res Hnd Hchildren Hwalk; simpl.
  - intros [= <-]. split; [constructor|]. intros x. split; [intros H; inversion H|].
    intros (c & Hc & _). inversion Hc.
  - destruct (Obj.get c allProps) as [pc|] eqn:Hget; [|discriminate].
    destruct (walk c) as [below|] eqn:Hbelow; [|discriminate].
    destruct (walkChildren allProps walk ids) as [others|] eqn:Hothers; [|discriminate].
    intros [= <-]. apply NoDup_cons in Hnd as [Hc Hnd].
    destruct (IH others Hnd) as [Hnd_others Hin_others];
      [intros x Hx; apply Hchildren; right; exact Hx
      |intros x r Hx; apply Hwalk; right; exact Hx
      |reflexivity|].
    destruct (Hwalk c below) as [Hnd_below Hin_below]; [left | exact Hbelow|].
    assert (Hchain : forall d, d ∈ c :: ids -> Terms.chain allProps (d :: path) d).
    { intros d Hd. apply (chain_child path key); [exact Hkey | apply Hchildren, Hd]. }
    cbn [map]. rewrite (ids_are_keys _ _ Hget), map_app. split.
    + apply NoDup_cons. split.
      * intros Hin. apply elem_of_app in Hin as [Hin|Hin].
        -- apply Hin_below in Hin as (q & Hq & Hx).
           exact (not_below_sibling path c c q (Hchain c ltac:(left)) Hq Hx).
        -- apply Hin_others in Hin as (d & Hd & [->|(q & Hq & Hx)]); [contradiction|].
           exact (not_below_sibling path c d q (Hchain c ltac:(left)) Hq Hx).
      * apply NoDup_app. split; [exact Hnd_below|]. split; [|exact Hnd_others].
        intros x Hx Hx'. apply Hin_below in Hx as (q & Hq & Hx).
        apply Hin_others in Hx' as (d & Hd & [->|(q' & Hq' & Hx')]).
        -- exact (not_below_sibling path d c q (Hchain d ltac:(right; exact Hd)) Hq Hx).
        -- pose proof (below_one_child _ _ _ _ _ _ Hx Hx') as He. subst d. contradiction.
    + intros x. rewrite elem_of_cons, elem_of_app, Hin_below, Hin_others. split.
      * intros [->|[H|(d & Hd & H)]].
        -- exists c. split; [left | left; reflexivity].
        -- exists c. split; [left | right; exact H].
        -- exists d. split; [right; exact Hd | exact H].
      * intros (d & Hd & H). apply elem_of_cons in Hd as [->|Hd].
        -- destruct H as [->|H]; auto.
        -- right. right. eauto.
Qed.

Lemma walkTree_spec fuel key path res :
  Terms.chain allProps path key ->
  walkTree allProps (collectChildren allProps) fuel key = Some res ->
  NoDup (map id res)
  /\ forall x, x ∈ map id res <-> exists q, q <> [] /\ Terms.chain allProps (q ++ path) x.
Proof using keys_distinct no_null ids_are_keys.
  revert key path res. induction fuel as [|fuel IH]; intros key path res Hkey; [discriminate|].
  cbn [walkTree]. rewrite children_collected. intros Hres.
  destruct (walkChildren_spec (walkTree allProps (collectChildren allProps) fuel)
              (Terms.children allProps key) path key res Hkey (children_distinct key))
    as [Hnd Hin]; [auto| |exact Hres|].
  - intros c r Hc Hr. apply (IH c (c :: path) r); [|exact Hr].
    apply (chain_child path key); assumption.
  - split; [exact Hnd|]. intros x. rewrite Hin. symmetry. apply below_split, Hkey.
Qed.

End Tree.

(** *** From the table to [allProps] *)

Lemma collectProps_fold rows acc k :
  NoDup (map Db.pr_id rows) ->
  Obj.get k (fold_left (fun acc row => Obj.set (Db.pr_id row) (propertyOf row) acc) rows acc)
  = match List.find (fun row => String.eqb (Db.pr_id row) k) rows with
    | Some row => Some (propertyOf row)
    | None => Obj.get k acc
    end.
Proof.
  revert acc. induction rows as [|r rows IH]; intros acc Hnd; simpl; [reflexivity|].
  simpl in Hnd. apply NoDup_cons in Hnd as [Hr Hnd]. rewrite IH by exact Hnd.
  destruct (String.eqb_spec (Db.pr_id r) k) as [He|Hne].
  - destruct (List.find _ rows) as [row|] eqn:Hf.
    + apply find_some in Hf as [Hin Hk]. apply String.eqb_eq in Hk. exfalso. apply Hr.
      rewrite He, <- Hk. apply ListFacts.elem_map. exists row.
      split; [reflexivity | apply list_elem_of_In, Hin].
    + rewrite He. apply ObjFacts.get_set_eq.
  - destruct (List.find _ rows); [reflexivity|]. apply ObjFacts.get_set_ne. congruence.
Qed.

Lemma collectProps_get rows k p :
  NoDup (map Db.pr_id rows) ->
  Obj.get k (collectProps rows) = Some p
  <-> exists row, row ∈ rows /\ Db.pr_id row = k /\ p = propertyOf row.
Proof.
  intros Hnd. unfold collectProps. rewrite collectProps_fold by exact Hnd. split.
  - destruct (List.find _ rows) as [row|] eqn:Hf; [|discriminate].
    intros [= <-]. apply find_some in Hf as [Hin Hk]. apply String.eqb_eq in Hk.
    exists row. split; [apply list_elem_of_In, Hin | auto].
  - intros (row & Hin & Hk & ->).
    destruct (List.find _ rows) as [row'|] eqn:Hf.
    + apply find_some in Hf as [Hin' Hk']. apply String.eqb_eq in Hk'.
      apply list_elem_of_In in Hin'.
      rewrite (ListFacts.NoDup_map_inj Db.pr_id rows row row' Hnd Hin Hin'); [reflexivity|].
      congruence.
    + exfalso. pose proof (find_none _ _ Hf row (proj1 (list_elem_of_In _ _) Hin)) as Hn.
      simpl in Hn. apply String.eqb_neq in Hn. contradiction.
Qed.

Lemma collectProps_keys rows : NoDup (Obj.keys (collectProps rows)).
Proof.
  unfold collectProps.
  assert (H : forall acc : list (string * property),
             NoDup (Obj.keys acc) ->
             NoDup (Obj.keys (fold_left (fun acc row => Obj.set (Db.pr_id row) (propertyOf row) acc)
                                        rows acc))).
  { induction rows as [|r rows IH]; intros acc Hacc; simpl; [exact Hacc|].
    apply IH, ObjFacts.NoDup_keys_set, Hacc. }
  apply H. constructor.
Qed.

Lemma selectProperties_elem s row : row ∈ selectProperties s <-> row ∈ Db.properties s.
Proof. unfold selectProperties. apply FilterExtras.sorted_elem. Qed.

Lemma selectProperties_distinct s :
  NoDup (map Db.pr_id (Db.properties s)) -> NoDup (map Db.pr_id (selectProperties s)).
Proof.
  unfold selectProperties. intros H.
  rewrite (FilterExtras.sortWith_perm _ (Db.properties s)). exact H.
Qed.

(** A chain that is not empty leads to the root from a rooted property,
    and from no other. *)
Lemma chain_rooted s path k :
  NoDup (map Db.pr_id (Db.properties s)) ->
  Terms.chain (collectProps (selectProperties s)) path k -> path <> [] ->
  Terms.rooted (Db.properties s) k.
Proof.
  intros Hnd. pose proof (selectProperties_distinct s Hnd) as Hnd'.
  induction 1 as [|k p path Hget Hchain IH]; intros Hpath; [contradiction|].
  apply collectProps_get in Hget as (row & Hin & <- & ->); [|exact Hnd'].
  apply selectProperties_elem in Hin.
  destruct path as [|y path].
  - inversion Hchain as [Hk|]; subst. apply Terms.rooted_top; [exact Hin | auto].
  - apply Terms.rooted_child; [exact Hin|]. apply IH. discriminate.
Qed.

Lemma rooted_chain s k :
  NoDup (map Db.pr_id (Db.properties s)) ->
  Terms.rooted (Db.properties s) k ->
  exists path, path <> [] /\ Terms.chain (collectProps (selectProperties s)) path k.
Proof.
  intros Hnd. pose proof (selectProperties_distinct s Hnd) as Hnd'.
  induction 1 as [row Hin Htop|row Hin Hparent IH].
  - exists [Db.pr_id row]. split; [discriminate|].
    apply (Terms.chain_step _ _ (propertyOf row)).
    + apply collectProps_get; [exact Hnd'|]. exists row.
      split; [apply selectProperties_elem, Hin | auto].
    + rewrite Htop. constructor.
  - destruct IH as (path & _ & Hchain). exists (Db.pr_id row :: path). split; [discriminate|].
    apply (Terms.chain_step _ _ (propertyOf row)); [|exact Hchain].
    apply collectProps_get; [exact Hnd'|]. exists row.
    split; [apply selectProperties_elem, Hin | auto].
Qed.

(** *** Groups *)

Lemma place_perm {V} k ix (v : V) o : Obj.place k ix v o ≡ₚ (k, v) :: o.
Proof.
  induction o as [|[k0 v0] o IH]; simpl; [reflexivity|].
  destruct ix as [i|]; [destruct (Obj.arrayIndex k0) as [j|]; [destruct (i <? j)|]|];
    simpl; try reflexivity; rewrite IH; apply Permutation_swap.
Qed.

Lemma update_absent {V} k (f : V -> V) o : k ∉ Obj.keys o -> Obj.update k f o = o.
Proof.
  induction o as [|[k0 v0] o IH]; simpl; [reflexivity|]. intros H.
  apply not_elem_of_cons in H as [Hne H]. apply String.eqb_neq in Hne. rewrite Hne.
  rewrite (IH H). reflexivity.
Qed.

Lemma update_elem {V} k (f : V -> V) o v0 k' v' :
  NoDup (Obj.keys o) -> Obj.get k o = Some v0 ->
  (k', v') ∈ Obj.update k f o <-> (k' = k /\ v' = f v0) \/ (k' <> k /\ (k', v') ∈ o).
Proof.
  induction o as [|[k1 v1] o IH]; simpl; [discriminate|]. intros Hnd Hget.
  apply NoDup_cons in Hnd as [Hk1 Hnd].
  destruct (String.eqb_spec k k1) as [->|Hne].
  - injection Hget as <-. rewrite (update_absent k1 f o Hk1), !elem_of_cons. split.
    + intros [[= -> ->]|Hin]; [left; auto|]. right. split; [|right; exact Hin].
      intros ->. apply Hk1. apply ListFacts.elem_map. exists (k1, v'). auto.
    + intros [[-> ->]|[Hne [[= -> ->]|Hin]]]; [left; reflexivity | contradiction | right; exact Hin].
  - rewrite !elem_of_cons, (IH Hnd Hget). split.
    + intros [[= -> ->]|[H|[H1 H2]]]; [right; split; [congruence | left; reflexivity] | left; exact H|].
      right. split; [exact H1 | right; exact H2].
    + intros [H|[H1 [[= -> ->]|H2]]]; [right; left; exact H | left; reflexivity|].
      right. right. auto.
Qed.

Lemma update_concat k i o g0 :
  NoDup (Obj.keys o) -> Obj.get k o = Some g0 ->
  concat (map (fun e => properties (snd e))
              (Obj.update k (fun g => Collected (c_groupId g) (c_groupName g) (minOrder g)
                                                (properties g ++ [i])) o))
  ≡ₚ concat (map (fun e => properties (snd e)) o) ++ [i].
Proof.
  induction o as [|[k1 v1] o IH]; simpl; [discriminate|]. intros Hnd Hget.
  apply NoDup_cons in Hnd as [Hk1 Hnd].
  destruct (String.eqb_spec k k1) as [->|Hne]; cbn [map concat snd properties].
  - rewrite (update_absent k1 _ o Hk1), <- !app_assoc.
    apply Permutation_app_head, Permutation_app_comm.
  - rewrite (IH Hnd Hget), app_assoc. reflexivity.
Qed.

Lemma fileProperty_collected done acc p :
  Terms.collectedFrom done acc -> Terms.collectedFrom (done ++ [p]) (fileProperty acc p).
Proof.
  intros (Hnd & Hall & Hgroups). unfold fileProperty. cbv zeta.
  set (fresh := Collected (groupId p) (groupName p) (rowOrder p) []).
  set (acc1 := if Obj.has (groupId p) acc then acc else Obj.set (groupId p) fresh acc).
  assert (H1 : NoDup (Obj.keys acc1)
               /\ concat (map (fun e => properties (snd e)) acc1) ≡ₚ map infoOf done
               /\ exists g0, Obj.get (groupId p) acc1 = Some g0
                    /\ c_groupId g0 = groupId p
                    /\ (forall i, head (properties g0 ++ [infoOf p]) = Some i ->
                                  i_rowOrder i = minOrder g0)
                    /\ (forall i, i ∈ properties g0 ->
                          exists q, q ∈ done /\ i = infoOf q /\ groupId q = groupId p)
                    /\ forall k g, (k, g) ∈ acc1 -> k <> groupId p -> (k, g) ∈ acc).
  { unfold acc1, Obj.has. destruct (Obj.get (groupId p) acc) as [g0|] eqn:Hget.
    - split; [exact Hnd|]. split; [exact Hall|]. exists g0. split; [exact Hget|].
      destruct (Hgroups _ _ (ObjFacts.get_Some_elem _ _ _ Hget)) as (Hid & Hne & Hmin & Hfrom).
      split; [exact Hid|]. split; [|split; [exact Hfrom | auto]].
      intros i Hi. apply Hmin. destruct (properties g0); [contradiction | exact Hi].
    - split; [apply ObjFacts.NoDup_keys_set, Hnd|]. unfold Obj.set, Obj.has. rewrite Hget.
      split; [rewrite place_perm; exact Hall|]. exists fresh.
      split; [apply ObjFacts.get_place_eq, Hget|]. split; [reflexivity|].
      split; [intros i [= <-]; reflexivity|]. split; [intros i Hi; inversion Hi|].
      intros k g Hin Hne. rewrite place_perm in Hin.
      apply elem_of_cons in Hin as [[= -> _]|Hin]; [contradiction | exact Hin]. }
  destruct H1 as (Hnd1 & Hall1 & g0 & Hget1 & Hid0 & Hmin0 & Hfrom0 & Hold).
  split; [rewrite ObjFacts.keys_update; exact Hnd1|]. split.
  - rewrite (update_concat _ _ _ g0 Hnd1 Hget1), Hall1, map_app. reflexivity.
  - intros k g Hin. apply (update_elem _ _ _ g0) in Hin as [[-> ->]|[Hne Hin]];
      [| |exact Hnd1|exact Hget1]; cbn [c_groupId properties minOrder].
    + split; [exact Hid0|]. split; [destruct (properties g0); discriminate|].
      split; [exact Hmin0|]. intros i Hi. apply elem_of_app in Hi as [Hi|Hi].
      * destruct (Hfrom0 i Hi) as (q & Hq & Hiq & Hg). exists q.
        split; [apply elem_of_app; left; exact Hq | auto].
      * apply list_elem_of_singleton in Hi. subst i. exists p.
        split; [apply elem_of_app; right; left | auto].
    + destruct (Hgroups k g (Hold k g Hin Hne)) as (Hid & Hnonempty & Hmin & Hfrom).
      split; [exact Hid|]. split; [exact Hnonempty|]. split; [exact Hmin|].
      intros i Hi. destruct (Hfrom i Hi) as (q & Hq & Hiq & Hg). exists q.
      split; [apply elem_of_app; left; exact Hq | auto].
Qed.

Lemma collectGroups_collected ordered : Terms.collectedFrom ordered (collectGroups ordered).
Proof.
  unfold collectGroups.
  assert (H : forall l done acc, Terms.collectedFrom done acc ->
                                 Terms.collectedFrom (done ++ l) (fold_left fileProperty l acc)).
  { induction l as [|p l IH]; intros done acc Hacc; simpl.
    - rewrite app_nil_r. exact Hacc.
    - change (p :: l) with ([p] ++ l). rewrite app_assoc. apply IH, fileProperty_collected, Hacc. }
  apply (H ordered [] []). split; [constructor|]. split; [reflexivity|].
  intros k g Hin. inversion Hin.
Qed.

Lemma concat_map_perm {A B} (f : A -> list B) l l' :
  l ≡ₚ l' -> concat (map f l) ≡ₚ concat (map f l').
Proof.
  induction 1 as [|x l l' _ IH|x y l|l l' l'' _ IH1 _ IH2]; simpl.
  - reflexivity.
  - rewrite IH. reflexivity.
  - rewrite !app_assoc. apply Permutation_app_tail, Permutation_app_comm.
  - etransitivity; eassumption.
Qed.

Lemma sorted_map_elem {A B} (R : A -> A -> Prop) (R' : B -> B -> Prop) (f : A -> B) l :
  (forall x y, x ∈ l -> y ∈ l -> R x y -> R' (f x) (f y)) ->
  Sorted R l -> Sorted R' (map f l).
Proof.
  intros Hf H. induction H as [|x l Hs IH Hhd]; simpl; constructor.
  - apply IH. intros a b Ha Hb. apply Hf; right; assumption.
  - destruct Hhd as [|y l Hxy]; constructor. apply Hf; [left | right; left | exact Hxy].
Qed.

Lemma length_set {V} k (v : V) o : (length (Obj.set k v o) <= S (length o))%nat.
Proof.
  unfold Obj.set. destruct (Obj.has k o).
  - replace (length (Obj.update k (fun _ => v) o)) with (length (Obj.keys (Obj.update k (fun _ => v) o)))
      by apply length_map.
    rewrite ObjFacts.keys_update. unfold Obj.keys. rewrite length_map. lia.
  - rewrite place_perm. simpl. lia.
Qed.

Lemma length_collectProps rows : (length (collectProps rows) <= length rows)%nat.
Proof.
  unfold collectProps.
  assert (H : forall acc : list (string * property),
             (length (fold_left (fun acc row => Obj.set (Db.pr_id row) (propertyOf row) acc)
                                rows acc)
              <= length acc + length rows)%nat).
  { induction rows as [|r rows IH]; intros acc; simpl; [lia|].
    specialize (IH (Obj.set (Db.pr_id r) (propertyOf r) acc)).
    pose proof (length_set (Db.pr_id r) (propertyOf r) acc). lia. }
  apply (H []).
Qed.

(** X28.  When the ids of the properties are distinct, none is the
    text [null] and no id, parent id or group id is a name every object
    inherits, [getProperties] returns, and the groups list once each
    property whose parents lead to a property without parent, and no
    other: a property whose parents end at a missing property, or go
    round, is left out.  Each group has a property, no two groups have
    the same id, a property is listed in the group of its row with the
    columns of the row, and the groups come in the order of the row
    order of their first property. *)
Theorem getProperties_lists s :
  Terms.ordinaryProperties s = true ->
  NoDup (map Db.pr_id (Db.properties s)) ->
  "null" ∉ map Db.pr_id (Db.properties s) ->
  exists groups,
    getProperties s = Some groups
    /\ NoDup (Terms.listed groups)
    /\ (forall x, x ∈ Terms.listed groups <-> Terms.rooted (Db.properties s) x)
    /\ NoDup (map g_groupId groups)
    /\ Sorted (fun a b => Terms.firstOrder a <= Terms.firstOrder b) groups
    /\ forall g, g ∈ groups ->
         g_properties g <> []
         /\ forall i, i ∈ g_properties g ->
              exists row, row ∈ Db.properties s
                          /\ i = infoOf (propertyOf row)
                          /\ Db.pr_group_id row = g_groupId g.
Proof.
  intros _ Hnd Hnull. pose proof (selectProperties_distinct s Hnd) as Hnd'.
  set (allProps := collectProps (selectProperties s)).
  assert (Hkeys : NoDup (Obj.keys allProps)) by apply collectProps_keys.
  assert (Hno : Obj.get "null" allProps = None).
  { destruct (Obj.get "null" allProps) as [p|] eqn:Hget; [|reflexivity].
    apply collectProps_get in Hget as (row & Hin & Hid & _); [|exact Hnd'].
    exfalso. apply Hnull. rewrite <- Hid. apply ListFacts.elem_map. exists row.
    split; [reflexivity | apply selectProperties_elem, Hin]. }
  assert (Hids : forall k p, Obj.get k allProps = Some p -> id p = k).
  { intros k p Hget. apply collectProps_get in Hget as (row & _ & <- & ->); [|exact Hnd'].
    reflexivity. }
  destruct (walkTree_returns allProps Hkeys Hno (S (length (Db.properties s))) "null" [])
    as [ordered Hwalk]; [constructor| |].
  { pose proof (length_collectProps (selectProperties s)) as Hlen. fold allProps in Hlen.
    assert (Hsel : length (selectProperties s) = length (Db.properties s)).
    { unfold selectProperties. rewrite (FilterExtras.sortWith_perm _ (Db.properties s)).
      reflexivity. }
    simpl. lia. }
  destruct (walkTree_spec allProps Hkeys Hno Hids _ _ [] ordered (Terms.chain_root allProps) Hwalk)
    as [Hdistinct Hmember].
  pose proof (walkTree_entries allProps Hids _ _ _ Hwalk) as Hentries.
  destruct (collectGroups_collected ordered) as (Hgkeys & Hall & Hgroups).
  exists (sortGroups (collectGroups ordered)). split.
  { unfold getProperties, getPropertiesWithin. cbv zeta. fold allProps. rewrite Hwalk.
    reflexivity. }
  set (sorted := Queries.sortWith (fun a b => minOrder a <=? minOrder b)
                                  (map snd (collectGroups ordered))).
  assert (Hsorted : sorted ≡ₚ map snd (collectGroups ordered))
    by apply FilterExtras.sortWith_perm.
  assert (Hc : forall c, c ∈ sorted -> (c_groupId c, c) ∈ collectGroups ordered).
  { intros c Hin. rewrite Hsorted in Hin. apply ListFacts.elem_map in Hin as ([k g] & -> & Hin).
    destruct (Hgroups k g Hin) as (<- & _). exact Hin. }
  assert (Hlisted : Terms.listed (sortGroups (collectGroups ordered)) ≡ₚ map id ordered).
  { unfold Terms.listed, sortGroups. fold sorted. rewrite map_map. cbn [g_properties].
    rewrite (concat_map_perm properties _ _ Hsorted), map_map, Hall, map_map.
    reflexivity. }
  split; [rewrite Hlisted; exact Hdistinct|]. split.
  { intros x. rewrite Hlisted, Hmember. split.
    - intros (q & Hq & Hchain). rewrite app_nil_r in Hchain.
      exact (chain_rooted s q x Hnd Hchain Hq).
    - intros Hrooted. destruct (rooted_chain s x Hnd Hrooted) as (path & Hpath & Hchain).
      exists path. rewrite app_nil_r. auto. }
  split.
  { unfold sortGroups. fold sorted. rewrite map_map. cbn [g_groupId].
    rewrite Hsorted, map_map.
    replace (map (fun e => c_groupId (snd e)) (collectGroups ordered))
      with (Obj.keys (collectGroups ordered)); [exact Hgkeys|].
    unfold Obj.keys. apply map_ext_in. intros [k g] Hin. apply list_elem_of_In in Hin.
    destruct (Hgroups k g Hin) as (Hk & _). symmetry. exact Hk. }
  split.
  { unfold sortGroups. fold sorted.
    apply (sorted_map_elem (fun a b => (minOrder a <=? minOrder b) = true)).
    - intros a b Ha Hb Hab. apply Z.leb_le in Hab.
      assert (Hfirst : forall c, c ∈ sorted ->
                Terms.firstOrder (Group (c_groupId c) (c_groupName c) (properties c))
                = minOrder c).
      { intros c Hin. destruct (Hgroups _ _ (Hc c Hin)) as (_ & Hne & Hmin & _).
        unfold Terms.firstOrder. cbn [g_properties].
        destruct (properties c) as [|i l]; [contradiction|]. simpl. apply Hmin. reflexivity. }
      rewrite (Hfirst a Ha), (Hfirst b Hb). exact Hab.
    - apply FilterExtras.sortWith_sorted. intros x y. rewrite !Z.leb_le. lia. }
  intros g Hg. unfold sortGroups in Hg. fold sorted in Hg.
  apply ListFacts.elem_map in Hg as (c & -> & Hin). cbn [g_properties g_groupId].
  destruct (Hgroups _ _ (Hc c Hin)) as (_ & Hne & _ & Hfrom). split; [exact Hne|].
  intros i Hi. destruct (Hfrom i Hi) as (p & Hp & -> & Hgid).
  pose proof (Hentries p Hp) as Hget.
  apply collectProps_get in Hget as (row & Hrow & _ & ->); [|exact Hnd'].
  exists row. split; [apply selectProperties_elem, Hrow|]. split; [reflexivity | exact Hgid].
Qed.

Lemma getProperties_lists_witness :
  exists groups, getProperties Terms.oneProperty = Some groups /\ NoDup (Terms.listed groups).
Proof.
  destruct (getProperties_lists Terms.oneProperty) as (groups & Hsome & Hnd & _).
  - vm_compute. reflexivity.
  - exact (bool_decide_unpack (NoDup (map Db.pr_id (Db.properties Terms.oneProperty))) I).
  - exact (bool_decide_unpack ("null" ∉ map Db.pr_id (Db.properties Terms.oneProperty)) I).
  - exists groups. split; assumption.
Defined.

(** X29.  When a property has the id [null] and no parent, or the
    empty text or the text [null] as its parent, the calls of
    [walkTree] go on without end, however deep they may go:
    [getProperties] does not return. *)
Theorem getProperties_overflow s row :
  NoDup (map Db.pr_id (Db.properties s)) ->
  row ∈ Db.properties s ->
  Db.pr_id row = "null" ->
  parentKey (propertyOf row) = "null" ->
  forall fuel, getPropertiesWithin fuel s = None.
Proof.
  intros Hnd Hrow Hid Hparent fuel. pose proof (selectProperties_distinct s Hnd) as Hnd'.
  unfold getPropertiesWithin. cbv zeta.
  set (allProps := collectProps (selectProperties s)).
  assert (Hchild : "null" ∈ Terms.children allProps "null").
  { apply child_entry; [apply collectProps_keys|]. exists (propertyOf row).
    split; [|exact Hparent]. apply collectProps_get; [exact Hnd'|]. exists row.
    split; [apply selectProperties_elem, Hrow | auto]. }
  assert (Hwalk : walkTree allProps (collectChildren allProps) fuel "null" = None).
  { induction fuel as [|fuel IH]; [reflexivity|]. cbn [walkTree].
    rewrite children_collected. exact (walkChildren_thrown allProps _ _ "null" Hchild IH). }
  rewrite Hwalk. reflexivity.
Qed.

Lemma getProperties_overflow_witness : getPropertiesWithin 1000 Terms.nullProperty = None.
Proof.
  apply (getProperties_overflow Terms.nullProperty
           (Db.PropertyRow "null" "Null" "default" "Default" "ASC" false None None 0 true)).
  - apply NoDup_singleton.
  - left.
  - reflexivity.
  - reflexivity.
Defined.

End TreeExtras.


(** ** Properties of the list of players *)

Module PlayerExtras.

Import Queries.

(** *** Splitting what was joined *)

Lemma split_nonempty sep x : Js.split sep x <> [].
Proof.
  induction x as [|c r IH]; simpl; [discriminate|].
  destruct (Ascii.eqb c sep); [discriminate|]. destruct (Js.split sep r); discriminate.
Qed.

Lemma concat_cons_char sep c f fs :
  String.concat sep (String c f :: fs) = String c (String.concat sep (f :: fs)).
Proof. destruct fs; reflexivity. Qed.

Lemma split_join sep x : String.concat (String sep EmptyString) (Js.split sep x) = x.
Proof.
  induction x as [|c r IH]; [reflexivity|]. cbn [Js.split].
  destruct (Ascii.eqb_spec c sep) as [->|Hne].
  - pose proof (split_nonempty sep r) as Hsome.
    destruct (Js.split sep r) as [|f fs]; [contradiction|].
    change (String.concat (String sep EmptyString) (EmptyString :: f :: fs))
      with (String sep (String.concat (String sep EmptyString) (f :: fs))).
    rewrite IH. reflexivity.
  - pose proof (split_nonempty sep r) as Hsome.
    destruct (Js.split sep r) as [|f fs]; [contradiction|].
    rewrite concat_cons_char, IH. reflexivity.
Qed.

Lemma split_pieces sep x f : f ∈ Js.split sep x -> Js.includesChar sep f = false.
Proof.
  revert f. induction x as [|c r IH]; intros f; cbn [Js.split].
  - intros H. apply list_elem_of_singleton in H. subst f. reflexivity.
  - destruct (Ascii.eqb_spec c sep) as [->|Hne].
    + intros H. apply elem_of_cons in H as [->|H]; [reflexivity | exact (IH f H)].
    + pose proof (split_nonempty sep r) as Hsome.
      destruct (Js.split sep r) as [|g gs]; [contradiction|].
      intros H. apply elem_of_cons in H as [->|H].
      * cbn [Js.includesChar]. apply Ascii.eqb_neq in Hne. rewrite Hne.
        apply IH. left.
      * apply IH. right. exact H.
Qed.

Lemma orNull_filled v : orNull v <> Some EmptyString.
Proof.
  destruct v as [text|]; simpl; [|discriminate].
  destruct (String.eqb_spec text EmptyString); [discriminate | congruence].
Qed.

Lemma playerOrder_total a b : playerOrder a b = true \/ playerOrder b a = true.
Proof.
  unfold playerOrder. destruct (Db.p_is_bot a), (Db.p_is_bot b); simpl; auto;
    apply String.leb_total.
Qed.

Lemma addName_spec rows r :
  addName rows r
  = if bool_decide ((fun n : string => n) r ∈ map (fun n : string => n) rows) then rows
    else rows ++ [r].
Proof. unfold addName. rewrite map_id. reflexivity. Qed.

(** The distinct names of a player are the names of their roster
    entries, each once. *)
Lemma distinctNames_spec s playerId :
  NoDup (distinctNames s playerId)
  /\ forall n, n ∈ distinctNames s playerId
               <-> exists row, row ∈ Db.game_players s
                               /\ Db.gp_player_id row = playerId /\ Db.gp_name row = n.
Proof.
  unfold distinctNames. split.
  - rewrite <- (map_id (fold_left _ _ _)).
    apply (DbExtras.adds_NoDup (fun n : string => n) addName addName_spec). constructor.
  - intros n. rewrite <- (map_id (fold_left _ _ _)).
    rewrite (DbExtras.adds_keys (fun n : string => n) addName addName_spec).
    rewrite !map_id, ListFacts.elem_map. split.
    + intros [H|(row & -> & Hrow)]; [inversion H|].
      apply ListFacts.elem_lfilter in Hrow as [Hin Hk]. apply String.eqb_eq in Hk. eauto.
    + intros (row & Hin & Hk & <-). right. exists row. split; [reflexivity|].
      apply ListFacts.elem_lfilter. split; [exact Hin | apply String.eqb_eq, Hk].
Qed.

(** Splitting at the separator what was joined with it gives the pieces
    of the parts. *)
Lemma split_app sep a b :
  Js.split sep (a +:+ String sep b) = Js.split sep a ++ Js.split sep b.
Proof.
  induction a as [|c a IH].
  - change (EmptyString +:+ String sep b) with (String sep b). cbn [Js.split].
    rewrite Ascii.eqb_refl. reflexivity.
  - change (String c a +:+ String sep b) with (String c (a +:+ String sep b)).
    cbn [Js.split]. rewrite IH. destruct (Ascii.eqb c sep); [reflexivity|].
    pose proof (split_nonempty sep a) as Hsome.
    destruct (Js.split sep a) as [|f fs]; [contradiction | reflexivity].
Qed.

Lemma split_concat sep x l :
  Js.split sep (String.concat (String sep EmptyString) (x :: l))
  = flat_map (Js.split sep) (x :: l).
Proof.
  revert x. induction l as [|y l IH]; intros x.
  - simpl. rewrite app_nil_r. reflexivity.
  - change (String.concat (String sep EmptyString) (x :: y :: l))
      with (x +:+ (String sep EmptyString +:+ String.concat (String sep EmptyString) (y :: l))).
    change (String sep EmptyString +:+ String.concat (String sep EmptyString) (y :: l))
      with (String sep (String.concat (String sep EmptyString) (y :: l))).
    rewrite split_app, IH. reflexivity.
Qed.

(** Joined names give an empty text only when there is one name and it
    is empty. *)
Lemma concat_empty sep x l :
  String.concat (String sep EmptyString) (x :: l) = EmptyString -> x = EmptyString /\ l = [].
Proof.
  destruct l as [|y l]; [simpl; auto|].
  change (String.concat (String sep EmptyString) (x :: y :: l))
    with (x +:+ (String sep EmptyString +:+ String.concat (String sep EmptyString) (y :: l))).
  change (String sep EmptyString +:+ String.concat (String sep EmptyString) (y :: l))
    with (String sep (String.concat (String sep EmptyString) (y :: l))).
  destruct x; discriminate.
Qed.

Lemma splitNames_joined l :
  splitNames (groupConcat l)
  = if bool_decide (l = [EmptyString]) then [] else flat_map (Js.split ",") l.
Proof.
  unfold splitNames, groupConcat. destruct l as [|x l]; [reflexivity|].
  destruct (String.eqb_spec (String.concat "," (x :: l)) EmptyString) as [He|Hne].
  - apply (concat_empty ","%char) in He as [-> ->]. reflexivity.
  - rewrite bool_decide_eq_false_2; [apply (split_concat ","%char)|].
    intros [= -> ->]. apply Hne. reflexivity.
Qed.

(** X30.  [getPlayers] lists each player of the table once, the
    players that are not bots first and then by id.  The game count of
    a player is the number of their roster entries.  The names are the
    distinct names of the roster entries of the player, in some order,
    each cut at its commas, and none when the only name is empty; no
    name listed has a comma.  A custom name or a colour that is empty is
    given as [null], and a player is the main player only when a stored
    row of theirs is flagged. *)
Theorem getPlayers_lists s t :
  map id (getPlayers s t) ≡ₚ map Db.p_id (Db.players s)
  /\ Sorted (fun a b => (isBot a = false /\ isBot b = true)
                        \/ (isBot a = isBot b /\ String.leb (id a) (id b) = true))
            (getPlayers s t)
  /\ forall r, r ∈ getPlayers s t ->
       gameCount r = Settings.appearances s (id r)
       /\ (exists l,
             NoDup l
             /\ (forall n, n ∈ l <-> exists row, row ∈ Db.game_players s
                                                 /\ Db.gp_player_id row = id r
                                                 /\ Db.gp_name row = n)
             /\ names r = if bool_decide (l = [EmptyString]) then []
                          else flat_map (Js.split ",") l)
       /\ (forall n, n ∈ names r -> Js.includesChar "," n = false)
       /\ customName r <> Some EmptyString
       /\ color r <> Some EmptyString
       /\ (isMain r = true ->
           exists row, row ∈ Settings.player_settings t
                       /\ Settings.ps_player_id row = id r
                       /\ Settings.ps_is_main row = true).
Proof.
  unfold getPlayers. split; [|split].
  - rewrite map_map. cbn [id]. rewrite (FilterExtras.sortWith_perm playerOrder). reflexivity.
  - apply (TreeExtras.sorted_map_elem (fun a b => playerOrder a b = true)).
    + intros a b _ _ Hab. cbn [isBot id]. unfold playerOrder in Hab.
      destruct (Db.p_is_bot a), (Db.p_is_bot b); simpl in Hab; try discriminate; auto.
    + apply FilterExtras.sortWith_sorted, playerOrder_total.
  - intros r Hr. apply ListFacts.elem_map in Hr as (p & -> & _).
    cbn [gameCount names customName color isMain id].
    split; [reflexivity|]. split; [|split; [|split; [|split]]].
    + exists (distinctNames s (Db.p_id p)).
      destruct (distinctNames_spec s (Db.p_id p)) as [Hnd Hin].
      split; [exact Hnd|]. split; [exact Hin | apply splitNames_joined].
    + intros n. unfold splitNames, groupConcat.
      destruct (distinctNames s (Db.p_id p)) as [|m l]; [intros H; inversion H|].
      destruct (String.eqb (String.concat "," (m :: l)) EmptyString);
        [intros H; inversion H|]. apply split_pieces.
    + apply orNull_filled.
    + apply orNull_filled.
    + unfold settingsOf. destruct (List.find _ (Settings.player_settings t)) as [row|] eqn:Hf;
        [|discriminate]. intros Hmain. apply find_some in Hf as [Hin Hk].
      apply String.eqb_eq in Hk. exists row. split; [apply list_elem_of_In, Hin | auto].
Qed.

(** A player seen as [Zed], [Amy], [Zed] again and [Amy2]. *)
Lemma getPlayers_lists_witness :
  exists l,
    NoDup l
    /\ (forall n, n ∈ l <-> exists row, row ∈ Db.game_players Terms.renamed
                                        /\ Db.gp_player_id row = "p"
                                        /\ Db.gp_name row = n)
    /\ ["Zed"; "Amy"; "Amy2"]
       = if bool_decide (l = [EmptyString]) then [] else flat_map (Js.split ",") l.
Proof.
  destruct (getPlayers_lists Terms.renamed (Settings.SettingsOf [] [])) as (_ & _ & H).
  destruct (H (PlayerInfo "p" false ["Zed"; "Amy"; "Amy2"] 4 None None false))
    as (_ & Hnames & _).
  - vm_compute. left.
  - exact Hnames.
Defined.

End PlayerExtras.
